(** * Hotline utilities: segment builder, colour scale, nearest point on track

    A shallow embedding of [src/hotline.ts].  JavaScript numbers are IEEE 754
    binary64 values; they are modelled by Rocq's primitive floats, so every
    arithmetic operation below rounds exactly as the program does.  The
    library functions of [Math] and [Number] that the program calls are
    written out on top of [Prim2SF]/[SF2Prim]; [Math.cos], whose result is
    implementation-approximated, is a parameter of the nearest-point query. *)

From Stdlib Require Import Floats ZArith List Bool Lia String Ascii DecimalString DecimalNat.
From stdpp Require Import base option list countable gmap.

Set Warnings "-inexact-float".
Local Open Scope float_scope.

(** ** JavaScript numbers *)

Module Number.

Definition isNaN (x : float) : bool :=
  match Prim2SF x with S754_nan => true | _ => false end.

(** [Number.isFinite]: neither NaN nor an infinity. *)
Definition isFinite (x : float) : bool :=
  match Prim2SF x with
  | S754_zero _ | S754_finite _ _ _ => true
  | S754_infinity _ | S754_nan => false
  end.

Definition isZero (x : float) : bool :=
  match Prim2SF x with S754_zero _ => true | _ => false end.

Definition isNegZero (x : float) : bool :=
  match Prim2SF x with S754_zero true => true | _ => false end.

(** ToBoolean on a number: [0], [-0] and [NaN] are falsy. *)
Definition truthy (x : float) : bool := negb (isZero x || isNaN x).

(** [a || b] on numbers. *)
Definition or (a b : float) : float := if truthy a then a else b.

(** An integer as a number.  Exact whenever [|z| <= 2^53]; loop counters
    and array lengths of the program stay in that range. *)
Definition ofZ (z : Z) : float := SF2Prim (binary_normalize prec emax z 0 false).

Definition ofNat (n : nat) : float := ofZ (Z.of_nat n).

(** A number used as an array index ([stops[i]]): the element exists only
    when the number is a non-negative integer ([-0] reads index 0). *)
Definition toIndex (x : float) : option N :=
  match Prim2SF x with
  | S754_zero _ => Some 0%N
  | S754_finite false m e =>
      if (0 <=? e)%Z then Some (Z.to_N (Z.shiftl (Zpos m) e))
      else if (Z.land (Zpos m) (Z.ones (- e)) =? 0)%Z
           then Some (Z.to_N (Z.shiftr (Zpos m) (- e)))
           else None
  | _ => None
  end.

(** [arr[x]]: [None] stands for [undefined]. *)
Definition arrayGet {A : Type} (arr : list A) (x : float) : option A :=
  match toIndex x with
  | Some i => if (i <? N.of_nat (length arr))%N then arr !! N.to_nat i else None
  | None => None
  end.

End Number.

Module Math.

Definition PI : float := 0x1.921fb54442d18p+1.

(** [Math.min] and [Math.max] of two numbers: NaN is contagious and
    [-0] is smaller than [+0]. *)
Definition min (x y : float) : float :=
  if Number.isNaN x || Number.isNaN y then nan
  else if x <? y then x
  else if y <? x then y
  else if Number.isNegZero x then x else y.

Definition max (x y : float) : float :=
  if Number.isNaN x || Number.isNaN y then nan
  else if y <? x then x
  else if x <? y then y
  else if Number.isNegZero x then y else x.

(** [Math.floor]: the largest integer not above [x]; zeros, infinities
    and NaN are returned unchanged. *)
Definition floor (x : float) : float :=
  match Prim2SF x with
  | S754_finite s m e =>
      if (0 <=? e)%Z then x
      else
        let z := Z.shiftr (cond_Zopp s (Zpos m)) (- e) in
        if (z =? 0)%Z then 0 else Number.ofZ z
  | _ => x
  end.

(** [Math.round]: the nearest integer, ties towards +infinity; a result
    of zero keeps the sign of [x]. *)
Definition round (x : float) : float :=
  match Prim2SF x with
  | S754_finite s m e =>
      if (0 <=? e)%Z then x
      else
        let z := Z.shiftr (2 * cond_Zopp s (Zpos m) + Z.shiftl 1 (- e)) (- e + 1) in
        if (z =? 0)%Z then (if s then -0 else 0) else Number.ofZ z
  | _ => x
  end.

Definition sqrt (x : float) : float := PrimFloat.sqrt x.

End Math.

(** ** Data model *)

Module Point.
Record t := mk { lon : float; lat : float; speed : float; timestamp : float }.
End Point.

Module Segment.
Record t := mk {
  id : string;
  path : (float * float) * (float * float);
  speed : float;
  timestamp : float;
  speed0 : float;
  speed1 : float;
  time0 : float;
  time1 : float
}.
End Segment.

(** A JavaScript object has an identity besides its fields: [Set<Segment>]
    compares segments by reference.  [ref] is the allocation number. *)
Record Obj (A : Type) := mkObj { ref : nat; val : A }.
Arguments mkObj {A} _ _.
Arguments ref {A} _.
Arguments val {A} _.

Module ViewState.
Record t := mk {
  longitude : float; latitude : float; zoom : float; pitch : float; bearing : float
}.
End ViewState.

(** ** Keys of the grid index

    A key is the template string [`${a}_${b}`] of two numbers.  Converting a
    number to a string is injective except that [-0] and [+0] both print
    as ["0"], and no number prints with an underscore; so two keys are equal
    exactly when their two numbers are, with [-0] read as [+0].  Keys are
    kept as such pairs of numbers. *)

#[global] Instance spec_float_eq_dec : EqDecision spec_float.
Proof. solve_decision. Defined.

#[global] Instance float_eq_dec : EqDecision float.
Proof.
  intros x y. destruct (decide (Prim2SF x = Prim2SF y)) as [H|H].
  - left. apply Prim2SF_inj, H.
  - right. intros ->. apply H. reflexivity.
Defined.

Definition spec_float_enc (x : spec_float) : bool + bool + unit + (bool * positive * Z) :=
  match x with
  | S754_zero s => inl (inl (inl s))
  | S754_infinity s => inl (inl (inr s))
  | S754_nan => inl (inr tt)
  | S754_finite s m e => inr (s, m, e)
  end.

Definition spec_float_dec (x : bool + bool + unit + (bool * positive * Z)) : spec_float :=
  match x with
  | inl (inl (inl s)) => S754_zero s
  | inl (inl (inr s)) => S754_infinity s
  | inl (inr _) => S754_nan
  | inr (s, m, e) => S754_finite s m e
  end.

#[global] Instance spec_float_countable : Countable spec_float.
Proof. apply (inj_countable' spec_float_enc spec_float_dec). intros []; reflexivity. Defined.

#[global] Instance float_countable : Countable float.
Proof. apply (inj_countable' Prim2SF SF2Prim). apply SF2Prim_Prim2SF. Defined.

Definition keyNumber (x : float) : float := if Number.isZero x then 0 else x.

Definition gridKey (a b : float) : float * float := (keyNumber a, keyNumber b).

Module BuildResult.
Record t := mk {
  segments : list (Obj Segment.t);
  minSpeed : float;
  maxSpeed : float;
  initialViewState : ViewState.t;
  gridIndex : gmap (float * float) (list (Obj Segment.t));
  gridSize : float
}.
End BuildResult.

Module NearestResult.
Record t := mk {
  lon : float; lat : float; speed : float; timestamp : float; distMeters : float
}.
End NearestResult.

Module BuildSegmentsOptions.
(** [subdivisions] is an integer count; an absent override is [None]. *)
Record t := mk {
  subdivisions : nat;
  minSpeedOverride : option float;
  maxSpeedOverride : option float
}.
End BuildSegmentsOptions.

(** ** Segment builder *)

Definition lerp (a b t : float) : float := a + (b - a) * t.

(** [`${i}-${s}`] for two loop counters. *)
Definition segmentId (i s : nat) : string :=
  (NilEmpty.string_of_uint (Nat.to_uint i) ++ "-" ++ NilEmpty.string_of_uint (Nat.to_uint s))%string.

(** The segment made by the body of the inner loop for the pair [(a, b)]
    with index [i], at sub-index [s] of [subdivisions]. *)
Definition makeSegment (a b : Point.t) (i subdivisions s : nat) : Segment.t :=
  let t0 := Number.ofNat s / Number.ofNat subdivisions in
  let t1 := Number.ofNat (s + 1) / Number.ofNat subdivisions in
  let lon0 := lerp (Point.lon a) (Point.lon b) t0 in
  let lat0 := lerp (Point.lat a) (Point.lat b) t0 in
  let lon1 := lerp (Point.lon a) (Point.lon b) t1 in
  let lat1 := lerp (Point.lat a) (Point.lat b) t1 in
  let speed0 := lerp (Point.speed a) (Point.speed b) t0 in
  let speed1 := lerp (Point.speed a) (Point.speed b) t1 in
  let segSpeed := (speed0 + speed1) / 2 in
  let time0 := lerp (Point.timestamp a) (Point.timestamp b) t0 in
  let time1 := lerp (Point.timestamp a) (Point.timestamp b) t1 in
  {| Segment.id := segmentId i s;
     Segment.path := ((lon0, lat0), (lon1, lat1));
     Segment.speed := segSpeed;
     Segment.timestamp := (time0 + time1) / 2;
     Segment.speed0 := speed0;
     Segment.speed1 := speed1;
     Segment.time0 := time0;
     Segment.time1 := time1 |}.

(** The variables the two nested loops update: [minS], [maxS], [segs]. *)
Record BuildState := mkBuildState {
  minS : float;
  maxS : float;
  segs : list (Obj Segment.t)
}.

(** One pass of the inner loop body; [segs.push] allocates a new object. *)
Definition subdivideStep (a b : Point.t) (i subdivisions : nat)
    (st : BuildState) (s : nat) : BuildState :=
  let seg := makeSegment a b i subdivisions s in
  let segSpeed := Segment.speed seg in
  let finite := Number.isFinite segSpeed in
  {| minS := if finite then Math.min (minS st) segSpeed else minS st;
     maxS := if finite then Math.max (maxS st) segSpeed else maxS st;
     segs := segs st ++ [mkObj (length (segs st)) seg] |}.

(** [for (let s = 0; s < subdivisions; s++)]. *)
Definition subdivideLoop (a b : Point.t) (i subdivisions : nat) (st : BuildState) : BuildState :=
  fold_left (subdivideStep a b i subdivisions) (seq 0 subdivisions) st.

(** [for (let i = 0; i < points.length - 1; i++)], over the consecutive
    pairs of [points] starting at index [i]. *)
Fixpoint pairsLoop (subdivisions i : nat) (points : list Point.t) (st : BuildState) : BuildState :=
  match points with
  | a :: (b :: _) as rest => pairsLoop subdivisions (S i) rest (subdivideLoop a b i subdivisions st)
  | _ => st
  end.

(** The bounding box accumulated by [for (const p of points)]. *)
Record BBox := mkBBox { minLon : float; maxLon : float; minLat : float; maxLat : float }.

Definition bboxStep (bb : BBox) (p : Point.t) : BBox :=
  {| minLon := if Point.lon p <? minLon bb then Point.lon p else minLon bb;
     maxLon := if maxLon bb <? Point.lon p then Point.lon p else maxLon bb;
     minLat := if Point.lat p <? minLat bb then Point.lat p else minLat bb;
     maxLat := if maxLat bb <? Point.lat p then Point.lat p else maxLat bb |}.

Definition boundingBox (points : list Point.t) : BBox :=
  fold_left bboxStep points (mkBBox infinity neg_infinity infinity neg_infinity).

(** The ladder of [if (span < ...) zoom = ...] statements, in order. *)
Definition zoomFor (span : float) : float :=
  let zoom := 3 in
  let zoom := if span <? 0.8 then 5 else zoom in
  let zoom := if span <? 0.4 then 6 else zoom in
  let zoom := if span <? 0.2 then 7 else zoom in
  let zoom := if span <? 0.1 then 8 else zoom in
  let zoom := if span <? 0.05 then 9 else zoom in
  let zoom := if span <? 0.025 then 10 else zoom in
  zoom.

Definition viewOf (points : list Point.t) : ViewState.t :=
  let bb := boundingBox points in
  let centerLon := (minLon bb + maxLon bb) / 2 in
  let centerLat := (minLat bb + maxLat bb) / 2 in
  let span := Math.max (maxLon bb - minLon bb) (maxLat bb - minLat bb) in
  {| ViewState.longitude := centerLon;
     ViewState.latitude := centerLat;
     ViewState.zoom := zoomFor span;
     ViewState.pitch := 0;
     ViewState.bearing := 0 |}.

(** The key of the cell holding the midpoint of a segment. *)
Definition cellKey (gridSize : float) (s : Segment.t) : float * float :=
  let '((lon0, lat0), (lon1, lat1)) := Segment.path s in
  let midLon := (lon0 + lon1) / 2 in
  let midLat := (lat0 + lat1) / 2 in
  gridKey (Math.floor (midLon / gridSize)) (Math.floor (midLat / gridSize)).

(** [(gridIndex[key] ||= []).push(s)]. *)
Definition gridInsert (gridSize : float)
    (g : gmap (float * float) (list (Obj Segment.t))) (s : Obj Segment.t)
    : gmap (float * float) (list (Obj Segment.t)) :=
  let key := cellKey gridSize (val s) in
  <[key := default [] (g !! key) ++ [s]]> g.

Definition buildGrid (gridSize : float) (segs : list (Obj Segment.t))
    : gmap (float * float) (list (Obj Segment.t)) :=
  fold_left (gridInsert gridSize) segs ∅.

Definition buildSegments (points : list Point.t) (options : BuildSegmentsOptions.t)
    : BuildResult.t :=
  let subdivisions := BuildSegmentsOptions.subdivisions options in
  let minSpeedOverride := BuildSegmentsOptions.minSpeedOverride options in
  let maxSpeedOverride := BuildSegmentsOptions.maxSpeedOverride options in
  if (length points <? 2)%nat then
    {| BuildResult.segments := [];
       BuildResult.minSpeed := default 0 minSpeedOverride;
       BuildResult.maxSpeed := default 1 maxSpeedOverride;
       BuildResult.initialViewState := ViewState.mk 0 0 2 0 0;
       BuildResult.gridIndex := ∅;
       BuildResult.gridSize := 0.05 |}
  else
    let st := pairsLoop subdivisions 0 points (mkBuildState infinity neg_infinity []) in
    let minS := if negb (Number.isFinite (minS st)) then 0 else minS st in
    let maxS := if negb (Number.isFinite (maxS st)) then 1 else maxS st in
    let effMin := default minS minSpeedOverride in
    let effMax := default maxS maxSpeedOverride in
    let gridSize := 0.02 in
    {| BuildResult.segments := segs st;
       BuildResult.minSpeed := effMin;
       BuildResult.maxSpeed := effMax;
       BuildResult.initialViewState := viewOf points;
       BuildResult.gridIndex := buildGrid gridSize (segs st);
       BuildResult.gridSize := gridSize |}.

(** ** Colour scale *)

Definition RGB : Type := float * float * float.
Definition RGBA : Type := float * float * float * float.

(** A colour given to the scale: a string or an array of three numbers. *)
Inductive Color :=
| ColorString (s : string)
| ColorArray (c : RGB).

(** JavaScript strings are sequences of UTF-16 code units; the strings here
    hold the code units below 256, which covers every colour notation the
    function accepts. *)
Module JsString.

(** White space and line terminators of the language, below 256. *)
Definition isWhiteSpace (c : Ascii.ascii) : bool :=
  let n := Ascii.nat_of_ascii c in
  ((9 <=? n) && (n <=? 13) || (n =? 32) || (n =? 160))%nat.

Fixpoint trimStart (s : string) : string :=
  match s with
  | String c s' => if isWhiteSpace c then trimStart s' else s
  | EmptyString => s
  end.

Definition reverse (s : string) : string :=
  string_of_list_ascii (List.rev (list_ascii_of_string s)).

Definition trim (s : string) : string := reverse (trimStart (reverse (trimStart s))).

Definition startsWith (s p : string) : bool := String.prefix p s.

(** [s.slice(from, to)] for indices inside the string. *)
Definition slice (s : string) (from to : nat) : string := String.substring from (to - from) s.

Definition sliceFrom (s : string) (from : nat) : string :=
  String.substring from (String.length s - from) s.

(** [s[i]]: a string of one code unit (the callers index inside [s]). *)
Definition charAt (s : string) (i : nat) : string := String.substring i 1 s.

Definition hexDigit (c : Ascii.ascii) : option Z :=
  let n := Z.of_nat (Ascii.nat_of_ascii c) in
  if ((48 <=? n) && (n <=? 57))%Z then Some (n - 48)%Z
  else if ((97 <=? n) && (n <=? 102))%Z then Some (n - 87)%Z
  else if ((65 <=? n) && (n <=? 70))%Z then Some (n - 55)%Z
  else None.

(** The value of the longest prefix of hexadecimal digits, and whether
    the prefix holds a digit at all. *)
Fixpoint hexPrefix (s : string) (acc : Z) (seen : bool) : Z * bool :=
  match s with
  | String c s' =>
      match hexDigit c with
      | Some d => hexPrefix s' (16 * acc + d) true
      | None => (acc, seen)
      end
  | EmptyString => (acc, seen)
  end.

(** [parseInt(s, 16)]. *)
Definition parseInt16 (s : string) : float :=
  let s := trimStart s in
  let negative := startsWith s "-" in
  let s := if startsWith s "-" || startsWith s "+" then sliceFrom s 1 else s in
  let s := if startsWith s "0x" || startsWith s "0X" then sliceFrom s 2 else s in
  let '(v, seen) := hexPrefix s 0 false in
  if negb seen then nan
  else if (v =? 0)%Z then (if negative then -0 else 0)
  else Number.ofZ (if negative then - v else v).

End JsString.

Definition parseColor (c : Color) : RGB :=
  match c with
  | ColorArray rgb => rgb
  | ColorString c =>
      let s := JsString.trim c in
      let s := if JsString.startsWith s "#" then JsString.sliceFrom s 1 else s in
      if (String.length s =? 3)%nat then
        let r := JsString.parseInt16 (JsString.charAt s 0 ++ JsString.charAt s 0) in
        let g := JsString.parseInt16 (JsString.charAt s 1 ++ JsString.charAt s 1) in
        let b := JsString.parseInt16 (JsString.charAt s 2 ++ JsString.charAt s 2) in
        (r, g, b)
      else if (String.length s =? 6)%nat then
        let r := JsString.parseInt16 (JsString.slice s 0 2) in
        let g := JsString.parseInt16 (JsString.slice s 2 4) in
        let b := JsString.parseInt16 (JsString.slice s 4 6) in
        (r, g, b)
      else (128, 128, 128)
  end.

Definition lerpColor (a b : RGB) (t : float) : RGBA :=
  let '(a0, a1, a2) := a in
  let '(b0, b1, b2) := b in
  (Math.round (lerp a0 b0 t), Math.round (lerp a1 b1 t), Math.round (lerp a2 b2 t), 255).

Definition defaultColors : list Color :=
  [ColorString "#00aa00"; ColorString "#ffff00"; ColorString "#ffa500"; ColorString "#ff0000"].

(** The stops the scale is built on: the parsed colours, or the parsed
    defaults when no colour is given. *)
Definition stopsOf (colors : list Color) : list RGB :=
  map parseColor (if (length colors =? 0)%nat then defaultColors else colors).

(** The function returned by [createSpeedColorScale].  [None] stands for
    the [TypeError] raised when [lerpColor] reads a channel of [undefined]. *)
Definition createSpeedColorScale (minSpeed maxSpeed : float) (colors : list Color)
    (speed : float) : option RGBA :=
  let stops := stopsOf colors in
  let n := length stops in
  if negb (Number.isFinite speed) then Some (128, 128, 128, 255)
  else
    let span := Number.or (maxSpeed - minSpeed) 1 in
    let u := (speed - minSpeed) / span in
    let u := Math.max 0 (Math.min 1 u) in
    if (n =? 1)%nat then
      match Number.arrayGet stops 0 with
      | Some (c0, c1, c2) => Some (c0, c1, c2, 255)
      | None => None
      end
    else
      let scaled := u * (Number.ofNat n - 1) in
      let i := Math.floor scaled in
      let t := scaled - i in
      match Number.arrayGet stops i,
            Number.arrayGet stops (Math.min (i + 1) (Number.ofNat n - 1)) with
      | Some c1, Some c2 => Some (lerpColor c1 c2 t)
      | _, _ => None
      end.

(** ** Nearest point on the track *)

(** The cells visited by the two nested [for] loops, [dx] outermost. *)
Definition cellOffsets : list (float * float) :=
  [(-1, -1); (-1, 0); (-1, 1); (0, -1); (0, 0); (0, 1); (1, -1); (1, 0); (1, 1)].

(** [set.add(seg)] on a [Set<Segment>]: insertion order, one entry per
    object. *)
Definition setAdd (set : list (Obj Segment.t)) (seg : Obj Segment.t) : list (Obj Segment.t) :=
  if existsb (fun o => (ref o =? ref seg)%nat) set then set else set ++ [seg].

Definition gatherCell (gridIndex : gmap (float * float) (list (Obj Segment.t)))
    (gx gy : float) (set : list (Obj Segment.t)) (d : float * float) : list (Obj Segment.t) :=
  let key := gridKey (gx + fst d) (gy + snd d) in
  match gridIndex !! key with
  | Some arr => fold_left setAdd arr set
  | None => set
  end.

(** The segments of the 3x3 block of cells around the query point. *)
Definition neighbourhood (gridIndex : gmap (float * float) (list (Obj Segment.t)))
    (gridSize lon lat : float) : list (Obj Segment.t) :=
  let gx := Math.floor (lon / gridSize) in
  let gy := Math.floor (lat / gridSize) in
  fold_left (gatherCell gridIndex gx gy) cellOffsets [].

Section NearestTrackQuery.

(** [Math.cos]. *)
Variable cos : float -> float.

Definition metersPerDegree (lat : float) : float * float :=
  let mPerDegLat := 111132.92 - 559.82 * cos (2 * lat) + 1.175 * cos (4 * lat) in
  let mPerDegLon := 111412.84 * cos lat - 93.5 * cos (3 * lat) in
  (mPerDegLat, mPerDegLon).

(** The middle latitude of a segment, in radians. *)
Definition latRad (s : Segment.t) : float :=
  let '((x1, y1), (x2, y2)) := Segment.path s in
  (y1 + y2) / 2 * Math.PI / 180.

(** The metres per degree used for a segment. *)
Definition segmentScale (s : Segment.t) : float * float :=
  metersPerDegree (latRad s).

(** The vector from the query point to the start of the segment. *)
Definition offsetVector (lon lat : float) (s : Segment.t) : float * float :=
  let '((x1, y1), (x2, y2)) := Segment.path s in
  let '(mPerDegLat, mPerDegLon) := segmentScale s in
  ((x1 - lon) * mPerDegLon, (y1 - lat) * mPerDegLat).

(** The vector along the segment. *)
Definition directionVector (s : Segment.t) : float * float :=
  let '((x1, y1), (x2, y2)) := Segment.path s in
  let '(mPerDegLat, mPerDegLon) := segmentScale s in
  ((x2 - x1) * mPerDegLon, (y2 - y1) * mPerDegLat).

(** [vLen2]: the squared length, or 1 when that is zero (or NaN). *)
Definition denominator (s : Segment.t) : float :=
  let '(vx, vy) := directionVector s in
  Number.or (vx * vx + vy * vy) 1.

(** The projection parameter before and after clamping. *)
Definition rawParameter (lon lat : float) (s : Segment.t) : float :=
  let '(ax, ay) := offsetVector lon lat s in
  let '(vx, vy) := directionVector s in
  (- (ax * vx + ay * vy)) / denominator s.

Definition parameter (lon lat : float) (s : Segment.t) : float :=
  Math.max 0 (Math.min 1 (rawParameter lon lat s)).

(** The candidate result of a segment once its parameter [t] is known. *)
Definition resultAt (lon lat : float) (s : Segment.t) (t : float) : NearestResult.t :=
  let '((x1, y1), (x2, y2)) := Segment.path s in
  let '(mPerDegLat, mPerDegLon) := segmentScale s in
  let projLon := x1 + (x2 - x1) * t in
  let projLat := y1 + (y2 - y1) * t in
  let dx := (projLon - lon) * mPerDegLon in
  let dy := (projLat - lat) * mPerDegLat in
  let dist := Math.sqrt (dx * dx + dy * dy) in
  let speed := Segment.speed0 s + (Segment.speed1 s - Segment.speed0 s) * t in
  let timestamp := Segment.time0 s + (Segment.time1 s - Segment.time0 s) * t in
  {| NearestResult.lon := projLon;
     NearestResult.lat := projLat;
     NearestResult.speed := speed;
     NearestResult.timestamp := timestamp;
     NearestResult.distMeters := dist |}.

Definition candidate (lon lat : float) (s : Segment.t) : NearestResult.t :=
  resultAt lon lat s (parameter lon lat s).

(** One pass of [for (const s of candidates)]. *)
Definition scanStep (lon lat : float) (best : option NearestResult.t)
    (s : Obj Segment.t) : option NearestResult.t :=
  let c := candidate lon lat (val s) in
  match best with
  | None => Some c
  | Some b => if NearestResult.distMeters c <? NearestResult.distMeters b then Some c else best
  end.

Definition scan (lon lat : float) (candidates : list (Obj Segment.t)) : option NearestResult.t :=
  fold_left (scanStep lon lat) candidates None.

(** The candidates: the neighbourhood when an index and a non-zero cell
    size are given and the neighbourhood is not empty, else all segments. *)
Definition candidatesOf (lon lat : float) (segments : list (Obj Segment.t))
    (gridIndex : option (gmap (float * float) (list (Obj Segment.t))))
    (gridSize : option float) : list (Obj Segment.t) :=
  match gridIndex, gridSize with
  | Some g, Some size =>
      if Number.truthy size then
        let set := neighbourhood g size lon lat in
        if (length set =? 0)%nat then segments else set
      else segments
  | _, _ => segments
  end.

Definition findNearestPointOnTrack (lon lat : float) (segments : list (Obj Segment.t))
    (gridIndex : option (gmap (float * float) (list (Obj Segment.t))))
    (gridSize : option float) : option NearestResult.t :=
  if (length segments =? 0)%nat then None
  else scan lon lat (candidatesOf lon lat segments gridIndex gridSize).

End NearestTrackQuery.

(** ** The legend gradient *)

(** Numbers as text: the conversions [buildGradientCss] calls. *)
Module NumberText.

(** The digit [d] of a radix up to 16, in lower case. *)
Definition digitChar (d : Z) : Ascii.ascii :=
  Ascii.ascii_of_nat (Z.to_nat (if (d <? 10)%Z then 48 + d else 87 + d)).

Fixpoint digitsFrom (fuel : nat) (radix z : Z) (acc : string) : string :=
  match fuel with
  | O => acc
  | S fuel' =>
      if (z <=? 0)%Z then acc
      else digitsFrom fuel' radix (z / radix) (String (digitChar (z mod radix)) acc)
  end.

(** The digits of the natural number [z], most significant first, with no
    leading zero. *)
Definition digits (radix z : Z) : string :=
  if (z <=? 0)%Z then "0"%string
  else digitsFrom (S (Z.to_nat (Z.log2 z))) radix z EmptyString.

(** The value of a number that is an integer. *)
Definition integerValue (x : float) : option Z :=
  match Prim2SF x with
  | S754_zero _ => Some 0%Z
  | S754_finite s m e =>
      if (0 <=? e)%Z then Some (cond_Zopp s (Zpos m * 2 ^ e))
      else if (Zpos m mod 2 ^ (- e) =? 0)%Z then Some (cond_Zopp s (Zpos m / 2 ^ (- e)))
      else None
  | _ => None
  end.

(** [s.padStart(2, "0")]. *)
Definition padStart2 (s : string) : string :=
  match String.length s with
  | 0%nat => "00"%string
  | 1%nat => String "0" s
  | _ => s
  end.

Section Implementation.

(** [Number.prototype.toString(16)] on a number that is not an integer
    below 2^53 in magnitude, and [Number::toString] on a number of 10^21 or
    more: the digits of the first are left to the implementation, the
    second is in exponent notation; neither is written out here. *)
Variable radixText : float -> string.
Variable exponentText : float -> string.

(** [x.toString(16)]. *)
Definition toString16 (x : float) : string :=
  match Prim2SF x with
  | S754_nan => "NaN"%string
  | S754_zero _ => "0"%string
  | S754_infinity false => "Infinity"%string
  | S754_infinity true => "-Infinity"%string
  | S754_finite s _ _ =>
      match integerValue x with
      | Some z =>
          if (Z.abs z <? 2 ^ 53)%Z
          then ((if s then "-" else "") ++ digits 16 (Z.abs z))%string
          else radixText x
      | None => radixText x
      end
  end.

(** [x.toFixed(1)]: one digit after the point, the tenth nearest to [x],
    the larger one in magnitude of two that are as near. *)
Definition toFixed1 (x : float) : string :=
  match Prim2SF x with
  | S754_nan => "NaN"%string
  | S754_infinity false => "Infinity"%string
  | S754_infinity true => "-Infinity"%string
  | S754_zero _ => "0.0"%string
  | S754_finite s m e =>
      let sign := (if s then "-" else "")%string in
      let tooLarge :=
        if (0 <=? e)%Z then (10 ^ 21 <=? Zpos m * 2 ^ e)%Z
        else (10 ^ 21 * 2 ^ (- e) <=? Zpos m)%Z in
      if tooLarge then (sign ++ exponentText (abs x))%string
      else
        let n := if (0 <=? e)%Z then (10 * Zpos m * 2 ^ e)%Z
                 else ((20 * Zpos m + 2 ^ (- e)) / 2 ^ (1 - e))%Z in
        let d := digits 10 n in
        let d := if (String.length d <=? 1)%nat then String "0" d else d in
        let k := String.length d in
        (sign ++ String.substring 0 (k - 1) d ++ "." ++ String.substring (k - 1) 1 d)%string
  end.

End Implementation.

End NumberText.

Section LegendGradient.

(** The two conversions left to the implementation, see [NumberText]. *)
Variable radixText : float -> string.
Variable exponentText : float -> string.

(** [`#${c[0].toString(16).padStart(2, "0")}...`]. *)
Definition hexOf (c : RGB) : string :=
  let '(c0, c1, c2) := c in
  ("#" ++ NumberText.padStart2 (NumberText.toString16 radixText c0)
       ++ NumberText.padStart2 (NumberText.toString16 radixText c1)
       ++ NumberText.padStart2 (NumberText.toString16 radixText c2))%string.

(** The text of the stop [c] at index [idx] of [n] stops. *)
Definition gradientPart (n idx : nat) (c : RGB) : string :=
  let pct := Number.ofNat idx / (Number.ofNat n - 1) * 100 in
  (hexOf c ++ " " ++ NumberText.toFixed1 exponentText pct ++ "%")%string.

(** [parts]: the texts of all stops. *)
Definition gradientParts (colors : list Color) : list string :=
  let stops := stopsOf colors in
  imap (gradientPart (length stops)) stops.

Definition buildGradientCss (colors : list Color) : string :=
  ("linear-gradient(90deg, " ++ String.concat ", " (gradientParts colors) ++ ")")%string.

End LegendGradient.

(** ** The map component

    What [HotlineMap] of [App.tsx] computes from its points before it draws:
    the subdivision count, the build with the fixed colour range, the colour
    scale and the colour of a segment of the track layer. *)
Module HotlineMap.

Definition DENSE_LIMIT : nat := 5000.

(** [points.length > DENSE_LIMIT ? 1 : 6]. *)
Definition SUBDIVISIONS (points : list Point.t) : nat :=
  if (DENSE_LIMIT <? length points)%nat then 1%nat else 6%nat.

Definition customMin : float := 0.
Definition customMax : float := 120.

Definition colorStops : list Color :=
  [ColorString "#00aa00"; ColorString "#ffff00"; ColorString "#ffa500"; ColorString "#ff0000"].

Definition build (points : list Point.t) : BuildResult.t :=
  buildSegments points
    {| BuildSegmentsOptions.subdivisions := SUBDIVISIONS points;
       BuildSegmentsOptions.minSpeedOverride := Some customMin;
       BuildSegmentsOptions.maxSpeedOverride := Some customMax |}.

Definition speedToColor (points : list Point.t) : float -> option RGBA :=
  createSpeedColorScale (BuildResult.minSpeed (build points))
    (BuildResult.maxSpeed (build points)) colorStops.

(** [getColor] of the track layer. *)
Definition getColor (points : list Point.t) (d : Segment.t) : option RGBA :=
  speedToColor points (Segment.speed d).

End HotlineMap.

(** * Auxiliary definitions *)

(** ** The track as a list of segments *)

(** The segments the inner loop makes for one pair of samples. *)
Definition pairSegments (a b : Point.t) (i subdivisions : nat) : list Segment.t :=
  map (makeSegment a b i subdivisions) (seq 0 subdivisions).

(** The segments of all consecutive pairs, in track order. *)
Fixpoint trackSegments (subdivisions i : nat) (points : list Point.t) : list Segment.t :=
  match points with
  | a :: (b :: _) as rest => pairSegments a b i subdivisions ++ trackSegments subdivisions (S i) rest
  | _ => []
  end.

(** ** Numbers: order and small integers *)

(** The order of the numbers that are not NaN, as a lexicographic rank. *)
Definition rank (x : spec_float) : Z * Z * Z :=
  match x with
  | S754_nan => (0, 0, 0)%Z
  | S754_zero _ => (0, 0, 0)%Z
  | S754_infinity true => (-2, 0, 0)%Z
  | S754_infinity false => (2, 0, 0)%Z
  | S754_finite true m e => (-1, - e, Zneg m)%Z
  | S754_finite false m e => (1, e, Zpos m)%Z
  end.

Definition lexCompare (a b : Z * Z * Z) : comparison :=
  match (fst (fst a) ?= fst (fst b))%Z with
  | Eq => match (snd (fst a) ?= snd (fst b))%Z with
          | Eq => (snd a ?= snd b)%Z
          | c => c
          end
  | c => c
  end.

(** The mantissa [m] shifted left by [k] bits. *)
Definition shiftMantissa (m : positive) (k : Z) : positive :=
  match k with Zpos p => Pos.iter xO m p | _ => m end.

(** The canonical mantissa and exponent of a positive integer below 2^53,
    and the representation of an integer of that size. *)
Definition intMantissa (p : positive) : positive :=
  shiftMantissa p (53 - Zpos (digits2_pos p)).

Definition intExponent (p : positive) : Z := Zpos (digits2_pos p) - 53.

Definition intSF (z : Z) : spec_float :=
  match z with
  | Z0 => S754_zero false
  | Zpos p => S754_finite false (intMantissa p) (intExponent p)
  | Zneg p => S754_finite true (intMantissa p) (intExponent p)
  end.

(** A number that is finite and not a zero. *)
Definition isRegular (x : float) : bool :=
  match Prim2SF x with S754_finite _ _ _ => true | _ => false end.

(** ** The speed range kept by the builder

    What holds of [minS], [maxS] and the segments pushed so far: both bounds
    are still at their initial infinity or finite, and they enclose every
    finite segment speed. *)
Definition rangeInv (st : BuildState) : Prop :=
  (minS st = infinity \/ Number.isFinite (minS st) = true)
  /\ (maxS st = neg_infinity \/ Number.isFinite (maxS st) = true)
  /\ forall o, o ∈ segs st -> Number.isFinite (Segment.speed (val o)) = true ->
       (minS st <=? Segment.speed (val o)) = true
       /\ (Segment.speed (val o) <=? maxS st) = true.

(** ** Tracks along the equator

    [Math.cos] returns 1 at 0; on a segment whose middle latitude is 0 the
    query evaluates the cosine nowhere else, so there it can be computed
    with the constant function 1. *)
Definition cosOne (x : float) : float := 1.

Definition equatorial (o : Obj Segment.t) : bool := bool_decide (latRad (val o) = 0).

(** ** The 3x3 block of cells and the nearest segment *)

(** The keys of the nine cells around the cell of the query point. *)
Definition blockKeys (gridSize lon lat : float) : list (float * float) :=
  let gx := Math.floor (lon / gridSize) in
  let gy := Math.floor (lat / gridSize) in
  map (fun d => gridKey (gx + fst d) (gy + snd d)) cellOffsets.

(** A segment is in the block when its cell is one of the nine. *)
Definition inBlock (gridSize lon lat : float) (o : Obj Segment.t) : Prop :=
  cellKey gridSize (val o) ∈ blockKeys gridSize lon lat.

(** The distance the query computes to a segment. *)
Definition distanceTo (cos : float -> float) (lon lat : float) (o : Obj Segment.t) : float :=
  NearestResult.distMeters (candidate cos lon lat (val o)).

(** A nearest segment: no segment is strictly nearer. *)
Definition nearestSegment (cos : float -> float) (lon lat : float)
    (segments : list (Obj Segment.t)) (w : Obj Segment.t) : Prop :=
  w ∈ segments /\
  forall o, o ∈ segments -> (distanceTo cos lon lat o <? distanceTo cos lon lat w) = false.

(** The strictly nearest segment: strictly nearer than every other object. *)
Definition strictlyNearest (cos : float -> float) (lon lat : float)
    (segments : list (Obj Segment.t)) (w : Obj Segment.t) : Prop :=
  w ∈ segments /\
  forall o, o ∈ segments -> ref o <> ref w ->
    (distanceTo cos lon lat w <? distanceTo cos lon lat o) = true.

(** A result that the candidate of [w] is, or strictly beats. *)
Definition beaten (cos : float -> float) (lon lat : float) (w : Obj Segment.t)
    (b : NearestResult.t) : Prop :=
  b = candidate cos lon lat (val w)
  \/ (distanceTo cos lon lat w <? NearestResult.distMeters b) = true.

(** ** Colours within rounding *)

(** Two numbers that are the same, a zero of either sign being one number. *)
Definition sameNumber (x y : float) : Prop :=
  x = y \/ (Number.isZero x = true /\ Number.isZero y = true).

(** A channel [x] that is the channel [c] of a stop, or [c] rounded. *)
Definition withinRounding (x c : float) : Prop :=
  sameNumber x c \/ sameNumber x (Math.round c).

(** An opaque colour that is a stop within channel rounding. *)
Definition colorWithinRounding (r : RGBA) (c : RGB) : Prop :=
  let '(r0, r1, r2, alpha) := r in
  let '(c0, c1, c2) := c in
  withinRounding r0 c0 /\ withinRounding r1 c1 /\ withinRounding r2 c2 /\ alpha = 255.

(** Stops whose channels are finite numbers with finite differences, as
    are all channels between 0 and 255. *)
Definition channelsFinite (stops : list RGB) : Prop :=
  forall a b, a ∈ stops -> b ∈ stops ->
    let '(a0, a1, a2) := a in
    let '(b0, b1, b2) := b in
    Number.isFinite (b0 - a0) = true
    /\ Number.isFinite (b1 - a1) = true
    /\ Number.isFinite (b2 - a2) = true.

(** The same, as a test. *)
Definition channelsFiniteb (stops : list RGB) : bool :=
  forallb (fun a : RGB =>
    forallb (fun b : RGB =>
      let '(a0, a1, a2) := a in
      let '(b0, b1, b2) := b in
      Number.isFinite (b0 - a0) && Number.isFinite (b1 - a1) && Number.isFinite (b2 - a2))
    stops) stops.

(** ** Identifiers of the segments *)

(** A decimal digit, and a text of decimal digits only. *)
Definition isDigit (c : Ascii.ascii) : bool :=
  let n := Ascii.nat_of_ascii c in ((48 <=? n) && (n <=? 57))%nat.

Fixpoint allDigits (s : string) : bool :=
  match s with
  | EmptyString => true
  | String c s' => isDigit c && allDigits s'
  end.

(** ** The bounding box of the samples

    What the loop over the samples keeps: no bound is NaN, and the bounds
    enclose the coordinates, NaN apart, of the samples seen so far. *)
Definition boxInv (seen : list Point.t) (bb : BBox) : Prop :=
  Number.isNaN (minLon bb) = false /\ Number.isNaN (maxLon bb) = false
  /\ Number.isNaN (minLat bb) = false /\ Number.isNaN (maxLat bb) = false
  /\ forall p, p ∈ seen ->
       (Number.isNaN (Point.lon p) = false ->
        (minLon bb <=? Point.lon p) = true /\ (Point.lon p <=? maxLon bb) = true)
       /\ (Number.isNaN (Point.lat p) = false ->
        (minLat bb <=? Point.lat p) = true /\ (Point.lat p <=? maxLat bb) = true).

(** ** The observed speed range *)

(** A segment with a finite midpoint speed. *)
Definition hasFiniteSpeed (o : Obj Segment.t) : bool :=
  Number.isFinite (Segment.speed (val o)).

(** What [minS] and [maxS] are after the loops: still the initial
    infinities when no segment pushed so far has a finite midpoint speed,
    else the midpoint speeds of two such segments. *)
Definition observedInv (st : BuildState) : Prop :=
  (forallb (fun o => negb (hasFiniteSpeed o)) (segs st) = true
   /\ minS st = infinity /\ maxS st = neg_infinity)
  \/ ((exists o, o ∈ segs st /\ hasFiniteSpeed o = true /\ minS st = Segment.speed (val o))
      /\ (exists o, o ∈ segs st /\ hasFiniteSpeed o = true /\ maxS st = Segment.speed (val o))).

(** ** The buckets of the grid index *)

(** The segments of [segments] whose midpoint falls in the cell [key], in
    the order of [segments]. *)
Definition cellMembers (gridSize : float) (key : float * float)
    (segments : list (Obj Segment.t)) : list (Obj Segment.t) :=
  filter (fun o => cellKey gridSize (val o) = key) segments.

(** ** The result of a scan

    What holds of [best] once the loop has gone through [seen]: it is the
    candidate of a segment of [seen], and no segment of [seen] is strictly
    nearer. *)
Definition bestOf (cos : float -> float) (lon lat : float)
    (seen : list (Obj Segment.t)) (best : option NearestResult.t) : Prop :=
  match best with
  | None => seen = []
  | Some r =>
      exists w, w ∈ seen /\ r = candidate cos lon lat (val w)
        /\ forall o, o ∈ seen -> (distanceTo cos lon lat o <? NearestResult.distMeters r) = false
  end.

(** ** The position of a speed in the colour range *)

(** [u] before it is clamped. *)
Definition position (minSpeed maxSpeed speed : float) : float :=
  (speed - minSpeed) / Number.or (maxSpeed - minSpeed) 1.

(** ** Values of finite numbers *)

(** The value [m * 2^e] in units of [2^-2200], an integer for every
    exponent that the numbers and their products have. *)
Definition fixedPoint (m : positive) (e : Z) : Z := (Zpos m * 2 ^ (e + 2200))%Z.

(** The same for a number with its sign. *)
Definition signedFixedPoint (s : bool) (m : positive) (e : Z) : Z :=
  cond_Zopp s (fixedPoint m e).

(** A mantissa and exponent in canonical form. *)
Definition canonical (m : positive) (e : Z) : Prop :=
  fexp prec emax (Zpos (digits2_pos m) + e) = e.

(** A number that is not above zero. *)
Definition notAboveZero (x : spec_float) : bool :=
  match x with
  | S754_zero _ | S754_infinity true | S754_finite true _ _ => true
  | _ => false
  end.

(** ** Bytes in hexadecimal *)

(** The two hexadecimal digits of a byte, and the 256 bytes. *)
Definition byteText (z : Z) : string :=
  String (NumberText.digitChar (z / 16)) (String (NumberText.digitChar (z mod 16)) EmptyString).

Definition bytes : list Z := map Z.of_nat (seq 0 256).

(** A stand-in for the conversions that [NumberText] leaves open, where an
    example needs none of them. *)
Definition noText (x : float) : string := EmptyString.

(** ** Rounding to nearest, by value *)

(** The integer nearest to [m / 2^n], the even one of two that are as
    near. *)
Definition nearestEven (m n : Z) : Z :=
  let q := (m / 2 ^ n)%Z in
  match (2 * (m mod 2 ^ n) ?= 2 ^ n)%Z with
  | Lt => q
  | Eq => if Z.even q then q else (q + 1)%Z
  | Gt => (q + 1)%Z
  end.

(** The last step of a rounding: the number of sign [s] with the mantissa
    [m] at the exponent [e]. *)
Definition encode (s : bool) (m e : Z) : spec_float :=
  let '(mrs, e') := shr_fexp prec emax m e loc_Exact in
  match shr_m mrs with
  | Z0 => S754_zero s
  | Zpos p => if (e' <=? emax - prec)%Z then S754_finite s p e' else S754_infinity s
  | Zneg _ => S754_nan
  end.

(** A mantissa that fits at an exponent: it has 53 digits at most (2^53
    included, for a mantissa that was rounded up), and 53 digits above the
    least exponent. *)
Definition fits (m e : Z) : Prop :=
  (emin <= e /\ 0 <= m <= 2 ^ 53 /\ (e = emin \/ 2 ^ 52 <= m))%Z.

(** The largest value, of the infinities. *)
Definition top : Z := (2 ^ (emax + 2200))%Z.

(** The value of a number in units of [2^-2200]; an infinity counts as
    [top], NaN as 0. *)
Definition valueOf (x : spec_float) : Z :=
  match x with
  | S754_zero _ | S754_nan => 0%Z
  | S754_infinity s => cond_Zopp s top
  | S754_finite s m e => signedFixedPoint s m e
  end.

(** The value of the number nearest to the value [v >= 0], and to any
    value. *)
Definition nearestValue (v : Z) : Z :=
  let e := (fexp prec emax (Zdigits2 v - 2200) + 2200)%Z in
  Z.min (nearestEven v e * 2 ^ e) top.

Definition roundValue (v : Z) : Z :=
  if (v <? 0)%Z then (- nearestValue (- v))%Z else nearestValue v.

(** A number that is not NaN and, when finite, in canonical form. *)
Definition wellFormed (x : spec_float) : Prop :=
  match x with
  | S754_nan => False
  | S754_finite _ m e => canonical m e /\ (e <= emax - prec)%Z
  | _ => True
  end.

(** The value of the number 1. *)
Definition unitValue : Z := (2 ^ 2200)%Z.

(** ** Colours made of bytes *)

(** A channel that is a byte, and stops made of bytes. *)
Definition isByte (x : float) : Prop := exists z, (0 <= z <= 255)%Z /\ x = Number.ofZ z.

Definition byteStops (stops : list RGB) : Prop :=
  forall c0 c1 c2, (c0, c1, c2) ∈ stops -> isByte c0 /\ isByte c1 /\ isByte c2.

(** A channel [x] that is an integer between the bytes [a] and [b]. *)
Definition channelBetween (a b x : float) : Prop :=
  exists za zb z,
    a = Number.ofZ za /\ b = Number.ofZ zb /\ x = Number.ofZ z
    /\ (0 <= za <= 255)%Z /\ (0 <= zb <= 255)%Z /\ (Z.min za zb <= z <= Z.max za zb)%Z.

(** ** Midpoints *)

(** A number [x] that lies between [a] and [b], whichever is the
    smaller. *)
Definition liesBetween (a x b : float) : Prop :=
  ((a <=? x) = true /\ (x <=? b) = true) \/ ((b <=? x) = true /\ (x <=? a) = true).

(** What the loop over the samples keeps besides: each bound is still the
    initial infinity, or a coordinate of a sample seen so far. *)
Definition boxAttained (seen : list Point.t) (bb : BBox) : Prop :=
  (minLon bb = infinity \/ exists p, p ∈ seen /\ minLon bb = Point.lon p)
  /\ (maxLon bb = neg_infinity \/ exists p, p ∈ seen /\ maxLon bb = Point.lon p)
  /\ (minLat bb = infinity \/ exists p, p ∈ seen /\ minLat bb = Point.lat p)
  /\ (maxLat bb = neg_infinity \/ exists p, p ∈ seen /\ maxLat bb = Point.lat p).

(** ** Extremes of the samples *)

(** [lo] is the least of the values [f p] of the samples: it is not above
    any of them that is a number, and it is one of them, or still the
    initial [Infinity] when none is below it. *)
Definition leastOf (f : Point.t -> float) (points : list Point.t) (lo : float) : Prop :=
  (forall p, p ∈ points -> Number.isNaN (f p) = false -> (lo <=? f p) = true)
  /\ (lo = infinity \/ exists p, p ∈ points /\ lo = f p).

(** The same for the greatest, which starts at [-Infinity]. *)
Definition greatestOf (f : Point.t -> float) (points : list Point.t) (hi : float) : Prop :=
  (forall p, p ∈ points -> Number.isNaN (f p) = false -> (f p <=? hi) = true)
  /\ (hi = neg_infinity \/ exists p, p ∈ points /\ hi = f p).

(** ** Sample inputs *)

Definition sampleA : Point.t := Point.mk 0 0 0 0.
Definition sampleB : Point.t := Point.mk 1 0 10 1000.
Definition twoSamples : list Point.t := [sampleA; sampleB].
Definition plainOptions (n : nat) : BuildSegmentsOptions.t := BuildSegmentsOptions.mk n None None.

(** Two samples with a finite speed so large that the midpoint speed of
    the segment between them overflows, and a track whose second sample has
    no speed reading. *)
Definition fastTrack : list Point.t :=
  [Point.mk 0 0 1e308 0; Point.mk 1 0 1e308 1000].

Definition gapTrack : list Point.t :=
  [Point.mk 0 0 10 0; Point.mk 1 0 nan 1000].


(** A segment of 1e-170 degrees along the equator: the square of its length
    in metres underflows to zero although the length does not. *)
Definition tinySegment : Segment.t :=
  {| Segment.id := "0-0";
     Segment.path := ((0, 0), (1e-170, 0));
     Segment.speed := 5;
     Segment.timestamp := 500;
     Segment.speed0 := 0;
     Segment.speed1 := 10;
     Segment.time0 := 0;
     Segment.time1 := 1000 |}.

(** A segment whose two endpoints are the same point. *)
Definition pointSegment : Segment.t :=
  {| Segment.id := "0-0";
     Segment.path := ((0.5, 0), (0.5, 0));
     Segment.speed := 5;
     Segment.timestamp := 500;
     Segment.speed0 := 0;
     Segment.speed1 := 10;
     Segment.time0 := 0;
     Segment.time1 := 1000 |}.

(** A track along the equator that goes west and comes back east over the
    same stretch, and a query point north of it. *)
Definition outAndBack : list Point.t :=
  [Point.mk 0.0625 0 10 0; Point.mk 0.03125 0 20 1000; Point.mk 0.046875 0 30 2000].

(** The second of the two segments built from [twoSamples] with two
    subdivisions. *)
Definition secondHalf : Obj Segment.t := mkObj 1 (makeSegment sampleA sampleB 0 2 1).

(** A scale from black to white. *)
Definition blackToWhite : list Color :=
  [ColorString "#000000"%string; ColorString "#ffffff"%string].

(** The two segments built from [outAndBack] with one subdivision: the
    way out and the way back. *)
Definition wayOut : Obj Segment.t :=
  mkObj 0 (makeSegment (Point.mk 0.0625 0 10 0) (Point.mk 0.03125 0 20 1000) 0 1 0).

Definition wayBack : Obj Segment.t :=
  mkObj 1 (makeSegment (Point.mk 0.03125 0 20 1000) (Point.mk 0.046875 0 30 2000) 1 1 0).

(** * Facts about numbers *)

(** Two numbers that evaluate to different values are different. *)
Ltac float_discriminate :=
  let H := fresh in
  intro H; apply (f_equal Prim2SF) in H; vm_compute in H; discriminate H.

(** ** Zeros and finite numbers *)

Lemma isFinite_not_NaN x : Number.isFinite x = true -> Number.isNaN x = false.
Proof. unfold Number.isFinite, Number.isNaN. destruct (Prim2SF x); congruence. Qed.

Lemma isZero_isFinite x : Number.isZero x = true -> Number.isFinite x = true.
Proof. unfold Number.isFinite, Number.isZero. destruct (Prim2SF x); congruence. Qed.

Lemma isZero_cases x : Number.isZero x = true -> x = 0 \/ x = -0.
Proof.
  unfold Number.isZero. intros H.
  rewrite <- (SF2Prim_Prim2SF x). destruct (Prim2SF x) as [[]| | |]; try discriminate.
  - right. reflexivity.
  - left. reflexivity.
Qed.

Lemma mul_zero_r a z :
  Number.isFinite a = true -> Number.isZero z = true -> Number.isZero (a * z) = true.
Proof.
  unfold Number.isFinite, Number.isZero. rewrite FloatAxioms.mul_spec.
  destruct (Prim2SF a), (Prim2SF z); simpl; congruence.
Qed.

Lemma mul_zero_l a z :
  Number.isFinite a = true -> Number.isZero z = true -> Number.isZero (z * a) = true.
Proof.
  unfold Number.isFinite, Number.isZero. rewrite FloatAxioms.mul_spec.
  destruct (Prim2SF a), (Prim2SF z); simpl; congruence.
Qed.

Lemma add_zero_zero a b :
  Number.isZero a = true -> Number.isZero b = true -> Number.isZero (a + b) = true.
Proof.
  unfold Number.isZero. rewrite FloatAxioms.add_spec.
  destruct (Prim2SF a) as [[]| | |], (Prim2SF b) as [[]| | |]; simpl; congruence.
Qed.

Lemma opp_zero a : Number.isZero a = true -> Number.isZero (- a) = true.
Proof.
  unfold Number.isZero. rewrite FloatAxioms.opp_spec. destruct (Prim2SF a); simpl; congruence.
Qed.

Lemma div_zero_l z d :
  Number.isZero z = true -> Number.truthy d = true -> Number.isZero (z / d) = true.
Proof.
  unfold Number.isZero, Number.truthy, Number.isZero, Number.isNaN. rewrite FloatAxioms.div_spec.
  destruct (Prim2SF z), (Prim2SF d); simpl; congruence.
Qed.

Lemma add_zero_r_eqb x z :
  Number.isFinite x = true -> Number.isZero z = true -> (x + z =? x) = true.
Proof.
  unfold Number.isFinite, Number.isZero. rewrite FloatAxioms.eqb_spec, FloatAxioms.add_spec.
  destruct (Prim2SF x) as [[]| | |[] m e], (Prim2SF z) as [[]| | |]; simpl; try congruence;
  unfold SFeqb, SFcompare; rewrite ?Z.compare_refl, ?Pos.compare_cont_refl; reflexivity.
Qed.

Lemma add_zero_r x z :
  Number.isFinite x = true -> Number.isZero x = false -> Number.isZero z = true -> x + z = x.
Proof.
  unfold Number.isFinite, Number.isZero. intros Hf Hnz Hz.
  apply Prim2SF_inj. rewrite FloatAxioms.add_spec.
  destruct (Prim2SF x) as [[]| | |[] m e], (Prim2SF z) as [[]| | |]; simpl; congruence.
Qed.

Lemma sub_diag x : Number.isFinite x = true -> x - x = 0.
Proof.
  unfold Number.isFinite. intros Hf. apply Prim2SF_inj. rewrite FloatAxioms.sub_spec.
  change (Prim2SF 0) with (S754_zero false).
  destruct (Prim2SF x) as [[]| | |s m e]; simpl; try congruence.
  unfold SF64sub, SFsub. rewrite Z.sub_diag. reflexivity.
Qed.

Lemma sub_finite_l x y : Number.isFinite (x - y) = true -> Number.isFinite x = true.
Proof.
  unfold Number.isFinite. rewrite FloatAxioms.sub_spec.
  destruct (Prim2SF x) as [[]|[]| |], (Prim2SF y) as [[]|[]| |]; simpl; congruence.
Qed.

Lemma sub_finite_r x y : Number.isFinite (x - y) = true -> Number.isFinite y = true.
Proof.
  unfold Number.isFinite. rewrite FloatAxioms.sub_spec.
  destruct (Prim2SF x) as [[]|[]| |], (Prim2SF y) as [[]|[]| |]; simpl; congruence.
Qed.

Lemma mul_zero_finite_l a b : Number.isZero (a * b) = true -> Number.isFinite a = true.
Proof.
  unfold Number.isFinite, Number.isZero. rewrite FloatAxioms.mul_spec.
  destruct (Prim2SF a) as [[]|[]| |], (Prim2SF b) as [[]|[]| |]; simpl; congruence.
Qed.

(** ** Exact rounding *)

Lemma iter_pos_Pos_iter {A} (f : A -> A) p : forall x, SpecFloat.iter_pos f p x = Pos.iter f x p.
Proof.
  induction p as [p IH|p IH|]; intros x; simpl.
  - rewrite !IH, !Pos.iter_swap. reflexivity.
  - rewrite !IH. reflexivity.
  - reflexivity.
Qed.

Lemma shr_1_iter_exact k : forall m,
  SpecFloat.iter_pos shr_1 k (Build_shr_record (Zpos (Pos.iter xO m k)) false false)
  = Build_shr_record (Zpos m) false false.
Proof.
  intros m. rewrite iter_pos_Pos_iter. revert m.
  induction k as [|k IH] using Pos.peano_ind; intros m.
  - reflexivity.
  - assert (Hm : Pos.iter xO m (Pos.succ k) = xO (Pos.iter xO m k))
      by apply Pos.iter_succ.
    rewrite Hm, Pos.iter_succ, <- Pos.iter_swap. simpl shr_1. apply IH.
Qed.

Lemma digits2_pos_iter_xO k : forall m,
  Zpos (digits2_pos (Pos.iter xO m k)) = (Zpos (digits2_pos m) + Zpos k)%Z.
Proof.
  induction k as [|k IH] using Pos.peano_ind; intros m.
  - simpl. lia.
  - rewrite Pos.iter_succ. simpl digits2_pos. rewrite Pos2Z.inj_succ, IH. lia.
Qed.

Lemma shiftMantissa_value m k : (0 <= k)%Z -> Zpos (shiftMantissa m k) = (Zpos m * 2 ^ k)%Z.
Proof.
  intros Hk. destruct k as [|p|p]; [simpl; lia| |lia].
  simpl shiftMantissa. clear Hk. induction p as [|p IH] using Pos.peano_ind.
  - simpl. lia.
  - rewrite Pos.iter_succ, Pos2Z.inj_succ, Z.pow_succ_r by lia.
    rewrite Pos2Z.inj_xO, IH. lia.
Qed.

Lemma digits_shiftMantissa m k :
  (0 <= k)%Z -> Zpos (digits2_pos (shiftMantissa m k)) = (Zpos (digits2_pos m) + k)%Z.
Proof.
  intros Hk. destruct k as [|p|p]; [simpl; lia| |lia]. apply digits2_pos_iter_xO.
Qed.

(** Rounding a canonical mantissa that was shifted left gives it back. *)
Lemma binary_round_aux_exact s m e k :
  fexp prec emax (Zpos (digits2_pos m) + e) = e -> (e <=? emax - prec)%Z = true ->
  (0 <= k)%Z ->
  binary_round_aux prec emax s (Zpos (shiftMantissa m k)) (e - k) loc_Exact
  = S754_finite s m e.
Proof.
  intros Hc Hb Hk.
  assert (Hsecond : shr_fexp prec emax (Zpos m) e loc_Exact
                    = (Build_shr_record (Zpos m) false false, e)).
  { unfold shr_fexp. simpl Zdigits2. rewrite Hc, Z.sub_diag. reflexivity. }
  unfold binary_round_aux.
  assert (Hfirst : shr_fexp prec emax (Zpos (shiftMantissa m k)) (e - k) loc_Exact
                   = (Build_shr_record (Zpos m) false false, e)).
  { unfold shr_fexp. simpl Zdigits2. rewrite digits_shiftMantissa by exact Hk.
    replace (Zpos (digits2_pos m) + k + (e - k))%Z with (Zpos (digits2_pos m) + e)%Z by lia.
    rewrite Hc. replace (e - (e - k))%Z with k by lia.
    destruct k as [|p|p]; [| |lia].
    - simpl. rewrite Z.sub_0_r. reflexivity.
    - simpl shr. simpl shiftMantissa. rewrite shr_1_iter_exact. f_equal. lia. }
  rewrite Hfirst. cbn [shr_m shr_r shr_s loc_of_shr_record round_nearest_even].
  rewrite Hsecond. cbn [shr_m]. rewrite Hb. reflexivity.
Qed.

Lemma valid_finite x s m e :
  Prim2SF x = S754_finite s m e ->
  fexp prec emax (Zpos (digits2_pos m) + e) = e /\ (e <=? emax - prec)%Z = true.
Proof.
  intros H. pose proof (Prim2SF_valid x) as Hv. rewrite H in Hv.
  unfold SpecFloat.valid_binary, bounded, canonical_mantissa in Hv.
  apply andb_prop in Hv. destruct Hv as [Hc Hb].
  apply Z.eqb_eq in Hc. split; assumption.
Qed.

Lemma mul_1_l x : 1 * x = x.
Proof.
  apply Prim2SF_inj. rewrite FloatAxioms.mul_spec.
  change (Prim2SF 1) with (S754_finite false 4503599627370496 (-52)).
  destruct (Prim2SF x) as [s|s| |s m e] eqn:Hx; try reflexivity.
  destruct (valid_finite x s m e Hx) as [Hc Hb].
  unfold SF64mul, SFmul. simpl xorb.
  change (Pos.mul 4503599627370496 m) with (shiftMantissa m 52).
  replace (-52 + e)%Z with (e - 52)%Z by lia.
  apply binary_round_aux_exact; [assumption|assumption|lia].
Qed.

Lemma mul_1_r x : x * 1 = x.
Proof.
  apply Prim2SF_inj. rewrite FloatAxioms.mul_spec.
  change (Prim2SF 1) with (S754_finite false 4503599627370496 (-52)).
  destruct (Prim2SF x) as [s|s| |s m e] eqn:Hx; try (destruct s; reflexivity); try reflexivity.
  destruct (valid_finite x s m e Hx) as [Hc Hb].
  unfold SF64mul, SFmul. rewrite xorb_false_r, Pos.mul_comm.
  change (Pos.mul 4503599627370496 m) with (shiftMantissa m 52).
  replace (e + -52)%Z with (e - 52)%Z by lia.
  apply binary_round_aux_exact; [assumption|assumption|lia].
Qed.

(** x / x = 1 *)

Lemma SFdiv_diag s m e :
  SF64div (S754_finite s m e) (S754_finite s m e) = S754_finite false 4503599627370496 (-52).
Proof.
  unfold SF64div, SFdiv, SFdiv_core_binary.
  rewrite xorb_nilpotent, !Z.sub_diag.
  change (Z.min (fexp prec emax 0) 0) with (-53)%Z.
  change (0 - -53)%Z with 53%Z. cbv beta iota zeta.
  assert (Hd : Z.div_eucl (Z.shiftl (Zpos m) 53) (Zpos m) = (9007199254740992, 0)%Z).
  { rewrite Z.shiftl_mul_pow2 by lia.
    pose proof (Z_div_mod (Zpos m * 2 ^ 53) (Zpos m) ltac:(lia)) as H.
    destruct (Z.div_eucl (Zpos m * 2 ^ 53) (Zpos m)) as [q r].
    destruct H as [H1 H2].
    assert (q = 2 ^ 53)%Z by nia. assert (r = 0)%Z by nia. subst. reflexivity. }
  rewrite Hd.
  assert (Hl : new_location (Zpos m) 0 = loc_Exact).
  { unfold new_location. destruct (Z.even (Zpos m)); reflexivity. }
  rewrite Hl. reflexivity.
Qed.

Lemma div_diag x : isRegular x = true -> x / x = 1.
Proof.
  unfold isRegular. intros H. apply Prim2SF_inj. rewrite FloatAxioms.div_spec.
  destruct (Prim2SF x) as [| | |s m e]; try discriminate.
  apply SFdiv_diag.
Qed.

(** ** Small integers as numbers *)

Lemma fst_shl_align m e ez :
  (ez <= e)%Z -> fst (shl_align m e ez) = shiftMantissa m (e - ez).
Proof.
  intros H. unfold shl_align, shiftMantissa.
  destruct (ez - e)%Z as [|d|d] eqn:Hd; destruct (e - ez)%Z as [|d'|d'] eqn:Hd'; try lia; simpl;
    try reflexivity.
  f_equal. lia.
Qed.

(** Rounding a mantissa and exponent that denote the same value as a
    canonical pair gives that pair: [m * 2^e = M * 2^E], scaled by [2^-c]. *)
Lemma binary_round_value s m e M E c :
  fexp prec emax (Zpos (digits2_pos M) + E) = E -> (E <=? emax - prec)%Z = true ->
  (c <= e)%Z -> (c <= E)%Z ->
  (Zpos m * 2 ^ (e - c) = Zpos M * 2 ^ (E - c))%Z ->
  binary_round prec emax s m e = S754_finite s M E.
Proof.
  intros Hc Hb Hce HcE Hv.
  destruct (Z_le_gt_dec E e) as [Hle|Hgt].
  - (* shift [m] left *)
    assert (HM : M = shiftMantissa m (e - E)).
    { apply Pos2Z.inj. rewrite shiftMantissa_value by lia.
      replace (e - c)%Z with ((e - E) + (E - c))%Z in Hv by lia.
      rewrite Z.pow_add_r in Hv by lia.
      apply (Z.mul_cancel_r _ _ (2 ^ (E - c))%Z); [|lia].
      pose proof (Z.pow_pos_nonneg 2 (E - c)). lia. }
    unfold binary_round.
    assert (Hd : (Zpos (digits2_pos m) + e = Zpos (digits2_pos M) + E)%Z).
    { rewrite HM, digits_shiftMantissa by lia. lia. }
    rewrite Hd, Hc.
    assert (Hal : shl_align m e E = (M, E)).
    { unfold shl_align. rewrite HM. unfold shiftMantissa.
      destruct (E - e)%Z as [|d|d] eqn:Hd1; destruct (e - E)%Z as [|d'|d'] eqn:Hd2; try lia.
      - f_equal. lia.
      - f_equal. f_equal. lia. }
    rewrite Hal.
    pose proof (binary_round_aux_exact s M E 0 Hc Hb ltac:(lia)) as Hr.
    simpl shiftMantissa in Hr. rewrite Z.sub_0_r in Hr. exact Hr.
  - (* [m] is [M] shifted left *)
    assert (Hm : m = shiftMantissa M (E - e)).
    { apply Pos2Z.inj. rewrite shiftMantissa_value by lia.
      replace (E - c)%Z with ((E - e) + (e - c))%Z in Hv by lia.
      rewrite Z.pow_add_r in Hv by lia.
      apply (Z.mul_cancel_r _ _ (2 ^ (e - c))%Z); [|lia].
      pose proof (Z.pow_pos_nonneg 2 (e - c)). lia. }
    unfold binary_round.
    assert (Hd : (Zpos (digits2_pos m) + e = Zpos (digits2_pos M) + E)%Z).
    { rewrite Hm, digits_shiftMantissa by lia. lia. }
    rewrite Hd, Hc.
    assert (Hal : shl_align m e E = (m, e)).
    { unfold shl_align. destruct (E - e)%Z as [|d|d] eqn:Hd1; try lia; reflexivity. }
    rewrite Hal, Hm.
    replace e with (E - (E - e))%Z at 2 by lia.
    apply binary_round_aux_exact; [assumption|assumption|lia].
Qed.

Lemma digits2_pos_bounds p :
  (2 ^ (Zpos (digits2_pos p) - 1) <= Zpos p < 2 ^ Zpos (digits2_pos p))%Z.
Proof.
  induction p as [p IH|p IH|]; simpl digits2_pos.
  - rewrite Pos2Z.inj_succ.
    replace (Z.succ (Zpos (digits2_pos p)) - 1)%Z with (Z.succ (Zpos (digits2_pos p) - 1))%Z by lia.
    rewrite !Z.pow_succ_r by lia. lia.
  - rewrite Pos2Z.inj_succ.
    replace (Z.succ (Zpos (digits2_pos p)) - 1)%Z with (Z.succ (Zpos (digits2_pos p) - 1))%Z by lia.
    rewrite !Z.pow_succ_r by lia. lia.
  - simpl. lia.
Qed.

Lemma digits2_pos_small p : (Zpos p < 2 ^ 53)%Z -> (Zpos (digits2_pos p) <= 53)%Z.
Proof.
  intros H. destruct (digits2_pos_bounds p) as [Hl _].
  destruct (Z_le_gt_dec (Zpos (digits2_pos p)) 53) as [|Hgt]; [assumption|exfalso].
  assert (2 ^ 53 <= 2 ^ (Zpos (digits2_pos p) - 1))%Z by (apply Z.pow_le_mono_r; lia).
  lia.
Qed.

Lemma intMantissa_canonical p :
  (Zpos p < 2 ^ 53)%Z ->
  fexp prec emax (Zpos (digits2_pos (intMantissa p)) + intExponent p) = intExponent p
  /\ (intExponent p <=? emax - prec)%Z = true.
Proof.
  intros Hp. pose proof (digits2_pos_small p Hp) as Hd.
  unfold intMantissa, intExponent. rewrite digits_shiftMantissa by lia.
  unfold fexp, emin, prec, emax. split; [lia|]. apply Z.leb_le. lia.
Qed.

Lemma intMantissa_value p :
  (Zpos p < 2 ^ 53)%Z -> (Zpos (intMantissa p) = Zpos p * 2 ^ (- intExponent p))%Z.
Proof.
  intros Hp. pose proof (digits2_pos_small p Hp) as Hd.
  unfold intMantissa, intExponent. rewrite shiftMantissa_value by lia. f_equal. f_equal. lia.
Qed.

(** Rounding [q * 2^e], an integer [p] below 2^53 with [e <= 0]. *)
Lemma binary_round_int s q e p :
  (Zpos p < 2 ^ 53)%Z -> (e <= 0)%Z -> (Zpos q = Zpos p * 2 ^ (- e))%Z ->
  binary_round prec emax s q e = S754_finite s (intMantissa p) (intExponent p).
Proof.
  intros Hp He Hq. destruct (intMantissa_canonical p Hp) as [Hc Hb].
  pose proof (digits2_pos_small p Hp) as Hd.
  assert (HE : (intExponent p <= 0)%Z) by (unfold intExponent; lia).
  apply (binary_round_value s q e _ _ (Z.min e (intExponent p)) Hc Hb); try lia.
  rewrite Hq, intMantissa_value by exact Hp.
  rewrite <- !Z.mul_assoc, <- !Z.pow_add_r by lia.
  f_equal. f_equal. lia.
Qed.

Lemma binary_normalize_int z :
  (Z.abs z < 2 ^ 53)%Z -> binary_normalize prec emax z 0 false = intSF z.
Proof.
  intros Hz. destruct z as [|p|p]; [reflexivity| |]; simpl;
    apply binary_round_int; simpl; lia.
Qed.

Lemma intSF_valid z : (Z.abs z < 2 ^ 53)%Z -> valid_binary (intSF z) = true.
Proof.
  intros Hz. destruct z as [|p|p]; [reflexivity| |]; simpl;
    destruct (intMantissa_canonical p ltac:(lia)) as [Hc Hb];
    unfold bounded, canonical_mantissa; rewrite Hc, Z.eqb_refl, Hb; reflexivity.
Qed.

Lemma binary_normalize_scaled z e :
  (Z.abs z < 2 ^ 53)%Z -> (e <= 0)%Z ->
  binary_normalize prec emax (z * 2 ^ (- e)) e false = intSF z.
Proof.
  intros Hz He. pose proof (Z.pow_pos_nonneg 2 (- e) ltac:(lia) ltac:(lia)) as Hpow.
  destruct z as [|p|p]; [reflexivity| |].
  - destruct (Zpos p * 2 ^ (- e))%Z as [|q|q] eqn:Hq; try lia.
    simpl. apply binary_round_int; simpl in Hz; lia.
  - destruct (Zneg p * 2 ^ (- e))%Z as [|q|q] eqn:Hq; try lia.
    simpl. apply binary_round_int; simpl in Hz; lia.
Qed.

Lemma aligned_value p ez :
  (Zpos p < 2 ^ 53)%Z -> (ez <= intExponent p)%Z ->
  (Zpos (fst (shl_align (intMantissa p) (intExponent p) ez)) = Zpos p * 2 ^ (- ez))%Z.
Proof.
  intros Hp Hez. pose proof (digits2_pos_small p Hp) as Hd.
  assert (HE : (intExponent p <= 0)%Z) by (unfold intExponent; lia).
  rewrite fst_shl_align, shiftMantissa_value, intMantissa_value by lia.
  rewrite <- Z.mul_assoc, <- Z.pow_add_r by lia. f_equal. f_equal. lia.
Qed.

Definition intSign (z : Z) : bool := match z with Zneg _ => true | _ => false end.

Lemma SFadd_int a b :
  (Z.abs a < 2 ^ 53)%Z -> (Z.abs b < 2 ^ 53)%Z -> (Z.abs (a + b) < 2 ^ 53)%Z ->
  SF64add (intSF a) (intSF b) = intSF (a + b).
Proof.
  intros Ha Hb Hab.
  destruct a as [|p|p]; [destruct b; reflexivity| |];
  (destruct b as [|q|q]; [rewrite Z.add_0_r; reflexivity| |]);
  unfold SF64add, intSF at 1 2, SFadd;
  cbv zeta;
  set (ez := Z.min (intExponent p) (intExponent q));
  rewrite !aligned_value by (simpl in Ha, Hb; lia);
  assert (Hez : (ez <= 0)%Z)
    by (pose proof (digits2_pos_small p ltac:(simpl in Ha; lia)); unfold ez, intExponent; lia);
  unfold cond_Zopp;
  rewrite <- ?Z.mul_opp_l, <- Z.mul_add_distr_r;
  apply binary_normalize_scaled; simpl; simpl in Hab; lia.
Qed.

Lemma SFsub_int a b :
  (Z.abs a < 2 ^ 53)%Z -> (Z.abs b < 2 ^ 53)%Z -> (Z.abs (a - b) < 2 ^ 53)%Z ->
  SF64sub (intSF a) (intSF b) = intSF (a - b).
Proof.
  intros Ha Hb Hab.
  destruct a as [|p|p]; [destruct b; reflexivity| |];
  (destruct b as [|q|q]; [rewrite Z.sub_0_r; reflexivity| |]);
  unfold SF64sub, intSF at 1 2, SFsub;
  cbv zeta;
  set (ez := Z.min (intExponent p) (intExponent q));
  rewrite !aligned_value by (simpl in Ha, Hb; lia);
  assert (Hez : (ez <= 0)%Z)
    by (pose proof (digits2_pos_small p ltac:(simpl in Ha; lia)); unfold ez, intExponent; lia);
  unfold cond_Zopp;
  rewrite <- ?Z.mul_opp_l, <- Z.mul_sub_distr_r;
  apply binary_normalize_scaled; simpl; simpl in Hab; lia.
Qed.

(** ** Order *)

Lemma SFcompare_rank x y :
  x <> S754_nan -> y <> S754_nan -> SFcompare x y = Some (lexCompare (rank x) (rank y)).
Proof.
  intros Hx Hy.
  destruct x as [[]|[]| |[] mx ex]; try congruence;
  destruct y as [[]|[]| |[] my ey]; try congruence; try reflexivity.
  - unfold SFcompare, rank, lexCompare; simpl fst; simpl snd.
    change (-1 ?= -1)%Z with Eq. cbv iota.
    rewrite (Z.compare_opp ex ey), (Z.compare_antisym ex ey).
    destruct (ex ?= ey)%Z; reflexivity.
Qed.

Lemma lexCompare_Lt a b :
  lexCompare a b = Lt <->
  (fst (fst a) < fst (fst b) \/
   (fst (fst a) = fst (fst b) /\
    (snd (fst a) < snd (fst b) \/ (snd (fst a) = snd (fst b) /\ snd a < snd b))))%Z.
Proof.
  unfold lexCompare.
  destruct (Z.compare_spec (fst (fst a)) (fst (fst b)));
  destruct (Z.compare_spec (snd (fst a)) (snd (fst b)));
  destruct (Z.compare_spec (snd a) (snd b)); split; intros; try discriminate; try reflexivity; lia.
Qed.

Lemma lexCompare_Eq a b :
  lexCompare a b = Eq <-> a = b.
Proof.
  unfold lexCompare. destruct a as [[a1 a2] a3], b as [[b1 b2] b3]. simpl.
  destruct (Z.compare_spec a1 b1);
  destruct (Z.compare_spec a2 b2);
  destruct (Z.compare_spec a3 b3); split; intros H'; try discriminate; try reflexivity;
  try (injection H' as -> -> ->; lia); subst; reflexivity.
Qed.

Lemma lexCompare_Gt a b : lexCompare a b = Gt <-> lexCompare b a = Lt.
Proof.
  rewrite lexCompare_Lt. unfold lexCompare.
  destruct (Z.compare_spec (fst (fst a)) (fst (fst b)));
  destruct (Z.compare_spec (snd (fst a)) (snd (fst b)));
  destruct (Z.compare_spec (snd a) (snd b)); split; intros; try discriminate; try reflexivity; lia.
Qed.

Lemma isNaN_false_iff x : Number.isNaN x = false <-> Prim2SF x <> S754_nan.
Proof. unfold Number.isNaN. destruct (Prim2SF x); split; congruence. Qed.

Lemma ltb_rank x y :
  (x <? y) = true <->
  Number.isNaN x = false /\ Number.isNaN y = false /\
  lexCompare (rank (Prim2SF x)) (rank (Prim2SF y)) = Lt.
Proof.
  rewrite FloatAxioms.ltb_spec. unfold SFltb.
  destruct (Number.isNaN x) eqn:Hx.
  { unfold Number.isNaN in Hx. destruct (Prim2SF x); try discriminate.
    simpl. split; [discriminate|]. intros (H & _); discriminate. }
  destruct (Number.isNaN y) eqn:Hy.
  { unfold Number.isNaN in Hy. destruct (Prim2SF y); try discriminate.
    destruct (Prim2SF x); simpl; (split; [discriminate|]); intros (_ & H & _); discriminate. }
  apply isNaN_false_iff in Hx, Hy. rewrite SFcompare_rank by assumption.
  destruct (lexCompare _ _); split; try discriminate; try tauto; intros (_ & _ & H); discriminate.
Qed.

Lemma leb_rank x y :
  (x <=? y) = true <->
  Number.isNaN x = false /\ Number.isNaN y = false /\
  lexCompare (rank (Prim2SF x)) (rank (Prim2SF y)) <> Gt.
Proof.
  rewrite FloatAxioms.leb_spec. unfold SFleb.
  destruct (Number.isNaN x) eqn:Hx.
  { unfold Number.isNaN in Hx. destruct (Prim2SF x); try discriminate.
    simpl. split; [discriminate|]. intros (H & _); discriminate. }
  destruct (Number.isNaN y) eqn:Hy.
  { unfold Number.isNaN in Hy. destruct (Prim2SF y); try discriminate.
    destruct (Prim2SF x); simpl; (split; [discriminate|]); intros (_ & H & _); discriminate. }
  apply isNaN_false_iff in Hx, Hy. rewrite SFcompare_rank by assumption.
  destruct (lexCompare _ _); split; try discriminate; try tauto; intros _; repeat split; discriminate.
Qed.

Lemma lexCompare_not_Gt a b :
  lexCompare a b <> Gt <->
  (fst (fst a) < fst (fst b) \/
   (fst (fst a) = fst (fst b) /\
    (snd (fst a) < snd (fst b) \/ (snd (fst a) = snd (fst b) /\ snd a <= snd b))))%Z.
Proof.
  unfold lexCompare.
  destruct (Z.compare_spec (fst (fst a)) (fst (fst b)));
  destruct (Z.compare_spec (snd (fst a)) (snd (fst b)));
  destruct (Z.compare_spec (snd a) (snd b)); split; intros; try congruence; lia.
Qed.

Lemma ltb_asym x y : (x <? y) = true -> (y <? x) = false.
Proof.
  intros H. destruct (y <? x) eqn:H'; [|reflexivity].
  apply ltb_rank in H, H'. destruct H as (_ & _ & H), H' as (_ & _ & H').
  apply lexCompare_Lt in H, H'. lia.
Qed.

Lemma ltb_irrefl x : (x <? x) = false.
Proof.
  destruct (x <? x) eqn:H; [|reflexivity].
  pose proof (ltb_asym x x H). congruence.
Qed.

Lemma leb_trans x y z : (x <=? y) = true -> (y <=? z) = true -> (x <=? z) = true.
Proof.
  rewrite !leb_rank, !lexCompare_not_Gt. intros (Hx & Hy & H1) (_ & Hz & H2).
  repeat split; try assumption. lia.
Qed.

Lemma ltb_leb x y : (x <? y) = true -> (x <=? y) = true.
Proof.
  rewrite ltb_rank, leb_rank, lexCompare_Lt, lexCompare_not_Gt.
  intros (Hx & Hy & H). repeat split; try assumption. lia.
Qed.

Lemma leb_refl x : Number.isNaN x = false -> (x <=? x) = true.
Proof. intros H. rewrite leb_rank, lexCompare_not_Gt. repeat split; try assumption. lia. Qed.

Lemma not_ltb_leb x y :
  Number.isNaN x = false -> Number.isNaN y = false -> (x <? y) = false -> (y <=? x) = true.
Proof.
  intros Hx Hy H. rewrite leb_rank, lexCompare_not_Gt. repeat split; try assumption.
  destruct (lexCompare (rank (Prim2SF x)) (rank (Prim2SF y))) eqn:Hc.
  - apply lexCompare_Eq in Hc. rewrite Hc. lia.
  - exfalso. assert ((x <? y) = true) by (apply ltb_rank; auto). congruence.
  - apply lexCompare_Gt, lexCompare_Lt in Hc. lia.
Qed.

(** Math.min / Math.max on numbers that are not NaN. *)
Lemma Math_min_spec m x :
  Number.isNaN m = false -> Number.isNaN x = false ->
  (Math.min m x = m \/ Math.min m x = x)
  /\ (Math.min m x <=? m) = true /\ (Math.min m x <=? x) = true.
Proof.
  intros Hm Hx. unfold Math.min. rewrite Hm, Hx. simpl.
  destruct (m <? x) eqn:H1.
  { split; [left; reflexivity|]. split; [apply leb_refl, Hm|apply ltb_leb, H1]. }
  destruct (x <? m) eqn:H2.
  { split; [right; reflexivity|]. split; [apply ltb_leb, H2|apply leb_refl, Hx]. }
  pose proof (not_ltb_leb _ _ Hm Hx H1). pose proof (not_ltb_leb _ _ Hx Hm H2).
  destruct (Number.isNegZero m).
  - split; [left; reflexivity|]. split; [apply leb_refl, Hm|assumption].
  - split; [right; reflexivity|]. split; [assumption|apply leb_refl, Hx].
Qed.

Lemma Math_max_spec m x :
  Number.isNaN m = false -> Number.isNaN x = false ->
  (Math.max m x = m \/ Math.max m x = x)
  /\ (m <=? Math.max m x) = true /\ (x <=? Math.max m x) = true.
Proof.
  intros Hm Hx. unfold Math.max. rewrite Hm, Hx. simpl.
  destruct (x <? m) eqn:H1.
  { split; [left; reflexivity|]. split; [apply leb_refl, Hm|apply ltb_leb, H1]. }
  destruct (m <? x) eqn:H2.
  { split; [right; reflexivity|]. split; [apply ltb_leb, H2|apply leb_refl, Hx]. }
  pose proof (not_ltb_leb _ _ Hm Hx H2). pose proof (not_ltb_leb _ _ Hx Hm H1).
  destruct (Number.isNegZero m).
  - split; [right; reflexivity|]. split; [assumption|apply leb_refl, Hx].
  - split; [left; reflexivity|]. split; [apply leb_refl, Hm|assumption].
Qed.

Lemma infinity_leb_finite x : Number.isFinite x = true -> (infinity <=? x) = false.
Proof.
  unfold Number.isFinite. rewrite FloatAxioms.leb_spec.
  change (Prim2SF infinity) with (S754_infinity false).
  destruct (Prim2SF x) as [| | |[] m e]; try discriminate; reflexivity.
Qed.

Lemma finite_leb_neg_infinity x : Number.isFinite x = true -> (x <=? neg_infinity) = false.
Proof.
  unfold Number.isFinite. rewrite FloatAxioms.leb_spec.
  change (Prim2SF neg_infinity) with (S754_infinity true).
  destruct (Prim2SF x) as [| | |[] m e]; try discriminate; reflexivity.
Qed.

(** * Properties of the segment builder *)

Lemma subdivideStep_segs a b i n st s :
  map val (segs (subdivideStep a b i n st s)) = map val (segs st) ++ [makeSegment a b i n s].
Proof. unfold subdivideStep; simpl. rewrite map_app. reflexivity. Qed.

Lemma subdivide_fold_segs a b i n l st :
  map val (segs (fold_left (subdivideStep a b i n) l st))
  = map val (segs st) ++ map (makeSegment a b i n) l.
Proof.
  revert st. induction l as [|s l IH]; intros st; simpl.
  - rewrite app_nil_r. reflexivity.
  - rewrite IH, subdivideStep_segs, <- app_assoc. reflexivity.
Qed.

Lemma subdivideLoop_segs a b i n st :
  map val (segs (subdivideLoop a b i n st)) = map val (segs st) ++ pairSegments a b i n.
Proof. apply subdivide_fold_segs. Qed.

Lemma pairsLoop_segs n points : forall i st,
  map val (segs (pairsLoop n i points st)) = map val (segs st) ++ trackSegments n i points.
Proof.
  induction points as [|a rest IH]; intros i st.
  - simpl. rewrite app_nil_r. reflexivity.
  - destruct rest as [|b rest'].
    + simpl. rewrite app_nil_r. reflexivity.
    + change (pairsLoop n i (a :: b :: rest') st)
        with (pairsLoop n (S i) (b :: rest') (subdivideLoop a b i n st)).
      change (trackSegments n i (a :: b :: rest'))
        with (pairSegments a b i n ++ trackSegments n (S i) (b :: rest')).
      rewrite IH, subdivideLoop_segs, <- app_assoc. reflexivity.
Qed.

(** Each pushed object gets the next allocation number. *)
Lemma subdivide_fold_refs a b i n l st :
  map ref (segs st) = seq 0 (length (segs st)) ->
  map ref (segs (fold_left (subdivideStep a b i n) l st))
  = seq 0 (length (segs (fold_left (subdivideStep a b i n) l st))).
Proof.
  revert st. induction l as [|s l IH]; intros st Hst; simpl; [exact Hst|].
  apply IH. unfold subdivideStep; simpl.
  rewrite map_app, length_app, Hst. simpl. rewrite seq_app. reflexivity.
Qed.

Lemma pairsLoop_refs n points : forall i st,
  map ref (segs st) = seq 0 (length (segs st)) ->
  map ref (segs (pairsLoop n i points st)) = seq 0 (length (segs (pairsLoop n i points st))).
Proof.
  induction points as [|a rest IH]; intros i st Hst; [exact Hst|].
  destruct rest as [|b rest']; [exact Hst|].
  change (pairsLoop n i (a :: b :: rest') st)
    with (pairsLoop n (S i) (b :: rest') (subdivideLoop a b i n st)).
  apply IH. apply subdivide_fold_refs, Hst.
Qed.

Lemma trackSegments_length n points : forall i,
  length (trackSegments n i points) = ((length points - 1) * n)%nat.
Proof.
  induction points as [|a rest IH]; intros i; [reflexivity|].
  destruct rest as [|b rest']; [reflexivity|].
  change (trackSegments n i (a :: b :: rest'))
    with (pairSegments a b i n ++ trackSegments n (S i) (b :: rest')).
  rewrite length_app, IH. unfold pairSegments. rewrite length_map, length_seq.
  simpl. lia.
Qed.

(** The segments of a build over at least two samples. *)
Lemma buildSegments_segments points options :
  (2 <= length points)%nat ->
  map val (BuildResult.segments (buildSegments points options))
  = trackSegments (BuildSegmentsOptions.subdivisions options) 0 points.
Proof.
  intros Hlen. unfold buildSegments.
  destruct (Nat.ltb_spec (length points) 2) as [Hlt|_]; [lia|].
  simpl. apply pairsLoop_segs.
Qed.

(** C1: over at least two samples and with [subdivisions = n >= 1], the
    builder returns [(samples.length - 1) * n] segments. *)
Theorem buildSegments_segment_count (points : list Point.t) (options : BuildSegmentsOptions.t) :
  (2 <= length points)%nat ->
  (1 <= BuildSegmentsOptions.subdivisions options)%nat ->
  length (BuildResult.segments (buildSegments points options))
  = ((length points - 1) * BuildSegmentsOptions.subdivisions options)%nat.
Proof.
  intros Hlen _.
  rewrite <- (length_map val), buildSegments_segments by exact Hlen.
  apply trackSegments_length.
Qed.

Lemma pairSegments_lookup a b i n s :
  (s < n)%nat -> pairSegments a b i n !! s = Some (makeSegment a b i n s).
Proof.
  intros Hs. unfold pairSegments.
  rewrite list_lookup_fmap, lookup_seq_lt by exact Hs. reflexivity.
Qed.

Lemma pairSegments_length a b i n : length (pairSegments a b i n) = n.
Proof. unfold pairSegments. rewrite length_map, length_seq. reflexivity. Qed.

(** The segment at sub-index [s] of the pair starting at sample [i]. *)
Lemma trackSegments_lookup n points : forall i0 i s a b,
  points !! i = Some a -> points !! S i = Some b -> (s < n)%nat ->
  trackSegments n i0 points !! (i * n + s)%nat = Some (makeSegment a b (i0 + i) n s).
Proof.
  induction points as [|p rest IH]; intros i0 i s a b Ha Hb Hs; [discriminate|].
  destruct rest as [|q rest']; [discriminate|].
  change (trackSegments n i0 (p :: q :: rest'))
    with (pairSegments p q i0 n ++ trackSegments n (S i0) (q :: rest')).
  destruct i as [|i'].
  - simpl in Ha, Hb. injection Ha as ->. injection Hb as ->.
    rewrite lookup_app_l by (rewrite pairSegments_length; simpl; lia).
    rewrite Nat.add_0_r. apply pairSegments_lookup, Hs.
  - rewrite lookup_app_r by (rewrite pairSegments_length; simpl; lia).
    rewrite pairSegments_length.
    replace (S i' * n + s - n)%nat with (i' * n + s)%nat by (simpl; lia).
    replace (i0 + S i')%nat with (S i0 + i')%nat by lia.
    apply IH; assumption.
Qed.

Lemma buildSegments_lookup points options i s a b :
  points !! i = Some a -> points !! S i = Some b ->
  (s < BuildSegmentsOptions.subdivisions options)%nat ->
  exists o, BuildResult.segments (buildSegments points options)
              !! (i * BuildSegmentsOptions.subdivisions options + s)%nat = Some o
            /\ val o = makeSegment a b i (BuildSegmentsOptions.subdivisions options) s.
Proof.
  intros Ha Hb Hs.
  assert (Hlen : (2 <= length points)%nat).
  { apply lookup_lt_Some in Hb. lia. }
  pose proof (trackSegments_lookup _ points 0 i s a b Ha Hb Hs) as Hk.
  rewrite <- buildSegments_segments in Hk by exact Hlen.
  rewrite list_lookup_fmap in Hk.
  destruct (BuildResult.segments (buildSegments points options) !! _) as [o|]; [|discriminate].
  exists o. split; [reflexivity|]. simpl in Hk. congruence.
Qed.

(** C2: two adjacent segments made from the same pair of samples, at
    sub-indices [s] and [s + 1], share their boundary: the first one's
    [speed1], [time1] and end coordinate are the second one's [speed0],
    [time0] and start coordinate, as the same numbers. *)
Theorem adjacent_segments_continuous (points : list Point.t)
    (options : BuildSegmentsOptions.t) (i s : nat) :
  let n := BuildSegmentsOptions.subdivisions options in
  let segments := BuildResult.segments (buildSegments points options) in
  (2 <= length points)%nat -> (1 <= n)%nat ->
  (i + 1 < length points)%nat -> (s + 1 < n)%nat ->
  exists k k',
    segments !! (i * n + s)%nat = Some k /\
    segments !! (i * n + s + 1)%nat = Some k' /\
    Segment.id (val k) = segmentId i s /\
    Segment.id (val k') = segmentId i (s + 1) /\
    Segment.speed1 (val k) = Segment.speed0 (val k') /\
    Segment.time1 (val k) = Segment.time0 (val k') /\
    snd (Segment.path (val k)) = fst (Segment.path (val k')).
Proof.
  intros n segments _ _ Hi Hs.
  destruct (lookup_lt_is_Some_2 points i ltac:(lia)) as [a Ha].
  destruct (lookup_lt_is_Some_2 points (S i) ltac:(lia)) as [b Hb].
  destruct (buildSegments_lookup points options i s a b Ha Hb ltac:(fold n; lia))
    as (k & Hk & Hvk).
  destruct (buildSegments_lookup points options i (s + 1) a b Ha Hb ltac:(fold n; lia))
    as (k' & Hk' & Hvk').
  exists k, k'. fold n in Hk, Hk', Hvk, Hvk'. subst segments.
  rewrite Nat.add_assoc in Hk'.
  split; [exact Hk|]. split; [exact Hk'|].
  rewrite Hvk, Hvk'. repeat split.
Qed.

Lemma buildSegments_segment_count_witness :
  length (BuildResult.segments (buildSegments twoSamples (plainOptions 2))) = 2%nat.
Proof.
  apply (buildSegments_segment_count twoSamples (plainOptions 2)); simpl; lia.
Defined.

Lemma adjacent_segments_continuous_witness :
  exists k k',
    BuildResult.segments (buildSegments twoSamples (plainOptions 2)) !! 0%nat = Some k /\
    BuildResult.segments (buildSegments twoSamples (plainOptions 2)) !! 1%nat = Some k' /\
    Segment.id (val k) = "0-0"%string /\
    Segment.id (val k') = "0-1"%string /\
    Segment.speed1 (val k) = Segment.speed0 (val k') /\
    Segment.time1 (val k) = Segment.time0 (val k') /\
    snd (Segment.path (val k)) = fst (Segment.path (val k')).
Proof.
  apply (adjacent_segments_continuous twoSamples (plainOptions 2) 0 0); simpl; lia.
Defined.

(** C4: with fewer than two samples the builder returns no segment, the
    overrides or else 0 and 1 as speed range, the view at the origin with zoom
    2, an empty grid index and the cell size 0.05. *)
Theorem buildSegments_degenerate (points : list Point.t) (options : BuildSegmentsOptions.t) :
  (length points < 2)%nat ->
  buildSegments points options
  = {| BuildResult.segments := [];
       BuildResult.minSpeed := default 0 (BuildSegmentsOptions.minSpeedOverride options);
       BuildResult.maxSpeed := default 1 (BuildSegmentsOptions.maxSpeedOverride options);
       BuildResult.initialViewState :=
         {| ViewState.longitude := 0; ViewState.latitude := 0; ViewState.zoom := 2;
            ViewState.pitch := 0; ViewState.bearing := 0 |};
       BuildResult.gridIndex := ∅;
       BuildResult.gridSize := 0.05 |}.
Proof.
  intros Hlen. unfold buildSegments.
  destruct (Nat.ltb_spec (length points) 2) as [_|Hge]; [reflexivity|lia].
Qed.

Lemma buildSegments_degenerate_witness :
  buildSegments [sampleA] (plainOptions 6)
  = {| BuildResult.segments := [];
       BuildResult.minSpeed := 0;
       BuildResult.maxSpeed := 1;
       BuildResult.initialViewState := ViewState.mk 0 0 2 0 0;
       BuildResult.gridIndex := ∅;
       BuildResult.gridSize := 0.05 |}.
Proof. apply (buildSegments_degenerate [sampleA] (plainOptions 6)). simpl. lia. Defined.

Lemma zoomFor_not_2 span : zoomFor span <> 2.
Proof.
  unfold zoomFor.
  destruct (span <? 0.025); [float_discriminate|].
  destruct (span <? 0.05); [float_discriminate|].
  destruct (span <? 0.1); [float_discriminate|].
  destruct (span <? 0.2); [float_discriminate|].
  destruct (span <? 0.4); [float_discriminate|].
  destruct (span <? 0.8); float_discriminate.
Qed.

Lemma pairsLoop_no_subdivision points : forall i st, pairsLoop 0 i points st = st.
Proof.
  induction points as [|a rest IH]; intros i st; [reflexivity|].
  destruct rest as [|b rest']; [reflexivity|].
  change (pairsLoop 0 i (a :: b :: rest') st)
    with (pairsLoop 0 (S i) (b :: rest') (subdivideLoop a b i 0 st)).
  rewrite IH. reflexivity.
Qed.

(** * Properties of the nearest-point query *)

Section NearestFacts.

Variable cos : float -> float.

Lemma scanStep_is_Some lon lat best s : is_Some (scanStep cos lon lat best s).
Proof.
  unfold scanStep. destruct best as [b|]; [|eexists; reflexivity].
  destruct (_ <? _); eexists; reflexivity.
Qed.

Lemma scan_fold_is_Some lon lat l : forall best,
  is_Some best -> is_Some (fold_left (scanStep cos lon lat) l best).
Proof.
  induction l as [|s l IH]; intros best Hb; simpl; [exact Hb|].
  apply IH, scanStep_is_Some.
Qed.

Lemma scan_is_Some lon lat l : l <> [] -> is_Some (scan cos lon lat l).
Proof.
  destruct l as [|s l]; [congruence|]. intros _.
  unfold scan. simpl. apply scan_fold_is_Some. eexists; reflexivity.
Qed.

Lemma candidatesOf_nonempty lon lat segments gridIndex gridSize :
  segments <> [] -> candidatesOf lon lat segments gridIndex gridSize <> [].
Proof.
  intros Hs. unfold candidatesOf.
  destruct gridIndex as [g|]; [|exact Hs].
  destruct gridSize as [size|]; [|exact Hs].
  destruct (Number.truthy size); [|exact Hs].
  destruct (neighbourhood g size lon lat) as [|o set] eqn:Hset; simpl; [exact Hs|].
  discriminate.
Qed.

End NearestFacts.

(** C7: the query returns [null] exactly when there is no segment; with a
    segment it returns a result, whatever the query point, the index and
    the cell size. *)
Theorem findNearest_null_iff_empty (cos : float -> float) (lon lat : float)
    (segments : list (Obj Segment.t))
    (gridIndex : option (gmap (float * float) (list (Obj Segment.t))))
    (gridSize : option float) :
  (findNearestPointOnTrack cos lon lat segments gridIndex gridSize = None <-> segments = [])
  /\ (segments <> [] ->
      exists r, findNearestPointOnTrack cos lon lat segments gridIndex gridSize = Some r).
Proof.
  assert (Hsome : segments <> [] ->
            is_Some (findNearestPointOnTrack cos lon lat segments gridIndex gridSize)).
  { intros Hs. unfold findNearestPointOnTrack.
    destruct segments as [|o l]; [congruence|]. simpl length. simpl Nat.eqb. cbv iota.
    apply scan_is_Some, candidatesOf_nonempty, Hs. }
  split; [split|].
  - intros Hnone. destruct segments as [|o l]; [reflexivity|].
    destruct Hsome as [r Hr]; [discriminate|]. congruence.
  - intros ->. reflexivity.
  - intros Hs. destruct (Hsome Hs) as [r Hr]. exists r. exact Hr.
Qed.

(** * The speed range of a build *)

Lemma rangeInv_not_NaN st :
  rangeInv st -> Number.isNaN (minS st) = false /\ Number.isNaN (maxS st) = false.
Proof.
  intros ([Hm|Hm] & [HM|HM] & _); split;
    try (rewrite Hm; reflexivity); try (rewrite HM; reflexivity);
    apply isFinite_not_NaN; assumption.
Qed.

Lemma rangeInv_step a b i n st s : rangeInv st -> rangeInv (subdivideStep a b i n st s).
Proof.
  intros Hinv. destruct (rangeInv_not_NaN st Hinv) as [Hnm HnM].
  destruct Hinv as (Hm & HM & Hsegs).
  unfold subdivideStep. set (x := Segment.speed (makeSegment a b i n s)).
  destruct (Number.isFinite x) eqn:Hx; unfold rangeInv; simpl.
  - pose proof (isFinite_not_NaN x Hx) as Hnx.
    destruct (Math_min_spec (minS st) x Hnm Hnx) as (Hmin & Hmin1 & Hmin2).
    destruct (Math_max_spec (maxS st) x HnM Hnx) as (Hmax & Hmax1 & Hmax2).
    split; [|split].
    + destruct Hmin as [E|E]; rewrite E; [|right; exact Hx].
      destruct Hm as [Hm|Hm]; [|right; exact Hm].
      rewrite E, Hm in Hmin2. rewrite infinity_leb_finite in Hmin2 by exact Hx. discriminate.
    + destruct Hmax as [E|E]; rewrite E; [|right; exact Hx].
      destruct HM as [HM|HM]; [|right; exact HM].
      rewrite E, HM in Hmax2. rewrite finite_leb_neg_infinity in Hmax2 by exact Hx. discriminate.
    + intros o Ho Hfin. apply elem_of_app in Ho. destruct Ho as [Ho|Ho].
      * destruct (Hsegs o Ho Hfin) as [H1 H2]. split.
        -- exact (leb_trans _ _ _ Hmin1 H1).
        -- exact (leb_trans _ _ _ H2 Hmax1).
      * apply list_elem_of_singleton in Ho. subst o.
        change (Segment.speed (val (mkObj (length (segs st)) (makeSegment a b i n s)))) with x.
        split; assumption.
  - split; [exact Hm|]. split; [exact HM|].
    intros o Ho Hfin. apply elem_of_app in Ho. destruct Ho as [Ho|Ho].
    + exact (Hsegs o Ho Hfin).
    + apply list_elem_of_singleton in Ho. subst o.
      change (Number.isFinite x = true) in Hfin. congruence.
Qed.

Lemma rangeInv_subdivideLoop a b i n st : rangeInv st -> rangeInv (subdivideLoop a b i n st).
Proof.
  unfold subdivideLoop. generalize (seq 0 n). intros l. revert st.
  induction l as [|s l IH]; intros st Hinv; simpl; [exact Hinv|].
  apply IH, rangeInv_step, Hinv.
Qed.

Lemma rangeInv_pairsLoop n points : forall i st,
  rangeInv st -> rangeInv (pairsLoop n i points st).
Proof.
  induction points as [|a rest IH]; intros i st Hinv; [exact Hinv|].
  destruct rest as [|b rest']; [exact Hinv|].
  change (pairsLoop n i (a :: b :: rest') st)
    with (pairsLoop n (S i) (b :: rest') (subdivideLoop a b i n st)).
  apply IH, rangeInv_subdivideLoop, Hinv.
Qed.

Lemma rangeInv_initial : rangeInv (mkBuildState infinity neg_infinity []).
Proof.
  split; [left; reflexivity|]. split; [left; reflexivity|].
  intros o Ho. apply elem_of_nil in Ho. destruct Ho.
Qed.

(** C5 (as amended): in a build over at least two samples with
    [subdivisions >= 1] and no override, every segment whose midpoint speed is
    a finite number has [minSpeed <= speed <= maxSpeed]. *)
Theorem finite_speeds_within_range (points : list Point.t) (n : nat) (o : Obj Segment.t) :
  let result := buildSegments points (plainOptions n) in
  (2 <= length points)%nat -> (1 <= n)%nat ->
  o ∈ BuildResult.segments result ->
  Number.isFinite (Segment.speed (val o)) = true ->
  (BuildResult.minSpeed result <=? Segment.speed (val o)) = true
  /\ (Segment.speed (val o) <=? BuildResult.maxSpeed result) = true.
Proof.
  intros result Hlen _ Ho Hfin. subst result. revert Ho. unfold buildSegments.
  destruct (Nat.ltb_spec (length points) 2) as [Hlt|_]; [lia|].
  simpl. set (st := pairsLoop n 0 points _). intros Ho.
  destruct (rangeInv_pairsLoop n points 0 _ rangeInv_initial) as (Hm & HM & Hsegs).
  fold st in Hm, HM, Hsegs.
  destruct (Hsegs o Ho Hfin) as [H1 H2].
  assert (Hfm : Number.isFinite (minS st) = true).
  { destruct Hm as [Hm|Hm]; [|exact Hm].
    rewrite Hm, infinity_leb_finite in H1 by exact Hfin. discriminate. }
  assert (HfM : Number.isFinite (maxS st) = true).
  { destruct HM as [HM|HM]; [|exact HM].
    rewrite HM, finite_leb_neg_infinity in H2 by exact Hfin. discriminate. }
  rewrite Hfm, HfM. simpl. split; assumption.
Qed.

Lemma finite_speeds_within_range_witness :
  exists o, BuildResult.segments (buildSegments twoSamples (plainOptions 2)) !! 1%nat = Some o
  /\ (BuildResult.minSpeed (buildSegments twoSamples (plainOptions 2)) <=? Segment.speed (val o)) = true
  /\ (Segment.speed (val o) <=? BuildResult.maxSpeed (buildSegments twoSamples (plainOptions 2))) = true.
Proof.
  eexists. split; [reflexivity|].
  apply (finite_speeds_within_range twoSamples 2).
  - simpl; lia.
  - lia.
  - apply list_elem_of_lookup. exists 1%nat. reflexivity.
  - reflexivity.
Defined.

(** C5 as stated fails where a midpoint speed is not finite: the loop leaves
    such a speed out of [minS] and [maxS].  Two samples at speed 1e308 give a
    segment of speed [Infinity] in the range 0 to 1; a sample without a speed
    reading gives a segment of speed [NaN], which no bound compares with. *)
Lemma speed_range_counterexample :
  (exists o, o ∈ BuildResult.segments (buildSegments fastTrack (plainOptions 1))
     /\ Segment.speed (val o) = infinity
     /\ BuildResult.maxSpeed (buildSegments fastTrack (plainOptions 1)) = 1
     /\ (Segment.speed (val o)
         <=? BuildResult.maxSpeed (buildSegments fastTrack (plainOptions 1))) = false)
  /\ (exists o, o ∈ BuildResult.segments (buildSegments gapTrack (plainOptions 1))
     /\ (BuildResult.minSpeed (buildSegments gapTrack (plainOptions 1))
         <=? Segment.speed (val o)) = false).
Proof.
  split.
  - eexists. split; [apply list_elem_of_lookup; exists 0%nat; reflexivity|].
    repeat split.
  - eexists. split; [apply list_elem_of_lookup; exists 0%nat; reflexivity|].
    reflexivity.
Qed.

(** * Candidates of the nearest-point query *)

Section CandidateFacts.

Variable cos : float -> float.



(** The query depends on the cosine through [segmentScale] only. *)
Lemma candidate_ext cos' lon lat s :
  segmentScale cos s = segmentScale cos' s ->
  parameter cos lon lat s = parameter cos' lon lat s
  /\ candidate cos lon lat s = candidate cos' lon lat s.
Proof.
  intros H.
  assert (Hp : parameter cos lon lat s = parameter cos' lon lat s).
  { unfold parameter, rawParameter, denominator, offsetVector, directionVector.
    rewrite H. reflexivity. }
  split; [exact Hp|]. unfold candidate. rewrite Hp. unfold resultAt. rewrite H. reflexivity.
Qed.

Hypothesis cos_0 : cos 0 = 1.

Lemma segmentScale_equator s :
  latRad s = 0 -> segmentScale cos s = segmentScale cosOne s.
Proof.
  intros H. unfold segmentScale, metersPerDegree. rewrite H.
  change (2 * 0) with 0. change (3 * 0) with 0. change (4 * 0) with 0.
  rewrite cos_0. reflexivity.
Qed.

Lemma scan_fold_equator lon lat l : forall best,
  forallb equatorial l = true ->
  fold_left (scanStep cos lon lat) l best = fold_left (scanStep cosOne lon lat) l best.
Proof.
  induction l as [|o l IH]; intros best Hl; [reflexivity|].
  simpl in Hl. apply andb_prop in Hl. destruct Hl as [Ho Hl].
  apply bool_decide_eq_true in Ho.
  destruct (candidate_ext cosOne lon lat (val o) (segmentScale_equator _ Ho)) as [_ Hc].
  simpl. unfold scanStep at 2 4. rewrite Hc. apply IH, Hl.
Qed.

Lemma findNearest_equator lon lat segments gridIndex gridSize :
  forallb equatorial (candidatesOf lon lat segments gridIndex gridSize) = true ->
  findNearestPointOnTrack cos lon lat segments gridIndex gridSize
  = findNearestPointOnTrack cosOne lon lat segments gridIndex gridSize.
Proof.
  intros H. unfold findNearestPointOnTrack, scan.
  destruct (length segments =? 0)%nat; [reflexivity|]. apply scan_fold_equator, H.
Qed.

End CandidateFacts.

(** * Interpolation at the two ends of a segment *)

Lemma interpolate_at_0 a b :
  Number.isFinite (b - a) = true -> (a + (b - a) * 0 =? a) = true.
Proof.
  intros H. apply add_zero_r_eqb.
  - exact (sub_finite_r _ _ H).
  - apply mul_zero_r; [exact H|reflexivity].
Qed.





(** * Degenerate segments *)

Section Degenerate.

Variable cos : float -> float.
Variables lon lat : float.
Variable s : Segment.t.

Hypothesis vx_zero : Number.isZero (fst (directionVector cos s)) = true.
Hypothesis vy_zero : Number.isZero (snd (directionVector cos s)) = true.
Hypothesis ax_finite : Number.isFinite (fst (offsetVector cos lon lat s)) = true.
Hypothesis ay_finite : Number.isFinite (snd (offsetVector cos lon lat s)) = true.

Lemma degenerate_denominator : denominator cos s = 1.
Proof.
  unfold denominator. destruct (directionVector cos s) as [vx vy]. simpl in *.
  assert (Hz : Number.isZero (vx * vx + vy * vy) = true).
  { apply add_zero_zero; apply mul_zero_r; auto using isZero_isFinite. }
  unfold Number.or, Number.truthy. rewrite Hz. reflexivity.
Qed.

Lemma degenerate_parameter : parameter cos lon lat s = 0.
Proof.
  unfold parameter, rawParameter. rewrite degenerate_denominator.
  destruct (directionVector cos s) as [vx vy], (offsetVector cos lon lat s) as [ax ay].
  simpl in *.
  assert (Hz : Number.isZero ((- (ax * vx + ay * vy)) / 1) = true).
  { apply div_zero_l; [|reflexivity]. apply opp_zero, add_zero_zero; apply mul_zero_r; assumption. }
  destruct (isZero_cases _ Hz) as [E|E]; rewrite E; reflexivity.
Qed.

Lemma degenerate_projection :
  (NearestResult.lon (candidate cos lon lat s) =? fst (fst (Segment.path s))) = true
  /\ (NearestResult.lat (candidate cos lon lat s) =? snd (fst (Segment.path s))) = true.
Proof.
  unfold candidate. rewrite degenerate_parameter.
  pose proof vx_zero as Hvx. pose proof vy_zero as Hvy.
  unfold directionVector in Hvx, Hvy. unfold resultAt.
  destruct (Segment.path s) as [[x1 y1] [x2 y2]]. destruct (segmentScale cos s) as [mLat mLon].
  simpl in *.
  apply mul_zero_finite_l in Hvx, Hvy.
  split; apply interpolate_at_0; assumption.
Qed.

End Degenerate.

(** C8 (as amended): when both components [vx] and [vy] of the direction
    vector of a segment are zero and the offsets [ax] and [ay] of the query
    point are finite, the denominator is replaced by 1, the projection
    parameter is 0, and the projected point is the start of the segment. *)
Theorem degenerate_segment_collapses (cos : float -> float) (lon lat : float) (s : Segment.t) :
  Number.isZero (fst (directionVector cos s)) = true ->
  Number.isZero (snd (directionVector cos s)) = true ->
  Number.isFinite (fst (offsetVector cos lon lat s)) = true ->
  Number.isFinite (snd (offsetVector cos lon lat s)) = true ->
  denominator cos s = 1
  /\ rawParameter cos lon lat s
     = (- (fst (offsetVector cos lon lat s) * fst (directionVector cos s)
           + snd (offsetVector cos lon lat s) * snd (directionVector cos s))) / 1
  /\ parameter cos lon lat s = 0
  /\ candidate cos lon lat s = resultAt cos lon lat s 0
  /\ (NearestResult.lon (candidate cos lon lat s) =? fst (fst (Segment.path s))) = true
  /\ (NearestResult.lat (candidate cos lon lat s) =? snd (fst (Segment.path s))) = true.
Proof.
  intros Hvx Hvy Hax Hay.
  pose proof (degenerate_denominator cos s Hvx Hvy) as Hd.
  pose proof (degenerate_parameter cos lon lat s Hvx Hvy Hax Hay) as Hp.
  destruct (degenerate_projection cos lon lat s Hvx Hvy Hax Hay) as [Hlon Hlat].
  repeat split; try assumption.
  - unfold rawParameter. rewrite Hd.
    destruct (offsetVector cos lon lat s), (directionVector cos s). reflexivity.
  - unfold candidate. rewrite Hp. reflexivity.
Qed.

Lemma degenerate_segment_collapses_witness :
  denominator cosOne pointSegment = 1
  /\ rawParameter cosOne 0.6 0.1 pointSegment
     = (- (fst (offsetVector cosOne 0.6 0.1 pointSegment) * fst (directionVector cosOne pointSegment)
           + snd (offsetVector cosOne 0.6 0.1 pointSegment) * snd (directionVector cosOne pointSegment))) / 1
  /\ parameter cosOne 0.6 0.1 pointSegment = 0
  /\ candidate cosOne 0.6 0.1 pointSegment = resultAt cosOne 0.6 0.1 pointSegment 0
  /\ (NearestResult.lon (candidate cosOne 0.6 0.1 pointSegment) =? 0.5) = true
  /\ (NearestResult.lat (candidate cosOne 0.6 0.1 pointSegment) =? 0) = true.
Proof. apply (degenerate_segment_collapses cosOne 0.6 0.1 pointSegment); reflexivity. Defined.

(** C8 as stated fails when [vx*vx + vy*vy] is zero by underflow: for a
    segment of 1e-170 degrees along the equator and the query point
    [(1, 0)], the sum of squares is 0 and the denominator 1, but [vx] is not
    zero and the projection parameter is about 1.24e-160, not 0, whatever
    the cosine function (with value 1 at 0). *)
Lemma degenerate_counterexample :
  exists (s : Segment.t) (lon lat : float),
    s = tinySegment /\ lon = 1 /\ lat = 0 /\
    forall cos : float -> float, cos 0 = 1 ->
      (fst (directionVector cos s) * fst (directionVector cos s)
       + snd (directionVector cos s) * snd (directionVector cos s) =? 0) = true
      /\ denominator cos s = 1
      /\ parameter cos lon lat s = 0x1.be01104459854p-532
      /\ (parameter cos lon lat s =? 0) = false.
Proof.
  exists tinySegment, 1, 0. repeat split; try reflexivity.
  - unfold directionVector. rewrite segmentScale_equator by (assumption || reflexivity).
    reflexivity.
  - unfold denominator, directionVector.
    rewrite segmentScale_equator by (assumption || reflexivity). reflexivity.
  - destruct (candidate_ext cos cosOne 1 0 tinySegment) as [Hp _].
    { apply segmentScale_equator; [assumption|reflexivity]. }
    rewrite Hp. reflexivity.
  - destruct (candidate_ext cos cosOne 1 0 tinySegment) as [Hp _].
    { apply segmentScale_equator; [assumption|reflexivity]. }
    rewrite Hp. reflexivity.
Qed.

(** * The grid index as a shortcut of the full scan *)

(** ** The grid index *)

Lemma gridInsert_lookup gs g s k :
  gridInsert gs g s !! k
  = if decide (cellKey gs (val s) = k) then Some (default [] (g !! k) ++ [s]) else g !! k.
Proof.
  unfold gridInsert. rewrite lookup_insert. destruct (decide _) as [->|]; reflexivity.
Qed.

Lemma buildGrid_fold_sound gs l : forall g k b o,
  fold_left (gridInsert gs) l g !! k = Some b -> o ∈ b ->
  (exists b0, g !! k = Some b0 /\ o ∈ b0) \/ o ∈ l.
Proof.
  induction l as [|s l IH]; intros g k b o Hk Ho; simpl in Hk.
  - left. exists b. split; assumption.
  - destruct (IH _ _ _ _ Hk Ho) as [(b0 & Hb0 & Hob0)|Hl].
    + rewrite gridInsert_lookup in Hb0. destruct (decide _) as [E|E].
      * injection Hb0 as <-. apply elem_of_app in Hob0. destruct Hob0 as [Hold|Hnew].
        -- left. destruct (g !! k) as [b1|]; [|apply elem_of_nil in Hold; destruct Hold].
           exists b1. split; [reflexivity|exact Hold].
        -- right. apply list_elem_of_singleton in Hnew. subst o. apply elem_of_cons. left; reflexivity.
      * left. exists b0. split; assumption.
    + right. apply elem_of_cons. right; exact Hl.
Qed.

Lemma buildGrid_fold_keeps gs l : forall g k b0 o,
  g !! k = Some b0 -> o ∈ b0 ->
  exists b, fold_left (gridInsert gs) l g !! k = Some b /\ o ∈ b.
Proof.
  induction l as [|s l IH]; intros g k b0 o Hk Ho; simpl.
  - exists b0. split; assumption.
  - apply (IH _ k (if decide (cellKey gs (val s) = k) then b0 ++ [s] else b0)).
    + rewrite gridInsert_lookup, Hk. destruct (decide _); reflexivity.
    + destruct (decide _); [apply elem_of_app; left|]; exact Ho.
Qed.

Lemma buildGrid_fold_complete gs l : forall g o,
  o ∈ l -> exists b, fold_left (gridInsert gs) l g !! cellKey gs (val o) = Some b /\ o ∈ b.
Proof.
  induction l as [|s l IH]; intros g o Ho; [apply elem_of_nil in Ho; destruct Ho|].
  apply elem_of_cons in Ho. destruct Ho as [->|Ho]; simpl.
  - apply (buildGrid_fold_keeps gs l _ _ (default [] (g !! cellKey gs (val s)) ++ [s])).
    + rewrite gridInsert_lookup. destruct (decide _); [reflexivity|congruence].
    + apply elem_of_app. right. apply list_elem_of_singleton. reflexivity.
  - apply IH, Ho.
Qed.

Lemma buildGrid_sound gs l k b o : buildGrid gs l !! k = Some b -> o ∈ b -> o ∈ l.
Proof.
  intros Hk Ho. destruct (buildGrid_fold_sound gs l ∅ k b o Hk Ho) as [(b0 & H0 & _)|H]; [|exact H].
  rewrite lookup_empty in H0. discriminate.
Qed.

Lemma buildGrid_complete gs l o :
  o ∈ l -> exists b, buildGrid gs l !! cellKey gs (val o) = Some b /\ o ∈ b.
Proof. apply buildGrid_fold_complete. Qed.

(** ** The set of candidates *)

Lemma setAdd_elem set x o : o ∈ setAdd set x -> o ∈ set \/ o = x.
Proof.
  unfold setAdd. destruct (existsb _ set); [left; assumption|].
  intros H. apply elem_of_app in H. destruct H as [H|H]; [left; exact H|].
  right. apply list_elem_of_singleton in H. exact H.
Qed.

Lemma setAdd_keeps set x o : o ∈ set -> o ∈ setAdd set x.
Proof.
  unfold setAdd. destruct (existsb _ set); [trivial|]. intros H. apply elem_of_app. left; exact H.
Qed.

Lemma setAdd_has set x : exists o, o ∈ setAdd set x /\ ref o = ref x.
Proof.
  unfold setAdd. destruct (existsb _ set) eqn:E.
  - apply existsb_exists in E. destruct E as (o & Ho & Href).
    exists o. split; [apply list_elem_of_In; exact Ho|]. apply Nat.eqb_eq, Href.
  - exists x. split; [|reflexivity]. apply elem_of_app. right. apply list_elem_of_singleton. reflexivity.
Qed.

Lemma setAdd_fold_elem arr : forall set o,
  o ∈ fold_left setAdd arr set -> o ∈ set \/ o ∈ arr.
Proof.
  induction arr as [|x arr IH]; intros set o H; simpl in H; [left; exact H|].
  destruct (IH _ _ H) as [H'|H'].
  - destruct (setAdd_elem _ _ _ H') as [H''| ->]; [left; exact H''|].
    right. apply elem_of_cons. left; reflexivity.
  - right. apply elem_of_cons. right; exact H'.
Qed.

Lemma setAdd_fold_keeps arr : forall set o, o ∈ set -> o ∈ fold_left setAdd arr set.
Proof.
  induction arr as [|x arr IH]; intros set o H; simpl; [exact H|].
  apply IH, setAdd_keeps, H.
Qed.

Lemma setAdd_fold_has arr : forall set x,
  x ∈ arr -> exists o, o ∈ fold_left setAdd arr set /\ ref o = ref x.
Proof.
  induction arr as [|y arr IH]; intros set x H; [apply elem_of_nil in H; destruct H|].
  apply elem_of_cons in H. destruct H as [->|H]; simpl.
  - destruct (setAdd_has set y) as (o & Ho & Href).
    exists o. split; [apply setAdd_fold_keeps, Ho|exact Href].
  - apply IH, H.
Qed.

Lemma gatherCell_elem g gx gy set d o :
  o ∈ gatherCell g gx gy set d ->
  o ∈ set \/ exists k b, g !! k = Some b /\ o ∈ b.
Proof.
  unfold gatherCell. destruct (g !! _) as [arr|] eqn:E; [|left; assumption].
  intros H. destruct (setAdd_fold_elem _ _ _ H) as [H'|H']; [left; exact H'|].
  right. eauto.
Qed.

Lemma gatherCell_keeps g gx gy set d o : o ∈ set -> o ∈ gatherCell g gx gy set d.
Proof.
  unfold gatherCell. destruct (g !! _); [|trivial]. apply setAdd_fold_keeps.
Qed.

Lemma gather_fold_elem g gx gy ds : forall set o,
  o ∈ fold_left (gatherCell g gx gy) ds set ->
  o ∈ set \/ exists k b, g !! k = Some b /\ o ∈ b.
Proof.
  induction ds as [|d ds IH]; intros set o H; simpl in H; [left; exact H|].
  destruct (IH _ _ H) as [H'|H']; [|right; exact H'].
  apply gatherCell_elem in H'. exact H'.
Qed.

Lemma gather_fold_keeps g gx gy ds : forall set o,
  o ∈ set -> o ∈ fold_left (gatherCell g gx gy) ds set.
Proof.
  induction ds as [|d ds IH]; intros set o H; simpl; [exact H|].
  apply IH, gatherCell_keeps, H.
Qed.

Lemma gather_fold_has g gx gy ds : forall set d b x,
  d ∈ ds -> g !! gridKey (gx + fst d) (gy + snd d) = Some b -> x ∈ b ->
  exists o, o ∈ fold_left (gatherCell g gx gy) ds set /\ ref o = ref x.
Proof.
  induction ds as [|d' ds IH]; intros set d b x Hd Hk Hx; [apply elem_of_nil in Hd; destruct Hd|].
  apply elem_of_cons in Hd. destruct Hd as [<-|Hd]; simpl.
  - assert (H : exists o, o ∈ gatherCell g gx gy set d /\ ref o = ref x).
    { unfold gatherCell. rewrite Hk. apply setAdd_fold_has, Hx. }
    destruct H as (o & Ho & Href). exists o. split; [apply gather_fold_keeps, Ho|exact Href].
  - eapply IH; eassumption.
Qed.

Lemma neighbourhood_elem g gs lon lat o :
  o ∈ neighbourhood g gs lon lat -> exists k b, g !! k = Some b /\ o ∈ b.
Proof.
  intros H. destruct (gather_fold_elem _ _ _ _ _ _ H) as [H'|H']; [|exact H'].
  apply elem_of_nil in H'. destruct H'.
Qed.

Lemma neighbourhood_has g gs lon lat b x :
  inBlock gs lon lat x -> g !! cellKey gs (val x) = Some b -> x ∈ b ->
  exists o, o ∈ neighbourhood g gs lon lat /\ ref o = ref x.
Proof.
  unfold inBlock, blockKeys. intros Hin Hk Hx.
  apply list_elem_of_fmap in Hin. destruct Hin as (d & Hd & Hds).
  unfold neighbourhood. eapply gather_fold_has; [exact Hds| |exact Hx].
  rewrite <- Hd. exact Hk.
Qed.

(** ** The scan keeps the strictly nearest candidate *)

Section Scan.

Variable cos : float -> float.
Variables lon lat : float.
Variable w : Obj Segment.t.

Lemma scanStep_winner_stays o :
  beaten cos lon lat w (candidate cos lon lat (val o)) ->
  scanStep cos lon lat (Some (candidate cos lon lat (val w))) o
  = Some (candidate cos lon lat (val w)).
Proof.
  intros Hb. unfold scanStep.
  destruct Hb as [E|Hlt].
  - rewrite E, ltb_irrefl. reflexivity.
  - unfold distanceTo in Hlt. rewrite (ltb_asym _ _ Hlt). reflexivity.
Qed.

Lemma scan_winner_stays l :
  (forall o, o ∈ l -> beaten cos lon lat w (candidate cos lon lat (val o))) ->
  fold_left (scanStep cos lon lat) l (Some (candidate cos lon lat (val w)))
  = Some (candidate cos lon lat (val w)).
Proof.
  induction l as [|o l IH]; intros Hl; [reflexivity|]. cbn [fold_left].
  rewrite scanStep_winner_stays by (apply Hl, elem_of_cons; left; reflexivity).
  apply IH. intros o' Ho'. apply Hl, elem_of_cons. right; exact Ho'.
Qed.

Lemma scan_finds_winner l : forall best,
  w ∈ l ->
  (forall o, o ∈ l -> beaten cos lon lat w (candidate cos lon lat (val o))) ->
  (best = None \/ exists b, best = Some b /\ beaten cos lon lat w b) ->
  fold_left (scanStep cos lon lat) l best = Some (candidate cos lon lat (val w)).
Proof.
  induction l as [|o l IH]; intros best Hw Hl Hbest; [apply elem_of_nil in Hw; destruct Hw|].
  assert (Hrest : forall o', o' ∈ l -> beaten cos lon lat w (candidate cos lon lat (val o'))).
  { intros o' Ho'. apply Hl, elem_of_cons. right; exact Ho'. }
  assert (Ho : beaten cos lon lat w (candidate cos lon lat (val o))).
  { apply Hl, elem_of_cons. left; reflexivity. }
  cbn [fold_left]. apply elem_of_cons in Hw. destruct Hw as [Hw|Hw]; [subst o|].
  - assert (E : scanStep cos lon lat best w = Some (candidate cos lon lat (val w))).
    { unfold scanStep. destruct Hbest as [->|(b & -> & [->|Hlt])]; [reflexivity| |].
      - rewrite ltb_irrefl. reflexivity.
      - unfold distanceTo in Hlt. rewrite Hlt. reflexivity. }
    rewrite E. apply scan_winner_stays, Hrest.
  - apply IH; [exact Hw|exact Hrest|]. right.
    unfold scanStep. destruct Hbest as [->|(b & -> & Hb)].
    + eexists. split; [reflexivity|exact Ho].
    + destruct (_ <? _); eexists; (split; [reflexivity|assumption]).
Qed.

Lemma scan_strictly_nearest segments l :
  (forall o o', o ∈ segments -> o' ∈ segments -> ref o = ref o' -> o = o') ->
  strictlyNearest cos lon lat segments w ->
  w ∈ l -> (forall o, o ∈ l -> o ∈ segments) ->
  scan cos lon lat l = Some (candidate cos lon lat (val w)).
Proof.
  intros Hinj [Hws Hstrict] Hw Hl. apply scan_finds_winner; [exact Hw| |left; reflexivity].
  intros o Ho. destruct (decide (ref o = ref w)) as [E|Hne].
  - left. rewrite (Hinj o w (Hl o Ho) Hws E). reflexivity.
  - right. apply Hstrict; [apply Hl, Ho|exact Hne].
Qed.

End Scan.

(** ** Segments of a build are distinct objects *)

Lemma refs_injective (l : list (Obj Segment.t)) :
  map ref l = seq 0 (length l) ->
  forall o o', o ∈ l -> o' ∈ l -> ref o = ref o' -> o = o'.
Proof.
  intros Hrefs o o' Ho Ho' E.
  apply list_elem_of_lookup in Ho, Ho'. destruct Ho as [i Hi], Ho' as [j Hj].
  assert (Hri : ref o = i).
  { pose proof (f_equal (fun l => l !! i) Hrefs) as H. simpl in H.
    change (map ref l) with (ref <$> l) in H.
    rewrite list_lookup_fmap, Hi in H. simpl in H.
    rewrite lookup_seq_lt in H by (apply lookup_lt_Some in Hi; exact Hi).
    injection H as H. exact H. }
  assert (Hrj : ref o' = j).
  { pose proof (f_equal (fun l => l !! j) Hrefs) as H. simpl in H.
    change (map ref l) with (ref <$> l) in H.
    rewrite list_lookup_fmap, Hj in H. simpl in H.
    rewrite lookup_seq_lt in H by (apply lookup_lt_Some in Hj; exact Hj).
    injection H as H. exact H. }
  assert (i = j) by congruence. subst j. congruence.
Qed.

Lemma buildSegments_refs points options :
  map ref (BuildResult.segments (buildSegments points options))
  = seq 0 (length (BuildResult.segments (buildSegments points options))).
Proof.
  unfold buildSegments. destruct (length points <? 2)%nat; [reflexivity|].
  simpl. apply pairsLoop_refs. reflexivity.
Qed.

Lemma buildSegments_grid points options :
  BuildResult.segments (buildSegments points options) <> [] ->
  BuildResult.gridSize (buildSegments points options) = 0.02
  /\ BuildResult.gridIndex (buildSegments points options)
     = buildGrid 0.02 (BuildResult.segments (buildSegments points options)).
Proof.
  unfold buildSegments. destruct (length points <? 2)%nat; [simpl; congruence|].
  intros _. split; reflexivity.
Qed.

(** C3 (as amended): for the segments, grid index and cell size of a build
    with at least one segment, and a query point whose nearest segment is
    strictly nearer than every other segment and lies in the 3x3 block of
    cells around the cell of the query point, the query with the index and
    the cell size returns the same result as the query without index. *)
Theorem index_agrees_when_nearest_is_unique (cos : float -> float)
    (points : list Point.t) (options : BuildSegmentsOptions.t)
    (lon lat : float) (w : Obj Segment.t) :
  let result := buildSegments points options in
  let segments := BuildResult.segments result in
  let gridIndex := BuildResult.gridIndex result in
  let gridSize := BuildResult.gridSize result in
  segments <> [] ->
  strictlyNearest cos lon lat segments w ->
  inBlock gridSize lon lat w ->
  findNearestPointOnTrack cos lon lat segments (Some gridIndex) (Some gridSize)
  = findNearestPointOnTrack cos lon lat segments None None
  /\ findNearestPointOnTrack cos lon lat segments None None
     = Some (candidate cos lon lat (val w)).
Proof.
  intros result segments gridIndex gridSize Hne Hstrict Hblock.
  destruct (buildSegments_grid points options Hne) as [Hsize Hgrid].
  fold result in Hsize, Hgrid. fold gridSize in Hsize. fold gridIndex segments in Hgrid.
  pose proof (refs_injective segments (buildSegments_refs points options)) as Hinj.
  assert (Hws : w ∈ segments) by (destruct Hstrict; assumption).
  assert (Hfull : findNearestPointOnTrack cos lon lat segments None None
                  = Some (candidate cos lon lat (val w))).
  { unfold findNearestPointOnTrack. destruct segments as [|o l] eqn:E; [congruence|].
    cbn [length Nat.eqb candidatesOf]. rewrite <- E in *.
    apply (scan_strictly_nearest cos lon lat w segments); auto. }
  split; [|exact Hfull]. rewrite Hfull.
  unfold findNearestPointOnTrack. destruct segments as [|o0 l0] eqn:E; [congruence|].
  cbn [length Nat.eqb]. rewrite <- E in *. unfold candidatesOf.
  rewrite Hsize. change (Number.truthy 0.02) with true. cbv iota.
  rewrite Hsize in Hblock.
  destruct (buildGrid_complete 0.02 segments w Hws) as (b & Hb & Hwb).
  rewrite <- Hgrid in Hb.
  destruct (neighbourhood_has gridIndex 0.02 lon lat b w Hblock Hb Hwb) as (o & Ho & Href).
  assert (Hsub : forall o', o' ∈ neighbourhood gridIndex 0.02 lon lat -> o' ∈ segments).
  { intros o' Ho'. destruct (neighbourhood_elem _ _ _ _ _ Ho') as (k & b' & Hk & Hob').
    rewrite Hgrid in Hk. exact (buildGrid_sound _ _ _ _ _ Hk Hob'). }
  assert (o = w) by (apply Hinj; auto). subst o.
  destruct (neighbourhood gridIndex 0.02 lon lat) as [|o1 l1] eqn:En.
  { apply elem_of_nil in Ho. destruct Ho. }
  cbn [length Nat.eqb]. rewrite <- En in *.
  apply (scan_strictly_nearest cos lon lat w segments); auto.
Qed.

Lemma distanceTo_equator cos lon lat o :
  cos 0 = 1 -> equatorial o = true -> distanceTo cos lon lat o = distanceTo cosOne lon lat o.
Proof.
  intros Hc Ho. apply bool_decide_eq_true in Ho. unfold distanceTo.
  destruct (candidate_ext cos cosOne lon lat (val o) (segmentScale_equator cos Hc _ Ho)) as [_ E].
  rewrite E. reflexivity.
Qed.

(** C3 as stated fails on a tie: on a track that goes west and comes back
    east along the equator, the query point north of the stretch covered
    twice is at the same distance of both segments, both in the block; the
    full scan keeps the first segment of the track (speed 15, time 500), the
    scan of the block meets the second segment first and keeps it (speed 30,
    time 2000), whatever the cosine function (with value 1 at 0). *)
Lemma index_changes_result_on_tie :
  exists (points : list Point.t) (options : BuildSegmentsOptions.t) (lon lat : float),
    points = outAndBack /\ options = plainOptions 1 /\ lon = 0.046875 /\ lat = 0.01 /\
    forall cos : float -> float, cos 0 = 1 ->
      let result := buildSegments points options in
      let segments := BuildResult.segments result in
      let gridIndex := BuildResult.gridIndex result in
      let gridSize := BuildResult.gridSize result in
      segments <> []
      /\ (forall o, o ∈ segments ->
            nearestSegment cos lon lat segments o /\ inBlock gridSize lon lat o)
      /\ findNearestPointOnTrack cos lon lat segments (Some gridIndex) (Some gridSize)
         = Some (NearestResult.mk 0.046875 0 30 2000 0x1.146f89374bc6ap+10)
      /\ findNearestPointOnTrack cos lon lat segments None None
         = Some (NearestResult.mk 0.046875 0 15 500 0x1.146f89374bc6ap+10)
      /\ findNearestPointOnTrack cos lon lat segments (Some gridIndex) (Some gridSize)
         <> findNearestPointOnTrack cos lon lat segments None None.
Proof.
  exists outAndBack, (plainOptions 1), 0.046875, 0.01.
  do 4 (split; [reflexivity|]). intros cos Hcos result segments gridIndex gridSize.
  assert (Hidx : findNearestPointOnTrack cos 0.046875 0.01 segments (Some gridIndex) (Some gridSize)
                 = Some (NearestResult.mk 0.046875 0 30 2000 0x1.146f89374bc6ap+10)).
  { rewrite findNearest_equator by (assumption || reflexivity). reflexivity. }
  assert (Hfull : findNearestPointOnTrack cos 0.046875 0.01 segments None None
                 = Some (NearestResult.mk 0.046875 0 15 500 0x1.146f89374bc6ap+10)).
  { rewrite findNearest_equator by (assumption || reflexivity). reflexivity. }
  split; [discriminate|]. split; [|split; [exact Hidx|split; [exact Hfull|]]].
  - assert (Heq : forall o, o ∈ segments -> equatorial o = true
                   /\ distanceTo cosOne 0.046875 0.01 o = 0x1.146f89374bc6ap+10
                   /\ bool_decide (cellKey gridSize (val o) ∈ blockKeys gridSize 0.046875 0.01) = true).
    { intros o Ho. change segments with (BuildResult.segments (buildSegments outAndBack (plainOptions 1))) in Ho.
      vm_compute in Ho.
      apply elem_of_cons in Ho. destruct Ho as [->|Ho]; [repeat split; vm_compute; reflexivity|].
      apply elem_of_cons in Ho. destruct Ho as [->|Ho]; [repeat split; vm_compute; reflexivity|].
      apply elem_of_nil in Ho. destruct Ho. }
    intros o Ho. destruct (Heq o Ho) as (He & Hd & Hb). split.
    + split; [exact Ho|]. intros o' Ho'. destruct (Heq o' Ho') as (He' & Hd' & _).
      rewrite (distanceTo_equator cos _ _ o Hcos He), (distanceTo_equator cos _ _ o' Hcos He').
      rewrite Hd, Hd'. reflexivity.
    + apply bool_decide_eq_true in Hb. exact Hb.
  - rewrite Hidx, Hfull. intros H.
    apply (f_equal (fun r => Prim2SF (from_option NearestResult.speed 0 r))) in H.
    vm_compute in H. discriminate H.
Qed.

Lemma index_agrees_when_nearest_is_unique_witness :
  findNearestPointOnTrack cosOne 0.76 0.01
    (BuildResult.segments (buildSegments twoSamples (plainOptions 2)))
    (Some (BuildResult.gridIndex (buildSegments twoSamples (plainOptions 2))))
    (Some (BuildResult.gridSize (buildSegments twoSamples (plainOptions 2))))
  = findNearestPointOnTrack cosOne 0.76 0.01
      (BuildResult.segments (buildSegments twoSamples (plainOptions 2))) None None
  /\ findNearestPointOnTrack cosOne 0.76 0.01
      (BuildResult.segments (buildSegments twoSamples (plainOptions 2))) None None
     = Some (candidate cosOne 0.76 0.01 (val secondHalf)).
Proof.
  apply (index_agrees_when_nearest_is_unique cosOne twoSamples (plainOptions 2) 0.76 0.01 secondHalf).
  - discriminate.
  - split.
    + apply list_elem_of_lookup. exists 1%nat. reflexivity.
    + intros o Ho Href. vm_compute in Ho.
      apply elem_of_cons in Ho. destruct Ho as [->|Ho]; [vm_compute; reflexivity|].
      apply elem_of_cons in Ho. destruct Ho as [->|Ho]; [exfalso; apply Href; reflexivity|].
      apply elem_of_nil in Ho. destruct Ho.
  - unfold inBlock. apply (bool_decide_unpack _). vm_compute. exact I.
Defined.

(** * The ends of the colour scale *)

(** ** Integers below 2^53 as numbers *)

Lemma Prim2SF_ofZ z : (Z.abs z < 2 ^ 53)%Z -> Prim2SF (Number.ofZ z) = intSF z.
Proof.
  intros Hz. unfold Number.ofZ. rewrite binary_normalize_int by exact Hz.
  apply Prim2SF_SF2Prim, intSF_valid, Hz.
Qed.

Lemma ofZ_add a b :
  (Z.abs a < 2 ^ 53)%Z -> (Z.abs b < 2 ^ 53)%Z -> (Z.abs (a + b) < 2 ^ 53)%Z ->
  Number.ofZ a + Number.ofZ b = Number.ofZ (a + b).
Proof.
  intros Ha Hb Hab. apply Prim2SF_inj.
  rewrite FloatAxioms.add_spec, !Prim2SF_ofZ by assumption. apply SFadd_int; assumption.
Qed.

Lemma ofZ_sub a b :
  (Z.abs a < 2 ^ 53)%Z -> (Z.abs b < 2 ^ 53)%Z -> (Z.abs (a - b) < 2 ^ 53)%Z ->
  Number.ofZ a - Number.ofZ b = Number.ofZ (a - b).
Proof.
  intros Ha Hb Hab. apply Prim2SF_inj.
  rewrite FloatAxioms.sub_spec, !Prim2SF_ofZ by assumption. apply SFsub_int; assumption.
Qed.

Lemma ofZ_isFinite z : (Z.abs z < 2 ^ 53)%Z -> Number.isFinite (Number.ofZ z) = true.
Proof.
  intros Hz. unfold Number.isFinite. rewrite Prim2SF_ofZ by exact Hz. destruct z; reflexivity.
Qed.

Lemma intExponent_nonpos p : (Zpos p < 2 ^ 53)%Z -> (intExponent p <= 0)%Z.
Proof. intros Hp. pose proof (digits2_pos_small p Hp). unfold intExponent. lia. Qed.

Lemma floor_ofZ z : (0 <= z < 2 ^ 53)%Z -> Math.floor (Number.ofZ z) = Number.ofZ z.
Proof.
  intros Hz. unfold Math.floor. rewrite Prim2SF_ofZ by lia.
  destruct z as [|p|p]; [reflexivity| |lia]. simpl intSF. cbv iota beta.
  destruct (Z.leb 0 (intExponent p)) eqn:He; [reflexivity|].
  apply Z.leb_gt in He. unfold cond_Zopp.
  rewrite intMantissa_value, Z.shiftr_div_pow2, Z.div_mul by lia.
  reflexivity.
Qed.

Lemma toIndex_ofZ z : (0 <= z < 2 ^ 53)%Z -> Number.toIndex (Number.ofZ z) = Some (Z.to_N z).
Proof.
  intros Hz. unfold Number.toIndex. rewrite Prim2SF_ofZ by lia.
  destruct z as [|p|p]; [reflexivity| |lia]. simpl intSF. cbv iota beta.
  pose proof (intExponent_nonpos p ltac:(lia)) as HE.
  destruct (Z.leb 0 (intExponent p)) eqn:He.
  - apply Z.leb_le in He. assert (E0 : intExponent p = 0%Z) by lia.
    assert (Em : Zpos (intMantissa p) = Zpos p).
    { rewrite intMantissa_value, E0 by lia. simpl. lia. }
    rewrite E0, Z.shiftl_0_r, Em. reflexivity.
  - rewrite (intMantissa_value p) by lia.
    rewrite Z.land_ones by lia. rewrite Z.mod_mul by lia. rewrite Z.eqb_refl.
    rewrite Z.shiftr_div_pow2, Z.div_mul by lia. reflexivity.
Qed.

Lemma arrayGet_ofNat {A} (arr : list A) k :
  (k < length arr)%nat -> (Z.of_nat (length arr) < 2 ^ 53)%Z ->
  Number.arrayGet arr (Number.ofNat k) = arr !! k.
Proof.
  intros Hk Hlen. unfold Number.arrayGet, Number.ofNat.
  rewrite toIndex_ofZ by lia.
  destruct (N.ltb_spec (Z.to_N (Z.of_nat k)) (N.of_nat (length arr))) as [_|H]; [|lia].
  f_equal. lia.
Qed.

Lemma digits2_pos_mono p q :
  (Zpos p <= Zpos q)%Z -> (Zpos (digits2_pos p) <= Zpos (digits2_pos q))%Z.
Proof.
  intros H. destruct (digits2_pos_bounds p) as [Hp _], (digits2_pos_bounds q) as [_ Hq].
  destruct (Z_le_gt_dec (Zpos (digits2_pos p)) (Zpos (digits2_pos q))) as [|Hgt]; [assumption|].
  exfalso.
  assert (2 ^ Zpos (digits2_pos q) <= 2 ^ (Zpos (digits2_pos p) - 1))%Z
    by (apply Z.pow_le_mono_r; lia).
  lia.
Qed.

Lemma ofZ_ltb a b :
  (0 <= a)%Z -> (a < b)%Z -> (b < 2 ^ 53)%Z -> (Number.ofZ a <? Number.ofZ b) = true.
Proof.
  intros Ha Hab Hb. rewrite FloatAxioms.ltb_spec, !Prim2SF_ofZ by lia.
  destruct b as [|q|q]; try lia. destruct a as [|p|p]; [reflexivity| |lia].
  unfold SFltb, intSF, SFcompare.
  pose proof (digits2_pos_mono p q ltac:(lia)) as Hd.
  destruct (Z.compare_spec (intExponent p) (intExponent q)) as [E|E|E];
    unfold intExponent in E; [|reflexivity|lia].
  rewrite Pos.compare_cont_spec. simpl.
  assert (Hz : (Zpos (intMantissa p) < Zpos (intMantissa q))%Z).
  { rewrite !intMantissa_value by lia.
    unfold intExponent. replace (Zpos (digits2_pos q)) with (Zpos (digits2_pos p)) by lia.
    apply Z.mul_lt_mono_pos_r; [|lia].
    apply Z.pow_pos_nonneg; [lia|]. pose proof (digits2_pos_small p ltac:(lia)). lia. }
  assert (Hlt : (intMantissa p < intMantissa q)%positive) by lia.
  apply Pos.compare_lt_iff in Hlt. rewrite Hlt. reflexivity.
Qed.

Lemma round_zero x : Number.isZero x = true -> Math.round x = x.
Proof. unfold Number.isZero, Math.round. destruct (Prim2SF x); congruence. Qed.

Lemma round_lerp_0 a b :
  Number.isFinite (b - a) = true -> withinRounding (Math.round (lerp a b 0)) a.
Proof.
  intros H. pose proof (sub_finite_r _ _ H) as Ha.
  assert (Hz : Number.isZero ((b - a) * 0) = true) by (apply mul_zero_r; [exact H|reflexivity]).
  unfold lerp. destruct (Number.isZero a) eqn:Ea.
  - assert (Hsum : Number.isZero (a + (b - a) * 0) = true) by (apply add_zero_zero; assumption).
    left. right. split; [|exact Ea]. rewrite round_zero; exact Hsum.
  - right. left. rewrite add_zero_r by assumption. reflexivity.
Qed.

Lemma lerpColor_0 a b :
  (let '(a0, a1, a2) := a in
   let '(b0, b1, b2) := b in
   Number.isFinite (b0 - a0) = true
   /\ Number.isFinite (b1 - a1) = true
   /\ Number.isFinite (b2 - a2) = true) ->
  colorWithinRounding (lerpColor a b 0) a.
Proof.
  destruct a as [[a0 a1] a2], b as [[b0 b1] b2]. intros (H0 & H1 & H2). simpl.
  repeat split; try apply round_lerp_0; assumption.
Qed.

Lemma clamp_zero z : Number.isZero z = true -> Math.max 0 (Math.min 1 z) = 0.
Proof. intros H. destruct (isZero_cases z H) as [->| ->]; reflexivity. Qed.

Lemma or_truthy a b : Number.truthy b = true -> Number.truthy (Number.or a b) = true.
Proof. unfold Number.or. intros H. destruct (Number.truthy a) eqn:E; assumption. Qed.

Lemma isRegular_truthy x : isRegular x = true -> Number.truthy x = true.
Proof.
  unfold isRegular, Number.truthy, Number.isZero, Number.isNaN.
  destruct (Prim2SF x); simpl; congruence.
Qed.

Lemma stopsOf_nonempty colors : stopsOf colors <> [].
Proof. unfold stopsOf. destruct colors; simpl; discriminate. Qed.

Lemma ofNat_pred n :
  (1 <= n)%nat -> (Z.of_nat n < 2 ^ 53)%Z ->
  Number.ofNat n - 1 = Number.ofNat (n - 1).
Proof.
  intros Hn Hb. unfold Number.ofNat. change 1 with (Number.ofZ 1).
  rewrite ofZ_sub by lia. f_equal. lia.
Qed.

Lemma ofNat_succ n :
  (Z.of_nat n + 1 < 2 ^ 53)%Z -> Number.ofNat n + 1 = Number.ofNat (n + 1).
Proof.
  intros Hb. unfold Number.ofNat. change 1 with (Number.ofZ 1).
  rewrite ofZ_add by lia. f_equal. lia.
Qed.

Lemma mul_0_ofNat n :
  (1 <= n)%nat -> (Z.of_nat n < 2 ^ 53)%Z -> 0 * Number.ofNat n = 0.
Proof.
  intros Hn Hb. apply Prim2SF_inj. unfold Number.ofNat.
  rewrite FloatAxioms.mul_spec, Prim2SF_ofZ by lia.
  destruct (Z.of_nat n) as [|p|p] eqn:E; try lia. reflexivity.
Qed.

Lemma ofNat_isFinite n : (Z.of_nat n < 2 ^ 53)%Z -> Number.isFinite (Number.ofNat n) = true.
Proof. intros H. apply ofZ_isFinite. lia. Qed.

Lemma ofNat_ltb a b :
  (a < b)%nat -> (Z.of_nat b < 2 ^ 53)%Z -> (Number.ofNat a <? Number.ofNat b) = true.
Proof. intros Hab Hb. apply ofZ_ltb; lia. Qed.

Lemma min_ofNat_succ n :
  (Z.of_nat n + 1 < 2 ^ 53)%Z ->
  Math.min (Number.ofNat (n + 1)) (Number.ofNat n) = Number.ofNat n.
Proof.
  intros Hb. pose proof (ofNat_ltb n (n + 1) ltac:(lia) ltac:(lia)) as Hlt.
  unfold Math.min.
  rewrite !isFinite_not_NaN by (apply ofNat_isFinite; lia).
  rewrite (ltb_asym _ _ Hlt), Hlt. reflexivity.
Qed.

Lemma floor_ofNat n :
  (Z.of_nat n < 2 ^ 53)%Z -> Math.floor (Number.ofNat n) = Number.ofNat n.
Proof. intros H. apply floor_ofZ. lia. Qed.

Lemma arrayGet_0 {A} (arr : list A) : arr <> [] -> Number.arrayGet arr 0 = head arr.
Proof. destruct arr; [congruence|reflexivity]. Qed.

Lemma arrayGet_last {A} (arr : list A) :
  arr <> [] -> (Z.of_nat (length arr) < 2 ^ 53)%Z ->
  Number.arrayGet arr (Number.ofNat (length arr - 1)) = last arr.
Proof.
  intros Hne Hb. rewrite arrayGet_ofNat; [|destruct arr; [congruence|simpl; lia]|exact Hb].
  rewrite last_lookup. f_equal. lia.
Qed.

Section ScaleEnds.

Variables minSpeed maxSpeed : float.
Variable colors : list Color.
Hypothesis channels_finite : channelsFinite (stopsOf colors).
Hypothesis length_small : (Z.of_nat (length (stopsOf colors)) < 2 ^ 53)%Z.

(** The scale once the clamped position [u] is 0. *)
Lemma scale_at_first speed :
  Number.isFinite speed = true ->
  Math.max 0 (Math.min 1 ((speed - minSpeed) / Number.or (maxSpeed - minSpeed) 1)) = 0 ->
  exists first r, head (stopsOf colors) = Some first
    /\ createSpeedColorScale minSpeed maxSpeed colors speed = Some r
    /\ colorWithinRounding r first.
Proof.
  intros Hfin Hu. unfold createSpeedColorScale. rewrite Hfin, Hu. cbv beta iota zeta. simpl negb. cbv iota.
  pose proof (stopsOf_nonempty colors) as Hne.
  pose proof channels_finite as Hch. pose proof length_small as Hlen.
  destruct (stopsOf colors) as [|first rest] eqn:Es; [congruence|].
  exists first. destruct rest as [|second rest'].
  - (* one stop *)
    simpl. destruct first as [[c0 c1] c2]. eexists. split; [reflexivity|]. split; [reflexivity|].
    repeat split; left; left; reflexivity.
  - (* several stops *)
    set (n := length (first :: second :: rest')) in *.
    assert (Hn : (2 <= n)%nat) by (unfold n; simpl; lia).
    replace (n =? 1)%nat with false by (symmetry; apply Nat.eqb_neq; lia).
    rewrite ofNat_pred by lia. rewrite mul_0_ofNat by lia.
    change (Math.floor 0) with 0. change (0 - 0) with 0. change (0 + 1) with (Number.ofNat 1).
    rewrite arrayGet_0 by discriminate. simpl head.
    assert (Hc2 : exists c2, Number.arrayGet (first :: second :: rest')
                     (Math.min (Number.ofNat 1) (Number.ofNat (n - 1))) = Some c2
                   /\ c2 ∈ first :: second :: rest').
    { destruct (Math_min_spec (Number.ofNat 1) (Number.ofNat (n - 1))) as ([E|E] & _).
      - apply isFinite_not_NaN, ofNat_isFinite. lia.
      - apply isFinite_not_NaN, ofNat_isFinite. lia.
      - rewrite E, arrayGet_ofNat by (fold n; lia). exists second. split; [reflexivity|].
        apply list_elem_of_lookup. exists 1%nat. reflexivity.
      - rewrite E, arrayGet_ofNat by (fold n; lia).
        destruct (lookup_lt_is_Some_2 (first :: second :: rest') (n - 1) ltac:(fold n; lia)) as [c Hc].
        exists c. split; [exact Hc|]. apply list_elem_of_lookup. exists (n - 1)%nat. exact Hc. }
    destruct Hc2 as (c2 & Hget & Hin). rewrite Hget.
    eexists. split; [reflexivity|]. split; [reflexivity|].
    apply lerpColor_0. apply (Hch first c2); [apply elem_of_cons; left; reflexivity|exact Hin].
Qed.

(** The scale once the clamped position [u] is 1. *)
Lemma scale_at_last speed :
  Number.isFinite speed = true ->
  Math.max 0 (Math.min 1 ((speed - minSpeed) / Number.or (maxSpeed - minSpeed) 1)) = 1 ->
  exists final r, last (stopsOf colors) = Some final
    /\ createSpeedColorScale minSpeed maxSpeed colors speed = Some r
    /\ colorWithinRounding r final.
Proof.
  intros Hfin Hu. unfold createSpeedColorScale. rewrite Hfin, Hu. cbv beta iota zeta. simpl negb. cbv iota.
  pose proof (stopsOf_nonempty colors) as Hne.
  pose proof channels_finite as Hch. pose proof length_small as Hlen.
  destruct (stopsOf colors) as [|first rest] eqn:Es; [congruence|].
  destruct rest as [|second rest'].
  - (* one stop *)
    exists first. simpl. destruct first as [[c0 c1] c2]. eexists. split; [reflexivity|]. split; [reflexivity|].
    repeat split; left; left; reflexivity.
  - (* several stops *)
    set (l := first :: second :: rest') in *.
    set (n := length l) in *.
    assert (Hn : (2 <= n)%nat) by (unfold n; simpl; lia).
    replace (n =? 1)%nat with false by (symmetry; apply Nat.eqb_neq; lia).
    rewrite ofNat_pred by lia. rewrite mul_1_l.
    rewrite floor_ofNat by lia.
    rewrite sub_diag by (apply ofNat_isFinite; lia).
    rewrite ofNat_succ by lia. replace (n - 1 + 1)%nat with (S (n - 1)) by lia.
    replace (S (n - 1)) with (n - 1 + 1)%nat by lia.
    rewrite min_ofNat_succ by lia.
    unfold n. rewrite arrayGet_last by (discriminate || exact Hlen).
    destruct (last l) as [final|] eqn:El; [|apply last_None in El; congruence].
    exists final. eexists. split; [reflexivity|]. split; [reflexivity|].
    assert (Hin : final ∈ l).
    { rewrite last_lookup in El. apply list_elem_of_lookup. eexists. exact El. }
    apply lerpColor_0. apply (Hch final final Hin Hin).
Qed.

End ScaleEnds.

(** C6 (as amended): for finite [minSpeed] and [maxSpeed] and stops whose
    channels are finite with finite differences, the scale at [minSpeed]
    yields the first stop's colour; when moreover [maxSpeed - minSpeed] is
    finite and not zero, the scale at [maxSpeed] yields the last stop's
    colour; each within channel rounding and with alpha 255. *)
Theorem scale_boundary_colors (minSpeed maxSpeed : float) (colors : list Color) :
  let stops := stopsOf colors in
  let scale := createSpeedColorScale minSpeed maxSpeed colors in
  Number.isFinite minSpeed = true ->
  Number.isFinite maxSpeed = true ->
  channelsFinite stops ->
  (Z.of_nat (length stops) < 2 ^ 53)%Z ->
  (exists first r, head stops = Some first /\ scale minSpeed = Some r
                   /\ colorWithinRounding r first)
  /\ (isRegular (maxSpeed - minSpeed) = true ->
      exists final r, last stops = Some final /\ scale maxSpeed = Some r
                      /\ colorWithinRounding r final).
Proof.
  intros stops scale Hmin Hmax Hch Hlen. split.
  - apply scale_at_first; try assumption.
    apply clamp_zero. rewrite sub_diag by exact Hmin.
    apply div_zero_l; [reflexivity|]. apply or_truthy. reflexivity.
  - intros Hreg. apply scale_at_last; try assumption.
    unfold Number.or. rewrite (isRegular_truthy _ Hreg), div_diag by exact Hreg. reflexivity.
Qed.

Lemma channelsFiniteb_sound stops : channelsFiniteb stops = true -> channelsFinite stops.
Proof.
  unfold channelsFiniteb, channelsFinite. intros H a b Ha Hb.
  rewrite forallb_forall in H. apply list_elem_of_In in Ha, Hb.
  specialize (H a Ha). rewrite forallb_forall in H. specialize (H b Hb).
  destruct a as [[a0 a1] a2], b as [[b0 b1] b2].
  apply andb_prop in H. destruct H as [H H2]. apply andb_prop in H. destruct H as [H0 H1].
  repeat split; assumption.
Qed.

Lemma scale_boundary_colors_witness :
  (exists first r, head (stopsOf []) = Some first
     /\ createSpeedColorScale 0 100 [] 0 = Some r /\ colorWithinRounding r first)
  /\ (isRegular (100 - 0) = true ->
      exists final r, last (stopsOf []) = Some final
        /\ createSpeedColorScale 0 100 [] 100 = Some r /\ colorWithinRounding r final).
Proof.
  apply (scale_boundary_colors 0 100 []).
  - reflexivity.
  - reflexivity.
  - apply channelsFiniteb_sound. reflexivity.
  - simpl. lia.
Defined.

Lemma not_withinRounding_0_255 : ~ withinRounding 0 255.
Proof.
  intros [[H|[_ H]]|[H|[_ H]]]; try discriminate H;
    apply (f_equal Prim2SF) in H; vm_compute in H; discriminate H.
Qed.

(** C6 as stated fails at [maxSpeed] when the range is empty or overflows:
    with [minSpeed = maxSpeed = 50] the width is taken as 1, the position of
    50 is 0 and the scale from black to white yields black, the first stop;
    with the finite bounds -1e308 and 1e308 the width is [Infinity], the
    position of [maxSpeed] is NaN and no stop is read. *)
Lemma scale_counterexample :
  createSpeedColorScale 50 50 blackToWhite 50 = Some (0, 0, 0, 255)
  /\ last (stopsOf blackToWhite) = Some (255, 255, 255)
  /\ ~ colorWithinRounding (0, 0, 0, 255) (255, 255, 255)
  /\ createSpeedColorScale (-1e308) 1e308 blackToWhite 1e308 = None.
Proof.
  split; [reflexivity|]. split; [reflexivity|]. split; [|reflexivity].
  intros (H & _). exact (not_withinRounding_0_255 H).
Qed.

(** * Further properties of the segment builder *)

(** ** Identifiers *)

Lemma string_of_uint_digits d : allDigits (NilEmpty.string_of_uint d) = true.
Proof. induction d; simpl; try exact IHd; reflexivity. Qed.

(** Two texts of digits joined to their tails by a hyphen: equal joins
    have equal parts. *)
Lemma split_at_hyphen s1 : forall s2 t1 t2,
  allDigits s1 = true -> allDigits s2 = true ->
  (s1 ++ "-" ++ t1 = s2 ++ "-" ++ t2)%string -> s1 = s2 /\ t1 = t2.
Proof.
  induction s1 as [|c s1 IH]; intros s2 t1 t2 H1 H2 E.
  - destruct s2 as [|c2 s2]; simpl in E.
    + injection E as E. split; [reflexivity|exact E].
    + injection E as Ec _. subst c2. simpl in H2. discriminate.
  - destruct s2 as [|c2 s2]; simpl in E.
    + injection E as Ec _. subst c. simpl in H1. discriminate.
    + injection E as Ec E. subst c2. simpl in H1, H2.
      apply andb_prop in H1, H2. destruct (IH s2 t1 t2) as [-> ->]; tauto.
Qed.

Lemma string_of_nat_inj i j :
  NilEmpty.string_of_uint (Nat.to_uint i) = NilEmpty.string_of_uint (Nat.to_uint j) -> i = j.
Proof.
  intros E. apply (f_equal NilEmpty.uint_of_string) in E. rewrite !NilEmpty.usu in E.
  injection E as E. apply (f_equal Nat.of_uint) in E.
  rewrite !DecimalNat.Unsigned.of_to in E. exact E.
Qed.

Lemma segmentId_inj i s i' s' : segmentId i s = segmentId i' s' -> i = i' /\ s = s'.
Proof.
  unfold segmentId. intros E.
  apply split_at_hyphen in E; try apply string_of_uint_digits.
  destruct E as [E1 E2]. split; apply string_of_nat_inj; assumption.
Qed.

(** Every segment of the track is the one made for a pair of samples [i]
    at a sub-index [s], at position [i * n + s]. *)
Lemma trackSegments_lookup_inv n points : forall i0 k sg,
  trackSegments n i0 points !! k = Some sg ->
  exists i s, k = (i * n + s)%nat /\ (s < n)%nat /\ Segment.id sg = segmentId (i0 + i) s.
Proof.
  induction points as [|p rest IH]; intros i0 k sg Hk; [discriminate|].
  destruct rest as [|q rest']; [discriminate|].
  change (trackSegments n i0 (p :: q :: rest'))
    with (pairSegments p q i0 n ++ trackSegments n (S i0) (q :: rest')) in Hk.
  destruct (Nat.lt_ge_cases k n) as [Hlt|Hge].
  - rewrite lookup_app_l in Hk by (rewrite pairSegments_length; exact Hlt).
    rewrite pairSegments_lookup in Hk by exact Hlt. injection Hk as <-.
    exists 0%nat, k. rewrite Nat.add_0_r. repeat split; [exact Hlt].
  - rewrite lookup_app_r in Hk by (rewrite pairSegments_length; exact Hge).
    rewrite pairSegments_length in Hk.
    destruct (IH _ _ _ Hk) as (i & s & Ek & Hs & Hid).
    exists (S i), s. split; [simpl; lia|]. split; [exact Hs|].
    rewrite Hid. f_equal. lia.
Qed.

(** X1: within one build the identifiers are unique: two segments with the
    same [id] are at the same position of the [segments] array. *)
Theorem segment_ids_unique (points : list Point.t) (options : BuildSegmentsOptions.t)
    (j k : nat) (o o' : Obj Segment.t) :
  BuildResult.segments (buildSegments points options) !! j = Some o ->
  BuildResult.segments (buildSegments points options) !! k = Some o' ->
  Segment.id (val o) = Segment.id (val o') -> j = k.
Proof.
  intros Hj Hk E.
  assert (Hlen : (2 <= length points)%nat).
  { destruct (Nat.lt_ge_cases (length points) 2) as [Hlt|Hge]; [|exact Hge].
    unfold buildSegments in Hj. apply Nat.ltb_lt in Hlt. rewrite Hlt in Hj. discriminate. }
  pose proof (buildSegments_segments points options Hlen) as Hsegs.
  set (n := BuildSegmentsOptions.subdivisions options) in *.
  assert (Hj' : trackSegments n 0 points !! j = Some (val o)).
  { rewrite <- Hsegs. change (map val ?l) with (val <$> l).
    rewrite list_lookup_fmap, Hj. reflexivity. }
  assert (Hk' : trackSegments n 0 points !! k = Some (val o')).
  { rewrite <- Hsegs. change (map val ?l) with (val <$> l).
    rewrite list_lookup_fmap, Hk. reflexivity. }
  destruct (trackSegments_lookup_inv _ _ _ _ _ Hj') as (i1 & s1 & -> & _ & Hid1).
  destruct (trackSegments_lookup_inv _ _ _ _ _ Hk') as (i2 & s2 & -> & _ & Hid2).
  rewrite Hid1, Hid2 in E. apply segmentId_inj in E. destruct E as [E1 E2].
  simpl in E1. subst. reflexivity.
Qed.

Lemma segment_ids_unique_witness :
  exists o o',
    BuildResult.segments (buildSegments twoSamples (plainOptions 2)) !! 0%nat = Some o
    /\ BuildResult.segments (buildSegments twoSamples (plainOptions 2)) !! 1%nat = Some o'
    /\ Segment.id (val o) <> Segment.id (val o').
Proof.
  eexists. eexists. split; [reflexivity|]. split; [reflexivity|]. intros E.
  pose proof (segment_ids_unique twoSamples (plainOptions 2) 0 1 _ _ eq_refl eq_refl E) as H.
  discriminate H.
Defined.

(** ** The bounding box and the view *)

Lemma ltb_not_NaN_l x y : (x <? y) = true -> Number.isNaN x = false.
Proof. intros H. apply ltb_rank in H. tauto. Qed.

Lemma ltb_not_NaN_r x y : (x <? y) = true -> Number.isNaN y = false.
Proof. intros H. apply ltb_rank in H. tauto. Qed.

Lemma leb_not_NaN_l x y : (x <=? y) = true -> Number.isNaN x = false.
Proof. intros H. apply leb_rank in H. tauto. Qed.

Lemma leb_not_NaN_r x y : (x <=? y) = true -> Number.isNaN y = false.
Proof. intros H. apply leb_rank in H. tauto. Qed.

Lemma ltb_trans x y z : (x <? y) = true -> (y <? z) = true -> (x <? z) = true.
Proof.
  rewrite !ltb_rank, !lexCompare_Lt.
  intros (Hx & Hy & H1) (_ & Hz & H2). repeat split; try assumption. lia.
Qed.

Lemma leb_ltb_trans x y z : (x <=? y) = true -> (y <? z) = true -> (x <? z) = true.
Proof.
  rewrite leb_rank, !ltb_rank, lexCompare_not_Gt, !lexCompare_Lt.
  intros (Hx & Hy & H1) (_ & Hz & H2). repeat split; try assumption. lia.
Qed.

Lemma leb_ltb_false x y : (x <=? y) = true -> (y <? x) = false.
Proof.
  intros H. destruct (y <? x) eqn:E; [|reflexivity].
  apply leb_rank in H. apply ltb_rank in E.
  destruct H as (_ & _ & H), E as (_ & _ & E).
  apply lexCompare_not_Gt in H. apply lexCompare_Lt in E. lia.
Qed.

(** One update [if (x < lo) lo = x]: the new bound is not above the old
    one, nor above [x]. *)
Lemma lower_bound_step lo x :
  Number.isNaN lo = false ->
  let lo' := if x <? lo then x else lo in
  Number.isNaN lo' = false /\ (lo' <=? lo) = true
  /\ (Number.isNaN x = false -> (lo' <=? x) = true).
Proof.
  intros Hlo. cbv zeta. destruct (x <? lo) eqn:E.
  - split; [exact (ltb_not_NaN_l _ _ E)|]. split; [apply ltb_leb, E|].
    intros Hx. apply leb_refl, Hx.
  - split; [exact Hlo|]. split; [apply leb_refl, Hlo|].
    intros Hx. apply not_ltb_leb; assumption.
Qed.

Lemma upper_bound_step hi x :
  Number.isNaN hi = false ->
  let hi' := if hi <? x then x else hi in
  Number.isNaN hi' = false /\ (hi <=? hi') = true
  /\ (Number.isNaN x = false -> (x <=? hi') = true).
Proof.
  intros Hhi. cbv zeta. destruct (hi <? x) eqn:E.
  - split; [exact (ltb_not_NaN_r _ _ E)|]. split; [apply ltb_leb, E|].
    intros Hx. apply leb_refl, Hx.
  - split; [exact Hhi|]. split; [apply leb_refl, Hhi|].
    intros Hx. apply not_ltb_leb; assumption.
Qed.

Lemma boxInv_step seen bb p : boxInv seen bb -> boxInv (seen ++ [p]) (bboxStep bb p).
Proof.
  intros (H1 & H2 & H3 & H4 & Hseen).
  destruct (lower_bound_step (minLon bb) (Point.lon p) H1) as (A1 & A2 & A3).
  destruct (upper_bound_step (maxLon bb) (Point.lon p) H2) as (B1 & B2 & B3).
  destruct (lower_bound_step (minLat bb) (Point.lat p) H3) as (C1 & C2 & C3).
  destruct (upper_bound_step (maxLat bb) (Point.lat p) H4) as (D1 & D2 & D3).
  unfold boxInv, bboxStep. cbn [minLon maxLon minLat maxLat].
  repeat (split; [assumption|]).
  intros q Hq. apply elem_of_app in Hq. destruct Hq as [Hq|Hq].
  - destruct (Hseen q Hq) as [Hlon Hlat]. split; intros Hn.
    + destruct (Hlon Hn). split; eauto using leb_trans.
    + destruct (Hlat Hn). split; eauto using leb_trans.
  - apply list_elem_of_singleton in Hq. subst q. split; intros Hn; split; auto.
Qed.

Lemma boxInv_fold points : forall seen bb,
  boxInv seen bb -> boxInv (seen ++ points) (fold_left bboxStep points bb).
Proof.
  induction points as [|p points IH]; intros seen bb H; simpl.
  - rewrite app_nil_r. exact H.
  - replace (seen ++ p :: points) with ((seen ++ [p]) ++ points)
      by (rewrite <- app_assoc; reflexivity).
    apply IH, boxInv_step, H.
Qed.

Lemma boxInv_boundingBox points : boxInv points (boundingBox points).
Proof.
  apply (boxInv_fold points [] (mkBBox infinity neg_infinity infinity neg_infinity)).
  repeat (split; [reflexivity|]). intros p Hp. apply elem_of_nil in Hp. destruct Hp.
Qed.

(** X2: the initial view of a build over at least two samples is centred
    on the middle of the bounding box of the samples, and that box holds
    every sample: each longitude and latitude that is not NaN lies between
    the bounds of the box. *)
Theorem view_frames_the_samples (points : list Point.t) (options : BuildSegmentsOptions.t)
    (p : Point.t) :
  let view := BuildResult.initialViewState (buildSegments points options) in
  let bb := boundingBox points in
  (2 <= length points)%nat -> p ∈ points ->
  ViewState.longitude view = (minLon bb + maxLon bb) / 2
  /\ ViewState.latitude view = (minLat bb + maxLat bb) / 2
  /\ (Number.isNaN (Point.lon p) = false ->
      (minLon bb <=? Point.lon p) = true /\ (Point.lon p <=? maxLon bb) = true)
  /\ (Number.isNaN (Point.lat p) = false ->
      (minLat bb <=? Point.lat p) = true /\ (Point.lat p <=? maxLat bb) = true).
Proof.
  intros view bb Hlen Hp. subst view. unfold buildSegments.
  destruct (Nat.ltb_spec (length points) 2) as [Hlt|_]; [lia|].
  cbn [BuildResult.initialViewState]. unfold viewOf. cbn [ViewState.longitude ViewState.latitude].
  fold bb. split; [reflexivity|]. split; [reflexivity|].
  destruct (boxInv_boundingBox points) as (_ & _ & _ & _ & H). exact (H p Hp).
Qed.

Lemma view_frames_the_samples_witness :
  ViewState.longitude (BuildResult.initialViewState (buildSegments twoSamples (plainOptions 2)))
  = 0.5
  /\ (minLon (boundingBox twoSamples) <=? Point.lon sampleB) = true
  /\ (Point.lon sampleB <=? maxLon (boundingBox twoSamples)) = true.
Proof.
  destruct (view_frames_the_samples twoSamples (plainOptions 2) sampleB) as (H1 & _ & H2 & _).
  - simpl. lia.
  - apply elem_of_cons. right. apply elem_of_cons. left. reflexivity.
  - split; [rewrite H1; reflexivity|]. apply H2. reflexivity.
Defined.

(** The tests of the ladder on [a] when [a <= b]: a test that [b] passes,
    [a] passes. *)
Ltac ladder_test a b H t :=
  let E := fresh "E" in
  destruct (b <? t) eqn:E;
  [rewrite (leb_ltb_trans a b t H E)|destruct (a <? t)].

(** X3: the zoom ladder never zooms in on a wider span: for spans
    [a <= b] the zoom chosen for [b] is not above the zoom chosen for [a]. *)
Theorem zoom_ladder_is_monotone (a b : float) :
  (a <=? b) = true -> (zoomFor b <=? zoomFor a) = true.
Proof.
  intros H. unfold zoomFor.
  ladder_test a b H 0.8; ladder_test a b H 0.4; ladder_test a b H 0.2;
  ladder_test a b H 0.1; ladder_test a b H 0.05; ladder_test a b H 0.025;
  reflexivity.
Qed.

Lemma zoom_ladder_is_monotone_witness : (zoomFor 0.5 <=? zoomFor 0.03) = true.
Proof. apply (zoom_ladder_is_monotone 0.03 0.5). reflexivity. Defined.

(** ** The observed speed range *)

Lemma min_infinity_l x : Number.isFinite x = true -> Math.min infinity x = x.
Proof.
  intros Hx. pose proof (isFinite_not_NaN x Hx) as Hn.
  destruct (Math_min_spec infinity x eq_refl Hn) as ([E|E] & _ & H); [|exact E].
  rewrite E, infinity_leb_finite in H by exact Hx. discriminate.
Qed.

Lemma max_neg_infinity_l x : Number.isFinite x = true -> Math.max neg_infinity x = x.
Proof.
  intros Hx. pose proof (isFinite_not_NaN x Hx) as Hn.
  destruct (Math_max_spec neg_infinity x eq_refl Hn) as ([E|E] & _ & H); [|exact E].
  rewrite E, finite_leb_neg_infinity in H by exact Hx. discriminate.
Qed.

Lemma observedInv_step a b i n st s :
  rangeInv st -> observedInv st -> observedInv (subdivideStep a b i n st s).
Proof.
  intros Hr Hinv. destruct (rangeInv_not_NaN st Hr) as [Hnm HnM].
  unfold subdivideStep. set (seg := makeSegment a b i n s). set (x := Segment.speed seg).
  set (o := mkObj (length (segs st)) seg).
  assert (Ho : forall l, o ∈ l ++ [o]).
  { intros l. apply elem_of_app. right. apply list_elem_of_singleton. reflexivity. }
  destruct (Number.isFinite x) eqn:Hx; unfold observedInv; cbn [minS maxS segs].
  - right. pose proof (isFinite_not_NaN x Hx) as Hnx.
    destruct Hinv as [(_ & Em & EM)|((om & Hom & Hfm & Em) & (oM & HoM & HfM & EM))].
    + rewrite Em, EM, min_infinity_l, max_neg_infinity_l by exact Hx.
      split; exists o; (split; [apply Ho|]); split; try exact Hx; reflexivity.
    + split.
      * destruct (Math_min_spec (minS st) x Hnm Hnx) as ([E|E] & _); rewrite E.
        -- exists om. split; [apply elem_of_app; left; exact Hom|]. split; assumption.
        -- exists o. split; [apply Ho|]. split; [exact Hx|reflexivity].
      * destruct (Math_max_spec (maxS st) x HnM Hnx) as ([E|E] & _); rewrite E.
        -- exists oM. split; [apply elem_of_app; left; exact HoM|]. split; assumption.
        -- exists o. split; [apply Ho|]. split; [exact Hx|reflexivity].
  - destruct Hinv as [(Hall & Em & EM)|((om & Hom & Hfm & Em) & (oM & HoM & HfM & EM))].
    + left. split; [|split; assumption].
      rewrite forallb_app, Hall. cbn [forallb andb]. unfold hasFiniteSpeed, o. cbn [val].
      fold x. rewrite Hx. reflexivity.
    + right. split.
      * exists om. split; [apply elem_of_app; left; exact Hom|]. split; assumption.
      * exists oM. split; [apply elem_of_app; left; exact HoM|]. split; assumption.
Qed.

Lemma observedInv_subdivideLoop a b i n st :
  rangeInv st -> observedInv st ->
  observedInv (subdivideLoop a b i n st).
Proof.
  unfold subdivideLoop. generalize (seq 0 n). intros l. revert st.
  induction l as [|s l IH]; intros st Hr Hinv; simpl; [exact Hinv|].
  apply IH; [apply rangeInv_step, Hr|apply observedInv_step; assumption].
Qed.

Lemma observedInv_pairsLoop n points : forall i st,
  rangeInv st -> observedInv st -> observedInv (pairsLoop n i points st).
Proof.
  induction points as [|a rest IH]; intros i st Hr Hinv; [exact Hinv|].
  destruct rest as [|b rest']; [exact Hinv|].
  change (pairsLoop n i (a :: b :: rest') st)
    with (pairsLoop n (S i) (b :: rest') (subdivideLoop a b i n st)).
  apply IH; [apply rangeInv_subdivideLoop, Hr|apply observedInv_subdivideLoop; assumption].
Qed.

Lemma observedInv_build n points :
  observedInv (pairsLoop n 0 points (mkBuildState infinity neg_infinity [])).
Proof.
  apply observedInv_pairsLoop; [apply rangeInv_initial|].
  left. repeat split.
Qed.

(** X4: without overrides, when some segment of the build has a finite
    midpoint speed, the returned [minSpeed] and [maxSpeed] are observed
    values: each is the midpoint speed of a segment of the build whose
    midpoint speed is finite. *)
Theorem speed_range_is_observed (points : list Point.t) (n : nat) :
  let result := buildSegments points (plainOptions n) in
  (exists o, o ∈ BuildResult.segments result /\ hasFiniteSpeed o = true) ->
  (exists o, o ∈ BuildResult.segments result /\ hasFiniteSpeed o = true
             /\ BuildResult.minSpeed result = Segment.speed (val o))
  /\ (exists o, o ∈ BuildResult.segments result /\ hasFiniteSpeed o = true
             /\ BuildResult.maxSpeed result = Segment.speed (val o)).
Proof.
  intros result. subst result. unfold buildSegments.
  destruct (length points <? 2)%nat.
  { intros (o & Ho & _). apply elem_of_nil in Ho. destruct Ho. }
  cbn [BuildResult.segments BuildResult.minSpeed BuildResult.maxSpeed plainOptions
       BuildSegmentsOptions.subdivisions BuildSegmentsOptions.minSpeedOverride
       BuildSegmentsOptions.maxSpeedOverride default].
  pose proof (observedInv_build n points) as Hinv.
  set (st := pairsLoop n 0 points _) in *.
  intros (o & Ho & Hf).
  destruct Hinv as [(Hall & _)|((om & Hom & Hfm & Em) & (oM & HoM & HfM & EM))].
  { rewrite forallb_forall in Hall. apply list_elem_of_In in Ho.
    specialize (Hall o Ho). rewrite Hf in Hall. discriminate. }
  split.
  - exists om. split; [exact Hom|]. split; [exact Hfm|].
    unfold hasFiniteSpeed in Hfm. rewrite Em, Hfm. reflexivity.
  - exists oM. split; [exact HoM|]. split; [exact HfM|].
    unfold hasFiniteSpeed in HfM. rewrite EM, HfM. reflexivity.
Qed.

Lemma speed_range_is_observed_witness :
  (exists o, o ∈ BuildResult.segments (buildSegments twoSamples (plainOptions 2))
             /\ BuildResult.minSpeed (buildSegments twoSamples (plainOptions 2))
                = Segment.speed (val o))
  /\ BuildResult.minSpeed (buildSegments twoSamples (plainOptions 2)) = 2.5
  /\ BuildResult.maxSpeed (buildSegments twoSamples (plainOptions 2)) = 7.5.
Proof.
  destruct (speed_range_is_observed twoSamples 2) as [(o & Ho & _ & E) _].
  - exists secondHalf. split; [|reflexivity].
    apply list_elem_of_lookup. exists 1%nat. reflexivity.
  - split; [exists o; split; assumption|]. split; reflexivity.
Defined.

(** X5: without overrides, when no segment of the build has a finite
    midpoint speed (no segment at all, or speeds that are NaN or infinite
    only), the returned range is the default, 0 to 1. *)
Theorem speed_range_defaults (points : list Point.t) (n : nat) :
  let result := buildSegments points (plainOptions n) in
  (forall o, o ∈ BuildResult.segments result -> hasFiniteSpeed o = false) ->
  BuildResult.minSpeed result = 0 /\ BuildResult.maxSpeed result = 1.
Proof.
  intros result. subst result. unfold buildSegments.
  destruct (length points <? 2)%nat; [intros _; split; reflexivity|].
  cbn [BuildResult.segments BuildResult.minSpeed BuildResult.maxSpeed plainOptions
       BuildSegmentsOptions.subdivisions BuildSegmentsOptions.minSpeedOverride
       BuildSegmentsOptions.maxSpeedOverride default].
  pose proof (observedInv_build n points) as Hinv.
  set (st := pairsLoop n 0 points _) in *.
  intros Hnone.
  destruct Hinv as [(_ & Em & EM)|((om & Hom & Hfm & _) & _)].
  - rewrite Em, EM. split; reflexivity.
  - rewrite (Hnone om Hom) in Hfm. discriminate.
Qed.

Lemma speed_range_defaults_witness :
  BuildResult.minSpeed (buildSegments gapTrack (plainOptions 1)) = 0
  /\ BuildResult.maxSpeed (buildSegments gapTrack (plainOptions 1)) = 1.
Proof.
  apply (speed_range_defaults gapTrack 1).
  intros o Ho. apply list_elem_of_lookup in Ho. destruct Ho as [[|k] Hk].
  - vm_compute in Hk. injection Hk as <-. reflexivity.
  - vm_compute in Hk. discriminate.
Defined.

(** ** The buckets of the grid index *)

Lemma buildGrid_fold_lookup gs l : forall g k,
  fold_left (gridInsert gs) l g !! k
  = match cellMembers gs k l with
    | [] => g !! k
    | b => Some (default [] (g !! k) ++ b)
    end.
Proof.
  induction l as [|s l IH]; intros g k; [reflexivity|].
  cbn [fold_left]. rewrite IH, gridInsert_lookup.
  unfold cellMembers. rewrite filter_cons.
  destruct (decide (cellKey gs (val s) = k)) as [E|E].
  - simpl. destruct (filter _ l) as [|o b]; [reflexivity|].
    rewrite <- app_assoc. reflexivity.
  - reflexivity.
Qed.

Lemma buildGrid_lookup gs l k :
  buildGrid gs l !! k
  = match cellMembers gs k l with [] => None | b => Some b end.
Proof.
  unfold buildGrid. rewrite buildGrid_fold_lookup, lookup_empty.
  destruct (cellMembers gs k l); reflexivity.
Qed.

Lemma cellMembers_elem gs key l o :
  o ∈ cellMembers gs key l <-> cellKey gs (val o) = key /\ o ∈ l.
Proof.
  unfold cellMembers.
  exact (list_elem_of_filter (fun o => cellKey gs (val o) = key) l o).
Qed.

(** X6: the grid index of a build holds, under each key, exactly the
    segments of the build whose midpoint falls in that cell, in track
    order; a key with no such segment is absent, so no bucket is empty and
    every segment is in one bucket only. *)
Theorem grid_bucket_holds_its_cell (points : list Point.t) (options : BuildSegmentsOptions.t)
    (key : float * float) :
  let result := buildSegments points options in
  let members :=
    cellMembers (BuildResult.gridSize result) key (BuildResult.segments result) in
  match BuildResult.gridIndex result !! key with
  | Some bucket => bucket = members /\ bucket <> []
  | None => members = []
  end.
Proof.
  intros result members. subst result members. unfold buildSegments.
  destruct (length points <? 2)%nat;
    cbn [BuildResult.gridIndex BuildResult.gridSize BuildResult.segments];
    [rewrite lookup_empty; reflexivity|].
  rewrite buildGrid_lookup.
  destruct (cellMembers _ _ _); [reflexivity|]. split; [reflexivity|discriminate].
Qed.

(** ** The track passes through the samples *)

Lemma ofNat_isRegular n :
  (1 <= n)%nat -> (Z.of_nat n < 2 ^ 53)%Z -> isRegular (Number.ofNat n) = true.
Proof.
  intros Hn Hb. unfold isRegular, Number.ofNat. rewrite Prim2SF_ofZ by lia.
  destruct (Z.of_nat n) eqn:E; try lia; reflexivity.
Qed.

(** [0 / n] for a count [n >= 1]. *)
Lemma zero_div_ofNat n :
  (1 <= n)%nat -> (Z.of_nat n < 2 ^ 53)%Z ->
  Number.isZero (Number.ofNat 0 / Number.ofNat n) = true.
Proof.
  intros Hn Hb. apply div_zero_l; [reflexivity|].
  apply isRegular_truthy, ofNat_isRegular; assumption.
Qed.

Lemma lerp_at_zero a b t :
  Number.isFinite (b - a) = true -> Number.isZero t = true -> (lerp a b t =? a) = true.
Proof.
  intros H Ht. unfold lerp. apply add_zero_r_eqb.
  - exact (sub_finite_r _ _ H).
  - apply mul_zero_r; assumption.
Qed.

(** X7: the first segment made for a pair of samples starts at the first
    sample of the pair: its start coordinate, [speed0] and [time0] are the
    sample's longitude, latitude, speed and timestamp as numbers (a zero of
    either sign being one number), for each field whose difference
    between the two samples is finite. *)
Theorem first_subsegment_starts_at_sample (points : list Point.t)
    (options : BuildSegmentsOptions.t) (i : nat) (a b : Point.t) :
  let n := BuildSegmentsOptions.subdivisions options in
  points !! i = Some a -> points !! S i = Some b ->
  (1 <= n)%nat -> (Z.of_nat n < 2 ^ 53)%Z ->
  exists o,
    BuildResult.segments (buildSegments points options) !! (i * n)%nat = Some o
    /\ (Number.isFinite (Point.lon b - Point.lon a) = true ->
        (fst (fst (Segment.path (val o))) =? Point.lon a) = true)
    /\ (Number.isFinite (Point.lat b - Point.lat a) = true ->
        (snd (fst (Segment.path (val o))) =? Point.lat a) = true)
    /\ (Number.isFinite (Point.speed b - Point.speed a) = true ->
        (Segment.speed0 (val o) =? Point.speed a) = true)
    /\ (Number.isFinite (Point.timestamp b - Point.timestamp a) = true ->
        (Segment.time0 (val o) =? Point.timestamp a) = true).
Proof.
  intros n Ha Hb Hn Hsmall.
  destruct (buildSegments_lookup points options i 0 a b Ha Hb Hn) as (o & Ho & Hval).
  fold n in Ho, Hval. rewrite Nat.add_0_r in Ho.
  exists o. split; [exact Ho|]. rewrite Hval. unfold makeSegment.
  cbn [Segment.path Segment.speed0 Segment.time0 fst snd].
  pose proof (zero_div_ofNat n Hn Hsmall) as Hz.
  repeat split; intros Hfin; apply lerp_at_zero; assumption.
Qed.

Lemma first_subsegment_starts_at_sample_witness :
  exists o,
    BuildResult.segments (buildSegments twoSamples (plainOptions 2)) !! 0%nat = Some o
    /\ (Segment.speed0 (val o) =? Point.speed sampleA) = true
    /\ (Segment.time0 (val o) =? Point.timestamp sampleA) = true.
Proof.
  destruct (first_subsegment_starts_at_sample twoSamples (plainOptions 2) 0 sampleA sampleB)
    as (o & Ho & _ & _ & Hs & Ht); try reflexivity.
  - simpl. lia.
  - exists o. split; [exact Ho|]. split; [apply Hs|apply Ht]; reflexivity.
Defined.

(** ** Whole timestamps join across samples *)

Lemma ofZ_add_zero z x :
  (Z.abs z < 2 ^ 53)%Z -> Number.isZero x = true -> Number.ofZ z + x = Number.ofZ z.
Proof.
  intros Hz Hx. destruct (Z.eq_dec z 0%Z) as [->|Hnz].
  - destruct (isZero_cases x Hx) as [->| ->]; reflexivity.
  - apply add_zero_r; [apply ofZ_isFinite, Hz| |exact Hx].
    unfold Number.isZero. rewrite Prim2SF_ofZ by exact Hz. destruct z; [congruence| |]; reflexivity.
Qed.

(** Interpolating between two whole numbers: the ends are met exactly. *)
Lemma lerp_whole_at_0 a b t :
  (Z.abs a < 2 ^ 52)%Z -> (Z.abs b < 2 ^ 52)%Z -> Number.isZero t = true ->
  lerp (Number.ofZ a) (Number.ofZ b) t = Number.ofZ a.
Proof.
  intros Ha Hb Ht. unfold lerp. rewrite ofZ_sub by lia.
  apply ofZ_add_zero; [lia|]. apply mul_zero_r; [apply ofZ_isFinite; lia|exact Ht].
Qed.

Lemma lerp_whole_at_1 a b :
  (Z.abs a < 2 ^ 52)%Z -> (Z.abs b < 2 ^ 52)%Z ->
  lerp (Number.ofZ a) (Number.ofZ b) 1 = Number.ofZ b.
Proof.
  intros Ha Hb. unfold lerp. rewrite ofZ_sub, mul_1_r, ofZ_add by lia. f_equal. lia.
Qed.

(** X8: with timestamps that are whole numbers below 2^52 in magnitude
    (milliseconds since the epoch are), the times of the track join exactly
    across a sample: the last segment made for the pair of samples [i],
    [i + 1] ends, and the first segment made for the pair [i + 1], [i + 2]
    starts, at the timestamp of sample [i + 1]. *)
Theorem whole_times_join_across_samples (points : list Point.t)
    (options : BuildSegmentsOptions.t) (i : nat) (a b c : Point.t) (ta tb tc : Z) :
  let n := BuildSegmentsOptions.subdivisions options in
  points !! i = Some a -> points !! S i = Some b -> points !! S (S i) = Some c ->
  (1 <= n)%nat -> (Z.of_nat n < 2 ^ 53)%Z ->
  Point.timestamp a = Number.ofZ ta -> Point.timestamp b = Number.ofZ tb ->
  Point.timestamp c = Number.ofZ tc ->
  (Z.abs ta < 2 ^ 52)%Z -> (Z.abs tb < 2 ^ 52)%Z -> (Z.abs tc < 2 ^ 52)%Z ->
  exists k k',
    BuildResult.segments (buildSegments points options) !! (i * n + (n - 1))%nat = Some k
    /\ BuildResult.segments (buildSegments points options) !! (S i * n)%nat = Some k'
    /\ Segment.time1 (val k) = Point.timestamp b
    /\ Segment.time0 (val k') = Point.timestamp b.
Proof.
  intros n Ha Hb Hc Hn Hsmall Eta Etb Etc Hta Htb Htc.
  destruct (buildSegments_lookup points options i (n - 1) a b Ha Hb ltac:(fold n; lia))
    as (k & Hk & Hvk).
  destruct (buildSegments_lookup points options (S i) 0 b c Hb Hc Hn) as (k' & Hk' & Hvk').
  fold n in Hk, Hvk, Hk', Hvk'. rewrite Nat.add_0_r in Hk'.
  exists k, k'. split; [exact Hk|]. split; [exact Hk'|].
  rewrite Hvk, Hvk'. unfold makeSegment. cbn [Segment.time1 Segment.time0].
  rewrite Eta, Etb, Etc. split.
  - replace (n - 1 + 1)%nat with n by lia.
    rewrite div_diag by (apply ofNat_isRegular; assumption).
    apply lerp_whole_at_1; assumption.
  - apply lerp_whole_at_0; try assumption. apply zero_div_ofNat; assumption.
Qed.

Lemma whole_times_join_across_samples_witness :
  exists k k',
    BuildResult.segments (buildSegments outAndBack (plainOptions 2)) !! 1%nat = Some k
    /\ BuildResult.segments (buildSegments outAndBack (plainOptions 2)) !! 2%nat = Some k'
    /\ Segment.time1 (val k) = 1000
    /\ Segment.time0 (val k') = 1000.
Proof.
  apply (whole_times_join_across_samples outAndBack (plainOptions 2) 0
           (Point.mk 0.0625 0 10 0) (Point.mk 0.03125 0 20 1000) (Point.mk 0.046875 0 30 2000)
           0 1000 2000); try reflexivity; simpl; lia.
Defined.

(** * Further properties of the nearest query *)

(** ** The clamped projection parameter *)

Lemma rank_inj x y :
  x <> S754_nan -> y <> S754_nan -> rank x = rank y ->
  x = y \/ (exists s s', x = S754_zero s /\ y = S754_zero s').
Proof.
  intros Hx Hy H.
  destruct x as [sx|[]| |[] mx ex]; try congruence;
  destruct y as [sy|[]| |[] my ey]; try congruence; try discriminate H;
    try (left; reflexivity).
  - right. eauto.
  - left. injection H as He Hm. f_equal; lia.
  - left. injection H as He Hm. congruence.
Qed.

Lemma leb_antisym x y :
  (x <=? y) = true -> (y <=? x) = true ->
  x = y \/ (Number.isZero x = true /\ Number.isZero y = true).
Proof.
  rewrite !leb_rank, !lexCompare_not_Gt. intros (Hx & Hy & H1) (_ & _ & H2).
  assert (E : rank (Prim2SF x) = rank (Prim2SF y)).
  { destruct (rank (Prim2SF x)) as [[a1 a2] a3], (rank (Prim2SF y)) as [[b1 b2] b3].
    simpl in H1, H2. f_equal; [f_equal|]; lia. }
  apply isNaN_false_iff in Hx, Hy.
  destruct (rank_inj _ _ Hx Hy E) as [H|(s & s' & Hs & Hs')].
  - left. apply Prim2SF_inj, H.
  - right. unfold Number.isZero. rewrite Hs, Hs'. split; reflexivity.
Qed.

Lemma min_NaN_r x y : Number.isNaN y = true -> Math.min x y = nan.
Proof. intros H. unfold Math.min. rewrite H, orb_true_r. reflexivity. Qed.

(** [Math.max(0, Math.min(1, t))]: NaN for NaN, else a number from 0 to 1;
    0 up to its sign when [t <= 0], and 1 when [1 <= t]. *)
Lemma clamp_spec t :
  let u := Math.max 0 (Math.min 1 t) in
  (Number.isNaN t = true -> Number.isNaN u = true)
  /\ (Number.isNaN t = false -> (0 <=? u) = true /\ (u <=? 1) = true)
  /\ ((t <=? 0) = true -> Number.isZero u = true)
  /\ ((1 <=? t) = true -> u = 1).
Proof.
  cbv zeta. split; [|split; [|split]].
  - intros Hn. rewrite min_NaN_r by exact Hn. reflexivity.
  - intros Hn.
    destruct (Math_min_spec 1 t eq_refl Hn) as (Hm & Hm1 & Hmt).
    pose proof (leb_not_NaN_l _ _ Hm1) as Hmn.
    destruct (Math_max_spec 0 (Math.min 1 t) eq_refl Hmn) as (HM & HM0 & HMm).
    split; [exact HM0|]. destruct HM as [E|E]; rewrite E; [reflexivity|exact Hm1].
  - intros Ht. pose proof (leb_not_NaN_l _ _ Ht) as Hn.
    destruct (Math_min_spec 1 t eq_refl Hn) as (Hm & Hm1 & Hmt).
    pose proof (leb_not_NaN_l _ _ Hm1) as Hmn.
    destruct (Math_max_spec 0 (Math.min 1 t) eq_refl Hmn) as (HM & HM0 & HMm).
    destruct HM as [E|E]; rewrite E; [reflexivity|].
    rewrite E in HM0.
    destruct (leb_antisym _ _ HM0 (leb_trans _ _ _ Hmt Ht)) as [<-|[_ H]]; [reflexivity|exact H].
  - intros Ht. pose proof (leb_not_NaN_r _ _ Ht) as Hn.
    destruct (Math_min_spec 1 t eq_refl Hn) as (Hm & Hm1 & Hmt).
    assert (E : Math.min 1 t = 1).
    { destruct Hm as [E|E]; [exact E|]. rewrite E in Hm1.
      destruct (leb_antisym _ _ Hm1 Ht) as [E'|[_ H]]; [congruence|discriminate H]. }
    rewrite E. reflexivity.
Qed.

(** X9: the parameter [t] of the projection on a segment is the raw
    parameter clamped to the segment: NaN when the raw parameter is NaN,
    otherwise a number from 0 to 1; it is zero when the raw parameter is
    not above 0 (the query projects before the start) and 1 when the raw
    parameter is not below 1 (the query projects past the end). *)
Theorem projection_parameter_is_clamped (cos : float -> float) (lon lat : float)
    (s : Segment.t) :
  let raw := rawParameter cos lon lat s in
  let t := parameter cos lon lat s in
  (Number.isNaN raw = true -> Number.isNaN t = true)
  /\ (Number.isNaN raw = false -> (0 <=? t) = true /\ (t <=? 1) = true)
  /\ ((raw <=? 0) = true -> Number.isZero t = true)
  /\ ((1 <=? raw) = true -> t = 1).
Proof. intros raw t. subst t. unfold parameter. fold raw. apply clamp_spec. Qed.

(** ** What the scan returns *)

(** Rounding keeps the sign it is given. *)
Lemma binary_round_aux_sign s m e l :
  match binary_round_aux prec emax s m e l with
  | S754_zero s' | S754_infinity s' | S754_finite s' _ _ => s' = s
  | S754_nan => True
  end.
Proof.
  unfold binary_round_aux.
  destruct (shr_fexp prec emax m e l) as [mrs' e'].
  destruct (shr_fexp prec emax _ e' loc_Exact) as [mrs'' e''].
  destruct (shr_m mrs'') as [|p|p]; [reflexivity| |exact I].
  destruct (e'' <=? emax - prec)%Z; reflexivity.
Qed.

(** A square root is NaN or not below zero. *)
Lemma sqrt_not_negative x :
  Number.isNaN (Math.sqrt x) = true \/ (0 <=? Math.sqrt x) = true.
Proof.
  unfold Math.sqrt, Number.isNaN. rewrite FloatAxioms.leb_spec, FloatAxioms.sqrt_spec.
  change (Prim2SF 0) with (S754_zero false).
  destruct (Prim2SF x) as [s|[]| |[] m e]; try (left; reflexivity); try (right; reflexivity).
  unfold SF64sqrt, SFsqrt.
  destruct (SFsqrt_core_binary prec emax (Zpos m) e) as [[mz ez] lz].
  pose proof (binary_round_aux_sign false mz ez lz) as H.
  destruct (binary_round_aux prec emax false mz ez lz) as [s'|s'| |s' m' e'];
    try (subst s'; right; reflexivity). left; reflexivity.
Qed.

(** The distance of a candidate is NaN or not below zero. *)
Lemma candidate_distance_not_negative (cos : float -> float) lon lat s :
  let d := NearestResult.distMeters (candidate cos lon lat s) in
  Number.isNaN d = true \/ (0 <=? d) = true.
Proof.
  unfold candidate, resultAt. destruct (Segment.path s) as [[x1 y1] [x2 y2]].
  destruct (segmentScale cos s) as [mLat mLon]. cbn [NearestResult.distMeters].
  apply sqrt_not_negative.
Qed.

Lemma bestOf_step (cos : float -> float) lon lat seen best s :
  bestOf cos lon lat seen best ->
  bestOf cos lon lat (seen ++ [s]) (scanStep cos lon lat best s).
Proof.
  assert (Hs : s ∈ seen ++ [s]).
  { apply elem_of_app. right. apply list_elem_of_singleton. reflexivity. }
  unfold scanStep. destruct best as [b|]; simpl.
  - intros (w & Hw & Hb & Hmin).
    destruct (NearestResult.distMeters (candidate cos lon lat (val s))
              <? NearestResult.distMeters b) eqn:E.
    + exists s. split; [exact Hs|]. split; [reflexivity|].
      intros o Ho. apply elem_of_app in Ho. destruct Ho as [Ho|Ho].
      * destruct (distanceTo cos lon lat o <? _) eqn:E'; [|reflexivity].
        rewrite <- (Hmin o Ho). symmetry. exact (ltb_trans _ _ _ E' E).
      * apply list_elem_of_singleton in Ho. subst o. apply ltb_irrefl.
    + exists w. split; [apply elem_of_app; left; exact Hw|]. split; [exact Hb|].
      intros o Ho. apply elem_of_app in Ho. destruct Ho as [Ho|Ho]; [exact (Hmin o Ho)|].
      apply list_elem_of_singleton in Ho. subst o. exact E.
  - intros ->. exists s. split; [exact Hs|]. split; [reflexivity|].
    intros o Ho. apply list_elem_of_singleton in Ho. subst o. apply ltb_irrefl.
Qed.

Lemma bestOf_fold (cos : float -> float) lon lat l : forall seen best,
  bestOf cos lon lat seen best ->
  bestOf cos lon lat (seen ++ l) (fold_left (scanStep cos lon lat) l best).
Proof.
  induction l as [|s l IH]; intros seen best H; simpl.
  - rewrite app_nil_r. exact H.
  - replace (seen ++ s :: l) with ((seen ++ [s]) ++ l) by (rewrite <- app_assoc; reflexivity).
    apply IH, bestOf_step, H.
Qed.

Lemma bestOf_scan (cos : float -> float) lon lat l :
  bestOf cos lon lat l (scan cos lon lat l).
Proof. apply (bestOf_fold cos lon lat l [] None). reflexivity. Qed.

(** X10: a query without the index returns the projection on a nearest
    segment: the result is the candidate of a segment of the array from
    which no segment of the array is strictly nearer to the query. *)
Theorem full_scan_returns_a_nearest (cos : float -> float) (lon lat : float)
    (segments : list (Obj Segment.t)) (r : NearestResult.t) :
  findNearestPointOnTrack cos lon lat segments None None = Some r ->
  exists w, nearestSegment cos lon lat segments w /\ r = candidate cos lon lat (val w).
Proof.
  unfold findNearestPointOnTrack. destruct (length segments =? 0)%nat; [discriminate|].
  cbn [candidatesOf]. intros H.
  pose proof (bestOf_scan cos lon lat segments) as Hb. rewrite H in Hb.
  destruct Hb as (w & Hw & Hr & Hmin). exists w. split; [|exact Hr].
  split; [exact Hw|]. intros o Ho. unfold distanceTo at 2. rewrite <- Hr. apply Hmin, Ho.
Qed.

Lemma full_scan_returns_a_nearest_witness :
  exists r w,
    findNearestPointOnTrack cosOne 0.75 0.01
      (BuildResult.segments (buildSegments twoSamples (plainOptions 2))) None None = Some r
    /\ nearestSegment cosOne 0.75 0.01
         (BuildResult.segments (buildSegments twoSamples (plainOptions 2))) w
    /\ r = candidate cosOne 0.75 0.01 (val w).
Proof.
  exists (candidate cosOne 0.75 0.01 (val secondHalf)).
  destruct (full_scan_returns_a_nearest cosOne 0.75 0.01
              (BuildResult.segments (buildSegments twoSamples (plainOptions 2)))
              (candidate cosOne 0.75 0.01 (val secondHalf))) as (w & Hw & Hr).
  - vm_compute. reflexivity.
  - exists w. split; [vm_compute; reflexivity|]. split; assumption.
Defined.

(** X11: the distance a query returns, with or without the index, is never
    below zero: it is NaN or a number that is at least 0. *)
Theorem nearest_distance_not_negative (cos : float -> float) (lon lat : float)
    (segments : list (Obj Segment.t))
    (gridIndex : option (gmap (float * float) (list (Obj Segment.t))))
    (gridSize : option float) (r : NearestResult.t) :
  findNearestPointOnTrack cos lon lat segments gridIndex gridSize = Some r ->
  Number.isNaN (NearestResult.distMeters r) = true
  \/ (0 <=? NearestResult.distMeters r) = true.
Proof.
  unfold findNearestPointOnTrack. destruct (length segments =? 0)%nat; [discriminate|].
  intros H.
  pose proof (bestOf_scan cos lon lat (candidatesOf lon lat segments gridIndex gridSize)) as Hb.
  rewrite H in Hb. destruct Hb as (w & _ & -> & _).
  apply candidate_distance_not_negative.
Qed.

Lemma nearest_distance_not_negative_witness :
  exists r,
    findNearestPointOnTrack cosOne 0.75 0.01
      (BuildResult.segments (buildSegments twoSamples (plainOptions 2))) None None = Some r
    /\ (Number.isNaN (NearestResult.distMeters r) = true
        \/ (0 <=? NearestResult.distMeters r) = true).
Proof.
  eexists. split; [vm_compute; reflexivity|].
  apply (nearest_distance_not_negative cosOne 0.75 0.01
           (BuildResult.segments (buildSegments twoSamples (plainOptions 2))) None None).
  vm_compute. reflexivity.
Defined.

(** ** The first of the nearest segments wins *)

Lemma scan_keeps_unbeaten (cos : float -> float) lon lat w l :
  (forall o, o ∈ l -> (distanceTo cos lon lat o <? distanceTo cos lon lat w) = false) ->
  fold_left (scanStep cos lon lat) l (Some (candidate cos lon lat (val w)))
  = Some (candidate cos lon lat (val w)).
Proof.
  induction l as [|o l IH]; intros Hl; [reflexivity|]. cbn [fold_left].
  assert (E : scanStep cos lon lat (Some (candidate cos lon lat (val w))) o
              = Some (candidate cos lon lat (val w))).
  { unfold scanStep. pose proof (Hl o ltac:(apply elem_of_cons; left; reflexivity)) as H.
    unfold distanceTo in H. rewrite H. reflexivity. }
  rewrite E. apply IH. intros o' Ho'. apply Hl, elem_of_cons. right; exact Ho'.
Qed.

Lemma scan_reaches_strictly_nearer (cos : float -> float) lon lat w l : forall best,
  (forall o, o ∈ l -> (distanceTo cos lon lat w <? distanceTo cos lon lat o) = true) ->
  (best = None \/ exists b, best = Some b
                   /\ (distanceTo cos lon lat w <? NearestResult.distMeters b) = true) ->
  scanStep cos lon lat (fold_left (scanStep cos lon lat) l best) w
  = Some (candidate cos lon lat (val w)).
Proof.
  induction l as [|o l IH]; intros best Hl Hbest.
  - cbn [fold_left]. unfold scanStep. destruct Hbest as [->|(b & -> & Hlt)]; [reflexivity|].
    unfold distanceTo in Hlt. rewrite Hlt. reflexivity.
  - cbn [fold_left]. apply IH.
    + intros o' Ho'. apply Hl, elem_of_cons. right; exact Ho'.
    + right. pose proof (Hl o ltac:(apply elem_of_cons; left; reflexivity)) as Ho.
      unfold scanStep. destruct Hbest as [->|(b & -> & Hlt)].
      * eexists. split; [reflexivity|exact Ho].
      * destruct (NearestResult.distMeters (candidate cos lon lat (val o))
                  <? NearestResult.distMeters b);
          eexists; (split; [reflexivity|assumption]).
Qed.

(** X12: among segments that are as near, a query without the index
    returns the first in array order: a segment that is strictly nearer
    than every segment before it, and from which no segment after it is
    strictly nearer, is the one whose projection is returned. *)
Theorem full_scan_keeps_first_minimum (cos : float -> float) (lon lat : float)
    (before after : list (Obj Segment.t)) (w : Obj Segment.t) :
  (forall o, o ∈ before -> (distanceTo cos lon lat w <? distanceTo cos lon lat o) = true) ->
  (forall o, o ∈ after -> (distanceTo cos lon lat o <? distanceTo cos lon lat w) = false) ->
  findNearestPointOnTrack cos lon lat (before ++ w :: after) None None
  = Some (candidate cos lon lat (val w)).
Proof.
  intros Hbefore Hafter. unfold findNearestPointOnTrack.
  rewrite length_app. cbn [length]. rewrite Nat.add_succ_r. cbn [Nat.eqb candidatesOf].
  unfold scan. rewrite fold_left_app. cbn [fold_left].
  rewrite scan_reaches_strictly_nearer; [|exact Hbefore|left; reflexivity].
  apply scan_keeps_unbeaten, Hafter.
Qed.

Lemma full_scan_keeps_first_minimum_witness :
  (distanceTo cosOne 0.046875 0.01 wayBack <? distanceTo cosOne 0.046875 0.01 wayOut) = false
  /\ (distanceTo cosOne 0.046875 0.01 wayOut <? distanceTo cosOne 0.046875 0.01 wayBack) = false
  /\ findNearestPointOnTrack cosOne 0.046875 0.01 [wayOut; wayBack] None None
     = Some (candidate cosOne 0.046875 0.01 (val wayOut)).
Proof.
  split; [vm_compute; reflexivity|]. split; [vm_compute; reflexivity|].
  apply (full_scan_keeps_first_minimum cosOne 0.046875 0.01 [] [wayBack] wayOut).
  - intros o Ho. apply elem_of_nil in Ho. destruct Ho.
  - intros o Ho. apply list_elem_of_singleton in Ho. subst o. vm_compute. reflexivity.
Defined.

(** ** The candidates taken from the index *)

Lemma gatherCell_from g gx gy set d o :
  o ∈ gatherCell g gx gy set d ->
  o ∈ set \/ exists b, g !! gridKey (gx + fst d) (gy + snd d) = Some b /\ o ∈ b.
Proof.
  unfold gatherCell. destruct (g !! _) as [arr|] eqn:E; [|left; assumption].
  intros H. destruct (setAdd_fold_elem _ _ _ H) as [H'|H']; [left; exact H'|].
  right. exists arr. split; [reflexivity|exact H'].
Qed.

Lemma gather_fold_from g gx gy ds : forall set o,
  o ∈ fold_left (gatherCell g gx gy) ds set ->
  o ∈ set \/ exists d b, d ∈ ds /\ g !! gridKey (gx + fst d) (gy + snd d) = Some b /\ o ∈ b.
Proof.
  induction ds as [|d ds IH]; intros set o H; simpl in H; [left; exact H|].
  destruct (IH _ _ H) as [H'|(d' & b & Hd' & Hk & Hb)].
  - apply gatherCell_from in H'. destruct H' as [H'|(b & Hk & Hb)]; [left; exact H'|].
    right. exists d, b. split; [apply elem_of_cons; left; reflexivity|]. split; assumption.
  - right. exists d', b. split; [apply elem_of_cons; right; exact Hd'|]. split; assumption.
Qed.

(** A segment gathered from the index sits in a bucket of one of the nine
    cells of the block. *)
Lemma neighbourhood_from g gs lon lat o :
  o ∈ neighbourhood g gs lon lat ->
  exists key b, key ∈ blockKeys gs lon lat /\ g !! key = Some b /\ o ∈ b.
Proof.
  intros H. destruct (gather_fold_from _ _ _ _ _ _ H) as [H'|(d & b & Hd & Hk & Hb)].
  { apply elem_of_nil in H'. destruct H'. }
  exists (gridKey (Math.floor (lon / gs) + fst d) (Math.floor (lat / gs) + snd d)), b.
  split; [|split; assumption].
  unfold blockKeys. apply list_elem_of_fmap. exists d. split; [reflexivity|exact Hd].
Qed.

(** With the index of a build, the gathered segments are the segments of
    the build that are in the block. *)
Lemma neighbourhood_of_build gs l lon lat o :
  o ∈ neighbourhood (buildGrid gs l) gs lon lat -> o ∈ l /\ inBlock gs lon lat o.
Proof.
  intros H. destruct (neighbourhood_from _ _ _ _ _ H) as (key & b & Hkey & Hb & Ho).
  rewrite buildGrid_lookup in Hb.
  destruct (cellMembers gs key l) as [|x b'] eqn:E; [discriminate|].
  injection Hb as <-. rewrite <- E in Ho. apply cellMembers_elem in Ho.
  destruct Ho as [Hcell Hl]. split; [exact Hl|]. unfold inBlock. rewrite Hcell. exact Hkey.
Qed.

Lemma neighbourhood_of_build_has gs l lon lat x :
  x ∈ l -> inBlock gs lon lat x ->
  exists o, o ∈ neighbourhood (buildGrid gs l) gs lon lat /\ ref o = ref x.
Proof.
  intros Hx Hblock. destruct (buildGrid_complete gs l x Hx) as (b & Hb & Hxb).
  exact (neighbourhood_has _ _ _ _ b x Hblock Hb Hxb).
Qed.

(** X13: with the index of the build, a query whose block of nine cells
    holds no segment of the build falls back to the scan of the whole
    array: it returns what the query without the index returns. *)
Theorem index_falls_back_to_full_scan (cos : float -> float)
    (points : list Point.t) (options : BuildSegmentsOptions.t) (lon lat : float) :
  let result := buildSegments points options in
  let segments := BuildResult.segments result in
  let gridIndex := BuildResult.gridIndex result in
  let gridSize := BuildResult.gridSize result in
  (forall o, o ∈ segments -> ~ inBlock gridSize lon lat o) ->
  findNearestPointOnTrack cos lon lat segments (Some gridIndex) (Some gridSize)
  = findNearestPointOnTrack cos lon lat segments None None.
Proof.
  intros result segments gridIndex gridSize Hout.
  unfold findNearestPointOnTrack. destruct (length segments =? 0)%nat eqn:Hlen; [reflexivity|].
  assert (Hne : segments <> []).
  { intros E. rewrite E in Hlen. discriminate. }
  destruct (buildSegments_grid points options Hne) as [Hsize Hgrid].
  fold result in Hsize, Hgrid. fold gridSize in Hsize. fold gridIndex segments in Hgrid.
  f_equal. unfold candidatesOf. rewrite Hsize. change (Number.truthy 0.02) with true. cbv iota.
  destruct (neighbourhood gridIndex 0.02 lon lat) as [|o set] eqn:E; [reflexivity|].
  exfalso. assert (Ho : o ∈ neighbourhood gridIndex 0.02 lon lat).
  { rewrite E. apply elem_of_cons. left; reflexivity. }
  rewrite Hgrid in Ho. apply neighbourhood_of_build in Ho. destruct Ho as [Ho Hblock].
  apply (Hout o Ho). rewrite Hsize. exact Hblock.
Qed.

Lemma index_falls_back_to_full_scan_witness :
  findNearestPointOnTrack cosOne 50 50
    (BuildResult.segments (buildSegments twoSamples (plainOptions 2)))
    (Some (BuildResult.gridIndex (buildSegments twoSamples (plainOptions 2))))
    (Some (BuildResult.gridSize (buildSegments twoSamples (plainOptions 2))))
  = findNearestPointOnTrack cosOne 50 50
      (BuildResult.segments (buildSegments twoSamples (plainOptions 2))) None None.
Proof.
  apply (index_falls_back_to_full_scan cosOne twoSamples (plainOptions 2) 50 50).
  intros o Ho. unfold inBlock. apply (proj1 (bool_decide_eq_false _)). vm_compute in Ho.
  apply elem_of_cons in Ho. destruct Ho as [->|Ho]; [vm_compute; reflexivity|].
  apply elem_of_cons in Ho. destruct Ho as [->|Ho]; [vm_compute; reflexivity|].
  apply elem_of_nil in Ho. destruct Ho.
Defined.

(** X14: with the index of the build, a query whose block of nine cells
    holds a segment of the build returns the projection on a nearest
    segment of the block: a segment of the build in the block from which
    no segment of the build in the block is strictly nearer; segments
    outside the block are not looked at. *)
Theorem indexed_query_returns_nearest_of_block (cos : float -> float)
    (points : list Point.t) (options : BuildSegmentsOptions.t) (lon lat : float)
    (x : Obj Segment.t) :
  let result := buildSegments points options in
  let segments := BuildResult.segments result in
  let gridIndex := BuildResult.gridIndex result in
  let gridSize := BuildResult.gridSize result in
  x ∈ segments -> inBlock gridSize lon lat x ->
  exists w,
    findNearestPointOnTrack cos lon lat segments (Some gridIndex) (Some gridSize)
    = Some (candidate cos lon lat (val w))
    /\ w ∈ segments /\ inBlock gridSize lon lat w
    /\ forall o, o ∈ segments -> inBlock gridSize lon lat o ->
         (distanceTo cos lon lat o <? distanceTo cos lon lat w) = false.
Proof.
  intros result segments gridIndex gridSize Hx Hblock.
  assert (Hne : segments <> []).
  { intros E. rewrite E in Hx. apply elem_of_nil in Hx. destruct Hx. }
  destruct (buildSegments_grid points options Hne) as [Hsize Hgrid].
  fold result in Hsize, Hgrid. fold gridSize in Hsize. fold gridIndex segments in Hgrid.
  pose proof (refs_injective segments (buildSegments_refs points options)) as Hinj.
  rewrite Hsize in *.
  unfold findNearestPointOnTrack. destruct segments as [|s0 l0] eqn:Es; [congruence|].
  cbn [length Nat.eqb]. rewrite <- Es in *. clear Es s0 l0.
  unfold candidatesOf. change (Number.truthy 0.02) with true. cbv iota.
  destruct (neighbourhood_of_build_has 0.02 segments lon lat x Hx Hblock) as (x' & Hx' & _).
  rewrite <- Hgrid in Hx'.
  destruct (neighbourhood gridIndex 0.02 lon lat) as [|o1 set1] eqn:En.
  { apply elem_of_nil in Hx'. destruct Hx'. }
  cbn [length Nat.eqb]. rewrite <- En in *. clear En o1 set1.
  pose proof (bestOf_scan cos lon lat (neighbourhood gridIndex 0.02 lon lat)) as Hb.
  destruct (scan cos lon lat (neighbourhood gridIndex 0.02 lon lat)) as [r|].
  - destruct Hb as (w & Hw & -> & Hmin). exists w. split; [reflexivity|].
    rewrite Hgrid in Hw. apply neighbourhood_of_build in Hw. destruct Hw as [Hws Hwb].
    split; [exact Hws|]. split; [exact Hwb|].
    intros o Ho Hob.
    destruct (neighbourhood_of_build_has 0.02 segments lon lat o Ho Hob) as (o' & Ho' & Href).
    assert (o' = o).
    { apply Hinj; [|exact Ho|exact Href]. apply neighbourhood_of_build in Ho'. tauto. }
    subst o'. rewrite <- Hgrid in Ho'. exact (Hmin o Ho').
  - simpl in Hb. rewrite Hb in Hx'. apply elem_of_nil in Hx'. destruct Hx'.
Qed.

Lemma indexed_query_returns_nearest_of_block_witness :
  exists w,
    findNearestPointOnTrack cosOne 0.76 0.01
      (BuildResult.segments (buildSegments twoSamples (plainOptions 2)))
      (Some (BuildResult.gridIndex (buildSegments twoSamples (plainOptions 2))))
      (Some (BuildResult.gridSize (buildSegments twoSamples (plainOptions 2))))
    = Some (candidate cosOne 0.76 0.01 (val w))
    /\ w ∈ BuildResult.segments (buildSegments twoSamples (plainOptions 2))
    /\ inBlock (BuildResult.gridSize (buildSegments twoSamples (plainOptions 2))) 0.76 0.01 w
    /\ forall o, o ∈ BuildResult.segments (buildSegments twoSamples (plainOptions 2)) ->
         inBlock (BuildResult.gridSize (buildSegments twoSamples (plainOptions 2))) 0.76 0.01 o ->
         (distanceTo cosOne 0.76 0.01 o <? distanceTo cosOne 0.76 0.01 w) = false.
Proof.
  apply (indexed_query_returns_nearest_of_block cosOne twoSamples (plainOptions 2) 0.76 0.01
           secondHalf).
  - apply list_elem_of_lookup. exists 1%nat. reflexivity.
  - unfold inBlock. apply (bool_decide_unpack _). vm_compute. exact I.
Defined.

(** * Further properties of the colour scale *)

(** ** Values of finite numbers *)

Lemma canonical_bounds m e :
  canonical m e ->
  (Zpos (digits2_pos m) <= 53 /\ -1074 <= e
   /\ (e = -1074 \/ Zpos (digits2_pos m) = 53))%Z.
Proof. unfold canonical, fexp, emin, prec, emax. lia. Qed.

Lemma pow2_pos k : (0 <= k)%Z -> (0 < 2 ^ k)%Z.
Proof. intros H. apply Z.pow_pos_nonneg; lia. Qed.

Lemma pow2_split a b : (0 <= a)%Z -> (0 <= b)%Z -> (2 ^ (a + b) = 2 ^ a * 2 ^ b)%Z.
Proof. intros. apply Z.pow_add_r; assumption. Qed.

Lemma fixedPoint_lt m1 e1 m2 e2 :
  canonical m1 e1 -> canonical m2 e2 ->
  (e1 < e2 \/ (e1 = e2 /\ Zpos m1 < Zpos m2))%Z ->
  (fixedPoint m1 e1 < fixedPoint m2 e2)%Z.
Proof.
  intros H1 H2 H. apply canonical_bounds in H1, H2.
  destruct H1 as (Hd1 & He1 & _), H2 as (Hd2 & He2 & Hn2).
  unfold fixedPoint. pose proof (pow2_pos (e1 + 2200) ltac:(lia)) as HP.
  destruct H as [Hlt|[-> Hlt]].
  - replace (e2 + 2200)%Z with ((e2 - e1 - 1) + (1 + (e1 + 2200)))%Z by lia.
    rewrite (pow2_split (e2 - e1 - 1) (1 + (e1 + 2200))), (pow2_split 1 (e1 + 2200)) by lia.
    pose proof (pow2_pos (e2 - e1 - 1) ltac:(lia)) as HQ.
    destruct (digits2_pos_bounds m1) as [_ Hu1], (digits2_pos_bounds m2) as [Hl2 _].
    assert (Hm1 : (Zpos m1 < 2 ^ 53)%Z).
    { eapply Z.lt_le_trans; [exact Hu1|]. apply Z.pow_le_mono_r; lia. }
    assert (Hm2 : (2 ^ 52 <= Zpos m2)%Z).
    { destruct Hn2 as [Hn2|Hn2]; [lia|]. rewrite Hn2 in Hl2. exact Hl2. }
    change (2 ^ 1)%Z with 2%Z.
    set (P := (2 ^ (e1 + 2200))%Z) in *. set (Q := (2 ^ (e2 - e1 - 1))%Z) in *.
    assert (Ha : (Zpos m1 * P < 2 ^ 53 * P)%Z) by (apply Z.mul_lt_mono_pos_r; lia).
    assert (Hb : (2 ^ 52 * (1 * (2 * P)) <= Zpos m2 * (Q * (2 * P)))%Z).
    { apply Z.mul_le_mono_nonneg; try lia. apply Z.mul_le_mono_nonneg_r; lia. }
    lia.
  - apply Z.mul_lt_mono_pos_r; assumption.
Qed.

(** Among canonical forms the order of the values is that of the
    exponents, then of the mantissas. *)
Lemma fixedPoint_le_iff m1 e1 m2 e2 :
  canonical m1 e1 -> canonical m2 e2 ->
  (fixedPoint m1 e1 <= fixedPoint m2 e2)%Z <->
  (e1 < e2 \/ (e1 = e2 /\ Zpos m1 <= Zpos m2))%Z.
Proof.
  intros H1 H2. split.
  - intros Hle.
    destruct (Z.lt_trichotomy e1 e2) as [Hlt|[Heq|Hgt]]; [left; exact Hlt| |].
    + right. split; [exact Heq|].
      destruct (Z_le_gt_dec (Zpos m1) (Zpos m2)) as [|Hgt]; [assumption|].
      pose proof (fixedPoint_lt m2 e2 m1 e1 H2 H1 ltac:(lia)). lia.
    + pose proof (fixedPoint_lt m2 e2 m1 e1 H2 H1 ltac:(lia)). lia.
  - intros [Hlt|[Heq Hle]].
    + pose proof (fixedPoint_lt m1 e1 m2 e2 H1 H2 ltac:(lia)). lia.
    + subst e2. unfold fixedPoint.
      pose proof (pow2_pos (e1 + 2200)
                    ltac:(apply canonical_bounds in H1; lia)). nia.
Qed.

(** ** Shifting a mantissa right *)

Lemma shr_1_m mrs : (0 <= shr_m mrs)%Z -> shr_m (shr_1 mrs) = (shr_m mrs / 2)%Z.
Proof.
  destruct mrs as [m r s]. cbn [shr_m]. intros Hm.
  destruct m as [|[p|p|]|p]; try lia; cbn [shr_1 shr_m].
  - reflexivity.
  - rewrite Pos2Z.inj_xI. apply (Z.div_unique _ 2 _ 1); lia.
  - rewrite Pos2Z.inj_xO. apply (Z.div_unique _ 2 _ 0); lia.
  - reflexivity.
Qed.

Lemma shr_1_exact mrs :
  (0 <= shr_m mrs)%Z -> shr_r mrs = false -> shr_s mrs = false ->
  (shr_m mrs mod 2 = 0)%Z ->
  shr_r (shr_1 mrs) = false /\ shr_s (shr_1 mrs) = false.
Proof.
  destruct mrs as [m r s]. cbn [shr_m shr_r shr_s]. intros Hm -> -> Hmod.
  destruct m as [|[p|p|]|p]; try lia; cbn [shr_1 shr_r shr_s]; try (split; reflexivity).
  - rewrite Pos2Z.inj_xI in Hmod. rewrite Z.add_comm, Z.mul_comm, Z.mod_add in Hmod by lia.
    discriminate Hmod.
  - discriminate Hmod.
Qed.

Lemma shr_iter_m k : forall mrs,
  (0 <= shr_m mrs)%Z ->
  shr_m (SpecFloat.iter_pos shr_1 k mrs) = (shr_m mrs / 2 ^ Zpos k)%Z.
Proof.
  intros mrs Hm. rewrite iter_pos_Pos_iter.
  induction k as [|k IH] using Pos.peano_ind.
  - simpl Pos.iter. rewrite shr_1_m by exact Hm. reflexivity.
  - rewrite Pos.iter_succ, shr_1_m.
    + rewrite IH, Pos2Z.inj_succ, Z.pow_succ_r by lia.
      rewrite Z.div_div by (try apply pow2_pos; lia). f_equal. lia.
    + rewrite IH. apply Z.div_pos; [exact Hm|apply pow2_pos; lia].
Qed.

Lemma shr_iter_exact k : forall m,
  (0 <= m)%Z -> (m mod 2 ^ Zpos k = 0)%Z ->
  let mrs := SpecFloat.iter_pos shr_1 k (Build_shr_record m false false) in
  shr_r mrs = false /\ shr_s mrs = false.
Proof.
  intros m Hm. cbv zeta. rewrite iter_pos_Pos_iter.
  induction k as [|k IH] using Pos.peano_ind; intros Hmod.
  - cbn [Pos.iter]. change (2 ^ 1)%Z with 2%Z in Hmod.
    apply shr_1_exact; try reflexivity; assumption.
  - rewrite Pos.iter_succ.
    assert (Hk : (m mod 2 ^ Zpos k = 0)%Z).
    { rewrite Pos2Z.inj_succ, Z.pow_succ_r in Hmod by lia.
      apply Z.mod_divide in Hmod; [|pose proof (pow2_pos (Zpos k)); lia].
      apply Z.mod_divide; [pose proof (pow2_pos (Zpos k)); lia|].
      destruct Hmod as [c Hc]. exists (c * 2)%Z. lia. }
    destruct (IH Hk) as [Hr Hs].
    pose proof (shr_iter_m k (Build_shr_record m false false) Hm) as Hq.
    rewrite iter_pos_Pos_iter in Hq. cbn [shr_m] in Hq.
    apply shr_1_exact; try assumption.
    + rewrite Hq. apply Z.div_pos; [exact Hm|apply pow2_pos; lia].
    + rewrite Hq. rewrite Pos2Z.inj_succ, Z.pow_succ_r in Hmod by lia.
      apply Z.mod_divide in Hmod; [|pose proof (pow2_pos (Zpos k)); lia].
      destruct Hmod as [c Hc]. rewrite Hc.
      replace (c * (2 * 2 ^ Zpos k))%Z with ((c * 2) * 2 ^ Zpos k)%Z by lia.
      rewrite Z.div_mul by (pose proof (pow2_pos (Zpos k)); lia).
      apply Z.mod_mul. lia.
Qed.

(** [shr_fexp] from an exact location: the mantissa is divided by a power
    of two, the location stays exact when the division is. *)
Lemma shr_fexp_exact m e :
  (0 <= m)%Z ->
  exists n,
    (n = Z.max 0 (fexp prec emax (Zdigits2 m + e) - e))%Z
    /\ snd (shr_fexp prec emax m e loc_Exact) = (e + n)%Z
    /\ shr_m (fst (shr_fexp prec emax m e loc_Exact)) = (m / 2 ^ n)%Z
    /\ ((m mod 2 ^ n = 0)%Z ->
        loc_of_shr_record (fst (shr_fexp prec emax m e loc_Exact)) = loc_Exact).
Proof.
  intros Hm. unfold shr_fexp, shr. cbn [shr_record_of_loc].
  destruct (fexp prec emax (Zdigits2 m + e) - e)%Z as [|p|p] eqn:E.
  - exists 0%Z. cbn [fst snd shr_m]. repeat split; try lia.
    rewrite Z.div_1_r. reflexivity.
  - exists (Zpos p). cbn [fst snd]. split; [lia|]. split; [reflexivity|].
    split; [apply (shr_iter_m p (Build_shr_record m false false)), Hm|].
    intros Hmod. destruct (shr_iter_exact p m Hm Hmod) as [Hr Hs].
    unfold loc_of_shr_record.
    destruct (SpecFloat.iter_pos shr_1 p _) as [m' r s]. cbn [shr_r shr_s] in Hr, Hs.
    subst r s. reflexivity.
  - exists 0%Z. cbn [fst snd shr_m]. repeat split; try lia.
    rewrite Z.div_1_r. reflexivity.
Qed.

Lemma round_nearest_even_bounds q l :
  (q <= round_nearest_even q l <= q + 1)%Z
  /\ (l = loc_Exact -> round_nearest_even q l = q).
Proof.
  unfold round_nearest_even. split.
  - destruct l as [|[]]; try lia. destruct (Z.even q); lia.
  - intros ->. reflexivity.
Qed.

Lemma fexp_mono a b : (a <= b)%Z -> (fexp prec emax a <= fexp prec emax b)%Z.
Proof. unfold fexp, emin, prec, emax. lia. Qed.

(** Rounding to nearest never passes a number that is not below the
    value rounded. *)
Lemma binary_round_aux_upper m e M E :
  (-2200 <= e)%Z ->
  (e <= fexp prec emax (Zpos (digits2_pos m) + e))%Z ->
  canonical M E -> (E <= emax - prec)%Z ->
  (fixedPoint m e <= fixedPoint M E)%Z ->
  match binary_round_aux prec emax false (Zpos m) e loc_Exact with
  | S754_zero _ => True
  | S754_finite _ m' e' => (fixedPoint m' e' <= fixedPoint M E)%Z
  | _ => False
  end.
Proof.
  intros He Hal HM HE Hle.
  pose proof (canonical_bounds M E HM) as (HdM & HEmin & _).
  unfold binary_round_aux.
  destruct (shr_fexp_exact (Zpos m) e ltac:(lia)) as (n1 & Hn1 & He1 & Hq & Hex).
  destruct (shr_fexp prec emax (Zpos m) e loc_Exact) as [mrs' e'].
  cbn [fst snd] in He1, Hq, Hex. cbn [Zdigits2] in Hn1.
  set (d := Zpos (digits2_pos m)) in *.
  assert (He' : e' = fexp prec emax (d + e)) by lia.
  destruct (round_nearest_even_bounds (shr_m mrs') (loc_of_shr_record mrs')) as [Hb Hexact].
  set (m1 := round_nearest_even (shr_m mrs') (loc_of_shr_record mrs')) in *.
  assert (Hn1pos : (0 <= n1)%Z) by lia.
  pose proof (pow2_pos n1 Hn1pos) as Hp1.
  assert (Hq0 : (0 <= shr_m mrs')%Z).
  { rewrite Hq. apply Z.div_pos; lia. }
  (* the exponent after the first shift is not above [E] *)
  assert (HeE : (e' <= E)%Z).
  { destruct (Z_le_gt_dec e' E) as [|Hgt]; [assumption|exfalso].
    assert (Hd : (e' = d + e - 53)%Z).
    { rewrite He' in *. unfold fexp, emin, prec, emax in *. lia. }
    destruct (digits2_pos_bounds m) as [Hlow _]. fold d in Hlow.
    destruct (digits2_pos_bounds M) as [_ Hup].
    assert (HM53 : (Zpos M < 2 ^ 53)%Z).
    { eapply Z.lt_le_trans; [exact Hup|]. apply Z.pow_le_mono_r; lia. }
    unfold fixedPoint in Hle.
    assert (H1 : (2 ^ (d - 1) * 2 ^ (e + 2200) <= Zpos m * 2 ^ (e + 2200))%Z).
    { apply Z.mul_le_mono_nonneg_r; [|exact Hlow]. pose proof (pow2_pos (e + 2200)). lia. }
    rewrite <- Z.pow_add_r in H1 by (unfold d; lia).
    assert (H2 : (Zpos M * 2 ^ (E + 2200) < 2 ^ 53 * 2 ^ (E + 2200))%Z).
    { apply Z.mul_lt_mono_pos_r; [apply pow2_pos; lia|exact HM53]. }
    rewrite <- Z.pow_add_r in H2 by lia.
    assert (H3 : (2 ^ (53 + (E + 2200)) <= 2 ^ (d - 1 + (e + 2200)))%Z).
    { apply Z.pow_le_mono_r; lia. }
    lia. }
  (* the rounded mantissa, at exponent [e'], is not above the bound *)
  set (K := (Zpos M * 2 ^ (E - e'))%Z).
  assert (HK : fixedPoint M E = (K * 2 ^ n1 * 2 ^ (e + 2200))%Z).
  { unfold fixedPoint, K. rewrite <- !Z.mul_assoc, <- !Z.pow_add_r by lia.
    f_equal. f_equal. lia. }
  assert (HmK : (Zpos m <= K * 2 ^ n1)%Z).
  { unfold fixedPoint in Hle at 1. rewrite HK in Hle.
    apply Z.mul_le_mono_pos_r in Hle; [exact Hle|apply pow2_pos; lia]. }
  assert (Hm1 : (0 <= m1 <= K)%Z).
  { split; [lia|].
    assert (HqK : (shr_m mrs' <= K)%Z).
    { rewrite Hq. apply Z.div_le_upper_bound; lia. }
    destruct (Z.eq_dec (Zpos m mod 2 ^ n1)%Z 0%Z) as [Hz|Hnz].
    - rewrite (Hexact (Hex Hz)). exact HqK.
    - assert (shr_m mrs' < K)%Z; [|lia].
      rewrite Hq. apply Z.div_lt_upper_bound; [lia|].
      destruct (Z.eq_dec (Zpos m) (K * 2 ^ n1)%Z) as [Heq|Hne]; [|lia].
      exfalso. apply Hnz. rewrite Heq. apply Z.mod_mul. lia. }
  (* the second shift *)
  destruct (shr_fexp_exact m1 e' ltac:(lia)) as (n2 & Hn2 & He2 & Hq2 & _).
  destruct (shr_fexp prec emax m1 e' loc_Exact) as [mrs'' e''].
  cbn [fst snd] in He2, Hq2.
  assert (Hn2pos : (0 <= n2)%Z) by lia.
  pose proof (pow2_pos n2 Hn2pos) as Hp2.
  assert (Hm2 : (0 <= shr_m mrs'')%Z).
  { rewrite Hq2. apply Z.div_pos; lia. }
  destruct (shr_m mrs'') as [|m2|m2] eqn:Em2; [exact I| |lia].
  assert (Hm1pos : (0 < m1)%Z).
  { destruct (Z.eq_dec m1 0%Z) as [Hz|]; [|lia]. rewrite Hz, Z.div_0_l in Hq2 by lia.
    discriminate Hq2. }
  (* no overflow: the final exponent is not above [E] *)
  assert (He''E : (e'' <= E)%Z).
  { destruct m1 as [|p1|p1] eqn:Ep1; try lia. cbn [Zdigits2] in Hn2.
    assert (Hdig : (Zpos (digits2_pos p1) + e' <= Zpos (digits2_pos M) + E)%Z).
    { assert (HKp : K = Zpos (shiftMantissa M (E - e'))).
      { unfold K. rewrite shiftMantissa_value by lia. reflexivity. }
      pose proof (digits2_pos_mono p1 (shiftMantissa M (E - e')) ltac:(lia)) as Hmono.
      rewrite digits_shiftMantissa in Hmono by lia. lia. }
    pose proof (fexp_mono _ _ Hdig) as Hf. rewrite HM in Hf. lia. }
  destruct (Z.leb_spec e'' (emax - prec)) as [_|Hover]; [|lia].
  unfold fixedPoint at 1.
  assert (Hfloor : (Zpos m2 * 2 ^ n2 <= m1)%Z).
  { rewrite Hq2. rewrite Z.mul_comm. apply Z.mul_div_le. lia. }
  assert (Hstep : (Zpos m2 * 2 ^ (e'' + 2200) <= m1 * 2 ^ (e' + 2200))%Z).
  { replace (e'' + 2200)%Z with (n2 + (e' + 2200))%Z by lia.
    rewrite Z.pow_add_r, Z.mul_assoc by lia.
    apply Z.mul_le_mono_nonneg_r; [|exact Hfloor]. pose proof (pow2_pos (e' + 2200)). lia. }
  assert (Hbound : (m1 * 2 ^ (e' + 2200) <= fixedPoint M E)%Z).
  { rewrite HK. replace (e' + 2200)%Z with (n1 + (e + 2200))%Z by lia.
    rewrite Z.pow_add_r, Z.mul_assoc by lia.
    apply Z.mul_le_mono_nonneg_r; [pose proof (pow2_pos (e + 2200)); lia|].
    apply Z.mul_le_mono_nonneg_r; lia. }
  lia.
Qed.

(** ** The order of positive numbers, by value *)

Lemma canonical_of_Prim2SF x s m e :
  Prim2SF x = S754_finite s m e -> canonical m e /\ (e <= emax - prec)%Z.
Proof.
  intros H. destruct (valid_finite x s m e H) as [Hc Hb]. split; [exact Hc|].
  apply Z.leb_le, Hb.
Qed.

Lemma leb_fixedPoint x y m1 e1 m2 e2 :
  Prim2SF x = S754_finite false m1 e1 -> Prim2SF y = S754_finite false m2 e2 ->
  (x <=? y) = true <-> (fixedPoint m1 e1 <= fixedPoint m2 e2)%Z.
Proof.
  intros Hx Hy.
  destruct (canonical_of_Prim2SF x _ _ _ Hx) as [Hc1 _].
  destruct (canonical_of_Prim2SF y _ _ _ Hy) as [Hc2 _].
  rewrite fixedPoint_le_iff by assumption.
  rewrite leb_rank, lexCompare_not_Gt. unfold Number.isNaN. rewrite Hx, Hy.
  cbn [rank fst snd]. split.
  - intros (_ & _ & H). lia.
  - intros H. repeat split; try reflexivity. lia.
Qed.

(** A number that is not below zero. *)
Lemma not_below_zero x :
  (0 <=? x) = true ->
  Number.isZero x = true \/ x = infinity \/ exists m e, Prim2SF x = S754_finite false m e.
Proof.
  rewrite FloatAxioms.leb_spec. change (Prim2SF 0) with (S754_zero false).
  unfold Number.isZero. destruct (Prim2SF x) as [s|[]| |[] m e] eqn:E; try discriminate.
  - left; reflexivity.
  - intros _. right. left. apply Prim2SF_inj. rewrite E. reflexivity.
  - intros _. right. right. eauto.
Qed.

Lemma fixedPoint_int p :
  (Zpos p < 2 ^ 53)%Z ->
  fixedPoint (intMantissa p) (intExponent p) = (Zpos p * 2 ^ 2200)%Z.
Proof.
  intros Hp. unfold fixedPoint. rewrite intMantissa_value by exact Hp.
  pose proof (digits2_pos_small p Hp). pose proof (intExponent_nonpos p Hp).
  assert (-53 < intExponent p)%Z by (unfold intExponent; lia).
  rewrite <- Z.mul_assoc, <- Z.pow_add_r by lia. f_equal. f_equal. lia.
Qed.

Lemma digits_intMantissa p :
  (Zpos p < 2 ^ 53)%Z -> Zpos (digits2_pos (intMantissa p)) = 53%Z.
Proof.
  intros Hp. pose proof (digits2_pos_small p Hp).
  unfold intMantissa. rewrite digits_shiftMantissa by lia. lia.
Qed.

(** A fraction of a count is not above the count: for [u] from 0 to 1 and
    an integer [K] from 1 to 2^53, [0 <= u * K <= K]. *)
Lemma mul_fraction_le u K :
  (0 <=? u) = true -> (u <=? 1) = true -> (1 <= K < 2 ^ 53)%Z ->
  (0 <=? u * Number.ofZ K) = true /\ (u * Number.ofZ K <=? Number.ofZ K) = true.
Proof.
  intros H0 H1 HK.
  destruct K as [|p|p]; try lia.
  assert (Hk : Prim2SF (Number.ofZ (Zpos p)) = S754_finite false (intMantissa p) (intExponent p)).
  { rewrite Prim2SF_ofZ by lia. reflexivity. }
  destruct (not_below_zero u H0) as [Hz|[Hinf|(m & e & Hu)]].
  - assert (Hp : Number.isZero (u * Number.ofZ (Zpos p)) = true).
    { apply mul_zero_l; [apply ofZ_isFinite; lia|exact Hz]. }
    unfold Number.isZero in Hp. rewrite !FloatAxioms.leb_spec, Hk.
    change (Prim2SF 0) with (S754_zero false).
    destruct (Prim2SF (u * Number.ofZ (Zpos p))); try discriminate. split; reflexivity.
  - subst u. discriminate H1.
  - destruct (canonical_of_Prim2SF u _ _ _ Hu) as [Hcu _].
    destruct (canonical_of_Prim2SF _ _ _ _ Hk) as [Hck Hbk].
    pose proof (canonical_bounds _ _ Hcu) as (Hdu & Heu & _).
    pose proof (canonical_bounds _ _ Hck) as (_ & Hek & _).
    pose proof (intExponent_nonpos p ltac:(lia)) as Hek0.
    (* u <= 1 by value *)
    assert (Hu1 : (fixedPoint m e <= 2 ^ 2200)%Z).
    { apply (leb_fixedPoint u 1 m e 4503599627370496 (-52) Hu eq_refl) in H1.
      exact H1. }
    (* the product *)
    pose proof (FloatAxioms.mul_spec u (Number.ofZ (Zpos p))) as Hmul.
    rewrite Hu, Hk in Hmul. unfold SF64mul, SFmul in Hmul. cbn [xorb] in Hmul.
    pose proof (binary_round_aux_sign false (Zpos (m * intMantissa p)) (e + intExponent p) loc_Exact)
      as Hsign.
    pose proof (binary_round_aux_upper (m * intMantissa p) (e + intExponent p)
                  (intMantissa p) (intExponent p)) as Hup.
    rewrite <- Hmul in Hsign, Hup.
    assert (Hle : (fixedPoint (m * intMantissa p) (e + intExponent p)
                   <= fixedPoint (intMantissa p) (intExponent p))%Z).
    { unfold fixedPoint in *. rewrite Pos2Z.inj_mul.
      pose proof (pow2_pos (intExponent p + 2200) ltac:(lia)) as Hq.
      assert (E2 : (2 ^ (e + intExponent p + 2200) * 2 ^ 2200
                    = 2 ^ (e + 2200) * 2 ^ (intExponent p + 2200))%Z).
      { rewrite <- !Z.pow_add_r by lia. f_equal. lia. }
      assert (H2200 : (0 < 2 ^ 2200)%Z) by (apply pow2_pos; lia).
      apply (Z.mul_le_mono_pos_r _ _ (2 ^ 2200)%Z H2200).
      replace (Zpos m * Zpos (intMantissa p) * 2 ^ (e + intExponent p + 2200) * 2 ^ 2200)%Z
        with ((Zpos m * 2 ^ (e + 2200)) * (Zpos (intMantissa p) * 2 ^ (intExponent p + 2200)))%Z
        by (rewrite <- !Z.mul_assoc, E2; ring).
      rewrite (Z.mul_comm _ (2 ^ 2200)%Z).
      apply Z.mul_le_mono_nonneg_r; [lia|exact Hu1]. }
    assert (Hal : (e + intExponent p
                   <= fexp prec emax (Zpos (digits2_pos (m * intMantissa p))
                                      + (e + intExponent p)))%Z).
    { pose proof (digits2_pos_mono (intMantissa p) (m * intMantissa p) ltac:(nia)) as Hd.
      rewrite digits_intMantissa in Hd by lia.
      unfold fexp, emin, prec, emax. lia. }
    specialize (Hup ltac:(lia) Hal Hck Hbk Hle).
    rewrite !FloatAxioms.leb_spec, Hk. change (Prim2SF 0) with (S754_zero false).
    destruct (Prim2SF (u * Number.ofZ (Zpos p))) as [s'|s'| |s' m' e'] eqn:Ep;
      try (destruct Hup; fail); subst s'.
    + split; reflexivity.
    + split; [reflexivity|].
      rewrite <- Hk, <- Ep, <- FloatAxioms.leb_spec.
      apply (leb_fixedPoint _ _ m' e' _ _ Ep Hk). exact Hup.
Qed.

Lemma ofZ_leb_inv a b :
  (0 <= a < 2 ^ 53)%Z -> (0 <= b < 2 ^ 53)%Z ->
  (Number.ofZ a <=? Number.ofZ b) = true -> (a <= b)%Z.
Proof.
  intros Ha Hb H. destruct (Z_le_gt_dec a b) as [|Hgt]; [assumption|exfalso].
  pose proof (ofZ_ltb b a ltac:(lia) ltac:(lia) ltac:(lia)) as Hlt.
  rewrite (leb_ltb_false _ _ H) in Hlt. discriminate.
Qed.

Lemma zero_plus_one x : Number.isZero x = true -> x + 1 = 1.
Proof. intros H. destruct (isZero_cases x H) as [->| ->]; reflexivity. Qed.

(** The floor of a number from 0 to an integer [K]: an integer from 0 to
    [K], which reads an array up to index [K]. *)
Lemma floor_index x K :
  (0 <=? x) = true -> (x <=? Number.ofZ K) = true -> (0 <= K)%Z -> (K + 1 < 2 ^ 53)%Z ->
  exists z, (0 <= z <= K)%Z
    /\ Number.toIndex (Math.floor x) = Some (Z.to_N z)
    /\ Math.floor x + 1 = Number.ofZ (z + 1).
Proof.
  intros H0 HK HK0 HKb.
  destruct (not_below_zero x H0) as [Hz|[Hinf|(m & e & Hx)]].
  - exists 0%Z. split; [lia|].
    assert (Hf : Math.floor x = x).
    { unfold Math.floor. unfold Number.isZero in Hz.
      destruct (Prim2SF x); try discriminate Hz; reflexivity. }
    rewrite Hf. split.
    + unfold Number.toIndex. unfold Number.isZero in Hz.
      destruct (Prim2SF x); try discriminate Hz; reflexivity.
    + apply zero_plus_one, Hz.
  - subst x. rewrite infinity_leb_finite in HK by (apply ofZ_isFinite; lia). discriminate.
  - destruct K as [|p|p]; [|clear HK0|lia].
    { exfalso. revert HK. rewrite FloatAxioms.leb_spec, Hx. discriminate. }
    assert (Hk : Prim2SF (Number.ofZ (Zpos p))
                 = S754_finite false (intMantissa p) (intExponent p)).
    { rewrite Prim2SF_ofZ by lia. reflexivity. }
    apply (leb_fixedPoint _ _ _ _ _ _ Hx Hk) in HK.
    rewrite fixedPoint_int in HK by lia. unfold fixedPoint in HK.
    destruct (canonical_of_Prim2SF x _ _ _ Hx) as [Hcx _].
    pose proof (canonical_bounds _ _ Hcx) as (_ & Hemin & _).
    unfold Math.floor. rewrite Hx. cbn [cond_Zopp].
    destruct (Z.leb_spec 0 e) as [He|He].
    + (* an integer already *)
      set (z := (Zpos m * 2 ^ e)%Z).
      assert (Hz : (0 < z <= Zpos p)%Z).
      { unfold z. pose proof (pow2_pos e He). split; [lia|].
        rewrite (pow2_split e 2200), Z.mul_assoc in HK by lia.
        apply Z.mul_le_mono_pos_r in HK; [exact HK|apply pow2_pos; lia]. }
      assert (Hxz : x = Number.ofZ z).
      { apply Prim2SF_inj. rewrite Hx, Prim2SF_ofZ by lia.
        destruct z as [|q|q] eqn:Eq; try lia. cbn [intSF].
        destruct (intMantissa_canonical q ltac:(lia)) as [Hcq _].
        assert (Hv : fixedPoint m e = fixedPoint (intMantissa q) (intExponent q)).
        { rewrite fixedPoint_int by lia. unfold fixedPoint.
          rewrite (pow2_split e 2200), Z.mul_assoc by lia. fold z. rewrite Eq. reflexivity. }
        pose proof (proj1 (fixedPoint_le_iff _ _ _ _ Hcx Hcq) ltac:(lia)) as H1.
        pose proof (proj1 (fixedPoint_le_iff _ _ _ _ Hcq Hcx) ltac:(lia)) as H2.
        assert (e = intExponent q) by lia. subst e.
        assert (m = intMantissa q) by lia. subst m. reflexivity. }
      exists z. split; [lia|]. split.
      * unfold Number.toIndex. rewrite Hx. destruct (Z.leb_spec 0 e) as [_|]; [|lia].
        rewrite Z.shiftl_mul_pow2 by lia. reflexivity.
      * rewrite Hxz. change 1 with (Number.ofZ 1). apply ofZ_add; lia.
    + (* a fraction is dropped *)
      rewrite Z.shiftr_div_pow2 by lia.
      set (z := (Zpos m / 2 ^ (- e))%Z).
      pose proof (pow2_pos (- e) ltac:(lia)) as Hp.
      assert (Hz : (0 <= z <= Zpos p)%Z).
      { unfold z. split; [apply Z.div_pos; lia|].
        apply Z.div_le_upper_bound; [lia|].
        replace (2 ^ 2200)%Z with (2 ^ (- e) * 2 ^ (e + 2200))%Z in HK
          by (rewrite <- Z.pow_add_r by lia; f_equal; lia).
        rewrite Z.mul_assoc in HK.
        apply Z.mul_le_mono_pos_r in HK; [lia|apply pow2_pos; lia]. }
      assert (Hf : (if (z =? 0)%Z then 0 else Number.ofZ z) = Number.ofZ z).
      { destruct (Z.eqb_spec z 0) as [->|]; reflexivity. }
      rewrite Hf. exists z. split; [lia|]. split.
      * apply toIndex_ofZ. lia.
      * change 1 with (Number.ofZ 1). apply ofZ_add; lia.
Qed.

Lemma arrayGet_ofZ {A} (arr : list A) z :
  (0 <= z < Z.of_nat (length arr))%Z -> (Z.of_nat (length arr) < 2 ^ 53)%Z ->
  is_Some (Number.arrayGet arr (Number.ofZ z)).
Proof.
  intros Hz Hb. replace z with (Z.of_nat (Z.to_nat z)) by lia.
  change (Number.ofZ (Z.of_nat (Z.to_nat z))) with (Number.ofNat (Z.to_nat z)).
  rewrite arrayGet_ofNat by lia. apply lookup_lt_is_Some_2. lia.
Qed.

Lemma arrayGet_toIndex {A} (arr : list A) x z :
  Number.toIndex x = Some (Z.to_N z) -> (0 <= z < Z.of_nat (length arr))%Z ->
  is_Some (Number.arrayGet arr x).
Proof.
  intros Hx Hz. unfold Number.arrayGet. rewrite Hx.
  destruct (N.ltb_spec (Z.to_N z) (N.of_nat (length arr))) as [_|]; [|lia].
  apply lookup_lt_is_Some_2. lia.
Qed.

Lemma mul_NaN_l x y : Number.isNaN x = true -> Number.isNaN (x * y) = true.
Proof.
  unfold Number.isNaN. rewrite FloatAxioms.mul_spec. destruct (Prim2SF x); try discriminate.
  reflexivity.
Qed.

Lemma arrayGet_NaN {A} (arr : list A) x : Number.isNaN x = true -> Number.arrayGet arr x = None.
Proof.
  unfold Number.isNaN, Number.arrayGet, Number.toIndex.
  destruct (Prim2SF x); try discriminate. reflexivity.
Qed.

Lemma floor_NaN x : Number.isNaN x = true -> Number.isNaN (Math.floor x) = true.
Proof.
  unfold Math.floor. intros H. unfold Number.isNaN in H.
  destruct (Prim2SF x) eqn:E; try discriminate. unfold Number.isNaN. rewrite E. reflexivity.
Qed.

(** ** Operations that never give NaN *)

Lemma shr_fexp_nonneg m e l :
  (0 <= m)%Z -> (0 <= shr_m (fst (shr_fexp prec emax m e l)))%Z.
Proof.
  intros Hm. unfold shr_fexp, shr.
  assert (H0 : (0 <= shr_m (shr_record_of_loc m l))%Z).
  { destruct l as [|[]]; exact Hm. }
  destruct (fexp prec emax (Zdigits2 m + e) - e)%Z as [|p|p]; cbn [fst]; try exact H0.
  rewrite shr_iter_m by exact H0. apply Z.div_pos; [exact H0|apply pow2_pos; lia].
Qed.

Lemma binary_round_aux_not_NaN s m e l :
  (0 <= m)%Z -> binary_round_aux prec emax s m e l <> S754_nan.
Proof.
  intros Hm. unfold binary_round_aux.
  pose proof (shr_fexp_nonneg m e l Hm) as H1.
  destruct (shr_fexp prec emax m e l) as [mrs' e']. cbn [fst] in H1.
  destruct (round_nearest_even_bounds (shr_m mrs') (loc_of_shr_record mrs')) as [Hb _].
  pose proof (shr_fexp_nonneg (round_nearest_even (shr_m mrs') (loc_of_shr_record mrs'))
                e' loc_Exact ltac:(lia)) as H2.
  destruct (shr_fexp prec emax _ e' loc_Exact) as [mrs'' e'']. cbn [fst] in H2.
  destruct (shr_m mrs'') as [|p|p]; [discriminate| |lia].
  destruct (e'' <=? emax - prec)%Z; discriminate.
Qed.

Lemma binary_normalize_not_NaN m e : binary_normalize prec emax m e false <> S754_nan.
Proof.
  unfold binary_normalize. destruct m as [|p|p]; [discriminate| |];
    unfold binary_round; destruct (shl_align p e _) as [mz ez];
    apply binary_round_aux_not_NaN; lia.
Qed.

(** The difference of two finite numbers is a number. *)
Lemma sub_finite_not_NaN x y :
  Number.isFinite x = true -> Number.isFinite y = true -> Number.isNaN (x - y) = false.
Proof.
  unfold Number.isFinite, Number.isNaN. rewrite FloatAxioms.sub_spec.
  destruct (Prim2SF x) as [sx| | |sx mx ex], (Prim2SF y) as [sy| | |sy my ey];
    try discriminate; intros _ _; unfold SF64sub, SFsub.
  - destruct sx, sy; reflexivity.
  - reflexivity.
  - reflexivity.
  - cbv zeta.
    pose proof (binary_normalize_not_NaN
                  (cond_Zopp sx (Zpos (fst (shl_align mx ex (Z.min ex ey))))
                   - cond_Zopp sy (Zpos (fst (shl_align my ey (Z.min ex ey)))))
                  (Z.min ex ey)) as H.
    destruct (binary_normalize _ _ _ _ _); congruence.
Qed.

(** A number divided by a finite number other than zero is a number. *)
Lemma div_regular_not_NaN x y :
  Number.isNaN x = false -> isRegular y = true -> Number.isNaN (x / y) = false.
Proof.
  unfold isRegular, Number.isNaN. rewrite FloatAxioms.div_spec.
  destruct (Prim2SF x) as [sx|sx| |sx mx ex], (Prim2SF y) as [sy|sy| |sy my ey];
    try discriminate; intros _ _; unfold SF64div, SFdiv; try reflexivity.
  destruct (SFdiv_core_binary prec emax (Zpos mx) ex (Zpos my) ey) as [[mz ez] lz] eqn:E.
  assert (Hmz : (0 <= mz)%Z).
  { unfold SFdiv_core_binary in E. cbv zeta in E.
    set (m' := match (ex - ey - _)%Z with 0%Z => Zpos mx | Zpos _ => _ | Zneg _ => 0%Z end) in E.
    assert (Hm' : (0 <= m')%Z).
    { unfold m'. destruct (ex - ey - _)%Z; try lia. apply Z.shiftl_nonneg. lia. }
    pose proof (Z_div_mod m' (Zpos my) ltac:(lia)) as Hdm.
    destruct (Z.div_eucl m' (Zpos my)) as [q r]. injection E as <- _ _.
    destruct Hdm as [Hq Hr]. nia. }
  pose proof (binary_round_aux_not_NaN (xorb sx sy) mz ez lz Hmz) as H.
  destruct (binary_round_aux _ _ _ _ _ _); congruence.
Qed.

Lemma or_regular a : Number.isFinite a = true -> isRegular (Number.or a 1) = true.
Proof.
  unfold Number.or, Number.truthy, Number.isZero, Number.isNaN, Number.isFinite, isRegular.
  destruct (Prim2SF a) eqn:E; try discriminate; intros _; simpl; try reflexivity.
  rewrite E. reflexivity.
Qed.

(** ** Signs of differences and quotients *)

Lemma fixedPoint_pos m e : canonical m e -> (0 < fixedPoint m e)%Z.
Proof.
  intros H. apply canonical_bounds in H. unfold fixedPoint.
  pose proof (pow2_pos (e + 2200) ltac:(lia)). lia.
Qed.

Lemma leb_signedFixedPoint x y sx mx ex sy my ey :
  Prim2SF x = S754_finite sx mx ex -> Prim2SF y = S754_finite sy my ey ->
  (x <=? y) = true -> (signedFixedPoint sx mx ex <= signedFixedPoint sy my ey)%Z.
Proof.
  intros Hx Hy H.
  destruct (canonical_of_Prim2SF x _ _ _ Hx) as [Hc1 _].
  destruct (canonical_of_Prim2SF y _ _ _ Hy) as [Hc2 _].
  pose proof (fixedPoint_pos _ _ Hc1). pose proof (fixedPoint_pos _ _ Hc2).
  apply leb_rank in H. destruct H as (_ & _ & H). apply lexCompare_not_Gt in H.
  rewrite Hx, Hy in H. unfold signedFixedPoint.
  destruct sx, sy; cbn [rank fst snd cond_Zopp] in *.
  - assert (fixedPoint my ey <= fixedPoint mx ex)%Z; [|lia].
    apply fixedPoint_le_iff; try assumption. lia.
  - lia.
  - lia.
  - apply fixedPoint_le_iff; try assumption. lia.
Qed.

Lemma aligned_fixedPoint m e ez :
  canonical m e -> (-1074 <= ez <= e)%Z ->
  (Zpos (fst (shl_align m e ez)) * 2 ^ (ez + 2200) = fixedPoint m e)%Z.
Proof.
  intros Hc Hez. rewrite fst_shl_align, shiftMantissa_value by lia.
  unfold fixedPoint. rewrite <- Z.mul_assoc, <- Z.pow_add_r by lia. f_equal. f_equal. lia.
Qed.

Lemma notAboveZero_leb x : notAboveZero (Prim2SF x) = true -> (x <=? 0) = true.
Proof.
  rewrite FloatAxioms.leb_spec. change (Prim2SF 0) with (S754_zero false).
  destruct (Prim2SF x) as [s|[]| |[] m e]; try discriminate; reflexivity.
Qed.

Lemma leb_zero_notAboveZero x : (x <=? 0) = true -> notAboveZero (Prim2SF x) = true.
Proof.
  rewrite FloatAxioms.leb_spec. change (Prim2SF 0) with (S754_zero false).
  destruct (Prim2SF x) as [s|[]| |[] m e]; try discriminate; reflexivity.
Qed.

Lemma binary_round_aux_negative m e l :
  (0 <= m)%Z -> notAboveZero (binary_round_aux prec emax true m e l) = true.
Proof.
  intros Hm. pose proof (binary_round_aux_sign true m e l) as Hs.
  pose proof (binary_round_aux_not_NaN true m e l Hm) as Hn.
  destruct (binary_round_aux prec emax true m e l) as [s|s| |s m' e'];
    try congruence; subst s; reflexivity.
Qed.

(** The difference of two finite numbers, the first not above the second,
    is not above zero. *)
Lemma sub_le_zero x y :
  Number.isFinite x = true -> Number.isFinite y = true -> (x <=? y) = true ->
  (x - y <=? 0) = true.
Proof.
  intros Hx Hy Hle. apply notAboveZero_leb. rewrite FloatAxioms.sub_spec.
  unfold Number.isFinite in Hx, Hy.
  destruct (Prim2SF x) as [sx| | |sx mx ex] eqn:Ex; try discriminate;
  destruct (Prim2SF y) as [sy| | |sy my ey] eqn:Ey; try discriminate;
    unfold SF64sub, SFsub.
  - destruct sx, sy; reflexivity.
  - revert Hle. rewrite FloatAxioms.leb_spec, Ex, Ey. destruct sy; [discriminate|reflexivity].
  - revert Hle. rewrite FloatAxioms.leb_spec, Ex, Ey. destruct sx; [reflexivity|discriminate].
  - cbv zeta.
    destruct (canonical_of_Prim2SF x _ _ _ Ex) as [Hc1 _].
    destruct (canonical_of_Prim2SF y _ _ _ Ey) as [Hc2 _].
    pose proof (canonical_bounds _ _ Hc1) as (_ & He1 & _).
    pose proof (canonical_bounds _ _ Hc2) as (_ & He2 & _).
    pose proof (leb_signedFixedPoint x y _ _ _ _ _ _ Ex Ey Hle) as Hv.
    unfold signedFixedPoint in Hv.
    set (ez := Z.min ex ey) in *.
    rewrite <- (aligned_fixedPoint mx ex ez Hc1 ltac:(lia)) in Hv.
    rewrite <- (aligned_fixedPoint my ey ez Hc2 ltac:(lia)) in Hv.
    set (a := Zpos (fst (shl_align mx ex ez))) in *.
    set (b := Zpos (fst (shl_align my ey ez))) in *.
    pose proof (pow2_pos (ez + 2200) ltac:(lia)) as Hp.
    assert (Hd : (cond_Zopp sx a - cond_Zopp sy b <= 0)%Z).
    { destruct sx, sy; cbn [cond_Zopp] in *; nia. }
    unfold binary_normalize.
    destruct (cond_Zopp sx a - cond_Zopp sy b)%Z as [|p|p]; [reflexivity|lia|].
    unfold binary_round. destruct (shl_align p ez _) as [mz ez'].
    apply binary_round_aux_negative. lia.
Qed.

(** A number not above zero divided by a finite number above zero is not
    above zero, or NaN for no operand. *)
Lemma div_le_zero a b :
  (a <=? 0) = true -> (0 <? b) = true -> Number.isFinite b = true ->
  (a / b <=? 0) = true.
Proof.
  intros Ha Hb Hfin. apply notAboveZero_leb. apply leb_zero_notAboveZero in Ha.
  rewrite FloatAxioms.div_spec.
  revert Hb. rewrite FloatAxioms.ltb_spec. change (Prim2SF 0) with (S754_zero false).
  unfold Number.isFinite in Hfin.
  destruct (Prim2SF b) as [sb| | |[] mb eb]; try discriminate; intros _.
  destruct (Prim2SF a) as [sa|[]| |[] ma ea]; try discriminate; unfold SF64div, SFdiv;
    try reflexivity.
  destruct (SFdiv_core_binary prec emax (Zpos ma) ea (Zpos mb) eb) as [[mz ez] lz] eqn:E.
  cbn [xorb]. apply binary_round_aux_negative.
  unfold SFdiv_core_binary in E. cbv zeta in E.
  set (m' := match (ea - eb - _)%Z with 0%Z => Zpos ma | Zpos _ => _ | Zneg _ => 0%Z end) in E.
  assert (Hm' : (0 <= m')%Z).
  { unfold m'. destruct (ea - eb - _)%Z; try lia. apply Z.shiftl_nonneg. lia. }
  pose proof (Z_div_mod m' (Zpos mb) ltac:(lia)) as Hdm.
  destruct (Z.div_eucl m' (Zpos mb)) as [q r]. injection E as <- _ _.
  destruct Hdm as [Hq Hr]. nia.
Qed.

Lemma clamp_not_above_zero t : (t <=? 0) = true -> Math.max 0 (Math.min 1 t) = 0.
Proof.
  intros Ht. pose proof (leb_not_NaN_l _ _ Ht) as Hn.
  destruct (Math_min_spec 1 t eq_refl Hn) as (Hm & Hm1 & Hmt).
  pose proof (leb_trans _ _ _ Hmt Ht) as Hm0.
  pose proof (leb_ltb_false _ _ Hm0) as Hlt.
  unfold Math.max. rewrite (leb_not_NaN_l _ _ Hm0). cbn [Number.isNaN orb].
  change (Number.isNaN 0) with false. cbn [orb].
  rewrite Hlt. destruct (Math.min 1 t <? 0); reflexivity.
Qed.

(** ** When the scale returns a colour *)

Lemma position_not_NaN minSpeed maxSpeed speed :
  Number.isFinite minSpeed = true -> Number.isFinite (maxSpeed - minSpeed) = true ->
  Number.isFinite speed = true ->
  Number.isNaN (position minSpeed maxSpeed speed) = false.
Proof.
  intros Hmin Hspan Hfin. unfold position. apply div_regular_not_NaN.
  - apply sub_finite_not_NaN; assumption.
  - apply or_regular, Hspan.
Qed.

(** The second stop read by the scale, [stops[Math.min(i + 1, n - 1)]],
    for an index [i = z] of the array. *)
Lemma second_stop_defined (stops : list RGB) z :
  (0 <= z <= Z.of_nat (length stops - 1))%Z -> (1 <= length stops)%nat ->
  (Z.of_nat (length stops) < 2 ^ 53)%Z ->
  is_Some (Number.arrayGet stops
             (Math.min (Number.ofZ (z + 1)) (Number.ofZ (Z.of_nat (length stops - 1))))).
Proof.
  intros Hz Hn Hb. set (K := Z.of_nat (length stops - 1)) in *.
  destruct (Math_min_spec (Number.ofZ (z + 1)) (Number.ofZ K)) as ([E|E] & _ & Hle);
    try (apply isFinite_not_NaN, ofZ_isFinite; lia).
  - rewrite E in Hle |- *. apply ofZ_leb_inv in Hle; [|lia|lia].
    apply arrayGet_ofZ; lia.
  - rewrite E. apply arrayGet_ofZ; lia.
Qed.

(** With a position that is a number, the scale reads two stops of the
    array and returns a colour. *)
Lemma scale_defined_at_position minSpeed maxSpeed colors speed :
  (Z.of_nat (length (stopsOf colors)) < 2 ^ 53)%Z -> Number.isFinite speed = true ->
  Number.isNaN (position minSpeed maxSpeed speed) = false ->
  exists r g b, createSpeedColorScale minSpeed maxSpeed colors speed = Some (r, g, b, 255).
Proof.
  intros Hb Hfin Hu. set (n := length (stopsOf colors)) in *.
  pose proof (stopsOf_nonempty colors) as Hne.
  assert (Hn : (1 <= n)%nat).
  { unfold n. destruct (stopsOf colors); [congruence|simpl; lia]. }
  destruct (clamp_spec (position minSpeed maxSpeed speed)) as (_ & Hrange & _).
  destruct (Hrange Hu) as [H0 H1].
  unfold createSpeedColorScale. rewrite Hfin. cbn [negb]. fold n.
  fold (position minSpeed maxSpeed speed).
  destruct (Nat.eqb_spec n 1) as [E1|E1].
  { rewrite arrayGet_0 by exact Hne. destruct (stopsOf colors) as [|[[c0 c1] c2] l]; [congruence|].
    simpl. eauto. }
  rewrite ofNat_pred by assumption.
  change (Number.ofNat (n - 1)) with (Number.ofZ (Z.of_nat (n - 1))).
  set (K := Z.of_nat (n - 1)).
  destruct (mul_fraction_le _ K H0 H1 ltac:(lia)) as [Hs0 HsK].
  destruct (floor_index _ K Hs0 HsK ltac:(lia) ltac:(lia)) as (z & Hz & Hidx & Hnext).
  destruct (arrayGet_toIndex (stopsOf colors) _ z Hidx ltac:(fold n; lia)) as [c1 Hc1].
  rewrite Hc1, Hnext.
  destruct (second_stop_defined (stopsOf colors) z ltac:(fold n; lia) Hn Hb) as [c2 Hc2].
  fold n in Hc2. fold K in Hc2. rewrite Hc2.
  destruct c1 as [[a0 a1] a2], c2 as [[b0 b1] b2]. unfold lerpColor. eauto.
Qed.

(** X15: for a finite speed the scale fails in one case only. When the
    position [(speed - minSpeed) / (maxSpeed - minSpeed || 1)] is a number, the
    scale returns a colour with alpha 255; when it is NaN and there are two
    stops or more, the scale reads the stop at index NaN and returns no
    colour (the source throws there). *)
Theorem scale_fails_only_on_NaN_position (minSpeed maxSpeed : float) (colors : list Color)
    (speed : float) :
  let n := length (stopsOf colors) in
  let u := position minSpeed maxSpeed speed in
  (Z.of_nat n < 2 ^ 53)%Z -> Number.isFinite speed = true ->
  (Number.isNaN u = false ->
   exists r g b, createSpeedColorScale minSpeed maxSpeed colors speed = Some (r, g, b, 255))
  /\ (Number.isNaN u = true -> n <> 1%nat ->
      createSpeedColorScale minSpeed maxSpeed colors speed = None).
Proof.
  intros n u Hb Hfin. split.
  - intros Hu. apply scale_defined_at_position; assumption.
  - intros Hu Hn1. destruct (clamp_spec u) as (HNaN & _).
    unfold createSpeedColorScale. rewrite Hfin. cbn [negb]. fold n.
    fold (position minSpeed maxSpeed speed). fold u.
    destruct (Nat.eqb_spec n 1) as [E1|_]; [congruence|].
    rewrite arrayGet_NaN; [reflexivity|].
    apply floor_NaN, mul_NaN_l, HNaN, Hu.
Qed.

Lemma scale_fails_only_on_NaN_position_witness :
  (exists r g b, createSpeedColorScale 10 100 blackToWhite 50 = Some (r, g, b, 255))
  /\ createSpeedColorScale infinity 100 blackToWhite 50 = None.
Proof.
  split.
  - apply (scale_fails_only_on_NaN_position 10 100 blackToWhite 50); reflexivity.
  - apply (scale_fails_only_on_NaN_position infinity 100 blackToWhite 50);
      try reflexivity. simpl. lia.
Defined.

(** X16: with a finite [minSpeed] and a finite span [maxSpeed - minSpeed]
    the scale returns a colour with alpha 255 for every speed whatever:
    finite or not, inside the range or not, and also when the span is 0. *)
Theorem scale_defined_on_finite_range (minSpeed maxSpeed : float) (colors : list Color)
    (speed : float) :
  Number.isFinite minSpeed = true -> Number.isFinite (maxSpeed - minSpeed) = true ->
  (Z.of_nat (length (stopsOf colors)) < 2 ^ 53)%Z ->
  exists r g b, createSpeedColorScale minSpeed maxSpeed colors speed = Some (r, g, b, 255).
Proof.
  intros Hmin Hspan Hlen.
  destruct (Number.isFinite speed) eqn:Hfin.
  - apply scale_defined_at_position; try assumption.
    apply position_not_NaN; assumption.
  - unfold createSpeedColorScale. rewrite Hfin. simpl. eauto.
Qed.

Lemma scale_defined_on_finite_range_witness :
  exists r g b, createSpeedColorScale 5 5 blackToWhite 7 = Some (r, g, b, 255).
Proof. apply (scale_defined_on_finite_range 5 5 blackToWhite 7); reflexivity. Defined.

(** X17: a finite speed that is not above a finite [minSpeed], with a
    finite span above zero, gets the first stop: each channel of the
    result is the first stop's channel rounded (finite channels). *)
Theorem scale_clamps_below (minSpeed maxSpeed : float) (colors : list Color) (speed : float) :
  let stops := stopsOf colors in
  Number.isFinite speed = true -> Number.isFinite minSpeed = true ->
  (speed <=? minSpeed) = true ->
  (0 <? maxSpeed - minSpeed) = true -> Number.isFinite (maxSpeed - minSpeed) = true ->
  channelsFinite stops -> (Z.of_nat (length stops) < 2 ^ 53)%Z ->
  exists first r, head stops = Some first
    /\ createSpeedColorScale minSpeed maxSpeed colors speed = Some r
    /\ colorWithinRounding r first.
Proof.
  intros stops Hspeed Hmin Hle Hpos Hfin Hch Hlen.
  apply scale_at_first; try assumption.
  apply clamp_not_above_zero.
  assert (Hor : Number.or (maxSpeed - minSpeed) 1 = maxSpeed - minSpeed).
  { unfold Number.or, Number.truthy, Number.isZero, Number.isNaN.
    revert Hpos. rewrite FloatAxioms.ltb_spec. change (Prim2SF 0) with (S754_zero false).
    destruct (Prim2SF (maxSpeed - minSpeed)) as [s|[]| |[] m e]; try discriminate; reflexivity. }
  rewrite Hor. apply div_le_zero; try assumption.
  apply sub_le_zero; assumption.
Qed.

Lemma scale_clamps_below_witness :
  exists first r, head (stopsOf blackToWhite) = Some first
    /\ createSpeedColorScale 10 100 blackToWhite 3 = Some r
    /\ colorWithinRounding r first.
Proof.
  apply (scale_clamps_below 10 100 blackToWhite 3); try reflexivity.
  - apply channelsFiniteb_sound. reflexivity.
Defined.

(** ** The map component *)

Lemma build_range points :
  BuildResult.minSpeed (HotlineMap.build points) = 0
  /\ BuildResult.maxSpeed (HotlineMap.build points) = 120.
Proof.
  unfold HotlineMap.build, buildSegments.
  destruct (length points <? 2)%nat; split; reflexivity.
Qed.

(** X18: what the map component draws.  For fewer than two points, the
    empty list of the initial state included, the track layer gets no
    segment; for two points or more it gets [(length - 1) * 6] segments, or
    [(length - 1) * 1] above 5000 points (counted in the integers).  Its
    [getColor] returns a colour with alpha 255 for every segment, whatever
    its speed: with the fixed range 0 to 120 the scale never fails. *)
Theorem map_colours_every_segment (points : list Point.t) (d : Segment.t) :
  Z.of_nat (length (BuildResult.segments (HotlineMap.build points)))
  = (if (length points <? 2)%nat then 0
     else (Z.of_nat (length points) - 1)
          * (if (5000 <? length points)%nat then 1 else 6))%Z
  /\ exists r g b, HotlineMap.getColor points d = Some (r, g, b, 255).
Proof.
  split.
  - rewrite <- (length_map val). unfold HotlineMap.build.
    destruct (Nat.ltb_spec (length points) 2) as [Hlt|Hge].
    + unfold buildSegments. apply Nat.ltb_lt in Hlt. rewrite Hlt. reflexivity.
    + rewrite buildSegments_segments by exact Hge. rewrite trackSegments_length.
      rewrite Nat2Z.inj_mul, Nat2Z.inj_sub by lia.
      unfold HotlineMap.SUBDIVISIONS, HotlineMap.DENSE_LIMIT.
      destruct (5000 <? length points)%nat; reflexivity.
  - unfold HotlineMap.getColor, HotlineMap.speedToColor.
    destruct (build_range points) as [-> ->].
    destruct (Number.isFinite (Segment.speed d)) eqn:Hfin.
    + apply scale_defined_at_position; [reflexivity|exact Hfin|].
      apply position_not_NaN; [reflexivity|reflexivity|exact Hfin].
    + unfold createSpeedColorScale. rewrite Hfin. simpl. eauto.
Qed.

(** ** Colour notations *)

(** A colour of six characters after the hash sign: each channel is read
    from its two characters. *)
Lemma parseColor_six (a1 a2 b1 b2 c1 c2 : ascii) :
  JsString.isWhiteSpace c2 = false ->
  parseColor (ColorString (String "#"
    (String a1 (String a2 (String b1 (String b2 (String c1 (String c2 EmptyString))))))))
  = (JsString.parseInt16 (String a1 (String a2 EmptyString)),
     JsString.parseInt16 (String b1 (String b2 EmptyString)),
     JsString.parseInt16 (String c1 (String c2 EmptyString))).
Proof.
  intros Hc. unfold parseColor, JsString.trim.
  cbn [JsString.trimStart]. change (JsString.isWhiteSpace "#") with false. cbv iota.
  unfold JsString.reverse.
  cbn [list_ascii_of_string rev app string_of_list_ascii JsString.trimStart].
  rewrite Hc. cbn [list_ascii_of_string rev app string_of_list_ascii].
  reflexivity.
Qed.

(** X19: the short notation is the long one with each character doubled:
    three characters [abc], with or without the hash sign, are parsed as
    the six characters [aabbcc] are, each channel from its doubled
    character. *)
Theorem short_hex_is_doubled (a b c : ascii) :
  JsString.isWhiteSpace a = false -> JsString.isWhiteSpace c = false ->
  let short := String a (String b (String c EmptyString)) in
  let long := String a (String a (String b (String b (String c (String c EmptyString))))) in
  parseColor (ColorString (String "#" short)) = parseColor (ColorString (String "#" long))
  /\ parseColor (ColorString short) = parseColor (ColorString long)
  /\ parseColor (ColorString (String "#" short))
     = (JsString.parseInt16 (String a (String a EmptyString)),
        JsString.parseInt16 (String b (String b EmptyString)),
        JsString.parseInt16 (String c (String c EmptyString))).
Proof.
  intros Ha Hc short long. subst short long.
  assert (E : parseColor (ColorString (String "#" (String a (String b (String c EmptyString)))))
              = (JsString.parseInt16 (String a (String a EmptyString)),
                 JsString.parseInt16 (String b (String b EmptyString)),
                 JsString.parseInt16 (String c (String c EmptyString)))).
  { unfold parseColor, JsString.trim.
    cbn [JsString.trimStart]. change (JsString.isWhiteSpace "#") with false. cbv iota.
    unfold JsString.reverse.
    cbn [list_ascii_of_string rev app string_of_list_ascii JsString.trimStart].
    rewrite Hc. cbn [list_ascii_of_string rev app string_of_list_ascii].
    reflexivity. }
  split; [|split; [|exact E]].
  - rewrite E, parseColor_six by exact Hc. reflexivity.
  - unfold parseColor, JsString.trim.
    cbn [JsString.trimStart]. rewrite Ha.
    unfold JsString.reverse.
    cbn [list_ascii_of_string rev app string_of_list_ascii JsString.trimStart].
    rewrite Hc. cbn [list_ascii_of_string rev app string_of_list_ascii].
    unfold JsString.startsWith. cbn [String.prefix].
    destruct (ascii_dec "#" a) as [E'|E']; reflexivity.
Qed.

Lemma short_hex_is_doubled_witness :
  parseColor (ColorString "#fa0") = parseColor (ColorString "#ffaa00")
  /\ parseColor (ColorString "fa0") = parseColor (ColorString "ffaa00")
  /\ parseColor (ColorString "#fa0") = (255, 170, 0).
Proof. apply (short_hex_is_doubled "f" "a" "0"); reflexivity. Defined.

(** ** The legend gradient *)

Lemma bytes_spec z : (0 <= z <= 255)%Z -> In z bytes.
Proof.
  intros Hz. unfold bytes. apply in_map_iff. exists (Z.to_nat z).
  split; [lia|]. apply in_seq. lia.
Qed.

Lemma string_append_assoc (s t u : string) : ((s ++ t) ++ u = s ++ (t ++ u))%string.
Proof.
  induction s as [|c s IH]; [reflexivity|].
  change (String c ((s ++ t) ++ u) = String c (s ++ (t ++ u)))%string.
  rewrite IH. reflexivity.
Qed.

Lemma byte_toString16 (radixText : float -> string) z :
  (0 <= z <= 255)%Z ->
  NumberText.padStart2 (NumberText.toString16 radixText (Number.ofZ z)) = byteText z.
Proof.
  intros Hz.
  assert (H : forallb (fun z =>
                String.eqb (NumberText.padStart2 (NumberText.toString16 radixText (Number.ofZ z)))
                           (byteText z)) bytes = true)
    by (vm_compute; reflexivity).
  rewrite forallb_forall in H. apply String.eqb_eq, H, bytes_spec, Hz.
Qed.

Lemma byte_parseInt16 z :
  (0 <= z <= 255)%Z -> JsString.parseInt16 (byteText z) = Number.ofZ z.
Proof.
  intros Hz.
  assert (H : forallb (fun z => bool_decide (JsString.parseInt16 (byteText z) = Number.ofZ z))
                      bytes = true)
    by (vm_compute; reflexivity).
  rewrite forallb_forall in H. apply (proj1 (bool_decide_eq_true _)), H, bytes_spec, Hz.
Qed.

Lemma digitChar_not_space z :
  (0 <= z <= 255)%Z -> JsString.isWhiteSpace (NumberText.digitChar (z mod 16)) = false.
Proof.
  intros Hz.
  assert (H : forallb (fun z => negb (JsString.isWhiteSpace (NumberText.digitChar (z mod 16))))
                      bytes = true)
    by (vm_compute; reflexivity).
  rewrite forallb_forall in H. apply negb_true_iff, H, bytes_spec, Hz.
Qed.

(** X20: a colour of three bytes is written by the gradient as the hash
    sign and two lower-case hexadecimal digits for each byte, with a
    leading zero where needed, and [parseColor] reads that text back
    as the same colour. *)
Theorem hex_notation_round_trip (radixText : float -> string) (r g b : Z) :
  (0 <= r <= 255)%Z -> (0 <= g <= 255)%Z -> (0 <= b <= 255)%Z ->
  let c : RGB := (Number.ofZ r, Number.ofZ g, Number.ofZ b) in
  hexOf radixText c = ("#" ++ byteText r ++ byteText g ++ byteText b)%string
  /\ parseColor (ColorString (hexOf radixText c)) = c.
Proof.
  intros Hr Hg Hb c.
  assert (E : hexOf radixText c = ("#" ++ byteText r ++ byteText g ++ byteText b)%string).
  { unfold c, hexOf. rewrite !byte_toString16 by assumption. reflexivity. }
  split; [exact E|]. rewrite E.
  change (parseColor (ColorString (String "#"
            (String (NumberText.digitChar (r / 16)) (String (NumberText.digitChar (r mod 16))
            (String (NumberText.digitChar (g / 16)) (String (NumberText.digitChar (g mod 16))
            (String (NumberText.digitChar (b / 16))
                    (String (NumberText.digitChar (b mod 16)) EmptyString))))))))
          = c).
  rewrite parseColor_six by (apply digitChar_not_space; assumption).
  fold (byteText r). fold (byteText g). fold (byteText b).
  rewrite !byte_parseInt16 by assumption. reflexivity.
Qed.

Lemma hex_notation_round_trip_witness :
  hexOf noText (255, 165, 0) = "#ffa500"%string
  /\ parseColor (ColorString (hexOf noText (255, 165, 0))) = (255, 165, 0).
Proof. apply (hex_notation_round_trip noText 255 165 0); lia. Defined.

(** X21: the gradient of a single stop has no percentage: the position of
    the stop is 0 / 0, and the text is the colour followed by [NaN%]. *)
Theorem single_stop_gradient (radixText exponentText : float -> string) (c : Color) :
  buildGradientCss radixText exponentText [c]
  = ("linear-gradient(90deg, " ++ hexOf radixText (parseColor c) ++ " NaN%)")%string.
Proof.
  unfold buildGradientCss, gradientParts, stopsOf. cbn [length Nat.eqb map imap String.concat].
  unfold gradientPart.
  change (NumberText.toFixed1 exponentText (Number.ofNat 0 / (Number.ofNat 1 - 1) * 100))
    with "NaN"%string.
  rewrite string_append_assoc. reflexivity.
Qed.

Lemma first_percentage (exponentText : float -> string) n :
  (2 <= n)%nat -> (Z.of_nat n < 2 ^ 53)%Z ->
  NumberText.toFixed1 exponentText (Number.ofNat 0 / (Number.ofNat n - 1) * 100)
  = "0.0"%string.
Proof.
  intros Hn Hb. rewrite ofNat_pred by lia.
  pose proof (zero_div_ofNat (n - 1) ltac:(lia) ltac:(lia)) as Hz.
  assert (Hz' : Number.isZero (Number.ofNat 0 / Number.ofNat (n - 1) * 100) = true)
    by (apply mul_zero_l; [reflexivity|exact Hz]).
  unfold NumberText.toFixed1. unfold Number.isZero in Hz'.
  destruct (Prim2SF _); try discriminate. reflexivity.
Qed.

Lemma last_percentage (exponentText : float -> string) n :
  (2 <= n)%nat -> (Z.of_nat n < 2 ^ 53)%Z ->
  NumberText.toFixed1 exponentText (Number.ofNat (n - 1) / (Number.ofNat n - 1) * 100)
  = "100.0"%string.
Proof.
  intros Hn Hb. rewrite ofNat_pred by lia.
  rewrite div_diag by (apply ofNat_isRegular; lia). rewrite mul_1_l. reflexivity.
Qed.

(** X22: the gradient of two stops or more has one part for each stop, in
    order, joined by commas; the first part is the first stop at [0.0%] and
    the last part is the last stop at [100.0%]. *)
Theorem gradient_spans_0_to_100 (radixText exponentText : float -> string)
    (colors : list Color) :
  let stops := stopsOf colors in
  let n := length stops in
  (2 <= n)%nat -> (Z.of_nat n < 2 ^ 53)%Z ->
  buildGradientCss radixText exponentText colors
  = ("linear-gradient(90deg, "
     ++ String.concat ", " (gradientParts radixText exponentText colors) ++ ")")%string
  /\ length (gradientParts radixText exponentText colors) = n
  /\ gradientParts radixText exponentText colors !! 0%nat
     = (fun c => hexOf radixText c ++ " 0.0%")%string <$> stops !! 0%nat
  /\ gradientParts radixText exponentText colors !! (n - 1)%nat
     = (fun c => hexOf radixText c ++ " 100.0%")%string <$> stops !! (n - 1)%nat.
Proof.
  intros stops n Hn Hb. split; [reflexivity|]. unfold gradientParts. fold stops. fold n.
  split; [apply length_imap|]. rewrite !list_lookup_imap.
  split.
  - destruct (stops !! 0%nat) as [c|]; [|reflexivity]. simpl. unfold gradientPart.
    rewrite first_percentage by assumption. reflexivity.
  - destruct (stops !! (n - 1)%nat) as [c|]; [|reflexivity]. simpl. unfold gradientPart.
    rewrite last_percentage by assumption. reflexivity.
Qed.

Lemma gradient_spans_0_to_100_witness :
  gradientParts noText noText [] !! 0%nat = Some "#00aa00 0.0%"%string
  /\ gradientParts noText noText [] !! 3%nat = Some "#ff0000 100.0%"%string
  /\ buildGradientCss noText noText []
     = "linear-gradient(90deg, #00aa00 0.0%, #ffff00 33.3%, #ffa500 66.7%, #ff0000 100.0%)"%string.
Proof.
  destruct (gradient_spans_0_to_100 noText noText []) as (_ & _ & H0 & H3).
  - simpl. lia.
  - simpl. lia.
  - split; [rewrite H0; reflexivity|].
    split; [etransitivity; [exact H3|vm_compute; reflexivity]|reflexivity].
Defined.

(** * Rounding to nearest, by value *)

(** ** The nearest integer, ties to even *)

Lemma nearestEven_bounds m n :
  (m / 2 ^ n <= nearestEven m n <= m / 2 ^ n + 1)%Z.
Proof.
  unfold nearestEven. cbv zeta.
  destruct (2 * (m mod 2 ^ n) ?= 2 ^ n)%Z; try destruct (Z.even (m / 2 ^ n)); lia.
Qed.

Lemma nearestEven_exact m n : (m mod 2 ^ n = 0)%Z -> (0 <= n)%Z -> nearestEven m n = (m / 2 ^ n)%Z.
Proof.
  intros H Hn. unfold nearestEven. rewrite H. pose proof (pow2_pos n Hn).
  destruct (Z.compare_spec (2 * 0)%Z (2 ^ n)%Z); lia.
Qed.

Lemma nearestEven_0 m : nearestEven m 0 = m.
Proof. rewrite nearestEven_exact; [apply Z.div_1_r|apply Z.mod_1_r|lia]. Qed.

Lemma nearestEven_mono m m' n :
  (0 <= n)%Z -> (m <= m')%Z -> (nearestEven m n <= nearestEven m' n)%Z.
Proof.
  intros Hn Hle. pose proof (pow2_pos n Hn) as Hp.
  pose proof (Z.div_le_mono m m' (2 ^ n) Hp Hle) as Hq.
  destruct (Z.eq_dec (m / 2 ^ n)%Z (m' / 2 ^ n)%Z) as [E|E].
  - assert (Hr : (m mod 2 ^ n <= m' mod 2 ^ n)%Z).
    { rewrite !Z.mod_eq by lia. rewrite E. lia. }
    unfold nearestEven. rewrite E.
    destruct (Z.compare_spec (2 * (m mod 2 ^ n))%Z (2 ^ n)%Z);
    destruct (Z.compare_spec (2 * (m' mod 2 ^ n))%Z (2 ^ n)%Z);
    destruct (Z.even (m' / 2 ^ n)%Z); lia.
  - pose proof (nearestEven_bounds m n). pose proof (nearestEven_bounds m' n). lia.
Qed.

Lemma nearestEven_scale m n k :
  (0 <= n)%Z -> (0 <= k)%Z -> nearestEven (m * 2 ^ k) (n + k) = nearestEven m n.
Proof.
  intros Hn Hk. pose proof (pow2_pos n Hn) as Hp. pose proof (pow2_pos k Hk) as Hq.
  unfold nearestEven. rewrite Z.pow_add_r by assumption.
  rewrite Z.div_mul_cancel_r by lia.
  rewrite Z.mul_mod_distr_r by lia.
  replace (2 * (m mod 2 ^ n * 2 ^ k))%Z with (2 * (m mod 2 ^ n) * 2 ^ k)%Z by lia.
  assert (Hc : (2 * (m mod 2 ^ n) * 2 ^ k ?= 2 ^ n * 2 ^ k)%Z
               = (2 * (m mod 2 ^ n) ?= 2 ^ n)%Z).
  { destruct (Z.compare_spec (2 * (m mod 2 ^ n))%Z (2 ^ n)%Z) as [E|E|E].
    - rewrite E. apply Z.compare_refl.
    - apply Z.compare_lt_iff. apply Z.mul_lt_mono_pos_r; lia.
    - apply Z.compare_gt_iff. apply Z.mul_lt_mono_pos_r; lia. }
  rewrite Hc. reflexivity.
Qed.

(** ** The round and sticky bits after shifts *)

Lemma shr_1_bits mrs :
  (0 <= shr_m mrs)%Z ->
  shr_m (shr_1 mrs) = (shr_m mrs / 2)%Z
  /\ shr_r (shr_1 mrs) = Z.odd (shr_m mrs)
  /\ shr_s (shr_1 mrs) = shr_r mrs || shr_s mrs.
Proof.
  destruct mrs as [m r s]. cbn [shr_m shr_r shr_s]. intros Hm.
  destruct m as [|[p|p|]|p]; try lia; cbn [shr_1 shr_m shr_r shr_s].
  - repeat split.
  - split; [|split; reflexivity]. rewrite Pos2Z.inj_xI. apply (Z.div_unique _ 2 _ 1); lia.
  - split; [|split; reflexivity]. rewrite Pos2Z.inj_xO. apply (Z.div_unique _ 2 _ 0); lia.
  - repeat split.
Qed.

(** The remainder of a division by [2^(k+1)], from the bit [k] and the
    remainder by [2^k]. *)
Lemma mod_pow2_succ m k :
  (0 <= k)%Z ->
  (m mod 2 ^ (k + 1) = 2 ^ k * (if Z.odd (m / 2 ^ k) then 1 else 0) + m mod 2 ^ k)%Z.
Proof.
  intros Hk. pose proof (pow2_pos k Hk) as Hp.
  rewrite Z.pow_add_r by lia. change (2 ^ 1)%Z with 2%Z.
  rewrite Z.rem_mul_r by lia.
  rewrite (Zmod_odd (m / 2 ^ k)%Z). lia.
Qed.

Lemma shr_iter_bits k m :
  (0 <= m)%Z ->
  let mrs := SpecFloat.iter_pos shr_1 k (Build_shr_record m false false) in
  shr_m mrs = (m / 2 ^ Zpos k)%Z
  /\ shr_r mrs = Z.odd (m / 2 ^ (Zpos k - 1))
  /\ shr_s mrs = negb (m mod 2 ^ (Zpos k - 1) =? 0)%Z.
Proof.
  intros Hm. cbv zeta. rewrite iter_pos_Pos_iter.
  induction k as [|k IH] using Pos.peano_ind.
  - cbn [Pos.iter].
    destruct (shr_1_bits (Build_shr_record m false false) Hm) as (H1 & H2 & H3).
    rewrite H1, H2, H3. cbn [shr_m shr_r shr_s]. change (1 - 1)%Z with 0%Z.
    rewrite Z.pow_0_r, Z.div_1_r, Z.mod_1_r. repeat split.
  - rewrite Pos.iter_succ. destruct IH as (I1 & I2 & I3).
    set (mrs := Pos.iter shr_1 (Build_shr_record m false false) k) in *.
    assert (Hq : (0 <= shr_m mrs)%Z).
    { rewrite I1. apply Z.div_pos; [exact Hm|apply pow2_pos; lia]. }
    destruct (shr_1_bits mrs Hq) as (H1 & H2 & H3).
    rewrite H1, H2, H3, I1, I2, I3.
    rewrite Pos2Z.inj_succ. replace (Z.succ (Zpos k) - 1)%Z with (Zpos k) by lia.
    split; [|split; [reflexivity|]].
    + rewrite Z.pow_succ_r by lia. rewrite Z.div_div by (try apply pow2_pos; lia).
      f_equal. lia.
    + pose proof (mod_pow2_succ m (Zpos k - 1) ltac:(lia)) as Hs.
      replace (Zpos k - 1 + 1)%Z with (Zpos k) in Hs by lia.
      pose proof (Z.mod_pos_bound m (2 ^ (Zpos k - 1))%Z ltac:(apply pow2_pos; lia)) as Hb.
      pose proof (pow2_pos (Zpos k - 1) ltac:(lia)) as Hp.
      destruct (Z.odd (m / 2 ^ (Zpos k - 1))%Z); cbn [orb].
      * symmetry. apply negb_true_iff, Z.eqb_neq. lia.
      * rewrite Hs. f_equal. f_equal. lia.
Qed.

Lemma shr_iter_round k m :
  (0 <= m)%Z ->
  let mrs := SpecFloat.iter_pos shr_1 k (Build_shr_record m false false) in
  round_nearest_even (shr_m mrs) (loc_of_shr_record mrs) = nearestEven m (Zpos k).
Proof.
  intros Hm mrs. destruct (shr_iter_bits k m Hm) as (H1 & H2 & H3). fold mrs in H1, H2, H3.
  unfold nearestEven. rewrite <- H1.
  pose proof (mod_pow2_succ m (Zpos k - 1) ltac:(lia)) as Hs.
  replace (Zpos k - 1 + 1)%Z with (Zpos k) in Hs by lia.
  pose proof (Z.mod_pos_bound m (2 ^ (Zpos k - 1))%Z ltac:(apply pow2_pos; lia)) as Hb.
  pose proof (pow2_pos (Zpos k - 1) ltac:(lia)) as Hp.
  assert (Hpk : (2 ^ Zpos k = 2 * 2 ^ (Zpos k - 1))%Z).
  { rewrite <- Z.pow_succ_r by lia. f_equal. lia. }
  destruct mrs as [q r s]. cbn [shr_m shr_r shr_s] in *. subst r s.
  unfold loc_of_shr_record.
  destruct (Z.odd (m / 2 ^ (Zpos k - 1))%Z).
  - destruct (Z.eqb_spec (m mod 2 ^ (Zpos k - 1))%Z 0%Z) as [E|E]; cbn [negb].
    + destruct (Z.compare_spec (2 * (m mod 2 ^ Zpos k))%Z (2 ^ Zpos k)%Z); try lia. reflexivity.
    + destruct (Z.compare_spec (2 * (m mod 2 ^ Zpos k))%Z (2 ^ Zpos k)%Z); try lia. reflexivity.
  - destruct (Z.compare_spec (2 * (m mod 2 ^ Zpos k))%Z (2 ^ Zpos k)%Z); try lia.
    destruct (negb _); reflexivity.
Qed.

(** Rounding from an exact location: shift by [n], round, encode. *)
Lemma binary_round_aux_encode s m e :
  (0 <= m)%Z ->
  let n := Z.max 0 (fexp prec emax (Zdigits2 m + e) - e) in
  binary_round_aux prec emax s m e loc_Exact = encode s (nearestEven m n) (e + n).
Proof.
  intros Hm n. unfold binary_round_aux, encode, shr_fexp at 1, shr. subst n.
  cbn [shr_record_of_loc].
  destruct (fexp prec emax (Zdigits2 m + e) - e)%Z as [|k|k] eqn:E.
  - change (Z.max 0 0) with 0%Z. rewrite nearestEven_0, Z.add_0_r. reflexivity.
  - replace (Z.max 0 (Zpos k)) with (Zpos k) by lia.
    rewrite (shr_iter_round k m Hm). reflexivity.
  - replace (Z.max 0 (Zneg k)) with 0%Z by lia.
    rewrite nearestEven_0, Z.add_0_r. reflexivity.
Qed.

(** ** Digits *)

Lemma Zdigits2_bounds m :
  (0 < m)%Z -> (2 ^ (Zdigits2 m - 1) <= m < 2 ^ Zdigits2 m)%Z.
Proof. intros Hm. destruct m as [|p|p]; try lia. apply digits2_pos_bounds. Qed.

Lemma Zdigits2_pos m : (0 < m)%Z -> (0 < Zdigits2 m)%Z.
Proof. intros Hm. destruct m as [|p|p]; try lia. simpl. lia. Qed.

Lemma Zdigits2_unique m k : (2 ^ (k - 1) <= m < 2 ^ k)%Z -> (0 < m)%Z -> Zdigits2 m = k.
Proof.
  intros [Hl Hu] Hm. destruct (Zdigits2_bounds m Hm) as [Hl' Hu'].
  pose proof (Zdigits2_pos m Hm) as Hd.
  assert (Hk : (0 < k)%Z).
  { destruct (Z_lt_le_dec 0 k) as [|Hk]; [assumption|exfalso].
    destruct (Z.eq_dec k 0%Z) as [->|Hk0]; [simpl in Hu; lia|].
    rewrite (Z.pow_neg_r 2 k) in Hu by lia. lia. }
  destruct (Z.lt_trichotomy (Zdigits2 m) k) as [H|[H|H]]; [|exact H|]; exfalso.
  - assert (2 ^ Zdigits2 m <= 2 ^ (k - 1))%Z by (apply Z.pow_le_mono_r; lia). lia.
  - assert (2 ^ k <= 2 ^ (Zdigits2 m - 1))%Z by (apply Z.pow_le_mono_r; lia). lia.
Qed.

Lemma Zdigits2_mono m m' : (0 < m <= m')%Z -> (Zdigits2 m <= Zdigits2 m')%Z.
Proof.
  intros [Hm Hle]. destruct m as [|p|p], m' as [|q|q]; try lia.
  apply digits2_pos_mono. exact Hle.
Qed.

(** The digits of a quotient by a power of two. *)
Lemma Zdigits2_div m n :
  (0 < m)%Z -> (0 <= n < Zdigits2 m)%Z ->
  (0 < m / 2 ^ n)%Z /\ Zdigits2 (m / 2 ^ n) = (Zdigits2 m - n)%Z.
Proof.
  intros Hm Hn. destruct (Zdigits2_bounds m Hm) as [Hl Hu].
  pose proof (pow2_pos n ltac:(lia)) as Hp.
  assert (Hlow : (2 ^ (Zdigits2 m - n - 1) <= m / 2 ^ n)%Z).
  { apply Z.div_le_lower_bound; [exact Hp|].
    rewrite <- Z.pow_add_r by lia. replace (n + (Zdigits2 m - n - 1))%Z with (Zdigits2 m - 1)%Z by lia.
    exact Hl. }
  assert (Hup : (m / 2 ^ n < 2 ^ (Zdigits2 m - n))%Z).
  { apply Z.div_lt_upper_bound; [exact Hp|].
    rewrite <- Z.pow_add_r by lia. replace (n + (Zdigits2 m - n))%Z with (Zdigits2 m) by lia.
    exact Hu. }
  pose proof (pow2_pos (Zdigits2 m - n - 1) ltac:(lia)) as Hq.
  split; [lia|]. apply Zdigits2_unique; [|lia]. split; [exact Hlow|exact Hup].
Qed.

(** ** The last step of a rounding *)

Lemma fixedPoint_below_top p e :
  canonical p e -> (e <= emax - prec)%Z -> (fixedPoint p e < top)%Z.
Proof.
  intros Hc He. pose proof (canonical_bounds p e Hc) as (Hd & Hmin & _).
  destruct (digits2_pos_bounds p) as [_ Hu].
  assert (Hp : (Zpos p < 2 ^ 53)%Z).
  { eapply Z.lt_le_trans; [exact Hu|]. apply Z.pow_le_mono_r; lia. }
  unfold fixedPoint, top.
  assert (H1 : (Zpos p * 2 ^ (e + 2200) < 2 ^ 53 * 2 ^ (e + 2200))%Z).
  { apply Z.mul_lt_mono_pos_r; [apply pow2_pos; lia|exact Hp]. }
  rewrite <- Z.pow_add_r in H1 by lia.
  assert (H2 : (2 ^ (53 + (e + 2200)) <= 2 ^ (emax + 2200))%Z).
  { apply Z.pow_le_mono_r; unfold emax, prec in *; lia. }
  lia.
Qed.

(** What [encode] gives for a mantissa that fits. *)
Lemma encode_cases s m e :
  fits m e ->
  (m = 0%Z /\ encode s m e = S754_zero s)
  \/ ((0 < m)%Z
      /\ ((exists p e', encode s m e = S754_finite s p e' /\ canonical p e'
                        /\ (e' <= emax - prec)%Z
                        /\ fixedPoint p e' = (m * 2 ^ (e + 2200))%Z)
          \/ (encode s m e = S754_infinity s /\ (top <= m * 2 ^ (e + 2200))%Z))).
Proof.
  intros (Hmin & [Hm0 Hm53] & Hnorm). unfold encode.
  destruct (shr_fexp_exact m e Hm0) as (n & Hn & He' & Hq & _).
  destruct (shr_fexp prec emax m e loc_Exact) as [mrs e']. cbn [fst snd] in He', Hq.
  destruct (Z.eq_dec m 0%Z) as [->|Hne].
  { left. split; [reflexivity|]. rewrite Hq, Z.div_0_l by (pose proof (pow2_pos n); lia).
    reflexivity. }
  right. split; [lia|].
  assert (Hm : (0 < m)%Z) by lia.
  destruct (Zdigits2_bounds m Hm) as [Hl Hu].
  assert (Hover : forall k, (emax - prec < k)%Z -> (k <= e + 1)%Z -> (k = e + 1 -> m = 2 ^ 53)%Z ->
                            (top <= m * 2 ^ (e + 2200))%Z).
  { intros k Hk Hke Hk1. unfold top.
    destruct (Z.eq_dec k (e + 1)%Z) as [E|E].
    - rewrite (Hk1 E). rewrite <- Z.pow_add_r by (unfold emin, emax, prec in *; lia).
      apply Z.pow_le_mono_r; unfold emin, emax, prec in *; lia.
    - assert (H52 : (2 ^ 52 <= m)%Z) by (destruct Hnorm; unfold emin, emax, prec in *; lia).
      assert (H1 : (2 ^ 52 * 2 ^ (e + 2200) <= m * 2 ^ (e + 2200))%Z).
      { apply Z.mul_le_mono_nonneg_r; [|exact H52].
        pose proof (pow2_pos (e + 2200)). unfold emin, emax, prec in *; lia. }
      rewrite <- Z.pow_add_r in H1 by (unfold emin, emax, prec in *; lia).
      assert (H2 : (2 ^ (emax + 2200) <= 2 ^ (52 + (e + 2200)))%Z).
      { apply Z.pow_le_mono_r; unfold emin, emax, prec in *; lia. }
      lia. }
  destruct (Z.eq_dec m (2 ^ 53)%Z) as [E53|N53].
  - (* the mantissa was rounded up to 2^53 *)
    assert (Hd : Zdigits2 m = 54%Z) by (rewrite E53; reflexivity).
    assert (Hn1 : n = 1%Z).
    { rewrite Hn, Hd. unfold fexp, emin, emax, prec in *. lia. }
    clear Hn. subst n. rewrite Hq, E53. change (2 ^ 53 / 2 ^ 1)%Z with (Zpos 4503599627370496).
    destruct (Z.leb_spec e' (emax - prec)) as [Hle|Hgt].
    + left. exists 4503599627370496%positive, e'. split; [reflexivity|].
      split; [|split; [exact Hle|]].
      * unfold canonical. change (Zpos (digits2_pos 4503599627370496)) with 53%Z.
        unfold fexp, emin, emax, prec in *. lia.
      * unfold fixedPoint. rewrite He'.
        replace (e + 1 + 2200)%Z with (1 + (e + 2200))%Z by lia.
        rewrite Z.pow_add_r by (unfold emin, emax, prec in *; lia).
        change (2 ^ 1)%Z with 2%Z. change (2 ^ 53)%Z with 9007199254740992%Z. lia.
    + right. split; [reflexivity|]. rewrite <- E53.
      apply (Hover e'); [exact Hgt|lia|intros _; exact E53].
  - (* a mantissa of 53 digits at most *)
    assert (Hd : (Zdigits2 m <= 53)%Z).
    { destruct (Z_le_gt_dec (Zdigits2 m) 53) as [|Hgt]; [assumption|exfalso].
      assert (2 ^ 53 <= 2 ^ (Zdigits2 m - 1))%Z by (apply Z.pow_le_mono_r; lia). lia. }
    assert (Hc : fexp prec emax (Zdigits2 m + e) = e).
    { destruct Hnorm as [->|H52]; [unfold fexp, emin, emax, prec in *; lia|].
      assert (Zdigits2 m = 53)%Z.
      { destruct (Z_le_gt_dec 53 (Zdigits2 m)) as [|Hlt]; [lia|exfalso].
        assert (2 ^ Zdigits2 m <= 2 ^ 52)%Z by (apply Z.pow_le_mono_r; lia). lia. }
      unfold fexp, emin, emax, prec in *. lia. }
    assert (Hn0 : n = 0%Z) by lia. clear Hn. subst n.
    rewrite Hq, Z.pow_0_r, Z.div_1_r. rewrite Z.add_0_r in He'. subst e'.
    destruct m as [|p|p]; try lia.
    destruct (Z.leb_spec e (emax - prec)) as [Hle|Hgt].
    + left. exists p, e. split; [reflexivity|]. split; [exact Hc|]. split; [exact Hle|reflexivity].
    + right. split; [reflexivity|]. apply (Hover e); [exact Hgt|lia|lia].
Qed.

Lemma encode_wellFormed s m e : fits m e -> wellFormed (encode s m e).
Proof.
  intros H. destruct (encode_cases s m e H) as [[_ ->]|[_ [(p & e' & -> & Hc & Hb & _)|[-> _]]]];
    simpl; auto.
Qed.

Lemma encode_valueOf s m e :
  fits m e -> valueOf (encode s m e) = cond_Zopp s (Z.min (m * 2 ^ (e + 2200)) top).
Proof.
  intros H. assert (Htop : (0 < top)%Z) by (apply pow2_pos; unfold emax; lia).
  destruct (encode_cases s m e H) as [[-> ->]|[_ [(p & e' & -> & Hc & Hb & Hv)|[-> Hv]]]].
  - cbn [valueOf]. rewrite Z.mul_0_l, Z.min_l by lia. destruct s; reflexivity.
  - cbn [valueOf]. unfold signedFixedPoint. rewrite Hv.
    pose proof (fixedPoint_below_top p e' Hc Hb). rewrite Z.min_l by lia. reflexivity.
  - cbn [valueOf]. rewrite Z.min_r by lia. reflexivity.
Qed.

(** The sign of the result. *)
Lemma encode_sign s m e :
  fits m e ->
  match encode s m e with
  | S754_zero s' | S754_infinity s' | S754_finite s' _ _ => s' = s
  | S754_nan => False
  end.
Proof.
  intros H. destruct (encode_cases s m e H) as [[_ ->]|[_ [(p & e' & -> & _)|[-> _]]]];
    reflexivity.
Qed.

(** ** Rounding an aligned mantissa *)

(** The mantissa rounded at the exponent of its magnitude fits there. *)
Lemma nearestEven_fits m e :
  (0 < m)%Z ->
  let e' := fexp prec emax (Zdigits2 m + e) in
  (e <= e')%Z -> fits (nearestEven m (e' - e)) e'.
Proof.
  intros Hm e' Hal. destruct (Zdigits2_bounds m Hm) as [Hl Hu].
  pose proof (Zdigits2_pos m Hm) as Hd.
  pose proof (nearestEven_bounds m (e' - e)) as [Hb1 Hb2].
  pose proof (pow2_pos (e' - e) ltac:(lia)) as Hp.
  assert (Hq0 : (0 <= m / 2 ^ (e' - e))%Z) by (apply Z.div_pos; lia).
  split; [unfold e', fexp; lia|]. split; [split; [lia|]|].
  - (* at most 2^53 *)
    destruct (Z_lt_le_dec (e' - e) (Zdigits2 m)) as [Hlt|Hge].
    + assert (Hup : (m / 2 ^ (e' - e) < 2 ^ (Zdigits2 m - (e' - e)))%Z).
      { apply Z.div_lt_upper_bound; [exact Hp|].
        rewrite <- Z.pow_add_r by lia.
        replace (e' - e + (Zdigits2 m - (e' - e)))%Z with (Zdigits2 m) by lia. exact Hu. }
      assert (2 ^ (Zdigits2 m - (e' - e)) <= 2 ^ 53)%Z.
      { apply Z.pow_le_mono_r; [lia|]. unfold e', fexp, emin, emax, prec in *. lia. }
      lia.
    + assert (m / 2 ^ (e' - e) = 0)%Z.
      { apply Z.div_small. split; [lia|]. eapply Z.lt_le_trans; [exact Hu|].
        apply Z.pow_le_mono_r; lia. }
      change (2 ^ 53)%Z with 9007199254740992%Z. lia.
  - (* 53 digits above the least exponent *)
    destruct (Z.eq_dec e' emin) as [E|E]; [left; exact E|right].
    assert (He' : (e' = Zdigits2 m + e - 53)%Z) by (unfold e', fexp, emin, emax, prec in *; lia).
    assert (Hlow : (2 ^ 52 <= m / 2 ^ (e' - e))%Z).
    { apply Z.div_le_lower_bound; [exact Hp|].
      rewrite <- Z.pow_add_r by lia.
      replace (e' - e + 52)%Z with (Zdigits2 m - 1)%Z by lia. exact Hl. }
    lia.
Qed.

(** Rounding an aligned mantissa, as a value. *)
Lemma binary_round_aux_valueOf s m e :
  (0 < m)%Z -> (-2200 <= e)%Z ->
  (e <= fexp prec emax (Zdigits2 m + e))%Z ->
  wellFormed (binary_round_aux prec emax s m e loc_Exact)
  /\ valueOf (binary_round_aux prec emax s m e loc_Exact)
     = cond_Zopp s (nearestValue (m * 2 ^ (e + 2200))).
Proof.
  intros Hm He Hal. rewrite binary_round_aux_encode by lia. cbv zeta.
  set (e' := fexp prec emax (Zdigits2 m + e)) in *.
  replace (Z.max 0 (e' - e)) with (e' - e)%Z by lia.
  replace (e + (e' - e))%Z with e' by lia.
  pose proof (nearestEven_fits m e Hm Hal) as Hfits. fold e' in Hfits.
  split; [apply encode_wellFormed, Hfits|].
  rewrite encode_valueOf by exact Hfits. f_equal. unfold nearestValue.
  assert (Hdig : (Zdigits2 (m * 2 ^ (e + 2200)) - 2200 = Zdigits2 m + e)%Z).
  { pose proof (pow2_pos (e + 2200) ltac:(lia)) as Hp.
    destruct (Zdigits2_bounds m Hm) as [Hl Hu]. pose proof (Zdigits2_pos m Hm).
    rewrite (Zdigits2_unique (m * 2 ^ (e + 2200)) (Zdigits2 m + (e + 2200))); [lia| |nia].
    split.
    - replace (Zdigits2 m + (e + 2200) - 1)%Z with ((Zdigits2 m - 1) + (e + 2200))%Z by lia.
      rewrite (Z.pow_add_r 2 (Zdigits2 m - 1) (e + 2200)) by lia.
      apply Z.mul_le_mono_nonneg_r; lia.
    - rewrite (Z.pow_add_r 2 (Zdigits2 m) (e + 2200)) by lia.
      apply Z.mul_lt_mono_pos_r; lia. }
  rewrite Hdig. fold e'.
  rewrite <- (nearestEven_scale m (e' - e) (e + 2200)) by lia.
  replace (e' - e + (e + 2200))%Z with (e' + 2200)%Z by lia. reflexivity.
Qed.

(** Rounding any mantissa: [binary_round] aligns it first. *)
Lemma binary_round_valueOf s p e :
  (-2200 <= e)%Z ->
  wellFormed (binary_round prec emax s p e)
  /\ valueOf (binary_round prec emax s p e) = cond_Zopp s (nearestValue (fixedPoint p e)).
Proof.
  intros He. unfold binary_round.
  set (e' := fexp prec emax (Zpos (digits2_pos p) + e)).
  assert (Hemin : (-1074 <= e')%Z) by (unfold e', fexp, emin, emax, prec; lia).
  destruct (Z_le_gt_dec e e') as [Hle|Hgt].
  - (* aligned already *)
    assert (E : shl_align p e e' = (p, e)).
    { unfold shl_align. destruct (e' - e)%Z eqn:Ed; try reflexivity. lia. }
    rewrite E. apply binary_round_aux_valueOf; [lia|exact He|exact Hle].
  - (* shifted left to the exponent [e'] *)
    pose proof (fst_shl_align p e e' ltac:(lia)) as Hfst.
    assert (Hsnd : snd (shl_align p e e') = e').
    { unfold shl_align. destruct (e' - e)%Z eqn:Ed; try lia. reflexivity. }
    destruct (shl_align p e e') as [mz ez]. cbn [fst snd] in Hfst, Hsnd. subst mz ez.
    assert (Hv : (Zpos (shiftMantissa p (e - e')) * 2 ^ (e' + 2200) = fixedPoint p e)%Z).
    { rewrite shiftMantissa_value by lia. unfold fixedPoint.
      rewrite <- Z.mul_assoc, <- Z.pow_add_r by lia. f_equal. f_equal. lia. }
    rewrite <- Hv. apply binary_round_aux_valueOf; [lia|lia|].
    cbn [Zdigits2]. rewrite digits_shiftMantissa by lia.
    replace (Zpos (digits2_pos p) + (e - e') + e')%Z with (Zpos (digits2_pos p) + e)%Z by lia.
    fold e'. lia.
Qed.

(** ** The nearest value *)

Lemma top_pos : (0 < top)%Z.
Proof. apply pow2_pos. unfold emax. lia. Qed.

Lemma Zdigits2_shift m k :
  (0 < m)%Z -> (0 <= k)%Z -> Zdigits2 (m * 2 ^ k) = (Zdigits2 m + k)%Z.
Proof.
  intros Hm Hk. pose proof (pow2_pos k Hk) as Hp.
  destruct (Zdigits2_bounds m Hm) as [Hl Hu]. pose proof (Zdigits2_pos m Hm).
  apply Zdigits2_unique; [|nia]. split.
  - replace (Zdigits2 m + k - 1)%Z with ((Zdigits2 m - 1) + k)%Z by lia.
    rewrite (Z.pow_add_r 2 (Zdigits2 m - 1) k) by lia.
    apply Z.mul_le_mono_nonneg_r; lia.
  - rewrite (Z.pow_add_r 2 (Zdigits2 m) k) by lia.
    apply Z.mul_lt_mono_pos_r; lia.
Qed.

Lemma nearestValue_0 : nearestValue 0 = 0%Z.
Proof. reflexivity. Qed.

Lemma nearestValue_nonneg v : (0 <= v)%Z -> (0 <= nearestValue v)%Z.
Proof.
  intros Hv. unfold nearestValue.
  set (e := (fexp prec emax (Zdigits2 v - 2200) + 2200)%Z).
  assert (He : (0 <= e)%Z) by (unfold e, fexp, emin, emax, prec; lia).
  pose proof (nearestEven_bounds v e) as [Hb _].
  pose proof (pow2_pos e He) as Hp.
  assert (0 <= v / 2 ^ e)%Z by (apply Z.div_pos; lia).
  pose proof top_pos. apply Z.min_glb; [|lia]. apply Z.mul_nonneg_nonneg; lia.
Qed.

(** The mantissa kept for a value fits at the exponent of the value. *)
Lemma nearestValue_fits v :
  (0 < v)%Z ->
  let e := fexp prec emax (Zdigits2 v - 2200) in
  fits (nearestEven v (e + 2200)) e.
Proof.
  intros Hv e. pose proof (nearestEven_fits v (-2200) Hv) as H. cbv zeta in H.
  replace (Zdigits2 v + -2200)%Z with (Zdigits2 v - 2200)%Z in H by lia. fold e in H.
  replace (e - -2200)%Z with (e + 2200)%Z in H by lia. apply H.
  unfold e, fexp, emin, emax, prec. lia.
Qed.

Lemma nearestValue_mono v w : (0 <= v <= w)%Z -> (nearestValue v <= nearestValue w)%Z.
Proof.
  intros [Hv Hle]. destruct (Z.eq_dec v 0%Z) as [->|Hv0].
  { rewrite nearestValue_0. apply nearestValue_nonneg. lia. }
  assert (Hvp : (0 < v)%Z) by lia. assert (Hwp : (0 < w)%Z) by lia.
  pose proof (Zdigits2_mono v w ltac:(lia)) as Hd.
  pose proof (nearestValue_fits v Hvp) as Hfv. pose proof (nearestValue_fits w Hwp) as Hfw.
  cbv zeta in Hfv, Hfw. unfold nearestValue.
  set (ev := fexp prec emax (Zdigits2 v - 2200)) in *.
  set (ew := fexp prec emax (Zdigits2 w - 2200)) in *.
  assert (Hevw : (ev <= ew)%Z) by (apply fexp_mono; lia).
  assert (Hev : (-1074 <= ev)%Z) by (unfold ev, fexp, emin, emax, prec; lia).
  apply Z.min_le_compat_r.
  destruct Hfv as (_ & [Hv0' Hv53] & _). destruct Hfw as (_ & [Hw0 Hw53] & Hwn).
  destruct (Z.eq_dec ev ew) as [E|E].
  - rewrite <- E. apply Z.mul_le_mono_nonneg_r; [pose proof (pow2_pos (ev + 2200)); lia|].
    apply nearestEven_mono; lia.
  - assert (H52 : (2 ^ 52 <= nearestEven w (ew + 2200))%Z).
    { destruct Hwn as [Hwn|Hwn]; [|exact Hwn]. unfold emin, emax, prec in Hwn. lia. }
    pose proof (pow2_pos (ev + 2200) ltac:(lia)) as Hpv.
    pose proof (pow2_pos (ew + 2200) ltac:(lia)) as Hpw.
    assert (H1 : (nearestEven v (ev + 2200) * 2 ^ (ev + 2200) <= 2 ^ 53 * 2 ^ (ev + 2200))%Z).
    { apply Z.mul_le_mono_nonneg_r; lia. }
    assert (H2 : (2 ^ 52 * 2 ^ (ew + 2200) <= nearestEven w (ew + 2200) * 2 ^ (ew + 2200))%Z).
    { apply Z.mul_le_mono_nonneg_r; lia. }
    rewrite <- Z.pow_add_r in H1, H2 by lia.
    assert (H3 : (2 ^ (53 + (ev + 2200)) <= 2 ^ (52 + (ew + 2200)))%Z).
    { apply Z.pow_le_mono_r; lia. }
    lia.
Qed.

(** The value of a number is its own nearest value. *)
Lemma nearestValue_fixed p e :
  canonical p e -> (e <= emax - prec)%Z -> nearestValue (fixedPoint p e) = fixedPoint p e.
Proof.
  intros Hc Hb. pose proof (canonical_bounds p e Hc) as (_ & Hmin & _).
  pose proof (fixedPoint_below_top p e Hc Hb) as Htop.
  unfold nearestValue, fixedPoint in *.
  rewrite Zdigits2_shift by lia. cbn [Zdigits2].
  replace (Zpos (digits2_pos p) + (e + 2200) - 2200)%Z with (Zpos (digits2_pos p) + e)%Z by lia.
  rewrite Hc.
  rewrite <- (Z.add_0_l (e + 2200)) at 2. rewrite nearestEven_scale by lia.
  rewrite nearestEven_0. apply Z.min_l. lia.
Qed.

Lemma roundValue_0 : roundValue 0 = 0%Z.
Proof. reflexivity. Qed.

Lemma roundValue_opp v : roundValue (- v) = (- roundValue v)%Z.
Proof.
  unfold roundValue. destruct (Z.ltb_spec (- v) 0), (Z.ltb_spec v 0); try lia.
  - rewrite Z.opp_involutive. reflexivity.
  - assert (v = 0)%Z by lia. subst v. reflexivity.
Qed.

Lemma roundValue_mono v w : (v <= w)%Z -> (roundValue v <= roundValue w)%Z.
Proof.
  intros Hle. unfold roundValue. destruct (Z.ltb_spec v 0), (Z.ltb_spec w 0); try lia.
  - pose proof (nearestValue_mono (- w) (- v) ltac:(lia)). lia.
  - pose proof (nearestValue_nonneg (- v) ltac:(lia)).
    pose proof (nearestValue_nonneg w ltac:(lia)). lia.
  - apply nearestValue_mono. lia.
Qed.

Lemma roundValue_fixed x : wellFormed x -> roundValue (valueOf x) = valueOf x.
Proof.
  destruct x as [s|s| |s m e]; cbn [wellFormed valueOf]; try reflexivity.
  - (* an infinity *)
    intros _. pose proof top_pos as Htop.
    assert (H : nearestValue top = top).
    { unfold nearestValue. apply Z.min_r.
      set (e := (fexp prec emax (Zdigits2 top - 2200) + 2200)%Z).
      assert (Hd : Zdigits2 top = (emax + 2200 + 1)%Z).
      { unfold top. rewrite <- (Z.mul_1_l (2 ^ (emax + 2200))).
        rewrite Zdigits2_shift by (unfold emax; lia). reflexivity. }
      assert (He : e = (emax + 1 - prec + 2200)%Z).
      { unfold e. rewrite Hd. unfold fexp, emin, emax, prec. lia. }
      rewrite nearestEven_exact.
      - rewrite Z.mul_comm. rewrite <- Z_div_exact_full_2; [lia| |].
        + pose proof (pow2_pos e ltac:(rewrite He; unfold emax, prec; lia)). lia.
        + unfold top. replace (emax + 2200)%Z with ((emax + 2200 - e) + e)%Z by lia.
          rewrite Z.pow_add_r by (rewrite He; unfold emax, prec; lia).
          apply Z.mod_mul. pose proof (pow2_pos e ltac:(rewrite He; unfold emax, prec; lia)). lia.
      - unfold top. replace (emax + 2200)%Z with ((emax + 2200 - e) + e)%Z by lia.
        rewrite Z.pow_add_r by (rewrite He; unfold emax, prec; lia).
        apply Z.mod_mul. pose proof (pow2_pos e ltac:(rewrite He; unfold emax, prec; lia)). lia.
      - rewrite He. unfold emax, prec. lia. }
    destruct s; cbn [cond_Zopp].
    + rewrite roundValue_opp. unfold roundValue.
      destruct (Z.ltb_spec top 0); [lia|]. rewrite H. reflexivity.
    + unfold roundValue. destruct (Z.ltb_spec top 0); [lia|]. exact H.
  - (* a finite number *)
    intros [Hc Hb]. pose proof (fixedPoint_pos m e Hc) as Hpos.
    unfold signedFixedPoint. destruct s; cbn [cond_Zopp].
    + rewrite roundValue_opp. unfold roundValue.
      destruct (Z.ltb_spec (fixedPoint m e) 0); [lia|].
      rewrite nearestValue_fixed by assumption. reflexivity.
    + unfold roundValue. destruct (Z.ltb_spec (fixedPoint m e) 0); [lia|].
      apply nearestValue_fixed; assumption.
Qed.

(** ** The value of a rounded integer *)

Lemma binary_normalize_valueOf z e sz :
  (-2200 <= e)%Z ->
  wellFormed (binary_normalize prec emax z e sz)
  /\ valueOf (binary_normalize prec emax z e sz) = roundValue (z * 2 ^ (e + 2200)).
Proof.
  intros He. pose proof (pow2_pos (e + 2200) ltac:(lia)) as Hp.
  destruct z as [|p|p]; cbn [binary_normalize].
  - split; [exact I|reflexivity].
  - destruct (binary_round_valueOf false p e He) as [Hw Hv]. split; [exact Hw|].
    rewrite Hv. cbn [cond_Zopp]. unfold roundValue, fixedPoint.
    destruct (Z.ltb_spec (Zpos p * 2 ^ (e + 2200)) 0); [lia|reflexivity].
  - destruct (binary_round_valueOf true p e He) as [Hw Hv]. split; [exact Hw|].
    rewrite Hv. cbn [cond_Zopp]. unfold roundValue, fixedPoint.
    destruct (Z.ltb_spec (Zneg p * 2 ^ (e + 2200)) 0); [|lia].
    f_equal. f_equal. lia.
Qed.

(** ** The order of numbers is the order of their values *)

Lemma SFleb_finite_pos m1 e1 m2 e2 :
  canonical m1 e1 -> canonical m2 e2 ->
  SFleb (S754_finite false m1 e1) (S754_finite false m2 e2) = true
  <-> (fixedPoint m1 e1 <= fixedPoint m2 e2)%Z.
Proof.
  intros H1 H2. rewrite fixedPoint_le_iff by assumption.
  unfold SFleb, SFcompare.
  destruct (Z.compare_spec e1 e2) as [E|E|E].
  - change (Pos.compare_cont Eq m1 m2) with (Pos.compare m1 m2).
    destruct (Pos.compare_spec m1 m2) as [Em|Em|Em]; split; intros H;
      try reflexivity; try discriminate; try lia.
  - split; [intros _; left; exact E|reflexivity].
  - split; [discriminate|lia].
Qed.

Lemma SFleb_finite_neg m1 e1 m2 e2 :
  canonical m1 e1 -> canonical m2 e2 ->
  SFleb (S754_finite true m1 e1) (S754_finite true m2 e2) = true
  <-> (fixedPoint m2 e2 <= fixedPoint m1 e1)%Z.
Proof.
  intros H1 H2. rewrite fixedPoint_le_iff by assumption.
  unfold SFleb, SFcompare.
  destruct (Z.compare_spec e1 e2) as [E|E|E].
  - change (Pos.compare_cont Eq m1 m2) with (Pos.compare m1 m2).
    destruct (Pos.compare_spec m1 m2) as [Em|Em|Em]; cbn [CompOpp]; split; intros H;
      try reflexivity; try discriminate; try lia.
  - split; [discriminate|lia].
  - split; [intros _; left; exact E|reflexivity].
Qed.

Lemma finite_value_bounds s m e :
  wellFormed (S754_finite s m e) -> (0 < fixedPoint m e < top)%Z.
Proof.
  intros [Hc Hb]. split; [apply fixedPoint_pos, Hc|apply fixedPoint_below_top; assumption].
Qed.

Lemma SFleb_valueOf a b :
  wellFormed a -> wellFormed b -> SFleb a b = true <-> (valueOf a <= valueOf b)%Z.
Proof.
  pose proof top_pos as Htop. intros Ha Hb.
  destruct a as [sa|[]| |[] ma ea]; try (destruct Ha; fail);
  destruct b as [sb|[]| |[] mb eb]; try (destruct Hb; fail);
    repeat match goal with
           | H : wellFormed (S754_finite _ _ _) |- _ =>
               pose proof (finite_value_bounds _ _ _ H); destruct H
           end;
    cbn [valueOf cond_Zopp signedFixedPoint];
    try (rewrite SFleb_finite_neg by assumption; lia);
    try (rewrite SFleb_finite_pos by assumption; lia);
    unfold SFleb, SFcompare; (split; [intros Hs|intros Hs]);
    try reflexivity; try discriminate; try lia.
Qed.

Lemma Prim2SF_wellFormed x : Number.isNaN x = false -> wellFormed (Prim2SF x).
Proof.
  unfold Number.isNaN. destruct (Prim2SF x) as [s|s| |s m e] eqn:E; try discriminate;
    intros _; cbn [wellFormed]; try exact I.
  apply (canonical_of_Prim2SF x s m e E).
Qed.

Lemma leb_valueOf x y :
  Number.isNaN x = false -> Number.isNaN y = false ->
  (x <=? y) = true <-> (valueOf (Prim2SF x) <= valueOf (Prim2SF y))%Z.
Proof.
  intros Hx Hy. rewrite FloatAxioms.leb_spec.
  apply SFleb_valueOf; apply Prim2SF_wellFormed; assumption.
Qed.

(** ** Sums and differences of finite numbers, by value *)

Lemma cond_Zopp_mul s a b : (cond_Zopp s a * b = cond_Zopp s (a * b))%Z.
Proof. destruct s; cbn [cond_Zopp]; lia. Qed.

Lemma isFinite_wellFormed x : Number.isFinite x = true -> wellFormed (Prim2SF x).
Proof. intros H. apply Prim2SF_wellFormed, isFinite_not_NaN, H. Qed.

Lemma SFadd_valueOf x y :
  wellFormed x -> wellFormed y ->
  match x, y with
  | (S754_zero _ | S754_finite _ _ _), (S754_zero _ | S754_finite _ _ _) =>
      wellFormed (SFadd prec emax x y)
      /\ valueOf (SFadd prec emax x y) = roundValue (valueOf x + valueOf y)
  | _, _ => True
  end.
Proof.
  intros Hx Hy.
  destruct x as [sx| | |sx mx ex], y as [sy| | |sy my ey]; try exact I.
  - split; [destruct sx, sy; exact I|]. destruct sx, sy; reflexivity.
  - cbn [SFadd]. split; [exact Hy|]. cbn [valueOf]. rewrite Z.add_0_l.
    symmetry. exact (roundValue_fixed (S754_finite sy my ey) Hy).
  - cbn [SFadd]. split; [exact Hx|]. cbn [valueOf]. rewrite Z.add_0_r.
    symmetry. exact (roundValue_fixed (S754_finite sx mx ex) Hx).
  - destruct Hx as [Hcx Hbx], Hy as [Hcy Hby].
    pose proof (canonical_bounds _ _ Hcx) as (_ & Hex & _).
    pose proof (canonical_bounds _ _ Hcy) as (_ & Hey & _).
    unfold SFadd. cbv zeta. set (ez := Z.min ex ey).
    destruct (binary_normalize_valueOf
                (cond_Zopp sx (Zpos (fst (shl_align mx ex ez)))
                 + cond_Zopp sy (Zpos (fst (shl_align my ey ez)))) ez false ltac:(lia))
      as [Hw Hv].
    split; [exact Hw|]. rewrite Hv. f_equal. cbn [valueOf]. unfold signedFixedPoint.
    rewrite Z.mul_add_distr_r, !cond_Zopp_mul.
    rewrite (aligned_fixedPoint mx ex ez Hcx ltac:(lia)).
    rewrite (aligned_fixedPoint my ey ez Hcy ltac:(lia)). reflexivity.
Qed.

Lemma SFsub_valueOf x y :
  wellFormed x -> wellFormed y ->
  match x, y with
  | (S754_zero _ | S754_finite _ _ _), (S754_zero _ | S754_finite _ _ _) =>
      wellFormed (SFsub prec emax x y)
      /\ valueOf (SFsub prec emax x y) = roundValue (valueOf x - valueOf y)
  | _, _ => True
  end.
Proof.
  intros Hx Hy.
  destruct x as [sx| | |sx mx ex], y as [sy| | |sy my ey]; try exact I.
  - split; [destruct sx, sy; exact I|]. destruct sx, sy; reflexivity.
  - cbn [SFsub]. split; [exact Hy|]. cbn [valueOf]. rewrite Z.sub_0_l.
    pose proof (roundValue_fixed (S754_finite sy my ey) Hy) as H. cbn [valueOf] in H.
    rewrite roundValue_opp, H. unfold signedFixedPoint. destruct sy; cbn [negb cond_Zopp]; lia.
  - cbn [SFsub]. split; [exact Hx|]. cbn [valueOf]. rewrite Z.sub_0_r.
    symmetry. exact (roundValue_fixed (S754_finite sx mx ex) Hx).
  - destruct Hx as [Hcx Hbx], Hy as [Hcy Hby].
    pose proof (canonical_bounds _ _ Hcx) as (_ & Hex & _).
    pose proof (canonical_bounds _ _ Hcy) as (_ & Hey & _).
    unfold SFsub. cbv zeta. set (ez := Z.min ex ey).
    destruct (binary_normalize_valueOf
                (cond_Zopp sx (Zpos (fst (shl_align mx ex ez)))
                 - cond_Zopp sy (Zpos (fst (shl_align my ey ez)))) ez false ltac:(lia))
      as [Hw Hv].
    split; [exact Hw|]. rewrite Hv. f_equal. cbn [valueOf]. unfold signedFixedPoint.
    rewrite Z.mul_sub_distr_r, !cond_Zopp_mul.
    rewrite (aligned_fixedPoint mx ex ez Hcx ltac:(lia)).
    rewrite (aligned_fixedPoint my ey ez Hcy ltac:(lia)). reflexivity.
Qed.

Lemma wellFormed_not_NaN x : wellFormed (Prim2SF x) -> Number.isNaN x = false.
Proof. unfold Number.isNaN. destruct (Prim2SF x); simpl; tauto. Qed.

(** The sum of two finite numbers is the number nearest to the sum of
    their values. *)
Lemma add_valueOf x y :
  Number.isFinite x = true -> Number.isFinite y = true ->
  Number.isNaN (x + y) = false
  /\ valueOf (Prim2SF (x + y)) = roundValue (valueOf (Prim2SF x) + valueOf (Prim2SF y)).
Proof.
  intros Hx Hy.
  pose proof (SFadd_valueOf _ _ (isFinite_wellFormed x Hx) (isFinite_wellFormed y Hy)) as H.
  unfold Number.isFinite in Hx, Hy. unfold Number.isNaN.
  rewrite FloatAxioms.add_spec. unfold SF64add.
  destruct (Prim2SF x) as [sx| | |sx mx ex]; try discriminate;
  destruct (Prim2SF y) as [sy| | |sy my ey]; try discriminate;
    destruct H as [Hw Hv]; (split; [|exact Hv]);
    destruct (SFadd prec emax _ _); simpl in Hw; tauto.
Qed.

Lemma sub_valueOf x y :
  Number.isFinite x = true -> Number.isFinite y = true ->
  Number.isNaN (x - y) = false
  /\ valueOf (Prim2SF (x - y)) = roundValue (valueOf (Prim2SF x) - valueOf (Prim2SF y)).
Proof.
  intros Hx Hy.
  pose proof (SFsub_valueOf _ _ (isFinite_wellFormed x Hx) (isFinite_wellFormed y Hy)) as H.
  unfold Number.isFinite in Hx, Hy. unfold Number.isNaN.
  rewrite FloatAxioms.sub_spec. unfold SF64sub.
  destruct (Prim2SF x) as [sx| | |sx mx ex]; try discriminate;
  destruct (Prim2SF y) as [sy| | |sy my ey]; try discriminate;
    destruct H as [Hw Hv]; (split; [|exact Hv]);
    destruct (SFsub prec emax _ _); simpl in Hw; tauto.
Qed.

(** * The colour scale above the range and between its stops *)

(** ** Differences grow with the first operand *)

Lemma sub_mono_l x y z :
  Number.isFinite x = true -> Number.isFinite y = true -> Number.isFinite z = true ->
  (x <=? y) = true -> (x - z <=? y - z) = true.
Proof.
  intros Hx Hy Hz Hle.
  destruct (sub_valueOf x z Hx Hz) as [Hn1 Hv1].
  destruct (sub_valueOf y z Hy Hz) as [Hn2 Hv2].
  apply leb_valueOf; try assumption. rewrite Hv1, Hv2.
  apply roundValue_mono.
  apply (leb_valueOf x y) in Hle; try (apply isFinite_not_NaN; assumption). lia.
Qed.

(** ** The magnitude of a rounded number *)

(** The mantissa and exponent after [shr_fexp], from any location. *)
Lemma shr_fexp_m m e l :
  (0 <= m)%Z ->
  let n := Z.max 0 (fexp prec emax (Zdigits2 m + e) - e) in
  shr_m (fst (shr_fexp prec emax m e l)) = (m / 2 ^ n)%Z
  /\ snd (shr_fexp prec emax m e l) = (e + n)%Z.
Proof.
  intros Hm n. subst n. unfold shr_fexp, shr.
  assert (H0 : shr_m (shr_record_of_loc m l) = m) by (destruct l as [|[]]; reflexivity).
  destruct (fexp prec emax (Zdigits2 m + e) - e)%Z as [|p|p]; cbn [fst snd].
  - change (Z.max 0 0) with 0%Z. rewrite H0, Z.div_1_r, Z.add_0_r. split; reflexivity.
  - replace (Z.max 0 (Zpos p)) with (Zpos p) by lia.
    rewrite shr_iter_m by (rewrite H0; exact Hm). rewrite H0. split; reflexivity.
  - replace (Z.max 0 (Zneg p)) with 0%Z by lia.
    rewrite H0, Z.pow_0_r, Z.div_1_r, Z.add_0_r. split; reflexivity.
Qed.

(** A shift by [shr_fexp] keeps the sum of the digits and the exponent,
    above the least magnitude. *)
Lemma shr_fexp_digits m e l :
  (0 < m)%Z -> (emin < Zdigits2 m + e)%Z ->
  (0 < shr_m (fst (shr_fexp prec emax m e l)))%Z
  /\ (Zdigits2 (shr_m (fst (shr_fexp prec emax m e l))) + snd (shr_fexp prec emax m e l)
      = Zdigits2 m + e)%Z.
Proof.
  intros Hm Hd. destruct (shr_fexp_m m e l ltac:(lia)) as [Hq He]. cbv zeta in Hq, He.
  rewrite Hq, He. set (n := Z.max 0 (fexp prec emax (Zdigits2 m + e) - e)).
  pose proof (Zdigits2_pos m Hm) as Hdm.
  assert (Hn : (0 <= n < Zdigits2 m)%Z) by (unfold n, fexp, emin, emax, prec in *; lia).
  destruct (Zdigits2_div m n Hm Hn) as [Hpos Hdig]. split; [exact Hpos|]. rewrite Hdig. lia.
Qed.

(** Rounding never lowers the magnitude: the digits and the exponent of
    the result add up to those of the mantissa rounded, at least. *)
Lemma binary_round_aux_magnitude s m e l :
  (0 < m)%Z -> (emin < Zdigits2 m + e)%Z ->
  match binary_round_aux prec emax s m e l with
  | S754_infinity s' => s' = s
  | S754_finite s' m' e' => s' = s /\ (Zdigits2 m + e <= Zpos (digits2_pos m') + e')%Z
  | _ => False
  end.
Proof.
  intros Hm Hd. unfold binary_round_aux.
  destruct (shr_fexp_digits m e l Hm Hd) as [Hq1 Hd1].
  destruct (shr_fexp prec emax m e l) as [mrs' e']. cbn [fst snd] in Hq1, Hd1.
  destruct (round_nearest_even_bounds (shr_m mrs') (loc_of_shr_record mrs')) as [Hb _].
  set (m1 := round_nearest_even (shr_m mrs') (loc_of_shr_record mrs')) in *.
  assert (Hm1 : (0 < m1)%Z) by lia.
  pose proof (Zdigits2_mono (shr_m mrs') m1 ltac:(lia)) as Hmono.
  destruct (shr_fexp_digits m1 e' loc_Exact Hm1 ltac:(lia)) as [Hq2 Hd2].
  destruct (shr_fexp prec emax m1 e' loc_Exact) as [mrs'' e'']. cbn [fst snd] in Hq2, Hd2.
  destruct (shr_m mrs'') as [|p|p]; try lia.
  cbn [Zdigits2] in Hd2.
  destruct (e'' <=? emax - prec)%Z; [split; [reflexivity|lia]|reflexivity].
Qed.

(** ** A quotient that is at least 1 *)

Lemma fixedPoint_magnitude m e :
  (-2200 <= e)%Z -> (2 ^ (Zpos (digits2_pos m) + e + 2199) <= fixedPoint m e)%Z.
Proof.
  intros He. destruct (digits2_pos_bounds m) as [Hl _]. unfold fixedPoint.
  replace (Zpos (digits2_pos m) + e + 2199)%Z
    with ((Zpos (digits2_pos m) - 1) + (e + 2200))%Z by lia.
  rewrite Z.pow_add_r by lia.
  apply Z.mul_le_mono_nonneg_r; [pose proof (pow2_pos (e + 2200)); lia|exact Hl].
Qed.

(** The magnitude of a quotient of mantissas: for [x >= y] the digits and
    the exponent of the quotient add up to 1 at least. *)
Lemma SFdiv_core_magnitude mx ex my ey :
  canonical mx ex -> canonical my ey ->
  (fixedPoint my ey <= fixedPoint mx ex)%Z ->
  let '(q, e', _) := SFdiv_core_binary prec emax (Zpos mx) ex (Zpos my) ey in
  (0 < q)%Z /\ (1 <= Zdigits2 q + e')%Z.
Proof.
  intros Hcx Hcy Hle.
  pose proof (canonical_bounds _ _ Hcx) as (Hdx & Hex & _).
  pose proof (canonical_bounds _ _ Hcy) as (Hdy & Hey & _).
  destruct (digits2_pos_bounds mx) as [Hlx Hux]. destruct (digits2_pos_bounds my) as [Hly Huy].
  unfold SFdiv_core_binary. cbv zeta. cbn [Zdigits2].
  set (dx := Zpos (digits2_pos mx)) in *. set (dy := Zpos (digits2_pos my)) in *.
  set (e' := Z.min (fexp prec emax (dx + ex - (dy + ey))) (ex - ey)).
  set (s := (ex - ey - e')%Z).
  assert (Hs : (0 <= s)%Z) by (unfold s, e'; lia).
  set (m' := match s with 0%Z => Zpos mx | Zpos _ => Z.shiftl (Zpos mx) s | Zneg _ => 0%Z end).
  assert (Hm' : m' = (Zpos mx * 2 ^ s)%Z).
  { unfold m'. destruct s as [|p|p] eqn:Es; [simpl; lia| |lia].
    rewrite Z.shiftl_mul_pow2 by lia. reflexivity. }
  (* the magnitudes: [dy + ey <= dx + ex] *)
  assert (Hmag : (dy + ey <= dx + ex)%Z).
  { destruct (Z_le_gt_dec (dy + ey) (dx + ex)) as [|Hgt]; [assumption|exfalso].
    pose proof (fixedPoint_magnitude my ey ltac:(lia)) as H1. fold dy in H1.
    unfold fixedPoint in Hle.
    assert (H2 : (Zpos mx * 2 ^ (ex + 2200) < 2 ^ dx * 2 ^ (ex + 2200))%Z).
    { apply Z.mul_lt_mono_pos_r; [apply pow2_pos; lia|exact Hux]. }
    rewrite <- Z.pow_add_r in H2 by lia.
    assert (H3 : (2 ^ (dx + (ex + 2200)) <= 2 ^ (dy + ey + 2199))%Z).
    { apply Z.pow_le_mono_r; lia. }
    unfold fixedPoint in H1. lia. }
  pose proof (Z_div_mod m' (Zpos my) ltac:(lia)) as Hdm.
  destruct (Z.div_eucl m' (Zpos my)) as [q r] eqn:Eq.
  assert (Hq : q = (m' / Zpos my)%Z).
  { unfold Z.div. rewrite Eq. reflexivity. }
  clear Hdm Eq.
  (* a power of two that the quotient reaches *)
  set (j := Z.max 0 (- e')).
  assert (Hj : (2 ^ j * Zpos my <= m')%Z).
  { rewrite Hm'. destruct (Z_le_gt_dec e' 0) as [Hneg|Hpos'].
    - (* by value *)
      replace j with (- e')%Z by (unfold j; lia).
      unfold fixedPoint in Hle.
      assert (E1 : (Zpos mx * 2 ^ (ex + 2200)
                    = Zpos mx * 2 ^ s * 2 ^ (ey + e' + 2200))%Z).
      { rewrite <- Z.mul_assoc, <- Z.pow_add_r by (unfold e', fexp, emin, emax, prec in *; lia).
        f_equal. f_equal. unfold s. lia. }
      assert (E2 : (Zpos my * 2 ^ (ey + 2200)
                    = 2 ^ (- e') * Zpos my * 2 ^ (ey + e' + 2200))%Z).
      { rewrite (Z.mul_comm (2 ^ (- e'))), <- Z.mul_assoc,
          <- Z.pow_add_r by (unfold e', fexp, emin, emax, prec in *; lia).
        f_equal. f_equal. lia. }
      rewrite E1, E2 in Hle.
      apply Z.mul_le_mono_pos_r in Hle; [exact Hle|].
      apply pow2_pos. unfold e', fexp, emin, emax, prec in *. lia.
    - (* by the digits *)
      replace j with 0%Z by (unfold j; lia). rewrite Z.pow_0_r, Z.mul_1_l.
      assert (Hs52 : (dy <= dx - 1 + s)%Z).
      { unfold s, e', fexp, emin, emax, prec in *. lia. }
      assert (H1 : (2 ^ (dx - 1) * 2 ^ s <= Zpos mx * 2 ^ s)%Z).
      { apply Z.mul_le_mono_nonneg_r; [pose proof (pow2_pos s Hs); lia|exact Hlx]. }
      rewrite <- Z.pow_add_r in H1 by (unfold dx; lia).
      assert (H2 : (2 ^ dy <= 2 ^ (dx - 1 + s))%Z) by (apply Z.pow_le_mono_r; lia).
      lia. }
  assert (Hqj : (2 ^ j <= q)%Z).
  { rewrite Hq. apply Z.div_le_lower_bound; [lia|]. rewrite Z.mul_comm. exact Hj. }
  pose proof (pow2_pos j ltac:(unfold j; lia)) as Hpj.
  split; [lia|].
  assert (Hdq : (j + 1 <= Zdigits2 q)%Z).
  { destruct (Zdigits2_bounds q ltac:(lia)) as [_ Hu].
    destruct (Z_le_gt_dec (j + 1) (Zdigits2 q)) as [|Hgt]; [assumption|exfalso].
    assert (2 ^ Zdigits2 q <= 2 ^ j)%Z.
    { apply Z.pow_le_mono_r; [lia|]. lia. }
    lia. }
  unfold j in Hdq. lia.
Qed.

(** A number divided by a finite number above zero that is not above it
    gives 1 at least. *)
Lemma div_ge_one x y :
  (0 <? y) = true -> Number.isFinite y = true -> (y <=? x) = true ->
  (1 <=? x / y) = true.
Proof.
  intros Hpos Hfin Hle.
  assert (Hy : exists my ey, Prim2SF y = S754_finite false my ey).
  { revert Hpos. rewrite FloatAxioms.ltb_spec. change (Prim2SF 0) with (S754_zero false).
    unfold Number.isFinite in Hfin.
    destruct (Prim2SF y) as [s|s| |[] m e]; try discriminate. eauto. }
  destruct Hy as (my & ey & Ey).
  destruct (canonical_of_Prim2SF y _ _ _ Ey) as [Hcy _].
  pose proof (leb_not_NaN_r _ _ Hle) as Hnx.
  pose proof (proj1 (leb_valueOf y x (isFinite_not_NaN y Hfin) Hnx) Hle) as Hv.
  rewrite Ey in Hv. cbn [valueOf signedFixedPoint cond_Zopp] in Hv.
  pose proof (fixedPoint_pos my ey Hcy) as Hypos.
  rewrite FloatAxioms.leb_spec, FloatAxioms.div_spec, Ey.
  change (Prim2SF 1) with (S754_finite false 4503599627370496 (-52)).
  destruct (Prim2SF x) as [sx|[]| |[] mx ex] eqn:Ex;
    cbn [valueOf signedFixedPoint cond_Zopp] in Hv;
    try (pose proof top_pos; lia); try discriminate Hnx.
  - reflexivity.
  - destruct (canonical_of_Prim2SF x _ _ _ Ex) as [Hcx _].
    pose proof (fixedPoint_pos mx ex Hcx). lia.
  - destruct (canonical_of_Prim2SF x _ _ _ Ex) as [Hcx _].
    pose proof (FloatAxioms.div_spec x y) as Hspec. rewrite Ex, Ey in Hspec.
    unfold SF64div, SFdiv in *. cbn [xorb] in *.
    pose proof (SFdiv_core_magnitude mx ex my ey Hcx Hcy Hv) as Hcore.
    destruct (SFdiv_core_binary prec emax (Zpos mx) ex (Zpos my) ey) as [[q e'] l].
    destruct Hcore as [Hq Hd].
    pose proof (binary_round_aux_magnitude false q e' l Hq
                  ltac:(unfold emin, emax, prec; lia)) as Hr.
    destruct (binary_round_aux prec emax false q e' l) as [s'|s'| |s' m' e''];
      try (destruct Hr; fail).
    + subst s'. reflexivity.
    + destruct Hr as [-> Hmag].
      destruct (canonical_of_Prim2SF (x / y) _ _ _ Hspec) as [Hcr _].
      apply SFleb_finite_pos; [reflexivity|exact Hcr|].
      pose proof (canonical_bounds _ _ Hcr) as (_ & Hemin & _).
      pose proof (fixedPoint_magnitude m' e'' ltac:(lia)) as Hfp.
      assert (H1 : (2 ^ 2200 <= 2 ^ (Zpos (digits2_pos m') + e'' + 2199))%Z).
      { apply Z.pow_le_mono_r; lia. }
      change (fixedPoint 4503599627370496 (-52)) with (2 ^ 52 * 2 ^ 2148)%Z.
      rewrite <- Z.pow_add_r by lia. change (52 + 2148)%Z with 2200%Z. lia.
Qed.

(** X23: a finite speed that is not below [maxSpeed], with a finite
    [minSpeed] and a finite span above zero, gets the last stop: each
    channel of the result is the last stop's channel rounded. *)
Theorem scale_clamps_above (minSpeed maxSpeed : float) (colors : list Color) (speed : float) :
  let stops := stopsOf colors in
  Number.isFinite speed = true -> Number.isFinite minSpeed = true ->
  (maxSpeed <=? speed) = true ->
  (0 <? maxSpeed - minSpeed) = true -> Number.isFinite (maxSpeed - minSpeed) = true ->
  channelsFinite stops -> (Z.of_nat (length stops) < 2 ^ 53)%Z ->
  exists final r, last stops = Some final
    /\ createSpeedColorScale minSpeed maxSpeed colors speed = Some r
    /\ colorWithinRounding r final.
Proof.
  intros stops Hspeed Hmin Hle Hpos Hfin Hch Hlen.
  apply scale_at_last; try assumption.
  assert (Hor : Number.or (maxSpeed - minSpeed) 1 = maxSpeed - minSpeed).
  { unfold Number.or, Number.truthy, Number.isZero, Number.isNaN.
    revert Hpos. rewrite FloatAxioms.ltb_spec. change (Prim2SF 0) with (S754_zero false).
    destruct (Prim2SF (maxSpeed - minSpeed)) as [s|[]| |[] m e]; try discriminate; reflexivity. }
  rewrite Hor.
  destruct (clamp_spec ((speed - minSpeed) / (maxSpeed - minSpeed))) as (_ & _ & _ & Hone).
  apply Hone. apply div_ge_one; try assumption.
  apply sub_mono_l; try assumption. exact (sub_finite_l _ _ Hfin).
Qed.

Lemma scale_clamps_above_witness :
  exists final r, last (stopsOf blackToWhite) = Some final
    /\ createSpeedColorScale 10 100 blackToWhite 250 = Some r
    /\ colorWithinRounding r final.
Proof.
  apply (scale_clamps_above 10 100 blackToWhite 250); try reflexivity.
  apply channelsFiniteb_sound. reflexivity.
Defined.

(** ** Values of integers, floors and fractions *)

Lemma unitValue_pos : (0 < unitValue)%Z.
Proof. apply pow2_pos. lia. Qed.

Lemma valueOf_ofZ z :
  (Z.abs z < 2 ^ 53)%Z -> valueOf (Prim2SF (Number.ofZ z)) = (z * unitValue)%Z.
Proof.
  intros Hz. rewrite Prim2SF_ofZ by exact Hz. unfold unitValue.
  destruct z as [|p|p]; cbn [intSF valueOf signedFixedPoint cond_Zopp]; [reflexivity| |];
    rewrite fixedPoint_int by lia; set (P := (2 ^ 2200)%Z); lia.
Qed.

Lemma value_bounded_isFinite x :
  Number.isNaN x = false -> (- top < valueOf (Prim2SF x) < top)%Z ->
  Number.isFinite x = true.
Proof.
  unfold Number.isNaN, Number.isFinite.
  destruct (Prim2SF x) as [s|[]| |s m e]; cbn [valueOf cond_Zopp]; try discriminate;
    try reflexivity; lia.
Qed.

Lemma small_below_top z : (Z.abs z < 2 ^ 53)%Z -> (- top < z * unitValue < top)%Z.
Proof.
  intros Hz.
  assert (H : (2 ^ 53 * unitValue <= top)%Z).
  { unfold top, unitValue. rewrite <- Z.pow_add_r by lia.
    apply Z.pow_le_mono_r; unfold emax; lia. }
  pose proof unitValue_pos as Hp.
  assert (Z.abs z * unitValue < 2 ^ 53 * unitValue)%Z by (apply Z.mul_lt_mono_pos_r; lia).
  set (P := unitValue) in *. set (T := top) in *. lia.
Qed.

(** The floor of a finite number, by value. *)
Lemma floor_valueOf x :
  Number.isFinite x = true ->
  Number.isFinite (Math.floor x) = true
  /\ valueOf (Prim2SF (Math.floor x)) = (valueOf (Prim2SF x) / unitValue * unitValue)%Z.
Proof.
  intros Hfin. pose proof unitValue_pos as HP. unfold unitValue in *.
  unfold Math.floor. unfold Number.isFinite in Hfin.
  destruct (Prim2SF x) as [s| | |s m e] eqn:Ex; try discriminate.
  - split; [unfold Number.isFinite; rewrite Ex; reflexivity|]. rewrite Ex. reflexivity.
  - destruct (canonical_of_Prim2SF x _ _ _ Ex) as [Hc _].
    pose proof (canonical_bounds _ _ Hc) as (Hd & Hemin & _).
    destruct (Z.leb_spec 0 e) as [He|He].
    + split; [unfold Number.isFinite; rewrite Ex; reflexivity|]. rewrite Ex.
      cbn [valueOf]. unfold signedFixedPoint, fixedPoint.
      rewrite Z.pow_add_r by lia. rewrite Z.mul_assoc, <- cond_Zopp_mul.
      rewrite Z.div_mul by lia. reflexivity.
    + rewrite Z.shiftr_div_pow2 by lia.
      set (z := (cond_Zopp s (Zpos m) / 2 ^ (- e))%Z).
      pose proof (pow2_pos (- e) ltac:(lia)) as Hp.
      assert (Hz : (Z.abs z < 2 ^ 53)%Z).
      { assert (Hm : (Zpos m < 2 ^ 53)%Z).
        { destruct (digits2_pos_bounds m) as [_ Hu]. eapply Z.lt_le_trans; [exact Hu|].
          apply Z.pow_le_mono_r; lia. }
        assert (- Zpos m <= z <= Zpos m)%Z; [|lia].
        unfold z. destruct s; cbn [cond_Zopp].
        - split.
          + apply Z.div_le_lower_bound; [lia|]. nia.
          + assert (Zneg m / 2 ^ (- e) <= 0)%Z; [|lia].
            apply Z.div_le_upper_bound; lia.
        - split.
          + assert (0 <= Zpos m / 2 ^ (- e))%Z by (apply Z.div_pos; lia). lia.
          + apply Z.div_le_upper_bound; [lia|]. nia. }
      assert (Hv : (valueOf (S754_finite s m e) / 2 ^ 2200 = z)%Z).
      { cbn [valueOf]. unfold signedFixedPoint, fixedPoint. rewrite <- cond_Zopp_mul.
        replace (2 ^ 2200)%Z with (2 ^ (- e) * 2 ^ (e + 2200))%Z
          by (rewrite <- Z.pow_add_r by lia; f_equal; lia).
        rewrite Z.div_mul_cancel_r; [reflexivity|lia|].
        pose proof (pow2_pos (e + 2200) ltac:(lia)). lia. }
      rewrite Hv. destruct (Z.eqb_spec z 0) as [E0|N0].
      * rewrite E0. split; reflexivity.
      * split; [apply ofZ_isFinite, Hz|apply (valueOf_ofZ z Hz)].
Qed.

Lemma valueOf_0 : valueOf (Prim2SF 0) = 0%Z.
Proof. reflexivity. Qed.

Lemma valueOf_1 : valueOf (Prim2SF 1) = unitValue.
Proof.
  unfold unitValue. change (Prim2SF 1) with (S754_finite false 4503599627370496 (-52)).
  cbn [valueOf signedFixedPoint cond_Zopp]. unfold fixedPoint.
  change (Zpos 4503599627370496) with (2 ^ 52)%Z.
  rewrite <- Z.pow_add_r by lia. reflexivity.
Qed.

Lemma roundValue_one : roundValue unitValue = unitValue.
Proof.
  rewrite <- valueOf_1. apply roundValue_fixed, Prim2SF_wellFormed. reflexivity.
Qed.

(** The fraction [x - Math.floor(x)] of a finite number is a number from
    0 to 1. *)
Lemma fraction_range x :
  Number.isFinite x = true ->
  (0 <=? x - Math.floor x) = true /\ (x - Math.floor x <=? 1) = true.
Proof.
  intros Hfin. destruct (floor_valueOf x Hfin) as [Hff Hfv].
  destruct (sub_valueOf x (Math.floor x) Hfin Hff) as [Hn Hv].
  pose proof unitValue_pos as HP.
  pose proof (Z.mod_pos_bound (valueOf (Prim2SF x)) unitValue HP) as Hmod.
  rewrite Z.mod_eq in Hmod by lia.
  rewrite Hfv in Hv. rewrite (Z.mul_comm (_ / _)) in Hv.
  split; apply leb_valueOf; try assumption; try reflexivity.
  - rewrite valueOf_0, Hv, <- roundValue_0. apply roundValue_mono. exact (proj1 Hmod).
  - rewrite valueOf_1, Hv.
    etransitivity; [apply roundValue_mono, Z.lt_le_incl, (proj2 Hmod)|].
    rewrite roundValue_one. apply Z.le_refl.
Qed.

(** ** Products with a fraction *)

Lemma mul_comm x y : x * y = y * x.
Proof.
  apply Prim2SF_inj. rewrite !FloatAxioms.mul_spec. unfold SF64mul, SFmul.
  destruct (Prim2SF x) as [sx|sx| |sx mx ex], (Prim2SF y) as [sy|sy| |sy my ey];
    try reflexivity; try (rewrite xorb_comm; reflexivity).
  rewrite xorb_comm, Pos.mul_comm, Z.add_comm. reflexivity.
Qed.

Lemma binary_round_aux_opp s m e l :
  binary_round_aux prec emax (negb s) m e l = SFopp (binary_round_aux prec emax s m e l).
Proof.
  unfold binary_round_aux.
  destruct (shr_fexp prec emax m e l) as [mrs' e'].
  destruct (shr_fexp prec emax _ e' loc_Exact) as [mrs'' e''].
  destruct (shr_m mrs'') as [|p|p]; try reflexivity.
  destruct (e'' <=? emax - prec)%Z; reflexivity.
Qed.

Lemma SFmul_opp_l a b : SFmul prec emax (SFopp a) b = SFopp (SFmul prec emax a b).
Proof.
  destruct a as [sa|sa| |sa ma ea], b as [sb|sb| |sb mb eb]; cbn [SFopp SFmul];
    try reflexivity; try (destruct sa, sb; reflexivity).
  rewrite <- binary_round_aux_opp. destruct sa, sb; reflexivity.
Qed.

Lemma valueOf_opp x : valueOf (SFopp x) = (- valueOf x)%Z.
Proof.
  destruct x as [s|s| |s m e]; cbn [SFopp valueOf]; try reflexivity;
    unfold signedFixedPoint; destruct s; cbn [negb cond_Zopp]; lia.
Qed.

Lemma intSF_opp z : intSF (- z) = SFopp (intSF z) \/ z = 0%Z.
Proof. destruct z; [right; reflexivity|left; reflexivity|left; reflexivity]. Qed.

(** An integer times a fraction: a finite number between 0 and the
    integer. *)
Lemma mul_ofZ_fraction K t :
  (Z.abs K < 2 ^ 53)%Z -> (0 <=? t) = true -> (t <=? 1) = true ->
  Number.isFinite (Number.ofZ K * t) = true
  /\ (Z.min 0 (K * unitValue) <= valueOf (Prim2SF (Number.ofZ K * t))
      <= Z.max 0 (K * unitValue))%Z.
Proof.
  intros HK H0 H1. pose proof unitValue_pos as HP.
  assert (Hpos : forall k, (1 <= k < 2 ^ 53)%Z ->
            Number.isNaN (Number.ofZ k * t) = false
            /\ (0 <= valueOf (Prim2SF (Number.ofZ k * t)) <= k * unitValue)%Z).
  { intros k Hk. rewrite mul_comm.
    destruct (mul_fraction_le t k H0 H1 Hk) as [Ha Hb].
    pose proof (leb_not_NaN_r _ _ Ha) as Hn. split; [exact Hn|].
    apply leb_valueOf in Ha, Hb; try assumption; try reflexivity;
      try (apply isFinite_not_NaN, ofZ_isFinite; lia).
    rewrite valueOf_0 in Ha. rewrite valueOf_ofZ in Hb by lia. lia. }
  destruct (Z.lt_trichotomy K 0) as [Hneg|[->|Hp]].
  - (* a negative integer: the opposite of the product with its opposite *)
    destruct (Hpos (- K)%Z ltac:(lia)) as [Hn Hv].
    assert (E : Prim2SF (Number.ofZ K * t) = SFopp (Prim2SF (Number.ofZ (- K) * t))).
    { rewrite !FloatAxioms.mul_spec, !Prim2SF_ofZ by lia. unfold SF64mul.
      rewrite <- SFmul_opp_l. f_equal.
      destruct (intSF_opp (- K)) as [H|H]; [|lia]. rewrite Z.opp_involutive in H. exact H. }
    assert (Hval : (K * unitValue <= valueOf (Prim2SF (Number.ofZ K * t)) <= 0)%Z).
    { rewrite E, valueOf_opp. lia. }
    split; [|lia]. apply value_bounded_isFinite.
    + unfold Number.isNaN in *. rewrite E. destruct (Prim2SF (Number.ofZ (- K) * t));
        try discriminate; reflexivity.
    + pose proof (small_below_top K HK). lia.
  - (* zero *)
    assert (Ht : Number.isFinite t = true).
    { apply value_bounded_isFinite; [exact (leb_not_NaN_l _ _ H1)|].
      apply leb_valueOf in H0, H1; try reflexivity;
        try exact (leb_not_NaN_l _ _ H1); try exact (leb_not_NaN_r _ _ H0).
      rewrite valueOf_0 in H0. rewrite valueOf_1 in H1.
      pose proof (small_below_top 1 ltac:(lia)). lia. }
    pose proof (mul_zero_l t (Number.ofZ 0) Ht eq_refl) as Hz.
    split; [apply isZero_isFinite, Hz|].
    unfold Number.isZero in Hz. destruct (Prim2SF (Number.ofZ 0 * t)); try discriminate.
    cbn [valueOf]. lia.
  - destruct (Hpos K ltac:(lia)) as [Hn Hv].
    split; [|lia]. apply value_bounded_isFinite; [exact Hn|].
    pose proof (small_below_top K HK). lia.
Qed.

(** ** Sums that are not below zero *)

Lemma binary_round_sign s p e :
  match binary_round prec emax s p e with
  | S754_zero s' | S754_infinity s' | S754_finite s' _ _ => s' = s
  | S754_nan => True
  end.
Proof.
  unfold binary_round. destruct (shl_align p e _) as [mz ez]. apply binary_round_aux_sign.
Qed.

(** The sum of a number that is not [-0] and a number, when it is not
    below zero, is not [-0]. *)
Lemma add_not_neg_zero x y :
  Number.isFinite x = true -> Number.isFinite y = true ->
  Number.isNegZero x = false ->
  (0 <= valueOf (Prim2SF x) + valueOf (Prim2SF y))%Z ->
  Number.isNegZero (x + y) = false.
Proof.
  intros Hx Hy Hnz Hsum.
  pose proof (isFinite_wellFormed x Hx) as Hwx. pose proof (isFinite_wellFormed y Hy) as Hwy.
  unfold Number.isFinite, Number.isNegZero in *. rewrite FloatAxioms.add_spec.
  unfold SF64add.
  destruct (Prim2SF x) as [[]| | |sx mx ex]; try discriminate;
  destruct (Prim2SF y) as [sy| | |sy my ey]; try discriminate; cbn [SFadd];
    try reflexivity; try (destruct sy; reflexivity).
  destruct Hwx as [Hcx _], Hwy as [Hcy _].
  pose proof (canonical_bounds _ _ Hcx) as (_ & Hex & _).
  pose proof (canonical_bounds _ _ Hcy) as (_ & Hey & _).
  cbv zeta. set (ez := Z.min ex ey).
  cbn [valueOf] in Hsum. unfold signedFixedPoint in Hsum.
  rewrite <- (aligned_fixedPoint mx ex ez Hcx ltac:(lia)) in Hsum.
  rewrite <- (aligned_fixedPoint my ey ez Hcy ltac:(lia)) in Hsum.
  rewrite <- !cond_Zopp_mul, <- Z.mul_add_distr_r in Hsum.
  pose proof (pow2_pos (ez + 2200) ltac:(lia)) as Hp.
  set (z := (cond_Zopp sx (Zpos (fst (shl_align mx ex ez)))
             + cond_Zopp sy (Zpos (fst (shl_align my ey ez))))%Z) in *.
  assert (Hz : (0 <= z)%Z) by nia.
  destruct z as [|p|p]; [reflexivity| |lia].
  cbn [binary_normalize]. pose proof (binary_round_sign false p ez) as Hs.
  destruct (binary_round prec emax false p ez) as [s'| | |]; try reflexivity.
  subst s'. reflexivity.
Qed.

(** ** Rounding to an integer *)

(** [Math.round] of a number between two small integers that are not
    below zero: an integer between them. *)
Lemma round_between v lo hi :
  (0 <= lo <= hi)%Z -> (hi < 2 ^ 52)%Z ->
  Number.isNaN v = false -> Number.isNegZero v = false ->
  (lo * unitValue <= valueOf (Prim2SF v) <= hi * unitValue)%Z ->
  exists z, (lo <= z <= hi)%Z /\ Math.round v = Number.ofZ z.
Proof.
  intros Hlo Hhi Hn Hnz Hv. pose proof unitValue_pos as HP.
  pose proof (small_below_top hi ltac:(lia)) as Htop.
  unfold Math.round. unfold Number.isNaN, Number.isNegZero in *.
  destruct (Prim2SF v) as [[]|[]| |[] m e] eqn:Ev; try discriminate;
    cbn [valueOf cond_Zopp signedFixedPoint] in Hv.
  - (* zero *)
    exists 0%Z. split; [lia|]. apply Prim2SF_inj. rewrite Ev. reflexivity.
  - exfalso. lia.
  - exfalso. pose proof top_pos. nia.
  - exfalso. destruct (canonical_of_Prim2SF v _ _ _ Ev) as [Hc _].
    pose proof (fixedPoint_pos m e Hc). nia.
  - destruct (canonical_of_Prim2SF v _ _ _ Ev) as [Hc _].
    pose proof (canonical_bounds _ _ Hc) as (Hd & Hemin & Hnorm).
    destruct (Z.leb_spec 0 e) as [He|He].
    { (* too large to be between the bounds *)
      exfalso. assert (Hd53 : Zpos (digits2_pos m) = 53%Z) by lia.
      pose proof (fixedPoint_magnitude m e ltac:(lia)) as Hmag. rewrite Hd53 in Hmag.
      assert (H1 : (2 ^ (52 + 2200) <= 2 ^ (53 + e + 2199))%Z) by (apply Z.pow_le_mono_r; lia).
      rewrite Z.pow_add_r in H1 by lia. fold unitValue in H1.
      assert (hi * unitValue < 2 ^ 52 * unitValue)%Z by (apply Z.mul_lt_mono_pos_r; lia).
      lia. }
    cbn [cond_Zopp]. rewrite Z.shiftl_mul_pow2, Z.shiftr_div_pow2 by lia.
    rewrite Z.mul_1_l.
    set (k := (- e)%Z) in *. pose proof (pow2_pos k ltac:(lia)) as Hk.
    assert (Hm : (lo * 2 ^ k <= Zpos m <= hi * 2 ^ k)%Z).
    { unfold fixedPoint, unitValue in Hv.
      replace (2 ^ 2200)%Z with (2 ^ k * 2 ^ (e + 2200))%Z in Hv
        by (rewrite <- Z.pow_add_r by lia; f_equal; lia).
      rewrite !Z.mul_assoc in Hv. pose proof (pow2_pos (e + 2200) ltac:(lia)) as Hq.
      destruct Hv as [Hv1 Hv2].
      apply Z.mul_le_mono_pos_r in Hv1, Hv2; try exact Hq. lia. }
    set (z := ((2 * Zpos m + 2 ^ k) / 2 ^ (k + 1))%Z).
    assert (Hpk : (2 ^ (k + 1) = 2 * 2 ^ k)%Z).
    { rewrite Z.pow_add_r by lia. change (2 ^ 1)%Z with 2%Z. lia. }
    assert (Hz : (lo <= z <= hi)%Z).
    { unfold z. rewrite Hpk. split.
      - apply Z.div_le_lower_bound; lia.
      - assert ((2 * Zpos m + 2 ^ k) / (2 * 2 ^ k) < hi + 1)%Z; [|lia].
        apply Z.div_lt_upper_bound; lia. }
    exists z. split; [exact Hz|].
    destruct (Z.eqb_spec z 0) as [->|_]; reflexivity.
Qed.

(** ** Interpolating between bytes *)

Lemma roundValue_ofZ z :
  (Z.abs z < 2 ^ 53)%Z -> roundValue (z * unitValue) = (z * unitValue)%Z.
Proof.
  intros Hz. rewrite <- valueOf_ofZ by exact Hz.
  apply roundValue_fixed, isFinite_wellFormed, ofZ_isFinite, Hz.
Qed.

Lemma ofZ_not_neg_zero z : (Z.abs z < 2 ^ 53)%Z -> Number.isNegZero (Number.ofZ z) = false.
Proof.
  intros Hz. unfold Number.isNegZero. rewrite Prim2SF_ofZ by exact Hz. destruct z; reflexivity.
Qed.

(** A channel interpolated between two bytes and rounded is an integer
    between the two. *)
Lemma round_lerp_bytes za zb t :
  (0 <= za <= 255)%Z -> (0 <= zb <= 255)%Z -> (0 <=? t) = true -> (t <=? 1) = true ->
  exists z, (Z.min za zb <= z <= Z.max za zb)%Z
    /\ Math.round (lerp (Number.ofZ za) (Number.ofZ zb) t) = Number.ofZ z.
Proof.
  intros Ha Hb H0 H1. pose proof unitValue_pos as HP.
  unfold lerp. rewrite ofZ_sub by lia.
  destruct (mul_ofZ_fraction (zb - za) t ltac:(lia) H0 H1) as [Hpf Hpv].
  set (p := Number.ofZ (zb - za) * t) in *.
  assert (Haf : Number.isFinite (Number.ofZ za) = true) by (apply ofZ_isFinite; lia).
  destruct (add_valueOf (Number.ofZ za) p Haf Hpf) as [Hn Hv].
  rewrite valueOf_ofZ in Hv by lia.
  assert (Hsum : (Z.min za zb * unitValue <= za * unitValue + valueOf (Prim2SF p)
                  <= Z.max za zb * unitValue)%Z).
  { destruct (Z_le_gt_dec za zb).
    - rewrite Z.min_l, Z.max_r by lia.
      rewrite Z.min_l, Z.max_r in Hpv by nia. lia.
    - rewrite Z.min_r, Z.max_l by lia.
      rewrite Z.min_r, Z.max_l in Hpv by nia. lia. }
  apply round_between; try assumption; try lia.
  - apply add_not_neg_zero; try assumption; [apply ofZ_not_neg_zero; lia|].
    rewrite valueOf_ofZ by lia. nia.
  - rewrite Hv. split.
    + rewrite <- (roundValue_ofZ (Z.min za zb)) by lia. apply roundValue_mono. lia.
    + rewrite <- (roundValue_ofZ (Z.max za zb)) by lia. apply roundValue_mono. lia.
Qed.

Lemma channelBetween_lerp a b t :
  isByte a -> isByte b -> (0 <=? t) = true -> (t <=? 1) = true ->
  channelBetween a b (Math.round (lerp a b t)).
Proof.
  intros (za & Hza & ->) (zb & Hzb & ->) H0 H1.
  destruct (round_lerp_bytes za zb t Hza Hzb H0 H1) as (z & Hz & E).
  exists za, zb, z. rewrite E. repeat split; try reflexivity; lia.
Qed.

Lemma channelBetween_same a : isByte a -> channelBetween a a a.
Proof. intros (za & Hza & ->). exists za, za, za. repeat split; try reflexivity; lia. Qed.

(** ** The two stops that the scale reads *)

Lemma arrayGet_elem {A} (arr : list A) x c : Number.arrayGet arr x = Some c -> c ∈ arr.
Proof.
  unfold Number.arrayGet. destruct (Number.toIndex x) as [i|]; [|discriminate].
  destruct (i <? N.of_nat (length arr))%N; [|discriminate].
  intros H. apply list_elem_of_lookup. eexists. exact H.
Qed.

(** With a position that is a number, the scale returns its only stop, or
    the colour interpolated between two stops at a fraction from 0 to 1. *)
Lemma scale_interpolates minSpeed maxSpeed colors speed :
  (Z.of_nat (length (stopsOf colors)) < 2 ^ 53)%Z -> Number.isFinite speed = true ->
  Number.isNaN (position minSpeed maxSpeed speed) = false ->
  (exists c0 c1 c2, (c0, c1, c2) ∈ stopsOf colors
     /\ createSpeedColorScale minSpeed maxSpeed colors speed = Some (c0, c1, c2, 255))
  \/ (exists a b t, a ∈ stopsOf colors /\ b ∈ stopsOf colors
        /\ (0 <=? t) = true /\ (t <=? 1) = true
        /\ createSpeedColorScale minSpeed maxSpeed colors speed = Some (lerpColor a b t)).
Proof.
  intros Hb Hfin Hu. set (n := length (stopsOf colors)) in *.
  pose proof (stopsOf_nonempty colors) as Hne.
  assert (Hn : (1 <= n)%nat).
  { unfold n. destruct (stopsOf colors); [congruence|simpl; lia]. }
  destruct (clamp_spec (position minSpeed maxSpeed speed)) as (_ & Hrange & _).
  destruct (Hrange Hu) as [H0 H1].
  unfold createSpeedColorScale. rewrite Hfin. cbn [negb]. fold n.
  fold (position minSpeed maxSpeed speed).
  destruct (Nat.eqb_spec n 1) as [E1|E1].
  { left. rewrite arrayGet_0 by exact Hne.
    destruct (stopsOf colors) as [|[[c0 c1] c2] l]; [congruence|].
    exists c0, c1, c2. split; [apply elem_of_cons; left; reflexivity|reflexivity]. }
  right. rewrite ofNat_pred by assumption.
  change (Number.ofNat (n - 1)) with (Number.ofZ (Z.of_nat (n - 1))).
  set (K := Z.of_nat (n - 1)).
  destruct (mul_fraction_le _ K H0 H1 ltac:(lia)) as [Hs0 HsK].
  set (scaled := Math.max 0 (Math.min 1 (position minSpeed maxSpeed speed)) * Number.ofZ K) in *.
  destruct (floor_index _ K Hs0 HsK ltac:(lia) ltac:(lia)) as (z & Hz & Hidx & Hnext).
  destruct (arrayGet_toIndex (stopsOf colors) _ z Hidx ltac:(fold n; lia)) as [c1 Hc1].
  rewrite Hc1, Hnext.
  destruct (second_stop_defined (stopsOf colors) z ltac:(fold n; lia) Hn Hb) as [c2 Hc2].
  fold n in Hc2. fold K in Hc2. rewrite Hc2.
  assert (Hns : Number.isNaN scaled = false) by exact (leb_not_NaN_r _ _ Hs0).
  assert (Hsf : Number.isFinite scaled = true).
  { apply value_bounded_isFinite; [exact Hns|].
    pose proof (proj1 (leb_valueOf 0 scaled eq_refl Hns) Hs0) as V0.
    pose proof (proj1 (leb_valueOf scaled (Number.ofZ K) Hns
                         (isFinite_not_NaN _ (ofZ_isFinite K ltac:(lia)))) HsK) as VK.
    rewrite valueOf_0 in V0. rewrite valueOf_ofZ in VK by lia.
    pose proof (small_below_top K ltac:(lia)). lia. }
  destruct (fraction_range scaled Hsf) as [Ht0 Ht1].
  exists c1, c2, (scaled - Math.floor scaled).
  split; [exact (arrayGet_elem _ _ _ Hc1)|]. split; [exact (arrayGet_elem _ _ _ Hc2)|].
  split; [exact Ht0|]. split; [exact Ht1|reflexivity].
Qed.

(** X24: with stops that are bytes, the colour that the scale returns for
    a finite speed (at a position that is a number) is made of bytes:
    each channel is an integer between the same channel of two stops, so
    from 0 to 255, and alpha is 255. *)
Theorem scale_stays_between_byte_stops (minSpeed maxSpeed : float) (colors : list Color)
    (speed : float) :
  let stops := stopsOf colors in
  byteStops stops -> (Z.of_nat (length stops) < 2 ^ 53)%Z ->
  Number.isFinite speed = true ->
  Number.isNaN (position minSpeed maxSpeed speed) = false ->
  exists a0 a1 a2 b0 b1 b2 r0 r1 r2,
    (a0, a1, a2) ∈ stops /\ (b0, b1, b2) ∈ stops
    /\ createSpeedColorScale minSpeed maxSpeed colors speed = Some (r0, r1, r2, 255)
    /\ channelBetween a0 b0 r0 /\ channelBetween a1 b1 r1 /\ channelBetween a2 b2 r2.
Proof.
  intros stops Hbytes Hlen Hfin Hu.
  destruct (scale_interpolates minSpeed maxSpeed colors speed Hlen Hfin Hu)
    as [(c0 & c1 & c2 & Hc & E)|(a & b & t & Ha & Hb & H0 & H1 & E)].
  - destruct (Hbytes c0 c1 c2 Hc) as (B0 & B1 & B2).
    exists c0, c1, c2, c0, c1, c2, c0, c1, c2.
    repeat split; try assumption; apply channelBetween_same; assumption.
  - destruct a as [[a0 a1] a2], b as [[b0 b1] b2].
    destruct (Hbytes a0 a1 a2 Ha) as (A0 & A1 & A2).
    destruct (Hbytes b0 b1 b2 Hb) as (B0 & B1 & B2).
    exists a0, a1, a2, b0, b1, b2. eexists. eexists. eexists.
    split; [exact Ha|]. split; [exact Hb|]. split; [exact E|].
    repeat split; apply channelBetween_lerp; assumption.
Qed.

Lemma scale_stays_between_byte_stops_witness :
  exists a0 a1 a2 b0 b1 b2 r0 r1 r2,
    (a0, a1, a2) ∈ stopsOf blackToWhite /\ (b0, b1, b2) ∈ stopsOf blackToWhite
    /\ createSpeedColorScale 10 100 blackToWhite 40 = Some (r0, r1, r2, 255)
    /\ channelBetween a0 b0 r0 /\ channelBetween a1 b1 r1 /\ channelBetween a2 b2 r2.
Proof.
  apply (scale_stays_between_byte_stops 10 100 blackToWhite 40); try reflexivity.
  intros c0 c1 c2 Hc. vm_compute in Hc.
  apply elem_of_cons in Hc. destruct Hc as [Hc|Hc].
  - injection Hc as -> -> ->. repeat split; exists 0%Z; (split; [lia|reflexivity]).
  - apply elem_of_cons in Hc. destruct Hc as [Hc|Hc].
    + injection Hc as -> -> ->. repeat split; exists 255%Z; (split; [lia|reflexivity]).
    + apply elem_of_nil in Hc. destruct Hc.
Defined.

(** * The midpoint of a segment *)

(** ** Halving a number *)

Lemma Prim2SF_2 : Prim2SF 2 = S754_finite false 4503599627370496 (-51).
Proof. reflexivity. Qed.

Lemma nearestValue_scaled m e :
  (0 < m)%Z -> (-2200 <= e)%Z -> (e <= fexp prec emax (Zdigits2 m + e))%Z ->
  nearestValue (m * 2 ^ (e + 2200))
  = Z.min (nearestEven m (fexp prec emax (Zdigits2 m + e) - e)
           * 2 ^ (fexp prec emax (Zdigits2 m + e) + 2200)) top.
Proof.
  intros Hm He Hal. unfold nearestValue. rewrite Zdigits2_shift by lia.
  replace (Zdigits2 m + (e + 2200) - 2200)%Z with (Zdigits2 m + e)%Z by lia.
  set (e' := fexp prec emax (Zdigits2 m + e)) in *.
  rewrite <- (nearestEven_scale m (e' - e) (e + 2200)) by lia.
  replace (e' - e + (e + 2200))%Z with (e' + 2200)%Z by lia. reflexivity.
Qed.

(** The quotient of a mantissa by the mantissa of 2. *)
Lemma SFdiv_core_by_2 mx ex :
  canonical mx ex ->
  let '(q, e', l) := SFdiv_core_binary prec emax (Zpos mx) ex 4503599627370496 (-51) in
  ((ex = emin /\ e' = emin /\ q = (Zpos mx / 2)%Z
    /\ l = (if Z.even (Zpos mx) then loc_Exact else loc_Inexact Eq))
   \/ (ex <> emin /\ l = loc_Exact /\ (0 < q)%Z /\ (emin <= e')%Z
       /\ (e' <= fexp prec emax (Zdigits2 q + e'))%Z
       /\ (q * 2 ^ (e' + 2200) = Zpos mx * 2 ^ (ex + 2199))%Z)).
Proof.
  intros Hc. pose proof (canonical_bounds _ _ Hc) as (Hd & Hemin & Hnorm).
  destruct (digits2_pos_bounds mx) as [Hl Hu].
  unfold SFdiv_core_binary. cbv zeta. cbn [Zdigits2].
  change (Zpos (digits2_pos 4503599627370496)) with 53%Z.
  set (d := Zpos (digits2_pos mx)) in *.
  set (e' := Z.min (fexp prec emax (d + ex - (53 + -51))) (ex - -51)).
  set (s := (ex - -51 - e')%Z).
  set (m' := match s with 0%Z => Zpos mx | Zpos _ => Z.shiftl (Zpos mx) s | Zneg _ => 0%Z end).
  assert (Hs : (51 <= s <= 53)%Z) by (unfold s, e', fexp, emin, emax, prec in *; lia).
  assert (Hm' : m' = (Zpos mx * 2 ^ s)%Z).
  { unfold m'. destruct s as [|p|p] eqn:Es; try lia.
    rewrite Z.shiftl_mul_pow2 by lia. reflexivity. }
  pose proof (Z_div_mod m' 4503599627370496%Z ltac:(lia)) as Hdm.
  destruct (Z.div_eucl m' 4503599627370496%Z) as [q r] eqn:Eq. destruct Hdm as [Hdiv Hr].
  change 4503599627370496%Z with (2 ^ 52)%Z in *.
  destruct (Z.eq_dec s 51%Z) as [E51|N51].
  - (* the least exponent: the last bit of the mantissa is rounded *)
    left. assert (Hex : ex = emin) by (unfold s, e', fexp, emin, emax, prec in *; lia).
    assert (He' : e' = emin) by (unfold s, e', fexp, emin, emax, prec in *; lia).
    rewrite Hm', E51 in Hdiv.
    assert (Hq : q = (Zpos mx / 2)%Z /\ r = (2 ^ 51 * (Zpos mx mod 2))%Z).
    { pose proof (Z_div_mod_eq_full (Zpos mx) 2%Z) as Hmx.
      pose proof (Z.mod_pos_bound (Zpos mx) 2%Z ltac:(lia)) as Hb.
      change (2 ^ 52)%Z with (2 * 2 ^ 51)%Z in *. set (P := (2 ^ 51)%Z) in *.
      assert (HP : (0 < P)%Z) by (unfold P; lia).
      assert (q = Zpos mx / 2)%Z; [|split; [assumption|]; nia]. nia. }
    destruct Hq as [-> ->]. split; [exact Hex|]. split; [exact He'|]. split; [reflexivity|].
    unfold new_location. change (Z.even (2 ^ 52)) with true. cbv iota.
    unfold new_location_even. rewrite Zmod_even. destruct (Z.even (Zpos mx)).
    + reflexivity.
    + reflexivity.
  - (* an exact quotient *)
    right. assert (Hex : ex <> emin) by (unfold s, e', fexp, emin, emax, prec in *; lia).
    split; [exact Hex|].
    assert (Hq : q = (Zpos mx * 2 ^ (s - 52))%Z /\ r = 0%Z).
    { rewrite Hm' in Hdiv. replace s with ((s - 52) + 52)%Z in Hdiv at 1 by lia.
      rewrite Z.pow_add_r in Hdiv by lia.
      set (P := (2 ^ 52)%Z) in *. assert (HP : (0 < P)%Z) by (unfold P; lia).
      assert (q = Zpos mx * 2 ^ (s - 52))%Z; [|split; [assumption|]; nia]. nia. }
    destruct Hq as [-> ->]. split; [reflexivity|].
    pose proof (pow2_pos (s - 52) ltac:(lia)) as Hp.
    split; [lia|]. split; [unfold e', fexp, emin, emax, prec in *; lia|]. split.
    + rewrite Zdigits2_shift by lia. cbn [Zdigits2]. fold d.
      unfold s, e', fexp, emin, emax, prec in *. lia.
    + rewrite <- Z.mul_assoc, <- Z.pow_add_r by (unfold s, e', fexp, emin, emax, prec in *; lia).
      f_equal. f_equal. unfold s. lia.
Qed.

(** Half of a finite number, by value. *)
Lemma half_valueOf x :
  Number.isFinite x = true ->
  Number.isNaN (x / 2) = false
  /\ valueOf (Prim2SF (x / 2)) = roundValue (valueOf (Prim2SF x) / 2).
Proof.
  intros Hfin. unfold Number.isNaN, Number.isFinite in *.
  rewrite FloatAxioms.div_spec, Prim2SF_2.
  destruct (Prim2SF x) as [s| | |s mx ex] eqn:Ex; try discriminate.
  - split; reflexivity.
  - destruct (canonical_of_Prim2SF x _ _ _ Ex) as [Hc Hb].
    pose proof (canonical_bounds _ _ Hc) as (Hd & Hemin & Hnorm).
    unfold SF64div, SFdiv. rewrite xorb_false_r.
    pose proof (SFdiv_core_by_2 mx ex Hc) as Hcore.
    destruct (SFdiv_core_binary prec emax (Zpos mx) ex 4503599627370496 (-51)) as [[q e'] l].
    assert (Hhalf : (valueOf (S754_finite s mx ex) / 2
                     = cond_Zopp s (Zpos mx * 2 ^ (ex + 2199)))%Z).
    { cbn [valueOf]. unfold signedFixedPoint, fixedPoint.
      replace (ex + 2200)%Z with (1 + (ex + 2199))%Z by lia.
      rewrite Z.pow_add_r by lia. change (2 ^ 1)%Z with 2%Z.
      pose proof (pow2_pos (ex + 2199) ltac:(lia)) as Hp.
      destruct s; cbn [cond_Zopp].
      - replace (- (Zpos mx * (2 * 2 ^ (ex + 2199))))%Z
          with ((- (Zpos mx * 2 ^ (ex + 2199))) * 2)%Z by lia.
        apply Z.div_mul. lia.
      - replace (Zpos mx * (2 * 2 ^ (ex + 2199)))%Z
          with ((Zpos mx * 2 ^ (ex + 2199)) * 2)%Z by lia.
        apply Z.div_mul. lia. }
    rewrite Hhalf.
    assert (Hround : forall v, (0 < v)%Z -> roundValue (cond_Zopp s v) = cond_Zopp s (nearestValue v)).
    { intros v Hv. destruct s; cbn [cond_Zopp].
      - rewrite roundValue_opp. unfold roundValue. destruct (Z.ltb_spec v 0); [lia|reflexivity].
      - unfold roundValue. destruct (Z.ltb_spec v 0); [lia|reflexivity]. }
    rewrite Hround by (pose proof (pow2_pos (ex + 2199) ltac:(lia)); lia).
    destruct Hcore as [(Hex & -> & -> & ->)|(Hex & -> & Hq & He' & Hal & Hv)].
    + (* the last bit is rounded *)
      assert (Hd53 : (Zpos (digits2_pos mx) <= 53)%Z) by lia.
      destruct (digits2_pos_bounds mx) as [_ Hu].
      assert (Hmx : (Zpos mx < 2 ^ 53)%Z).
      { eapply Z.lt_le_trans; [exact Hu|]. apply Z.pow_le_mono_r; lia. }
      assert (Hq0 : (0 <= Zpos mx / 2)%Z) by (apply Z.div_pos; lia).
      assert (Hq53 : (Zpos mx / 2 < 2 ^ 52)%Z) by (apply Z.div_lt_upper_bound; lia).
      assert (E : binary_round_aux prec emax s (Zpos mx / 2) emin
                    (if Z.even (Zpos mx) then loc_Exact else loc_Inexact Eq)
                  = encode s (nearestEven (Zpos mx) 1) emin).
      { unfold binary_round_aux, encode.
        assert (Hn : (fexp prec emax (Zdigits2 (Zpos mx / 2) + emin) - emin = 0)%Z).
        { assert (Zdigits2 (Zpos mx / 2) <= 52)%Z.
          { destruct (Z.eq_dec (Zpos mx / 2)%Z 0%Z) as [->|Hne]; [simpl; lia|].
            destruct (Zdigits2_bounds (Zpos mx / 2) ltac:(lia)) as [Hl' _].
            destruct (Z_le_gt_dec (Zdigits2 (Zpos mx / 2)) 52) as [|Hgt]; [assumption|exfalso].
            assert (2 ^ 52 <= 2 ^ (Zdigits2 (Zpos mx / 2) - 1))%Z
              by (apply Z.pow_le_mono_r; lia).
            lia. }
          unfold fexp, emin, emax, prec in *. lia. }
        unfold shr_fexp at 1. rewrite Hn. unfold shr.
        assert (Hr : round_nearest_even
                       (shr_m (shr_record_of_loc (Zpos mx / 2)
                                 (if Z.even (Zpos mx) then loc_Exact else loc_Inexact Eq)))
                       (loc_of_shr_record
                          (shr_record_of_loc (Zpos mx / 2)
                             (if Z.even (Zpos mx) then loc_Exact else loc_Inexact Eq)))
                     = nearestEven (Zpos mx) 1).
        { unfold nearestEven. change (2 ^ 1)%Z with 2%Z. rewrite Zmod_even.
          destruct (Z.even (Zpos mx)); reflexivity. }
        rewrite Hr. reflexivity. }
      rewrite Hex in *. rewrite E.
      assert (Hfits : fits (nearestEven (Zpos mx) 1) emin).
      { pose proof (nearestEven_bounds (Zpos mx) 1%Z) as [Hb1 Hb2].
        change (2 ^ 1)%Z with 2%Z in Hb1, Hb2.
        split; [lia|]. split; [lia|left; reflexivity]. }
      split.
      * pose proof (encode_wellFormed s _ _ Hfits) as Hw.
        destruct (encode s (nearestEven (Zpos mx) 1) emin); simpl in Hw; tauto.
      * rewrite encode_valueOf by exact Hfits. f_equal.
        replace (emin + 2199)%Z with ((emin - 1) + 2200)%Z by lia.
        rewrite nearestValue_scaled; [|lia|unfold emin, emax, prec; lia|].
        -- cbn [Zdigits2].
           assert (Hf : fexp prec emax (Zpos (digits2_pos mx) + (emin - 1)) = emin)
             by (unfold fexp, emin, emax, prec in *; lia).
           rewrite Hf. replace (emin - (emin - 1))%Z with 1%Z by lia. reflexivity.
        -- cbn [Zdigits2]. unfold fexp, emin, emax, prec in *. lia.
    + (* the quotient is exact *)
      destruct (binary_round_aux_valueOf s q e' Hq ltac:(unfold emin, emax, prec in *; lia) Hal)
        as [Hw Hval].
      split.
      * destruct (binary_round_aux prec emax s q e' loc_Exact); simpl in Hw; tauto.
      * rewrite Hval, Hv. reflexivity.
Qed.

(** ** Doubling a number *)

(** Twice the value of a finite number is the value of a number, below
    the overflow. *)
Lemma roundValue_double x :
  Number.isFinite x = true ->
  (- top < 2 * valueOf (Prim2SF x) < top)%Z ->
  roundValue (2 * valueOf (Prim2SF x)) = (2 * valueOf (Prim2SF x))%Z.
Proof.
  intros Hfin. unfold Number.isFinite in Hfin.
  destruct (Prim2SF x) as [s| | |s m e] eqn:Ex; try discriminate; [reflexivity|].
  destruct (canonical_of_Prim2SF x _ _ _ Ex) as [Hc Hb].
  pose proof (canonical_bounds _ _ Hc) as (Hd & Hemin & Hnorm).
  pose proof (fixedPoint_pos m e Hc) as Hpos.
  cbn [valueOf]. unfold signedFixedPoint. intros Htop.
  assert (Hfp : (2 * fixedPoint m e < top)%Z) by (destruct s; cbn [cond_Zopp] in Htop; lia).
  assert (Hfix : nearestValue (2 * fixedPoint m e) = (2 * fixedPoint m e)%Z).
  { destruct (Z.eq_dec (Zpos (digits2_pos m)) 53%Z) as [E53|N53].
    - (* one exponent up *)
      assert (Hv : (2 * fixedPoint m e = fixedPoint m (e + 1))%Z).
      { unfold fixedPoint. replace (e + 1 + 2200)%Z with (1 + (e + 2200))%Z by lia.
        rewrite (Z.pow_add_r 2 1 (e + 2200)) by lia. change (2 ^ 1)%Z with 2%Z. lia. }
      rewrite Hv. apply nearestValue_fixed.
      + unfold canonical. rewrite E53. unfold fexp, emin, emax, prec in *. lia.
      + pose proof (fixedPoint_magnitude m e ltac:(lia)) as Hmag. rewrite E53 in Hmag.
        unfold top in Hfp.
        destruct (Z_le_gt_dec (e + 1) (emax - prec)) as [|Hgt]; [assumption|exfalso].
        assert (2 ^ (emax + 2200) <= 2 * 2 ^ (53 + e + 2199))%Z.
        { rewrite <- Z.pow_succ_r by lia. apply Z.pow_le_mono_r; unfold emax, prec in *; lia. }
        lia.
    - (* a mantissa with a digit more, at the least exponent *)
      assert (He : e = emin) by (unfold emin, emax, prec in *; lia).
      assert (Hv : (2 * fixedPoint m e = fixedPoint (xO m) e)%Z).
      { unfold fixedPoint. rewrite Pos2Z.inj_xO. lia. }
      rewrite Hv. apply nearestValue_fixed.
      + unfold canonical. cbn [digits2_pos]. rewrite Pos2Z.inj_succ.
        unfold fexp, emin, emax, prec in *. lia.
      + unfold emin, emax, prec in *. lia. }
  destruct s; cbn [cond_Zopp].
  - replace (2 * - fixedPoint m e)%Z with (- (2 * fixedPoint m e))%Z by lia.
    rewrite roundValue_opp. unfold roundValue.
    destruct (Z.ltb_spec (2 * fixedPoint m e) 0); [lia|]. rewrite Hfix. reflexivity.
  - unfold roundValue. destruct (Z.ltb_spec (2 * fixedPoint m e) 0); [lia|]. exact Hfix.
Qed.

(** ** The midpoint of two numbers *)

Lemma half_finite_inv x : Number.isFinite (x / 2) = true -> Number.isFinite x = true.
Proof.
  unfold Number.isFinite. rewrite FloatAxioms.div_spec, Prim2SF_2.
  destruct (Prim2SF x) as [s|s| |s m e]; try reflexivity; discriminate.
Qed.

Lemma add_finite_inv x y :
  Number.isFinite (x + y) = true ->
  Number.isFinite x = true /\ Number.isFinite y = true.
Proof.
  unfold Number.isFinite. rewrite FloatAxioms.add_spec.
  destruct (Prim2SF x) as [sx|[]| |sx mx ex], (Prim2SF y) as [sy|[]| |sy my ey];
    cbn [SF64add SFadd]; try discriminate; intros _; split; reflexivity.
Qed.

Lemma finite_value_below_top x :
  Number.isFinite x = true -> (- top < valueOf (Prim2SF x) < top)%Z.
Proof.
  intros Hfin. pose proof top_pos. unfold Number.isFinite in Hfin.
  destruct (Prim2SF x) as [s| | |s m e] eqn:Ex; try discriminate; cbn [valueOf]; [lia|].
  pose proof (finite_value_bounds s m e (canonical_of_Prim2SF x _ _ _ Ex)).
  unfold signedFixedPoint. destruct s; cbn [cond_Zopp]; lia.
Qed.

Lemma roundValue_top : roundValue top = top /\ roundValue (- top) = (- top)%Z.
Proof.
  split.
  - exact (roundValue_fixed (S754_infinity false) I).
  - exact (roundValue_fixed (S754_infinity true) I).
Qed.

(** The value of the midpoint lies between the values, in order. *)
Lemma midpoint_value a b :
  Number.isFinite a = true -> Number.isFinite b = true ->
  Number.isFinite (a + b) = true ->
  (valueOf (Prim2SF a) <= valueOf (Prim2SF b))%Z ->
  (valueOf (Prim2SF a) <= valueOf (Prim2SF ((a + b) / 2)) <= valueOf (Prim2SF b))%Z.
Proof.
  intros Ha Hb Hsum Hle.
  destruct (add_valueOf a b Ha Hb) as [_ Hs].
  destruct (half_valueOf (a + b) Hsum) as [_ Hm].
  pose proof (finite_value_below_top (a + b) Hsum) as Hbound.
  destruct roundValue_top as [Rt Rb].
  set (va := valueOf (Prim2SF a)) in *. set (vb := valueOf (Prim2SF b)) in *.
  set (S := valueOf (Prim2SF (a + b))) in *.
  assert (Hup : (S <= 2 * vb)%Z).
  { destruct (Z_lt_le_dec (2 * vb) top) as [Hlt|Hge]; [|lia].
    destruct (Z_lt_le_dec (- top) (2 * vb)) as [Hgt|Hlow].
    - pose proof (roundValue_double b Hb (conj Hgt Hlt)) as Hd. fold vb in Hd.
      rewrite Hs, <- Hd. apply roundValue_mono. lia.
    - exfalso. assert (roundValue (va + vb) <= roundValue (- top))%Z
        by (apply roundValue_mono; lia). lia. }
  assert (Hlo : (2 * va <= S)%Z).
  { destruct (Z_lt_le_dec (- top) (2 * va)) as [Hgt|Hlow]; [|lia].
    destruct (Z_lt_le_dec (2 * va) top) as [Hlt|Hge].
    - pose proof (roundValue_double a Ha (conj Hgt Hlt)) as Hd. fold va in Hd.
      rewrite Hs, <- Hd. apply roundValue_mono. lia.
    - exfalso. assert (roundValue top <= roundValue (va + vb))%Z
        by (apply roundValue_mono; lia). lia. }
  pose proof (roundValue_fixed (Prim2SF a) (isFinite_wellFormed a Ha)) as Fa.
  pose proof (roundValue_fixed (Prim2SF b) (isFinite_wellFormed b Hb)) as Fb.
  fold va in Fa. fold vb in Fb. rewrite Hm. split.
  - rewrite <- Fa. apply roundValue_mono. apply Z.div_le_lower_bound; lia.
  - rewrite <- Fb. apply roundValue_mono. apply Z.div_le_upper_bound; lia.
Qed.

Lemma add_comm x y : x + y = y + x.
Proof.
  apply Prim2SF_inj. rewrite !FloatAxioms.add_spec. unfold SF64add, SFadd.
  destruct (Prim2SF x) as [[]|[]| |sx mx ex], (Prim2SF y) as [[]|[]| |sy my ey];
    try reflexivity.
  cbv zeta. rewrite (Z.min_comm ey ex), (Z.add_comm (cond_Zopp sy _)). reflexivity.
Qed.

(** The midpoint of two numbers, when it is finite, lies between them. *)
Lemma midpoint_between a b :
  Number.isFinite ((a + b) / 2) = true -> liesBetween a ((a + b) / 2) b.
Proof.
  intros Hfin. pose proof (half_finite_inv _ Hfin) as Hsum.
  destruct (add_finite_inv a b Hsum) as [Ha Hb].
  pose proof (isFinite_not_NaN _ Ha) as Hna. pose proof (isFinite_not_NaN _ Hb) as Hnb.
  pose proof (isFinite_not_NaN _ Hfin) as Hnm.
  destruct (Z_le_gt_dec (valueOf (Prim2SF a)) (valueOf (Prim2SF b))) as [Hle|Hgt].
  - left. destruct (midpoint_value a b Ha Hb Hsum Hle) as [H1 H2].
    split; apply leb_valueOf; assumption.
  - right. rewrite (add_comm a b) in *.
    destruct (midpoint_value b a Hb Ha Hsum ltac:(lia)) as [H1 H2].
    split; apply leb_valueOf; assumption.
Qed.

(** ** The segments of a track *)

Lemma trackSegments_elem n points : forall i0 sg,
  sg ∈ trackSegments n i0 points -> exists a b i s, sg = makeSegment a b i n s.
Proof.
  induction points as [|p rest IH]; intros i0 sg H; [apply elem_of_nil in H; destruct H|].
  destruct rest as [|q rest']; [apply elem_of_nil in H; destruct H|].
  change (trackSegments n i0 (p :: q :: rest'))
    with (pairSegments p q i0 n ++ trackSegments n (S i0) (q :: rest')) in H.
  apply elem_of_app in H. destruct H as [H|H].
  - apply list_elem_of_lookup in H. destruct H as [k Hk].
    assert (Hlt : (k < n)%nat).
    { apply lookup_lt_Some in Hk. rewrite pairSegments_length in Hk. exact Hk. }
    rewrite pairSegments_lookup in Hk by exact Hlt. injection Hk as <-. eauto.
  - exact (IH _ _ H).
Qed.

(** X25: the speed and the timestamp of a segment, which are the midpoints
    of its end values, lie between them: a finite [speed] is between
    [speed0] and [speed1], and a finite [timestamp] between [time0] and
    [time1], whichever end is the smaller. *)
Theorem segment_midpoints_lie_between_ends (points : list Point.t)
    (options : BuildSegmentsOptions.t) (o : Obj Segment.t) :
  o ∈ BuildResult.segments (buildSegments points options) ->
  (Number.isFinite (Segment.speed (val o)) = true ->
   liesBetween (Segment.speed0 (val o)) (Segment.speed (val o)) (Segment.speed1 (val o)))
  /\ (Number.isFinite (Segment.timestamp (val o)) = true ->
      liesBetween (Segment.time0 (val o)) (Segment.timestamp (val o)) (Segment.time1 (val o))).
Proof.
  intros Ho.
  assert (Hlen : (2 <= length points)%nat).
  { destruct (Nat.lt_ge_cases (length points) 2) as [Hlt|Hge]; [|exact Hge].
    unfold buildSegments in Ho. apply Nat.ltb_lt in Hlt. rewrite Hlt in Ho.
    apply elem_of_nil in Ho. destruct Ho. }
  pose proof (buildSegments_segments points options Hlen) as Hsegs.
  assert (Hin : val o ∈ trackSegments (BuildSegmentsOptions.subdivisions options) 0 points).
  { rewrite <- Hsegs. change (map val ?l) with (val <$> l).
    apply list_elem_of_fmap. exists o. split; [reflexivity|exact Ho]. }
  destruct (trackSegments_elem _ _ _ _ Hin) as (a & b & i & s & ->).
  unfold makeSegment. cbn [Segment.speed Segment.speed0 Segment.speed1
                           Segment.timestamp Segment.time0 Segment.time1].
  split; intros Hfin; apply midpoint_between, Hfin.
Qed.

Lemma segment_midpoints_lie_between_ends_witness :
  liesBetween (Segment.speed0 (val secondHalf)) (Segment.speed (val secondHalf))
    (Segment.speed1 (val secondHalf))
  /\ liesBetween (Segment.time0 (val secondHalf)) (Segment.timestamp (val secondHalf))
       (Segment.time1 (val secondHalf)).
Proof.
  destruct (segment_midpoints_lie_between_ends twoSamples (plainOptions 2) secondHalf)
    as [Hs Ht].
  - apply list_elem_of_lookup. exists 1%nat. reflexivity.
  - split; [apply Hs|apply Ht]; reflexivity.
Defined.

(** ** The centre of the view *)

Lemma attained_step (A : Type) (seen : list A) (p : A) (f : A -> float) (old init : float)
    (test : bool) :
  (old = init \/ exists q, q ∈ seen /\ old = f q) ->
  (if test then f p else old) = init
  \/ exists q, q ∈ seen ++ [p] /\ (if test then f p else old) = f q.
Proof.
  intros H. destruct test.
  - right. exists p. split; [|reflexivity].
    apply elem_of_app. right. apply list_elem_of_singleton. reflexivity.
  - destruct H as [H|(q & Hq & E)]; [left; exact H|right].
    exists q. split; [apply elem_of_app; left; exact Hq|exact E].
Qed.

Lemma boxAttained_step seen bb p :
  boxAttained seen bb -> boxAttained (seen ++ [p]) (bboxStep bb p).
Proof.
  intros (H1 & H2 & H3 & H4). unfold boxAttained, bboxStep. cbn [minLon maxLon minLat maxLat].
  split; [|split; [|split]].
  - exact (attained_step _ seen p Point.lon _ _ _ H1).
  - exact (attained_step _ seen p Point.lon _ _ _ H2).
  - exact (attained_step _ seen p Point.lat _ _ _ H3).
  - exact (attained_step _ seen p Point.lat _ _ _ H4).
Qed.

Lemma boxAttained_fold points : forall seen bb,
  boxAttained seen bb -> boxAttained (seen ++ points) (fold_left bboxStep points bb).
Proof.
  induction points as [|p points IH]; intros seen bb H; simpl.
  - rewrite app_nil_r. exact H.
  - replace (seen ++ p :: points) with ((seen ++ [p]) ++ points)
      by (rewrite <- app_assoc; reflexivity).
    apply IH, boxAttained_step, H.
Qed.

Lemma boxAttained_boundingBox points : boxAttained points (boundingBox points).
Proof.
  apply (boxAttained_fold points [] (mkBBox infinity neg_infinity infinity neg_infinity)).
  repeat split; left; reflexivity.
Qed.

(** A finite midpoint of two bounds that samples attain lies between two
    samples. *)
Lemma centre_between_samples (points : list Point.t) (f : Point.t -> float) lo hi :
  (lo = infinity \/ exists p, p ∈ points /\ lo = f p) ->
  (hi = neg_infinity \/ exists p, p ∈ points /\ hi = f p) ->
  Number.isFinite ((lo + hi) / 2) = true ->
  exists p q, p ∈ points /\ q ∈ points
    /\ (f p <=? (lo + hi) / 2) = true /\ ((lo + hi) / 2 <=? f q) = true.
Proof.
  intros Hlo Hhi Hfin.
  destruct (add_finite_inv lo hi (half_finite_inv _ Hfin)) as [Fl Fh].
  destruct Hlo as [->|(p & Hp & El)]; [discriminate Fl|].
  destruct Hhi as [->|(q & Hq & Eh)]; [discriminate Fh|].
  destruct (midpoint_between lo hi Hfin) as [[H1 H2]|[H1 H2]].
  - exists p, q. rewrite <- El, <- Eh. repeat split; assumption.
  - exists q, p. rewrite <- El, <- Eh. repeat split; assumption.
Qed.

(** X26: the initial view of a build over at least two samples is centred
    within the extent of the track: a finite longitude of the view lies
    between the longitudes of two samples, and a finite latitude between
    the latitudes of two samples. *)
Theorem view_centre_lies_within_the_track (points : list Point.t)
    (options : BuildSegmentsOptions.t) :
  let view := BuildResult.initialViewState (buildSegments points options) in
  (2 <= length points)%nat ->
  (Number.isFinite (ViewState.longitude view) = true ->
   exists p q, p ∈ points /\ q ∈ points
     /\ (Point.lon p <=? ViewState.longitude view) = true
     /\ (ViewState.longitude view <=? Point.lon q) = true)
  /\ (Number.isFinite (ViewState.latitude view) = true ->
      exists p q, p ∈ points /\ q ∈ points
        /\ (Point.lat p <=? ViewState.latitude view) = true
        /\ (ViewState.latitude view <=? Point.lat q) = true).
Proof.
  intros view Hlen. subst view. unfold buildSegments.
  destruct (Nat.ltb_spec (length points) 2) as [Hlt|_]; [lia|].
  cbn [BuildResult.initialViewState]. unfold viewOf.
  cbn [ViewState.longitude ViewState.latitude].
  destruct (boxAttained_boundingBox points) as (H1 & H2 & H3 & H4).
  split; intros Hfin.
  - exact (centre_between_samples points Point.lon _ _ H1 H2 Hfin).
  - exact (centre_between_samples points Point.lat _ _ H3 H4 Hfin).
Qed.

Lemma view_centre_lies_within_the_track_witness :
  exists p q, p ∈ twoSamples /\ q ∈ twoSamples
    /\ (Point.lon p
        <=? ViewState.longitude
              (BuildResult.initialViewState (buildSegments twoSamples (plainOptions 2)))) = true
    /\ (ViewState.longitude
          (BuildResult.initialViewState (buildSegments twoSamples (plainOptions 2)))
        <=? Point.lon q) = true.
Proof.
  destruct (view_centre_lies_within_the_track twoSamples (plainOptions 2)) as [H _].
  - simpl. lia.
  - apply H. reflexivity.
Defined.

(** * The build without subdivisions *)

(** The bounds of the bounding box are the extremes of the samples. *)
Lemma boundingBox_extremes points :
  leastOf Point.lon points (minLon (boundingBox points))
  /\ greatestOf Point.lon points (maxLon (boundingBox points))
  /\ leastOf Point.lat points (minLat (boundingBox points))
  /\ greatestOf Point.lat points (maxLat (boundingBox points)).
Proof.
  destruct (boxInv_boundingBox points) as (_ & _ & _ & _ & Hin).
  destruct (boxAttained_boundingBox points) as (H1 & H2 & H3 & H4).
  unfold leastOf, greatestOf.
  split; [|split; [|split]]; (split; [|assumption]); intros p Hp Hn;
    destruct (Hin p Hp) as [Hlon Hlat].
  - exact (proj1 (Hlon Hn)).
  - exact (proj2 (Hlon Hn)).
  - exact (proj1 (Hlat Hn)).
  - exact (proj2 (Hlat Hn)).
Qed.

(** C10: over at least two samples and with [subdivisions = 0] the builder
    returns no segment, an empty index, and the speed range 0 to 1 unless
    overridden.  Its view is computed from the bounding box of the samples:
    the bounds of the box are the least and the greatest longitude and
    latitude of the samples, the view is centred on the middle of the bounds,
    and its zoom is the one the ladder of thresholds gives to the larger of
    the two spans; it is never the view of the degenerate case (its zoom is
    not 2). *)
Theorem buildSegments_zero_subdivisions (points : list Point.t)
    (options : BuildSegmentsOptions.t) :
  (2 <= length points)%nat ->
  BuildSegmentsOptions.subdivisions options = 0%nat ->
  let result := buildSegments points options in
  let bb := boundingBox points in
  let span := Math.max (maxLon bb - minLon bb) (maxLat bb - minLat bb) in
  BuildResult.segments result = []
  /\ BuildResult.minSpeed result = default 0 (BuildSegmentsOptions.minSpeedOverride options)
  /\ BuildResult.maxSpeed result = default 1 (BuildSegmentsOptions.maxSpeedOverride options)
  /\ BuildResult.gridIndex result = ∅
  /\ BuildResult.gridSize result = 0.02
  /\ leastOf Point.lon points (minLon bb)
  /\ greatestOf Point.lon points (maxLon bb)
  /\ leastOf Point.lat points (minLat bb)
  /\ greatestOf Point.lat points (maxLat bb)
  /\ BuildResult.initialViewState result
     = {| ViewState.longitude := (minLon bb + maxLon bb) / 2;
          ViewState.latitude := (minLat bb + maxLat bb) / 2;
          ViewState.zoom :=
            if span <? 0.025 then 10
            else if span <? 0.05 then 9
            else if span <? 0.1 then 8
            else if span <? 0.2 then 7
            else if span <? 0.4 then 6
            else if span <? 0.8 then 5
            else 3;
          ViewState.pitch := 0; ViewState.bearing := 0 |}
  /\ BuildResult.initialViewState result <> ViewState.mk 0 0 2 0 0.
Proof.
  intros Hlen Hn result bb span.
  assert (Hb : result
    = {| BuildResult.segments := [];
         BuildResult.minSpeed := default 0 (BuildSegmentsOptions.minSpeedOverride options);
         BuildResult.maxSpeed := default 1 (BuildSegmentsOptions.maxSpeedOverride options);
         BuildResult.initialViewState := viewOf points;
         BuildResult.gridIndex := ∅;
         BuildResult.gridSize := 0.02 |}).
  { unfold result, buildSegments.
    destruct (Nat.ltb_spec (length points) 2) as [Hlt|_]; [lia|].
    rewrite Hn, pairsLoop_no_subdivision. reflexivity. }
  rewrite Hb. cbn [BuildResult.segments BuildResult.minSpeed BuildResult.maxSpeed
                   BuildResult.gridIndex BuildResult.gridSize BuildResult.initialViewState].
  repeat (split; [reflexivity|]).
  destruct (boundingBox_extremes points) as (H1 & H2 & H3 & H4).
  repeat (split; [assumption|]). split; [reflexivity|].
  intros H. apply (f_equal ViewState.zoom) in H. simpl in H.
  exact (zoomFor_not_2 _ H).
Qed.

Lemma buildSegments_zero_subdivisions_witness :
  BuildResult.segments (buildSegments twoSamples (plainOptions 0)) = []
  /\ BuildResult.minSpeed (buildSegments twoSamples (plainOptions 0)) = 0
  /\ BuildResult.maxSpeed (buildSegments twoSamples (plainOptions 0)) = 1
  /\ BuildResult.gridIndex (buildSegments twoSamples (plainOptions 0)) = ∅
  /\ BuildResult.gridSize (buildSegments twoSamples (plainOptions 0)) = 0.02
  /\ leastOf Point.lon twoSamples 0
  /\ greatestOf Point.lon twoSamples 1
  /\ leastOf Point.lat twoSamples 0
  /\ greatestOf Point.lat twoSamples 0
  /\ BuildResult.initialViewState (buildSegments twoSamples (plainOptions 0))
     = ViewState.mk 0.5 0 3 0 0
  /\ BuildResult.initialViewState (buildSegments twoSamples (plainOptions 0))
     <> ViewState.mk 0 0 2 0 0.
Proof.
  apply (buildSegments_zero_subdivisions twoSamples (plainOptions 0));
    [simpl; lia|reflexivity].
Defined.

(** * Worked examples

    The scenarios of the specification, evaluated on the model. *)

Example build_two_samples :
  map val (BuildResult.segments (buildSegments twoSamples (plainOptions 2)))
  = [ {| Segment.id := "0-0"; Segment.path := ((0, 0), (0.5, 0));
         Segment.speed := 2.5; Segment.timestamp := 250;
         Segment.speed0 := 0; Segment.speed1 := 5;
         Segment.time0 := 0; Segment.time1 := 500 |};
      {| Segment.id := "0-1"; Segment.path := ((0.5, 0), (1, 0));
         Segment.speed := 7.5; Segment.timestamp := 750;
         Segment.speed0 := 5; Segment.speed1 := 10;
         Segment.time0 := 500; Segment.time1 := 1000 |} ].
Proof. reflexivity. Qed.

Example build_two_samples_range :
  BuildResult.minSpeed (buildSegments twoSamples (plainOptions 2)) = 2.5
  /\ BuildResult.maxSpeed (buildSegments twoSamples (plainOptions 2)) = 7.5
  /\ BuildResult.initialViewState (buildSegments twoSamples (plainOptions 2))
     = ViewState.mk 0.5 0 3 0 0
  /\ BuildResult.gridSize (buildSegments twoSamples (plainOptions 2)) = 0.02.
Proof. repeat split. Qed.

Example nearest_on_the_track :
  findNearestPointOnTrack cosOne 0.5 0
    (BuildResult.segments (buildSegments twoSamples (plainOptions 2))) None None
  = Some (NearestResult.mk 0.5 0 5 500 0).
Proof. reflexivity. Qed.

Example scale_midpoint :
  createSpeedColorScale 0 100 blackToWhite 50 = Some (128, 128, 128, 255).
Proof. reflexivity. Qed.

Example scale_not_a_number :
  createSpeedColorScale 0 100 blackToWhite nan = Some (128, 128, 128, 255).
Proof. reflexivity. Qed.

Example default_stops :
  stopsOf [] = [(0, 170, 0); (255, 255, 0); (255, 165, 0); (255, 0, 0)].
Proof. reflexivity. Qed.

Example short_colour : parseColor (ColorString " #FfF ") = (255, 255, 255).
Proof. reflexivity. Qed.

Example zoom_of_one_degree : zoomFor 1 = 3.
Proof. reflexivity. Qed.
